(** * git-deploy: a shallow embedding of the deployer and its inventory engine

    The development follows [deploy.go] (the batch orchestrator, the CSV
    inventory selection and update, the cleanup of the hydrated directory and
    the renderer invocation) and [runCmd].

    Conventions.
    - Go strings are byte strings ([string]); Go [int] is a 64-bit integer
      kept in [Z] with its wrap-around written out ([wrap64]).
    - A Go function returning [(T, error)] returns a [res T]: [Ok], [Err]
      or, for a run-time panic, [Panic].
    - Code that touches the outside world runs in the monad [M], a state
      monad over the file system, the external state of the collaborators
      and the trace of the calls made so far.
    - Collaborators whose code is outside of the repository (Secret Manager,
      the git binary, the renderer process, the pull-request provider, the
      upload helpers, the CSV codec) are fields of [Collaborators].
    - Progress messages written with [fmt.Printf] are left out, except the
      per-batch line, kept as the event [EvProcessingBatch]. *)

From Stdlib Require Import ZArith Lia String Ascii List Bool.
From stdpp Require Import base option list gmap strings pretty.

Local Open Scope string_scope.
Local Open Scope list_scope.
Local Open Scope Z_scope.

(** ** Byte strings *)

Module Strings.

Definition DQUOTE : ascii := "034"%char.
Definition SLASH : ascii := "/"%char.
Definition COMMA : ascii := ","%char.

  (** [strings.Split(s, sep)] for a separator of one byte. *)
Fixpoint Split (sep : ascii) (s : string) : list string :=
    match s with
    | EmptyString => [EmptyString]
    | String a s' =>
        if Ascii.eqb a sep then EmptyString :: Split sep s'
        else match Split sep s' with
             | [] => [String a EmptyString]
             | h :: t => String a h :: t
             end
    end.

  (** [strings.Join(elems, sep)]. *)
Fixpoint Join (elems : list string) (sep : string) : string :=
    match elems with
    | [] => EmptyString
    | [e] => e
    | e :: rest => e +:+ sep +:+ Join rest sep
    end.

Fixpoint in_cutset (c : ascii) (cutset : string) : bool :=
    match cutset with
    | EmptyString => false
    | String a r => Ascii.eqb a c || in_cutset c r
    end.

Fixpoint TrimLeft (s cutset : string) : string :=
    match s with
    | EmptyString => EmptyString
    | String a s' => if in_cutset a cutset then TrimLeft s' cutset else s
    end.

Fixpoint TrimRight (s cutset : string) : string :=
    match s with
    | EmptyString => EmptyString
    | String a s' =>
        match TrimRight s' cutset with
        | EmptyString => if in_cutset a cutset then EmptyString else String a EmptyString
        | r => String a r
        end
    end.

  (** [strings.Trim(s, cutset)] for a cutset of ASCII bytes. *)
Definition Trim (s cutset : string) : string :=
    TrimLeft (TrimRight s cutset) cutset.

Fixpoint has_byte (c : ascii) (s : string) : bool :=
    match s with
    | EmptyString => false
    | String a r => Ascii.eqb a c || has_byte c r
    end.

  (** [slices.Contains] on strings. *)
Definition Contains (l : list string) (x : string) : bool :=
    existsb (String.eqb x) l.

  (** [strconv.Quote] on a string of printable ASCII bytes without quote
      or backslash, and [%q] on a slice of such strings. *)
Definition Quote (s : string) : string :=
    String DQUOTE s +:+ String DQUOTE EmptyString.

Definition QuoteSlice (l : list string) : string :=
    "[" +:+ Join (map Quote l) " " +:+ "]".

End Strings.

(** ** Results of Go calls *)

Inductive error :=
| ErrMsg (msg : string)
| FieldsNotFoundError (Fields : list string).

(** The [Error] method: of [FieldsNotFoundError], and of a plain error. *)
Definition Error (e : error) : string :=
  match e with
  | ErrMsg msg => msg
  | FieldsNotFoundError fs =>
      "fields " +:+ Strings.QuoteSlice fs +:+ " not found in header"
  end.

(** [fmt.Errorf(prefix + "%v", err)]. *)
Definition Errorf (prefix : string) (e : error) : error :=
  ErrMsg (prefix +:+ Error e).

Inductive panic :=
| index_out_of_range
| slice_bounds_out_of_range
| nil_pointer_dereference
| fuel_exhausted.

Inductive res (A : Type) :=
| Ok (a : A)
| Err (e : error)
| Panic (p : panic).
Arguments Ok {A} a.
Arguments Err {A} e.
Arguments Panic {A} p.

Definition rbind {A B} (r : res A) (k : A -> res B) : res B :=
  match r with
  | Ok a => k a
  | Err e => Err e
  | Panic p => Panic p
  end.

Notation "'let?' x := r 'in' k" := (rbind r (fun x => k))
  (at level 10, x pattern, r at level 100, k at level 200).

(** [l[i]] on a slice: a panic out of range. *)
Definition index {A} (l : list A) (i : nat) : res A :=
  match l !! i with
  | Some x => Ok x
  | None => Panic index_out_of_range
  end.

(** ** The inventory: selection and update on parsed CSV records *)

Module Inventory.

Import Strings.

Abbreviation record := (list string).

  (** The inner loop of [findFieldIndices]: first position of [field]. *)
Fixpoint indexOf (header : record) (field : string) (i : nat) : option nat :=
    match header with
    | [] => None
    | h :: t => if String.eqb h field then Some i else indexOf t field (S i)
    end.

Definition findFieldIndices_step (header : record)
      (acc : gmap string nat * list string) (field : string)
      : gmap string nat * list string :=
    let '(indices, missingFields) := acc in
    match indexOf header field 0 with
    | Some i => (<[field := i]> indices, missingFields)
    | None => (indices, missingFields ++ [field])
    end.

Definition findFieldIndices (header : record) (fields : list string)
      : res (gmap string nat) :=
    if (length header =? 0)%nat then Err (FieldsNotFoundError fields)
    else
      let '(indices, missingFields) :=
        fold_left (findFieldIndices_step header) fields (∅, []) in
      if (0 <? length missingFields)%nat
      then Err (FieldsNotFoundError missingFields)
      else Ok indices.

  (** [m[k]] on a Go map: the zero value when the key is absent. *)
Definition at_key (m : gmap string nat) (k : string) : nat :=
    default 0%nat (m !! k).

Definition matchesAnyTags (tags matchTags : list string) : bool :=
    if (length matchTags =? 0)%nat then false
    else existsb (fun tag => Contains matchTags tag) tags.

Definition matchesAllTags (tags matchTags : list string) : bool :=
    if (length matchTags =? 0)%nat then false
    else forallb (fun tag => Contains tags tag) matchTags.

  (** One iteration of the row loop of [determineClustersToUpdate]. *)
Definition selectRow (clusterNameIndex clusterGroupIndex clusterTagsIndex : nat)
      (clusterGroup : string) (matchAny matchAll : list string)
      (clustersToUpdate : list string) (rec : record) : res (list string) :=
    let? g := index rec clusterGroupIndex in
    if negb (String.eqb clusterGroup g) then Ok clustersToUpdate
    else
      let? clusterName := index rec clusterNameIndex in
      if (length matchAny =? 0)%nat && (length matchAll =? 0)%nat
      then Ok (clustersToUpdate ++ [clusterName])
      else
        let? cell := index rec clusterTagsIndex in
        let clusterTags := Split COMMA (Trim cell (String DQUOTE " ")) in
        if (0 <? length matchAny)%nat then
          if matchesAnyTags clusterTags matchAny
          then Ok (clustersToUpdate ++ [clusterName])
          else Ok clustersToUpdate
        else
          if matchesAllTags clusterTags matchAll
          then Ok (clustersToUpdate ++ [clusterName])
          else Ok clustersToUpdate.

Fixpoint selectRows (ni gi ti : nat) (clusterGroup : string)
      (matchAny matchAll : list string)
      (clustersToUpdate : list string) (rows : list record) : res (list string) :=
    match rows with
    | [] => Ok clustersToUpdate
    | rec :: rest =>
        let? acc := selectRow ni gi ti clusterGroup matchAny matchAll clustersToUpdate rec in
        selectRows ni gi ti clusterGroup matchAny matchAll acc rest
    end.

  (** [determineClustersToUpdate] from the point where [ReadAll] has
      returned [records]. *)
Definition selectClusters (records : list record) (clusterGroup : string)
      (matchAny matchAll : list string) : res (list string) :=
    let? header := index records 0 in
    let? fieldIndices :=
      findFieldIndices header ["cluster_name"; "cluster_group"; "cluster_tags"] in
    let clusterNameIndex := at_key fieldIndices "cluster_name" in
    let clusterGroupIndex := at_key fieldIndices "cluster_group" in
    let clusterTagsIndex := at_key fieldIndices "cluster_tags" in
    selectRows clusterNameIndex clusterGroupIndex clusterTagsIndex
      clusterGroup matchAny matchAll [] (drop 1 records).

  (** [record[i] = v]: a panic out of range. *)
Definition assign (rec : record) (i : nat) (v : string) : res record :=
    if (i <? length rec)%nat then Ok (<[i := v]> rec) else Panic index_out_of_range.

  (** The body of the write loop of
      [updatePlatformAndWorkloadRepositoryRevision], up to [writer.Write]. *)
Definition updateRecord (clusterNameIndex platformRevisionIndex workloadRevisionIndex : nat)
      (clusterNames : list string) (platformRevision workloadRevision : string)
      (rec : record) : res record :=
    let? name := index rec clusterNameIndex in
    let? rec1 :=
      (if Contains clusterNames name && (0 <? String.length platformRevision)%nat
       then assign rec platformRevisionIndex platformRevision
       else Ok rec) in
    let? name1 := index rec1 clusterNameIndex in
    if Contains clusterNames name1 && (0 <? String.length workloadRevision)%nat
    then assign rec1 workloadRevisionIndex workloadRevision
    else Ok rec1.

  (** The write loop: the records handed to the writer so far, and how the
      loop ended. *)
Fixpoint updateRecords (ni pi wi : nat) (clusterNames : list string)
      (platformRevision workloadRevision : string)
      (written : list record) (records : list record) : list record * res unit :=
    match records with
    | [] => (written, Ok tt)
    | rec :: rest =>
        match updateRecord ni pi wi clusterNames platformRevision workloadRevision rec with
        | Ok rec' =>
            updateRecords ni pi wi clusterNames platformRevision workloadRevision
              (written ++ [rec']) rest
        | Err e => (written, Err e)
        | Panic p => (written, Panic p)
        end
    end.

End Inventory.

(** ** Paths: [path/filepath] on a Unix system *)

Module Filepath.

Import Strings.

Definition rooted (path : string) : bool :=
    match path with
    | String a _ => Ascii.eqb a SLASH
    | EmptyString => false
    end.

  (** One path element in the loop of [filepath.Clean]; [out] is the
      output written so far, its last element first. *)
Definition clean_step (rooted : bool) (out : list string) (elem : string)
      : list string :=
    if String.eqb elem "" then out
    else if String.eqb elem "." then out
    else if String.eqb elem ".." then
      match out with
      | top :: below =>
          if String.eqb top ".." then (if rooted then out else ".." :: out)
          else below
      | [] => if rooted then [] else [".."]
      end
    else elem :: out.

Definition Clean (path : string) : string :=
    if String.eqb path "" then "."
    else
      let r := rooted path in
      let out := rev (fold_left (clean_step r) (Split SLASH path) []) in
      if r then String SLASH (Strings.Join out "/")
      else match out with
           | [] => "."
           | _ => Strings.Join out "/"
           end.

  (** What [Clean] keeps in its output: elements that are not empty, not
      [.], free of separators, and no [..] in a rooted path. *)
Definition clean_inv (r : bool) (out : list string) : Prop :=
    Forall (fun e => e ≠ "" ∧ e ≠ "." ∧ has_byte SLASH e = false) out ∧
    (r = true → ".." ∉ out).

  (** [filepath.Join] of two elements. *)
Definition Join (a b : string) : string :=
    if negb (String.eqb a "") then Clean (a +:+ "/" +:+ b)
    else if negb (String.eqb b "") then Clean b
    else "".

End Filepath.

(** ** The file system *)

Module FS.

Import Strings.

  (** A directory keeps its entries in the order [os.ReadDir] lists them
      (sorted by file name). *)
#[warnings="-register-all"]
Inductive node :=
  | File (data : string)
  | Dir (entries : list (string * node)).

Definition path := list string.

Definition isDir (n : node) : bool :=
    match n with Dir _ => true | File _ => false end.

Fixpoint assoc (name : string) (es : list (string * node)) : option node :=
    match es with
    | [] => None
    | (k, c) :: rest => if String.eqb k name then Some c else assoc name rest
    end.

Fixpoint replace_entry (name : string) (n : node) (es : list (string * node))
      : list (string * node) :=
    match es with
    | [] => []
    | (k, c) :: rest =>
        if String.eqb k name then (k, n) :: rest
        else (k, c) :: replace_entry name n rest
    end.

Fixpoint insert_entry (name : string) (n : node) (es : list (string * node))
      : list (string * node) :=
    match es with
    | [] => [(name, n)]
    | (k, c) :: rest =>
        if String.ltb name k then (name, n) :: (k, c) :: rest
        else (k, c) :: insert_entry name n rest
    end.

  (** The entry [name] becomes [n]: in place when it exists, and else at
      its place in the order of the names. *)
Definition put_entry (name : string) (n : node) (es : list (string * node))
      : list (string * node) :=
    match assoc name es with
    | Some _ => replace_entry name n es
    | None => insert_entry name n es
    end.

Fixpoint del_entry (name : string) (es : list (string * node))
      : list (string * node) :=
    match es with
    | [] => []
    | (k, c) :: rest =>
        if String.eqb k name then rest else (k, c) :: del_entry name rest
    end.

Fixpoint lookup (n : node) (p : path) : option node :=
    match p with
    | [] => Some n
    | name :: rest =>
        match n with
        | Dir es =>
            match assoc name es with
            | Some c => lookup c rest
            | None => None
            end
        | File _ => None
        end
    end.

  (** Replace ([Some]) or unlink ([None]) the node at [p]; nothing happens
      when the parent of [p] is not a directory of the tree. *)
Fixpoint set_at (p : path) (v : option node) (n : node) : node :=
    match p with
    | [] => match v with Some n' => n' | None => n end
    | name :: rest =>
        match n with
        | File _ => n
        | Dir es =>
            match rest with
            | [] =>
                Dir (match v with
                     | Some n' => put_entry name n' es
                     | None => del_entry name es
                     end)
            | _ :: _ =>
                match assoc name es with
                | Some c => Dir (put_entry name (set_at rest v c) es)
                | None => n
                end
            end
        end
    end.

  (** What [os.RemoveAll] leaves of the node at [p]: [None] when all of it
      could be removed, otherwise what remains once everything that can be
      removed is gone. [prot p] says that the system refuses to unlink [p]. *)
Fixpoint removeAll_node (prot : path -> bool) (p : path) (n : node) : option node :=
    match n with
    | File _ => if prot p then Some n else None
    | Dir es =>
        let es' :=
          (fix go (es : list (string * node)) : list (string * node) :=
             match es with
             | [] => []
             | (k, c) :: rest =>
                 match removeAll_node prot (p ++ [k]) c with
                 | Some c' => (k, c') :: go rest
                 | None => go rest
                 end
             end) es in
        match es' with
        | [] => if prot p then Some (Dir []) else None
        | _ :: _ => Some (Dir es')
        end
    end.

  (** The names a directory entry can have. *)
Definition plain_name (k : string) : bool :=
    negb (String.eqb k "") && negb (String.eqb k ".") && negb (String.eqb k "..")
    && negb (has_byte SLASH k).

Definition names (es : list (string * node)) : list string := map fst es.

  (** A directory listing: plain names, each once. *)
Definition wf_entries (es : list (string * node)) : Prop :=
    NoDup (names es) ∧ Forall (fun k => plain_name k = true) (names es).

  (** The entries [os.RemoveAll] leaves in a directory at [p]. *)
Fixpoint removeAll_entries (prot : path -> bool) (p : path)
      (es : list (string * node)) : list (string * node) :=
    match es with
    | [] => []
    | (k, c) :: rest =>
        match removeAll_node prot (p ++ [k]) c with
        | Some c' => (k, c') :: removeAll_entries prot p rest
        | None => removeAll_entries prot p rest
        end
    end.

Definition sentinel (k : string) : bool := String.eqb k ".gitkeep".

  (** What the cleanup of the directory at [p] leaves of its listing, and
      whether it went through: entries are taken in order, an entry called
      [.gitkeep] is passed over, and the first entry that cannot be removed
      whole ends the cleanup. *)
Fixpoint clean_listing (prot : path -> bool) (p : path)
      (es : list (string * node)) : list (string * node) * bool :=
    match es with
    | [] => ([], true)
    | (k, c) :: rest =>
        if sentinel k then
          let '(r, ok) := clean_listing prot p rest in ((k, c) :: r, ok)
        else
          match removeAll_node prot (p ++ [k]) c with
          | None => clean_listing prot p rest
          | Some c' => ((k, c') :: rest, false)
          end
    end.

  (** What [os.ReadDir] says of an entry: its name and whether it is a
      directory. *)
Definition entry_info (kc : string * node) : string * bool :=
    let '(k, c) := kc in (k, isDir c).

  (** One element of a path during name resolution; [stack] is the
      directory reached so far, innermost first. *)
Definition walk_step (stack : list string) (elem : string) : list string :=
    if String.eqb elem "" then stack
    else if String.eqb elem "." then stack
    else if String.eqb elem ".." then tail stack
    else elem :: stack.

  (** Name resolution from the working directory [cwd]; the empty path
      names nothing. *)
Definition resolve (cwd : path) (p : string) : option path :=
    if String.eqb p "" then None
    else
      Some (rev (fold_left walk_step (Split SLASH p)
                   (if Filepath.rooted p then [] else rev cwd))).

End FS.

(** ** Data of the deployer *)

(** [params] of [params.go]. *)
Record params := {
  gitSourceRepo : string;
  gitSourceBranch : string;
  gitSecret : string;
  gitUsername : string;
  gitEmail : string;
  gitCommitMessage : string;
  gitOutputRepo : string;
  gitOutputBranch : string;
  gitPullRequestTitle : string;
  gitPullRequestBody : string;
  enablePullRequestMerge : bool;
  hydrationClusterGroup : string;
  hydrationPlatformRevision : string;
  hydrationWorkloadRevision : string;
  hydrationBatchSize : Z;
  hydrationWaitTimeBetweenBatches : Z;
  hydrationSourceOfTruth : string;
  hydrationBaseDir : string;
  hydrationOverlaysDir : string;
  hydrationOutputDir : string;
  matchClustersHavingAnyListedTag : list string;
  matchClustersHavingAllListedTags : list string
}.

(** The fields of [clouddeploy.DeployRequest] the deployer reads. *)
Record DeployRequest := {
  Project : string;
  Location : string;
  Pipeline : string;
  Target : string;
  Release : string;
  Rollout : string
}.

Inductive resultStatus := DeploySucceeded | DeployFailed.

Record DeployResult := {
  ResultStatus : resultStatus;
  FailureMessage : string;
  ArtifactFiles : list string;
  Metadata : gmap string string
}.

(** Modelled from the spec: the type [gitRepository] and its constructor
    [newGitRepository] are declared in a file that is not part of the
    sources at hand. The spec gives a repository reference a hostname, an
    owner, a repository name and a committer identity. [addr] stands for
    the address of the allocated object: the deployer holds repositories
    by pointer and compares the pointers. *)
Record gitRepository := {
  addr : nat;
  hostname : string;
  owner : string;
  repoName : string;
  email : string;
  username : string
}.

(** The methods of [gitRepository] the deployer calls. *)
Inductive gitcmd :=
| cloneRepo (secret : string)
| config
| checkoutBranch (branch : string)
| checkIfExists (branch : string)
| pull (branch : string)
| add
| commit (message : string)
| push (branch : string)
| detectDiff.

(** The fields of [secretmanagerpb.AccessSecretVersionResponse] the
    deployer reads. [Payload] and [DataCrc32C] are pointers: [None] is
    [nil]. The response itself is never [nil] when the error is: the
    client allocates it before the call. *)
Record SecretPayload := {
  Data : string;
  DataCrc32C : option Z
}.

Record AccessSecretVersionResponse := {
  Payload : option SecretPayload
}.

(** How a started process ends, as [runCmd] sees it. *)
Inductive exec_outcome :=
| StartFailed (e : error)
| WaitFailed (e : error) (stderr : string)
| Exited (stdout : string).

Inductive event :=
| EvAccessSecretVersion (name : string)
| EvGit (repo : gitRepository) (cmd : gitcmd)
| EvOpen (path : string)
| EvCreate (path : string)
| EvReadDir (path : string)
| EvRemove (path : string)
| EvRemoveAll (path : string)
| EvExec (binPath : string) (args : list string) (dir : string)
| EvCreateProvider (hostname repoName owner : string)
| EvOpenPullRequest (src dst title body : string)
| EvMergePullRequest (number : Z)
| EvUploadArtifact (name localPath : string)
| EvUploadResult (dr : DeployResult)
| EvSleep (d : Z)
| EvProcessingBatch (batch : list string) (featureBranchName : string).

Record Env (Ext : Type) := {
  root : FS.node;
  cwd : FS.path;
  prot : list FS.path;
  ext : Ext
}.
Arguments root {Ext} e.
Arguments cwd {Ext} e.
Arguments prot {Ext} e.
Arguments ext {Ext} e.

(** The collaborators of the deployer: code of other packages and of the
    standard library, and the constants of files that are not at hand. *)
Record Collaborators (Ext : Type) := {
  smClient_AccessSecretVersion :
    string -> Env Ext -> (error + AccessSecretVersionResponse) * Env Ext;
  crc32_Checksum : string -> Z;
  git : gitRepository -> gitcmd -> Env Ext -> (error + option string) * Env Ext;
  exec_Command : string -> list string -> string -> Env Ext -> exec_outcome * Env Ext;
  provider_CreateProvider : string -> string -> string -> string -> Env Ext -> (error + unit) * Env Ext;
  provider_OpenPullRequest : string -> string -> string -> string -> Env Ext -> (error + Z) * Env Ext;
  provider_MergePullRequest : Z -> Env Ext -> (error + unit) * Env Ext;
  req_UploadArtifact : string -> string -> Env Ext -> (error + string) * Env Ext;
  req_UploadResult : DeployResult -> Env Ext -> (error + string) * Env Ext;
  time_Sleep : Z -> Env Ext -> Env Ext;
  csv_ReadAll : string -> error + list Inventory.record;
  csv_Write : Inventory.record -> string;
  gitDeployerSampleName : string;
  CustomTargetSourceMetadataKey : string;
  CustomTargetSourceSHAMetadataKey : string;
  GitCommit : string
}.

(** ** The monad of the deployer *)

Record State (Ext : Type) := {
  env : Env Ext;
  heap : nat;
  trace : list event
}.
Arguments env {Ext} s.
Arguments heap {Ext} s.
Arguments trace {Ext} s.

Definition M (Ext A : Type) : Type := State Ext -> res A * State Ext.

Definition ret {Ext A} (a : A) : M Ext A := fun st => (Ok a, st).

Definition bind {Ext A B} (m : M Ext A) (k : A -> M Ext B) : M Ext B :=
  fun st =>
    match m st with
    | (Ok a, st') => k a st'
    | (Err e, st') => (Err e, st')
    | (Panic p, st') => (Panic p, st')
    end.

Notation "'do' x <- m ; k" := (bind m (fun x => k))
  (at level 10, x pattern, m at level 100, k at level 200).
Notation "'run' m ; k" := (bind m (fun _ => k))
  (at level 10, m at level 100, k at level 200).

Definition liftR {Ext A} (r : res A) : M Ext A := fun st => (r, st).

(** [return fmt.Errorf(prefix + "%v", err)] on the error path of [m]. *)
Definition wrapErr {Ext A} (prefix : string) (m : M Ext A) : M Ext A :=
  fun st =>
    match m st with
    | (Err e, st') => (Err (Errorf prefix e), st')
    | r => r
    end.

(** A call whose returned error is not looked at. *)
Definition discard {Ext A} (m : M Ext A) : M Ext unit :=
  fun st =>
    match m st with
    | (Panic p, st') => (Panic p, st')
    | (_, st') => (Ok tt, st')
    end.

Definition log {Ext} (ev : event) : M Ext unit :=
  fun st => (Ok tt, {| env := env st; heap := heap st; trace := trace st ++ [ev] |}).

(** A call to a collaborator: recorded in the trace, then run on the
    environment. *)
Definition call {Ext T} (ev : event) (f : Env Ext -> (error + T) * Env Ext) : M Ext T :=
  fun st =>
    let '(r, env') := f (env st) in
    (match r with inl e => Err e | inr t => Ok t end,
     {| env := env'; heap := heap st; trace := trace st ++ [ev] |}).

Definition call_total {Ext T} (ev : event) (f : Env Ext -> T * Env Ext) : M Ext T :=
  fun st =>
    let '(r, env') := f (env st) in
    (Ok r, {| env := env'; heap := heap st; trace := trace st ++ [ev] |}).

(** ** System calls on the modelled file system *)

Module OS.

Section Calls.
Context {Ext : Type}.

Definition is_prot (e : Env Ext) (p : FS.path) : bool := bool_decide (p ∈ prot e).

Definition with_root (e : Env Ext) (r : FS.node) : Env Ext :=
      {| root := r; cwd := cwd e; prot := prot e; ext := ext e |}.

Definition ENOENT (op path : string) : error :=
      ErrMsg (op +:+ " " +:+ path +:+ ": no such file or directory").
Definition ENOTDIR (op path : string) : error :=
      ErrMsg (op +:+ " " +:+ path +:+ ": not a directory").
Definition EISDIR (op path : string) : error :=
      ErrMsg (op +:+ " " +:+ path +:+ ": is a directory").
Definition ENOTEMPTY (op path : string) : error :=
      ErrMsg (op +:+ " " +:+ path +:+ ": directory not empty").
Definition EACCES (op path : string) : error :=
      ErrMsg (op +:+ " " +:+ path +:+ ": permission denied").

    (** The node a path names. *)
Definition stat (e : Env Ext) (path : string) : option (FS.path * FS.node) :=
      match FS.resolve (cwd e) path with
      | Some p =>
          match FS.lookup (root e) p with
          | Some n => Some (p, n)
          | None => None
          end
      | None => None
      end.

    (** [os.ReadDir]: the names of a directory with their [IsDir] bit. *)
Definition ReadDir_env (path : string) (e : Env Ext)
        : (error + list (string * bool)) * Env Ext :=
      match stat e path with
      | Some (_, FS.Dir es) => (inr (map (fun '(k, c) => (k, FS.isDir c)) es), e)
      | Some (_, FS.File _) => (inl (ENOTDIR "open" path), e)
      | None => (inl (ENOENT "open" path), e)
      end.

    (** [os.Remove]: unlinks a file or an empty directory. *)
Definition Remove_env (path : string) (e : Env Ext) : (error + unit) * Env Ext :=
      match stat e path with
      | Some ([], _) => (inl (EACCES "remove" path), e)
      | Some (_, FS.Dir (_ :: _)) => (inl (ENOTEMPTY "remove" path), e)
      | Some (p, _) =>
          if is_prot e p then (inl (EACCES "remove" path), e)
          else (inr tt, with_root e (FS.set_at p None (root e)))
      | None => (inl (ENOENT "remove" path), e)
      end.

    (** [os.RemoveAll]: removes what it can of the tree at the path; no
        error when the path names nothing. *)
Definition RemoveAll_env (path : string) (e : Env Ext) : (error + unit) * Env Ext :=
      if String.eqb path "" then (inr tt, e)
      else
        match stat e path with
        | Some ([], _) => (inl (EACCES "unlinkat" path), e)
        | Some (p, n) =>
            match FS.removeAll_node (is_prot e) p n with
            | None => (inr tt, with_root e (FS.set_at p None (root e)))
            | Some n' =>
                (inl (EACCES "unlinkat" path), with_root e (FS.set_at p (Some n') (root e)))
            end
        | None => (inr tt, e)
        end.

    (** [os.Open] for reading: the file behind the returned handle. *)
Definition Open_env (path : string) (e : Env Ext) : (error + FS.path) * Env Ext :=
      match stat e path with
      | Some (p, _) => (inr p, e)
      | None => (inl (ENOENT "open" path), e)
      end.

    (** [os.Create]: truncates the file, or makes it. *)
Definition Create_env (path : string) (e : Env Ext) : (error + FS.path) * Env Ext :=
      match FS.resolve (cwd e) path with
      | None => (inl (ENOENT "open" path), e)
      | Some p =>
          match FS.lookup (root e) p with
          | Some (FS.Dir _) => (inl (EISDIR "open" path), e)
          | Some (FS.File _) =>
              if is_prot e p then (inl (EACCES "open" path), e)
              else (inr p, with_root e (FS.set_at p (Some (FS.File "")) (root e)))
          | None =>
              match FS.lookup (root e) (removelast p) with
              | Some (FS.Dir _) =>
                  if is_prot e p then (inl (EACCES "open" path), e)
                  else (inr p, with_root e (FS.set_at p (Some (FS.File "")) (root e)))
              | Some (FS.File _) => (inl (ENOTDIR "open" path), e)
              | None => (inl (ENOENT "open" path), e)
              end
          end
      end.

Definition ReadDir (path : string) : M Ext (list (string * bool)) :=
      call (EvReadDir path) (ReadDir_env path).
Definition Remove (path : string) : M Ext unit :=
      call (EvRemove path) (Remove_env path).
Definition RemoveAll (path : string) : M Ext unit :=
      call (EvRemoveAll path) (RemoveAll_env path).
Definition Open (path : string) : M Ext FS.path :=
      call (EvOpen path) (Open_env path).
Definition Create (path : string) : M Ext FS.path :=
      call (EvCreate path) (Create_env path).

    (** All the bytes behind an open handle. *)
Definition read (f : FS.path) : M Ext string :=
      fun st =>
        match FS.lookup (root (env st)) f with
        | Some (FS.File data) => (Ok data, st)
        | _ => (Err (ErrMsg "read: is a directory"), st)
        end.

    (** What the deferred [Flush] and [Close] of a writer leave in the
        file behind the handle. *)
Definition flush (f : FS.path) (data : string) : M Ext unit :=
      fun st =>
        (Ok tt,
         {| env := with_root (env st)
                     (match FS.lookup (root (env st)) f with
                      | Some (FS.File _) => FS.set_at f (Some (FS.File data)) (root (env st))
                      | _ => root (env st)
                      end);
            heap := heap st; trace := trace st |}).

End Calls.

End OS.

(** ** 64-bit integers *)

Definition wrap64 (z : Z) : Z := (z + 2 ^ 63) mod 2 ^ 64 - 2 ^ 63.

Definition int_add (a b : Z) : Z := wrap64 (a + b).

(** [s[i:j]] on a slice, for [j] within its length: a panic unless
    [0 <= i <= j <= len(s)]. *)
Definition slice {A} (s : list A) (i j : Z) : res (list A) :=
  if (0 <=? i) && (i <=? j) && (j <=? Z.of_nat (length s))
  then Ok (take (Z.to_nat (j - i)) (drop (Z.to_nat i) s))
  else Panic slice_bounds_out_of_range.

(** What the conversion of a NaN to [int] gives on amd64. *)
Definition int_of_NaN : Z := - 2 ^ 63.

(** [int(math.Ceil(float64(n) / float64(d)))] for [0 <= n] and [0 <= d],
    both below [2^53], where the conversions and the quotient are exact
    enough for the ceiling to be that of the rational quotient. A zero
    divisor gives a NaN or an infinity. *)
Definition ceil_quot (n d : Z) : Z :=
  if d =? 0 then int_of_NaN else - ((- n) / d).

(** ** The deployer *)

Record deployer := {
  req : DeployRequest;
  dparams : params
}.

Definition hydrateCliBin : string := "hydrate".

Section Deployer.

Context {Ext : Type} (C : Collaborators Ext).

Import Strings.

Local Abbreviation M := (M Ext).

Definition gitCall (repo : gitRepository) (cmd : gitcmd) : M (option string) :=
    call (EvGit repo cmd) (git Ext C repo cmd).

  (** Modelled from the spec: [newGitRepository] allocates a repository
      reference from its hostname, owner, name and committer identity. *)
Definition newGitRepository (hostname owner repoName email username : string)
      : M gitRepository :=
    fun st =>
      (Ok {| addr := heap st; hostname := hostname; owner := owner;
             repoName := repoName; email := email; username := username |},
       {| env := env st; heap := S (heap st); trace := trace st |}).

  (** [runCmd]. *)
Definition runCmd (binPath : string) (args : list string) (dir : string)
      (logCmd : bool) : M string :=
    do out <- call_total (EvExec binPath args dir) (exec_Command Ext C binPath args dir);
    match out with
    | StartFailed e => liftR (Err (Errorf "failed to start command: " e))
    | WaitFailed e stderr =>
        liftR (Err (ErrMsg ("error running command: " +:+ Error e +:+
                            String "010"%char stderr)))
    | Exited stdout => ret stdout
    end.

Fixpoint cleanEntries (directory : string) (files : list (string * bool)) : M unit :=
    match files with
    | [] => ret tt
    | (name, isDir) :: rest =>
        if String.eqb name ".gitkeep" then cleanEntries directory rest
        else
          let path := Filepath.Join directory name in
          if isDir then
            run OS.RemoveAll path;
            cleanEntries directory rest
          else
            run OS.Remove path;
            cleanEntries directory rest
    end.

Definition cleanHydratedDirectory (directory : string) : M unit :=
    do files <- OS.ReadDir directory;
    cleanEntries directory files.

Definition hydrateArgs (sourceRepo baseLibraryPath overlayPath outputPath
      sourceOfTruth : string) : list string :=
    ["-b"; Filepath.Join sourceRepo baseLibraryPath;
     "-o"; Filepath.Join sourceRepo overlayPath;
     "-y"; Filepath.Join sourceRepo outputPath;
     Filepath.Join sourceRepo sourceOfTruth].

Definition runHydrationCLI (sourceRepo baseLibraryPath overlayPath outputRepo
      outputPath sourceOfTruth : string) : M unit :=
    let outputRepo := if String.eqb outputRepo "" then sourceRepo else outputRepo in
    run discard (cleanHydratedDirectory (Filepath.Join outputRepo outputPath));
    let args := hydrateArgs sourceRepo baseLibraryPath overlayPath outputPath sourceOfTruth in
    do _ <- runCmd hydrateCliBin args "" true;
    do _ <- runCmd hydrateCliBin args "" true;
    ret tt.

Definition csvReadAll (f : FS.path) : M (list Inventory.record) :=
    do data <- OS.read f;
    liftR (match csv_ReadAll Ext C data with inl e => Err e | inr rs => Ok rs end).

Definition determineClustersToUpdate (repo sourceOfTruth clusterGroup : string)
      (matchClustersHavingAnyListedTag matchClustersHavingAllListedTags : list string)
      : M (list string) :=
    let filePath := Filepath.Join repo sourceOfTruth in
    do f <- OS.Open filePath;
    do records <- csvReadAll f;
    liftR (Inventory.selectClusters records clusterGroup
             matchClustersHavingAnyListedTag matchClustersHavingAllListedTags).

  (** The bytes a [csv.Writer] produces for the records written to it. *)
Definition csvEncode (written : list Inventory.record) : string :=
    fold_right (fun rec acc => csv_Write Ext C rec +:+ acc) "" written.

Definition updatePlatformAndWorkloadRepositoryRevision (repo : string)
      (clusterNames : list string)
      (sourceOfTruth platformRevision workloadRevision : string) : M unit :=
    let filePath := Filepath.Join repo sourceOfTruth in
    do f <- wrapErr ("unable to open input file " +:+ filePath +:+ ": ") (OS.Open filePath);
    do records <- wrapErr "error reading CSV records: " (csvReadAll f);
    do header <- liftR (index records 0);
    do fieldIndices <-
      liftR (Inventory.findFieldIndices header
               ["cluster_name"; "platform_repository_revision";
                "workload_repository_revision"]);
    let clusterNameIndex := Inventory.at_key fieldIndices "cluster_name" in
    let platformRevisionIndex :=
      Inventory.at_key fieldIndices "platform_repository_revision" in
    let workloadRevisionIndex :=
      Inventory.at_key fieldIndices "workload_repository_revision" in
    do wFile <- wrapErr "error creating file for writing: " (OS.Create filePath);
    let '(written, r) :=
      Inventory.updateRecords clusterNameIndex platformRevisionIndex
        workloadRevisionIndex clusterNames platformRevision workloadRevision
        [] records in
    run OS.flush wFile (csvEncode written);
    liftR r.

Section Methods.

Variable d : deployer.

    (** [accessSecretVersion]. The payload and its checksum are read
        through their pointers: [res.Payload.Data] panics on a response
        without payload, [*res.Payload.DataCrc32C] on a payload without
        checksum. *)
Definition accessSecretVersion (svName : string) : M string :=
      do res <- wrapErr ("failed to access secret version " +:+ svName +:+ ": ")
                  (call (EvAccessSecretVersion svName)
                     (smClient_AccessSecretVersion Ext C svName));
      match Payload res with
      | None => liftR (Panic nil_pointer_dereference)
      | Some payload =>
          let checksum := crc32_Checksum Ext C (Data payload) in
          match DataCrc32C payload with
          | None => liftR (Panic nil_pointer_dereference)
          | Some crc =>
              if negb (checksum =? crc) then
                liftR (Err (ErrMsg "secret version response failed CRC-32 checksum validation; possible data corruption"))
              else ret (Data payload)
          end
      end.

    (** The tail shared by [setupGitWorkspace] and [resetGitWorkspace]:
        check the branch out, and pull it when it exists. *)
Definition checkoutAndPull (gitRepo : gitRepository) (branch : string) : M unit :=
      do _ <- wrapErr ("unable to checkout branch " +:+ branch +:+ ": ")
                (gitCall gitRepo (checkoutBranch branch));
      do output <- wrapErr ("unable to check if branch " +:+ branch +:+ " exists: ")
                     (gitCall gitRepo (checkIfExists branch));
      match output with
      | Some _ =>
          do _ <- wrapErr ("unable to pull branch " +:+ branch +:+ ": ")
                    (gitCall gitRepo (pull branch));
          ret tt
      | None => ret tt
      end.

Definition setupGitWorkspace (secret : string) (gitRepo : gitRepository)
        (branch : string) : M unit :=
      do _ <- wrapErr ("failed to clone git repository " +:+ repoName gitRepo +:+ ": ")
                (gitCall gitRepo (cloneRepo secret));
      do _ <- wrapErr "failed setting up the git config in the git repository: "
                (gitCall gitRepo config);
      checkoutAndPull gitRepo branch.

Definition resetGitWorkspace (gitRepo : gitRepository)
        (sourceBranch featureBranch : string) : M unit :=
      do _ <- wrapErr "failed setting up the git config in the git repository: "
                (gitCall gitRepo config);
      run checkoutAndPull gitRepo sourceBranch;
      checkoutAndPull gitRepo featureBranch.

Definition commitPushGitWorkspace (gitRepo : gitRepository)
        (featureBranch : string) : M unit :=
      do _ <- wrapErr "unable to git add changes: " (gitCall gitRepo add);
      let commitMsg := gitCommitMessage (dparams d) in
      let commitMsg :=
        if (String.length commitMsg =? 0)%nat then
          "Delivery Pipeline: " +:+ Pipeline (req d) +:+ " Release: " +:+
          Release (req d) +:+ " Rollout: " +:+ Rollout (req d)
        else commitMsg in
      do _ <- wrapErr "unable to git commit changes: " (gitCall gitRepo (commit commitMsg));
      do _ <- wrapErr ("unable to git push changes to branch " +:+ featureBranch +:+ ": ")
                (gitCall gitRepo (push featureBranch));
      ret tt.

Definition handleDestinationBranch (gitRepo : gitRepository)
        (secret featureBranchName destinationBranch : string) : M unit :=
      if (String.length destinationBranch =? 0)%nat then ret tt
      else
        let title := gitPullRequestTitle (dparams d) in
        let title :=
          if (String.length title =? 0)%nat
          then "[Rollout Manager]: " +:+ featureBranchName else title in
        let body := gitPullRequestBody (dparams d) in
        let body :=
          if (String.length body =? 0)%nat then
            "Project: " +:+ Project (req d) +:+
            String "010"%char ("Location: " +:+ Location (req d) +:+
            String "010"%char ("Delivery Pipeline: " +:+ Pipeline (req d) +:+
            String "010"%char ("Target: " +:+ Target (req d) +:+
            String "010"%char ("Release: " +:+ Release (req d) +:+
            String "010"%char ("Rollout: " +:+ Rollout (req d))))))
          else body in
        do _ <- wrapErr "unable to create git provider: "
                  (call (EvCreateProvider (hostname gitRepo) (repoName gitRepo) (owner gitRepo))
                     (provider_CreateProvider Ext C (hostname gitRepo) (repoName gitRepo)
                        (owner gitRepo) secret));
        do number <-
          wrapErr ("unable to open pull request from " +:+ featureBranchName +:+
                   " to " +:+ destinationBranch +:+ ": ")
            (call (EvOpenPullRequest featureBranchName destinationBranch title body)
               (provider_OpenPullRequest Ext C featureBranchName destinationBranch title body));
        if negb (enablePullRequestMerge (dparams d)) then ret tt
        else
          do _ <- wrapErr ("unable to merge pull request " +:+ pretty number +:+ ": ")
                    (call (EvMergePullRequest number) (provider_MergePullRequest Ext C number));
          ret tt.

    (** [detectDiff], then commit, push and pull request, as [deploy] does
        them for one repository. *)
Definition publish (gitRepo : gitRepository) (secret featureBranchName : string)
        : M unit :=
      do op <- wrapErr "unable to run git status: " (gitCall gitRepo detectDiff);
      if (String.length (default "" op) =? 0)%nat then
        liftR (Err (ErrMsg ("no diff detected between the rendered manifest and the manifest on branch "
                            +:+ featureBranchName)))
      else
        run wrapErr "unable to commit and push changes: "
              (commitPushGitWorkspace gitRepo featureBranchName);
        handleDestinationBranch gitRepo secret featureBranchName
          (gitOutputBranch (dparams d)).

Definition featureBranchName (batchCounter numBatches : Z) : string :=
      Rollout (req d) +:+ "__" +:+ pretty batchCounter +:+ "/" +:+ pretty numBatches.

    (** The steps of one batch, from the reset of the workspaces to the
        wait at the end. [srcRepo] and [outRepo] are the locals
        [gitSourceRepo] and [gitOutputRepo] of [deploy]; the fields of
        [params] own these names. *)
Definition batchSteps (secret : string) (srcRepo outRepo : gitRepository)
        (batch : list string) (featureBranchName : string) : M unit :=
      let p := dparams d in
      run wrapErr "unable to reset git workspace: "
            (resetGitWorkspace srcRepo (gitSourceBranch p) featureBranchName);
      run (if negb (String.eqb (gitSourceRepo p) (gitOutputRepo p)) then
             wrapErr "unable to reset git workspace: "
               (resetGitWorkspace outRepo (gitOutputBranch p) featureBranchName)
           else ret tt);
      run wrapErr "unable to update platform revision: "
            (updatePlatformAndWorkloadRepositoryRevision (repoName srcRepo) batch
               (hydrationSourceOfTruth p) (hydrationPlatformRevision p)
               (hydrationWorkloadRevision p));
      run wrapErr "unable to hydrate: "
            (runHydrationCLI (repoName srcRepo) (hydrationBaseDir p)
               (hydrationOverlaysDir p) (repoName outRepo)
               (hydrationOutputDir p) (hydrationSourceOfTruth p));
      run publish srcRepo secret featureBranchName;
      run (if negb (addr srcRepo =? addr outRepo)%nat then
             publish outRepo secret featureBranchName
           else ret tt);
      call_total (EvSleep (hydrationWaitTimeBetweenBatches p))
        (fun e => (tt, time_Sleep Ext C (hydrationWaitTimeBetweenBatches p) e)).

    (** The body of the batch loop of [deploy], up to the increment of the
        counter: the batch is cut out of the selection, named, and done. *)
Definition processBatch (secret : string) (srcRepo outRepo : gitRepository)
        (clustersToUpdate : list string) (numBatches i batchCounter : Z) : M unit :=
      let p := dparams d in
      let end_ := int_add i (hydrationBatchSize p) in
      let end_ :=
        if Z.of_nat (length clustersToUpdate) <? end_
        then Z.of_nat (length clustersToUpdate) else end_ in
      do batch <- liftR (slice clustersToUpdate i end_);
      let featureBranchName := featureBranchName batchCounter numBatches in
      run log (EvProcessingBatch batch featureBranchName);
      batchSteps secret srcRepo outRepo batch featureBranchName.

    (** The batch loop of [deploy]: [for i := 0; i < len; i += batchSize]. *)
Fixpoint batchLoop (fuel : nat) (secret : string)
        (srcRepo outRepo : gitRepository) (clustersToUpdate : list string)
        (batchSize numBatches i batchCounter : Z) : M unit :=
      if i <? Z.of_nat (length clustersToUpdate) then
        match fuel with
        | O => liftR (Panic fuel_exhausted)
        | S fuel' =>
            run processBatch secret srcRepo outRepo clustersToUpdate
                  numBatches i batchCounter;
            batchLoop fuel' secret srcRepo outRepo clustersToUpdate
              batchSize numBatches (int_add i batchSize) (int_add batchCounter 1)
        end
      else ret tt.

Definition metadata : gmap string string :=
      <[CustomTargetSourceSHAMetadataKey Ext C := GitCommit Ext C]>
        (<[CustomTargetSourceMetadataKey Ext C := gitDeployerSampleName Ext C]> ∅).

    (** A repository reference [host/owner/repo] split in its three parts. *)
Definition splitRepoRef (ref : string) : res (string * string * string) :=
      match Split SLASH ref with
      | [h; o; r] => Ok (h, o, r)
      | _ => Err (ErrMsg ("invalid git repository reference: " +:+ Quote ref))
      end.

Definition deploy : M DeployResult :=
      let p := dparams d in
      do secret <- wrapErr "unable to access git secret: " (accessSecretVersion (gitSecret p));
      do (srcHostname, srcOwner, srcRepoName) <- liftR (splitRepoRef (gitSourceRepo p));
      do srcRepo <- newGitRepository srcHostname srcOwner srcRepoName
                            (gitEmail p) (gitUsername p);
      run wrapErr "unable to set up git workspace: "
            (setupGitWorkspace secret srcRepo (gitSourceBranch p));
      do outRepo <-
        (if negb (String.eqb (gitSourceRepo p) (gitOutputRepo p)) then
           do (outHostname, outOwner, outRepoName) <-
             liftR (splitRepoRef (gitOutputRepo p));
           do newRepo <- newGitRepository outHostname outOwner outRepoName
                                 (gitEmail p) (gitUsername p);
           run wrapErr "unable to set up git workspace: "
                 (setupGitWorkspace secret newRepo (gitOutputBranch p));
           ret newRepo
         else ret srcRepo);
      do clustersToUpdate <-
        wrapErr "Unable to determine clusters to be updated: "
          (determineClustersToUpdate srcRepoName (hydrationSourceOfTruth p)
             (hydrationClusterGroup p) (matchClustersHavingAnyListedTag p)
             (matchClustersHavingAllListedTags p));
      let len := Z.of_nat (length clustersToUpdate) in
      let batchSize := if 0 <? hydrationBatchSize p then hydrationBatchSize p else len in
      let numBatches := ceil_quot len batchSize in
      run batchLoop (S (length clustersToUpdate)) secret srcRepo outRepo
            clustersToUpdate batchSize numBatches 0 1;
      do dURI <-
        wrapErr "error uploading deploy artifact: "
          (call (EvUploadArtifact "source_of_truth.csv"
                   (Filepath.Join srcRepoName (hydrationSourceOfTruth p)))
             (req_UploadArtifact Ext C "source_of_truth.csv"
                (Filepath.Join srcRepoName (hydrationSourceOfTruth p))));
      ret {| ResultStatus := DeploySucceeded; FailureMessage := "";
             ArtifactFiles := [dURI]; Metadata := metadata |}.

Definition UploadResult (dr : DeployResult) : M string :=
      call (EvUploadResult dr) (req_UploadResult Ext C dr).

    (** [process]. The result is the returned [error]: [None] is [nil].
        In the failure branch the [err] of the upload is a new variable
        of the inner block, and it is the one returned at its end. *)
Definition process : State Ext -> res (option error) * State Ext :=
      fun st =>
        match deploy st with
        | (Panic pn, st1) => (Panic pn, st1)
        | (Err err, st1) =>
            let dr := {| ResultStatus := DeployFailed; FailureMessage := Error err;
                         ArtifactFiles := []; Metadata := metadata |} in
            match UploadResult dr st1 with
            | (Panic pn, st2) => (Panic pn, st2)
            | (Err err0, st2) =>
                (Ok (Some (Errorf "error uploading failed deploy results: " err0)), st2)
            | (Ok rURI, st2) =>
                let err0 : option error := None in
                (Ok err0, st2)
            end
        | (Ok res, st1) =>
            match UploadResult res st1 with
            | (Panic pn, st2) => (Panic pn, st2)
            | (Err err0, st2) =>
                (Ok (Some (Errorf "error uploading deploy results: " err0)), st2)
            | (Ok rURI, st2) => (Ok None, st2)
            end
        end.

End Methods.

End Deployer.

(** ** Specification-level definitions of the inventory

    These follow the words of the specification; the theorems below
    compare them with the functions above. *)

Module InventorySpec.

Import Strings Inventory.

  (** The cell of [row] under the first column of the header called [name]. *)
Definition column (header : record) (name : string) (row : record) : string :=
    match indexOf header name 0 with
    | Some i => nth i row ""
    | None => ""
    end.

  (** The tags of a row: its [cluster_tags] cell, trimmed of surrounding
      quotes and spaces, split on commas. *)
Definition tagSet (cell : string) : list string :=
    Split COMMA (Trim cell (String DQUOTE " ")).

  (** The tag policy, by precedence. *)
Definition tagPolicy (matchAny matchAll tags : list string) : Prop :=
    if decide (matchAny ≠ []) then ∃ t, t ∈ tags ∧ t ∈ matchAny
    else if decide (matchAll ≠ []) then ∀ t, t ∈ matchAll → t ∈ tags
    else True.

Definition tagPolicyb (matchAny matchAll tags : list string) : bool :=
    match matchAny, matchAll with
    | _ :: _, _ => existsb (fun t => Contains matchAny t) tags
    | [], _ :: _ => forallb (fun t => Contains tags t) matchAll
    | [], [] => true
    end.

Definition selected (header : record) (clusterGroup : string)
      (matchAny matchAll : list string) (row : record) : bool :=
    String.eqb clusterGroup (column header "cluster_group" row)
    && tagPolicyb matchAny matchAll (tagSet (column header "cluster_tags" row)).

Definition SelectClusters (header : record) (rows : list record)
      (clusterGroup : string) (matchAny matchAll : list string) : list string :=
    map (column header "cluster_name")
      (List.filter (selected header clusterGroup matchAny matchAll) rows).

  (** The columns that [fields] asks for and the header lacks, in the
      order of [fields]. *)
Definition missing_fields (header : record) (fields : list string) : list string :=
    List.filter (fun f => negb (Contains header f)) fields.

Definition targeted (header : record) (clusterNames : list string) (row : record) : bool :=
    Contains clusterNames (column header "cluster_name" row).

  (** What the specification allows [UpdateRevisions] to do to the parsed
      records of the file. *)
Definition revisions_updated (header : record) (clusterNames : list string)
      (platformRev workloadRev : string) (records records' : list record) : Prop :=
    length records' = length records ∧
    ∀ pi wi,
      indexOf header "platform_repository_revision" 0 = Some pi →
      indexOf header "workload_repository_revision" 0 = Some wi →
      ∀ (i : nat) (row : record), records !! i = Some row →
      ∃ row' : record,
        records' !! i = Some row' ∧
        length row' = length row ∧
        (targeted header clusterNames row = false → row' = row) ∧
        (∀ j : nat, j ≠ pi → j ≠ wi → row' !! j = row !! j) ∧
        row' !! pi = (if targeted header clusterNames row && negb (String.eqb platformRev "")
                      then Some platformRev else row !! pi) ∧
        row' !! wi = (if targeted header clusterNames row && negb (String.eqb workloadRev "")
                      then Some workloadRev else row !! wi).

  (** A targeted row with its two revision cells set, each when the new
      revision is not empty. *)
Definition updated_row (header : record) (clusterNames : list string)
      (platformRev workloadRev : string) (row : record) : record :=
    let t := targeted header clusterNames row in
    let pi := default 0%nat (indexOf header "platform_repository_revision" 0) in
    let wi := default 0%nat (indexOf header "workload_repository_revision" 0) in
    let row1 := if t && negb (String.eqb platformRev "") then <[pi := platformRev]> row else row in
    if t && negb (String.eqb workloadRev "") then <[wi := workloadRev]> row1 else row1.

End InventorySpec.

(** ** Counting the calls of a run *)

Inductive kind :=
| KClone | KConfig | KCheckout | KExists | KPull | KDiff | KAdd | KCommit | KPush
| KCreateProvider | KOpenPR | KMerge | KBatch | KExec | KOther.

Definition kind_of (ev : event) : kind :=
  match ev with
  | EvGit _ (cloneRepo _) => KClone
  | EvGit _ config => KConfig
  | EvGit _ (checkoutBranch _) => KCheckout
  | EvGit _ (checkIfExists _) => KExists
  | EvGit _ (pull _) => KPull
  | EvGit _ detectDiff => KDiff
  | EvGit _ add => KAdd
  | EvGit _ (commit _) => KCommit
  | EvGit _ (push _) => KPush
  | EvCreateProvider _ _ _ => KCreateProvider
  | EvOpenPullRequest _ _ _ _ => KOpenPR
  | EvMergePullRequest _ => KMerge
  | EvProcessingBatch _ _ => KBatch
  | EvExec _ _ _ => KExec
  | _ => KOther
  end.

Definition kind_eqb (a b : kind) : bool :=
  match a, b with
  | KClone, KClone | KConfig, KConfig | KCheckout, KCheckout | KExists, KExists
  | KPull, KPull | KDiff, KDiff | KAdd, KAdd
  | KCommit, KCommit | KPush, KPush | KCreateProvider, KCreateProvider
  | KOpenPR, KOpenPR | KMerge, KMerge | KBatch, KBatch
  | KExec, KExec | KOther, KOther => true
  | _, _ => false
  end.

(** The number of calls of kind [K] in a piece of trace. *)
Definition count (K : kind) (evs : list event) : nat :=
  length (List.filter (fun ev => kind_eqb (kind_of ev) K) evs).

Definition is_Ok {A} (r : res A) : Prop :=
  match r with Ok _ => True | _ => False end.

(** [tally K m n]: a run of [m] adds to the trace, makes at most [n] calls
    of kind [K], and exactly [n] when it ends without error. *)
Definition tally {Ext A} (K : kind) (m : M Ext A) (n : nat) : Prop :=
  forall st, exists evs,
    trace (m st).2 = trace st ++ evs /\
    (count K evs <= n)%nat /\
    (is_Ok (m st).1 -> count K evs = n).

(** The calls of each kind that one batch makes when the source and the
    output repository are the same, and those made before the first batch.
    The reset of a batch checks out two branches, the source branch and the
    feature branch, and looks for each; the pulls, which depend on what the
    branch checks find, are not in these tables. *)
Definition per_batch (d : deployer) (K : kind) : nat :=
  match K with
  | KBatch | KConfig | KDiff | KAdd | KCommit | KPush => 1
  | KCheckout | KExists => 2
  | KCreateProvider | KOpenPR =>
      if String.eqb (gitOutputBranch (dparams d)) "" then 0 else 1
  | KMerge =>
      if String.eqb (gitOutputBranch (dparams d)) "" then 0
      else if enablePullRequestMerge (dparams d) then 1 else 0
  | KExec => 2
  | KClone | KPull | KOther => 0
  end.

Definition setup_calls (K : kind) : nat :=
  match K with
  | KClone | KConfig | KCheckout | KExists => 1
  | _ => 0
  end.

(** [ltally K m a b]: a run of [m] makes at most [a] calls of kind [K]
    plus [b] for every batch it starts, and exactly as many when it ends
    without error. *)
Definition ltally {Ext A} (K : kind) (m : M Ext A) (a b : nat) : Prop :=
  forall st, exists evs,
    trace (m st).2 = trace st ++ evs /\
    (count K evs <= a + b * count KBatch evs)%nat /\
    (is_Ok (m st).1 -> count K evs = (a + b * count KBatch evs)%nat).

(** ** A small world to run the deployer in *)

Module Demo.

Definition NL : ascii := "010"%char.

  (** A CSV codec for files without quoted fields. *)
Definition parse_csv (data : string) : error + list (list string) :=
    let lines := List.filter (fun l => negb (String.eqb l "")) (Strings.Split NL data) in
    let records := map (Strings.Split Strings.COMMA) lines in
    match records with
    | [] => inr []
    | h :: _ =>
        if forallb (fun r => (length r =? length h)%nat) records then inr records
        else inl (ErrMsg "wrong number of fields")
    end.

Definition print_csv (rec : list string) : string :=
    Strings.Join rec "," +:+ String NL "".

  (** Collaborators that all succeed, but for the secret and the upload of
      the result, which go as the two switches say. *)
  (** A response of Secret Manager with its payload and checksum. *)
Definition reply (data : string) (crc : Z) : AccessSecretVersionResponse :=
    {| Payload := Some {| Data := data; DataCrc32C := Some crc |} |}.

Definition collab (secret_ok upload_ok : bool) : Collaborators unit :=
    {| smClient_AccessSecretVersion := fun _ e =>
         (if secret_ok then inr (reply "token" 7) else inl (ErrMsg "permission denied"), e);
       crc32_Checksum := fun _ => 7;
       git := fun _ cmd e =>
         (inr (match cmd with
               | detectDiff => Some " M source_of_truth.csv"
               | checkIfExists _ => None
               | _ => Some ""
               end), e);
       exec_Command := fun _ _ _ e => (Exited "", e);
       provider_CreateProvider := fun _ _ _ _ e => (inr tt, e);
       provider_OpenPullRequest := fun _ _ _ _ e => (inr 1, e);
       provider_MergePullRequest := fun _ e => (inr tt, e);
       req_UploadArtifact := fun name _ e => (inr ("gs://bucket/" +:+ name), e);
       req_UploadResult := fun _ e =>
         (if upload_ok then inr "gs://bucket/results.json"
          else inl (ErrMsg "upload refused"), e);
       time_Sleep := fun _ e => e;
       csv_ReadAll := parse_csv;
       csv_Write := print_csv;
       gitDeployerSampleName := "clouddeploy-git-deployer-sample";
       CustomTargetSourceMetadataKey := "custom-target-source";
       CustomTargetSourceSHAMetadataKey := "custom-target-source-sha";
       GitCommit := "unknown" |}.

Definition inventory : string :=
    "cluster_name,cluster_group,cluster_tags,platform_repository_revision,workload_repository_revision"
    +:+ String NL ("c1,groupA,tag1,p0,w0"
    +:+ String NL ("c2,groupB,tag1,p0,w0"
    +:+ String NL ("c3,groupA,tag2,p0,w0"
    +:+ String NL ("c4,groupA,tag1,p0,w0"
    +:+ String NL "")))).

Definition tree (sot : string) : FS.node :=
    FS.Dir
      [("repo",
        FS.Dir
          [("output",
            FS.Dir [(".gitkeep", FS.File "");
                    ("c1.yaml", FS.File "old");
                    ("groupA", FS.Dir [("c3.yaml", FS.File "old")])]);
           ("source_of_truth.csv", FS.File sot)])].

Definition state (sot : string) (prot : list FS.path) : State unit :=
    {| env := {| root := tree sot; cwd := []; prot := prot; ext := tt |};
       heap := 0; trace := [] |}.

  (** The same tree, with a directory called [.gitkeep] in the output
      directory. *)
Definition tree_keepdir : FS.node :=
    FS.Dir
      [("repo",
        FS.Dir
          [("output",
            FS.Dir [(".gitkeep", FS.Dir [("notes", FS.File "kept")]);
                    ("c1.yaml", FS.File "old")])])].

Definition state_keepdir : State unit :=
    {| env := {| root := tree_keepdir; cwd := []; prot := []; ext := tt |};
       heap := 0; trace := [] |}.

Definition header : list string :=
    ["cluster_name"; "cluster_group"; "cluster_tags";
     "platform_repository_revision"; "workload_repository_revision"].

Definition rows : list (list string) :=
    [["c1"; "groupA"; "tag1"; "p0"; "w0"];
     ["c2"; "groupB"; "tag1"; "p0"; "w0"];
     ["c3"; "groupA"; "tag2"; "p0"; "w0"];
     ["c4"; "groupA"; "tag1"; "p0"; "w0"]].

Definition repo_ref : string := "github.com/acme/repo".

Definition repository : gitRepository :=
    {| addr := 0; hostname := "github.com"; owner := "acme"; repoName := "repo";
       email := ""; username := "Cloud Deploy" |}.

Definition request : DeployRequest :=
    {| Project := "p"; Location := "us"; Pipeline := "pipe"; Target := "t";
       Release := "rel"; Rollout := "rollout-1" |}.

Definition parameters (outputRepo : string) (batchSize : Z) : params :=
    {| gitSourceRepo := "github.com/acme/repo";
       gitSourceBranch := "main";
       gitSecret := "projects/p/secrets/s/versions/1";
       gitUsername := "Cloud Deploy";
       gitEmail := "";
       gitCommitMessage := "";
       gitOutputRepo := outputRepo;
       gitOutputBranch := "main";
       gitPullRequestTitle := "";
       gitPullRequestBody := "";
       enablePullRequestMerge := false;
       hydrationClusterGroup := "groupA";
       hydrationPlatformRevision := "p1";
       hydrationWorkloadRevision := "";
       hydrationBatchSize := batchSize;
       hydrationWaitTimeBetweenBatches := 30;
       hydrationSourceOfTruth := "source_of_truth.csv";
       hydrationBaseDir := "base_library/";
       hydrationOverlaysDir := "overlays/";
       hydrationOutputDir := "output";
       matchClustersHavingAnyListedTag := [];
       matchClustersHavingAllListedTags := [] |}.

Definition deployer_ (outputRepo : string) (batchSize : Z) : deployer :=
    {| req := request; dparams := parameters outputRepo batchSize |}.

End Demo.

(** [safe m]: a run of [m] does not end for want of fuel. *)
Definition safe {Ext A} (m : M Ext A) : Prop :=
  forall st, (m st).1 <> Panic fuel_exhausted.

(** ** The batches of the specification *)

(** Batch [k], counted from one, of a selection cut in batches of [B]:
    the slice from [(k-1)*B] to [min(k*B, N)]. *)
Definition batch_slice (clusters : list string) (B k : Z) : list string :=
  let N := Z.of_nat (length clusters) in
  take (Z.to_nat (Z.min (k * B) N - (k - 1) * B))
    (drop (Z.to_nat ((k - 1) * B)) clusters).

(** The batch lines of a deploy that does batches [k] to [numBatches]. *)
Definition batch_lines (d : deployer) (clusters : list string) (B numBatches : Z)
    (k : Z) (n : nat) : list event :=
  map (fun j : nat =>
         EvProcessingBatch (batch_slice clusters B (k + Z.of_nat j))
           (featureBranchName d (k + Z.of_nat j) numBatches))
    (seq 0 n).

Definition batch_events (evs : list event) : list event :=
  List.filter (fun ev => kind_eqb (kind_of ev) KBatch) evs.

(** ** The parameters of the execution environment ([params.go]) *)

Module Strconv.

Import Strings.

  (** The value of a decimal digit. *)
Definition digit (c : ascii) : option Z :=
    let n := Z.of_N (N_of_ascii c) in
    if (48 <=? n) && (n <=? 57) then Some (n - 48) else None.

Fixpoint digits (s : string) (acc : Z) : option Z :=
    match s with
    | EmptyString => Some acc
    | String c r =>
        match digit c with
        | Some v => digits r (acc * 10 + v)
        | None => None
        end
    end.

  (** [strconv.Atoi] where [int] has 64 bits, [None] standing for its
      error (a syntax or a range error, which the caller does not tell
      apart): an optional sign, then decimal digits, at least one, and a
      value that fits in an [int]. *)
Definition Atoi (s : string) : option Z :=
    match s with
    | EmptyString => None
    | String c r =>
        let neg := Ascii.eqb c "-" in
        let body := if Ascii.eqb c "-" || Ascii.eqb c "+" then r else s in
        match body with
        | EmptyString => None
        | String _ _ =>
            match digits body 0 with
            | Some n =>
                let v := if neg then - n else n in
                if (- 2 ^ 63 <=? v) && (v <? 2 ^ 63) then Some v else None
            | None => None
            end
        end
    end.

  (** [strconv.ParseBool], [None] standing for its syntax error. *)
Definition ParseBool (str : string) : option bool :=
    if Contains ["1"; "t"; "T"; "true"; "TRUE"; "True"] str then Some true
    else if Contains ["0"; "f"; "F"; "false"; "FALSE"; "False"] str then Some false
    else None.

End Strconv.

(** The environment of the process: the first entry of a name is the one
    [os.LookupEnv] finds. *)
Definition environ := list (string * string).

Fixpoint LookupEnv (e : environ) (key : string) : option string :=
  match e with
  | [] => None
  | (k, v) :: rest => if String.eqb k key then Some v else LookupEnv rest key
  end.

Definition Getenv (e : environ) (key : string) : string :=
  default "" (LookupEnv e key).

Definition gitSourceRepoEnvKey := "CLOUD_DEPLOY_customTarget_gitSourceRepo".
Definition gitSourceBranchEnvKey := "CLOUD_DEPLOY_customTarget_gitSourceBranch".
Definition gitSecretEnvKey := "CLOUD_DEPLOY_customTarget_gitSecret".
Definition gitUsernameEnvKey := "CLOUD_DEPLOY_customTarget_gitUsername".
Definition gitEmailEnvKey := "CLOUD_DEPLOY_customTarget_gitEmail".
Definition gitCommitMessageEnvKey := "CLOUD_DEPLOY_customTarget_gitCommitMessage".
Definition gitOutputRepoEnvKey := "CLOUD_DEPLOY_customTarget_gitOutputRepo".
Definition gitOutputBranchEnvKey := "CLOUD_DEPLOY_customTarget_gitOutputBranch".
Definition gitPullRequestTitleEnvKey := "CLOUD_DEPLOY_customTarget_gitPullRequestTitle".
Definition gitPullRequestBodyEnvKey := "CLOUD_DEPLOY_customTarget_gitPullRequestBody".
Definition gitEnablePullRequestMergeEnvKey :=
  "CLOUD_DEPLOY_customTarget_gitEnablePullRequestMerge".
Definition hydrationSourceOfTruthEnvKey :=
  "CLOUD_DEPLOY_customTarget_hydrationSourceOfTruth".
Definition hydrationBaseDirEnvKey := "CLOUD_DEPLOY_customTarget_hydrationBaseDir".
Definition hydrationOverlayDirEnvKey := "CLOUD_DEPLOY_customTarget_hydrationOverlayDir".
Definition hydrationOutputDirEnvKey := "CLOUD_DEPLOY_customTarget_hydrationOutputDir".
Definition hydrationClusterGroupEnvKey :=
  "CLOUD_DEPLOY_customTarget_hydrationClusterGroup".
Definition hydrationBatchSizeEnvKey := "CLOUD_DEPLOY_customTarget_hydrationBatchSize".
Definition hydrationWaitTimeBetweenBatchesEnvKey :=
  "CLOUD_DEPLOY_customTarget_hydrationWaitTimeBetweenBatches".
Definition hydrationPlatformRevisionEnvKey := "platform-revision".
Definition hydrationWorkloadRevisionEnvKey := "workload-revision".
Definition matchClustersHavingAnyListedTagEnvKey := "match-clusters-having-any-listed-tag".
Definition matchClustersHavingAllListedTagsEnvKey :=
  "match-clusters-having-all-listed-tags".

Definition defaultUsername := "Cloud Deploy".
(** [30 * time.Second], a [time.Duration] in nanoseconds. *)
Definition defaultWaitTimeBetweenBatches : Z := 30 * 1000000000.
Definition defaultSourceOfTruth := "source_of_truth.csv".
Definition defaultBaseDir := "base_library/".
Definition defaultOverlayDir := "overlays/".
Definition defaultOutputDir := "output".

Section Params.

Import Strings.

  (** [time.ParseDuration], and [strconv.Quote] on any string (it is what
      the syntax error of [strconv.ParseBool] prints its input with). *)
Variable time_ParseDuration : string -> error + Z.
Variable strconv_Quote : string -> string.

Definition required (key : string) : error :=
    ErrMsg ("parameter " +:+ Quote key +:+ " is required").

Definition failed_to_parse (key : string) (e : error) : error :=
    ErrMsg ("failed to parse parameter " +:+ Quote key +:+ ": " +:+ Error e).

Definition syntaxError (fn str : string) : error :=
    ErrMsg ("strconv." +:+ fn +:+ ": parsing " +:+ strconv_Quote str +:+ ": invalid syntax").

  (** A required parameter: [v := os.Getenv(key)], and the error when
      [len(v) == 0]. *)
Definition getRequired (e : environ) (key : string) : res string :=
    let v := Getenv e key in
    if (String.length v =? 0)%nat then Err (required key) else Ok v.

  (** An optional parameter with a default: [os.Getenv(key)], and the default
      when it is empty. *)
Definition getDefault (e : environ) (key dflt : string) : string :=
    let v := Getenv e key in
    if (String.length v =? 0)%nat then dflt else v.

Definition determineParams (e : environ) : res params :=
    let? sourceRepo := getRequired e gitSourceRepoEnvKey in
    let? outputRepo := getRequired e gitOutputRepoEnvKey in
    let? secret := getRequired e gitSecretEnvKey in
    let? srcBranch := getRequired e gitSourceBranchEnvKey in
    let? outputBranch := getRequired e gitOutputBranchEnvKey in
    let? clusterGroup := getRequired e hydrationClusterGroupEnvKey in
    let platformRevision := Getenv e hydrationPlatformRevisionEnvKey in
    let workloadRevision := Getenv e hydrationWorkloadRevisionEnvKey in
    if (String.length platformRevision =? 0)%nat && (String.length workloadRevision =? 0)%nat
    then
      Err (ErrMsg ("at least one of parameter " +:+ Quote hydrationPlatformRevisionEnvKey
                   +:+ " and " +:+ Quote hydrationWorkloadRevisionEnvKey +:+ " is required"))
    else
      let? batchSize :=
        match Strconv.Atoi (Getenv e hydrationBatchSizeEnvKey) with
        | Some n => Ok n
        | None => Err (required hydrationBatchSizeEnvKey)
        end in
      let st := Getenv e hydrationWaitTimeBetweenBatchesEnvKey in
      let? waitTime :=
        if negb (String.length st =? 0)%nat then
          match time_ParseDuration st with
          | inr w => Ok w
          | inl err => Err (failed_to_parse hydrationWaitTimeBetweenBatchesEnvKey err)
          end
        else Ok defaultWaitTimeBetweenBatches in
      let? enablePRMerge :=
        match LookupEnv e gitEnablePullRequestMergeEnvKey with
        | Some prm =>
            match Strconv.ParseBool prm with
            | Some b => Ok b
            | None =>
                Err (failed_to_parse gitEnablePullRequestMergeEnvKey
                       (syntaxError "ParseBool" prm))
            end
        | None => Ok false
        end in
      let anyListedTagValue := Getenv e matchClustersHavingAnyListedTagEnvKey in
      let allListedTagValue := Getenv e matchClustersHavingAllListedTagsEnvKey in
      Ok {| gitSourceRepo := sourceRepo;
            gitSourceBranch := srcBranch;
            gitSecret := secret;
            gitUsername := getDefault e gitUsernameEnvKey defaultUsername;
            gitEmail := Getenv e gitEmailEnvKey;
            gitCommitMessage := Getenv e gitCommitMessageEnvKey;
            gitOutputRepo := outputRepo;
            gitOutputBranch := outputBranch;
            gitPullRequestTitle := Getenv e gitPullRequestTitleEnvKey;
            gitPullRequestBody := Getenv e gitPullRequestBodyEnvKey;
            enablePullRequestMerge := enablePRMerge;
            hydrationClusterGroup := clusterGroup;
            hydrationPlatformRevision := platformRevision;
            hydrationWorkloadRevision := workloadRevision;
            hydrationBatchSize := batchSize;
            hydrationWaitTimeBetweenBatches := waitTime;
            hydrationSourceOfTruth :=
              getDefault e hydrationSourceOfTruthEnvKey defaultSourceOfTruth;
            hydrationBaseDir := getDefault e hydrationBaseDirEnvKey defaultBaseDir;
            hydrationOverlaysDir :=
              getDefault e hydrationOverlayDirEnvKey defaultOverlayDir;
            hydrationOutputDir := getDefault e hydrationOutputDirEnvKey defaultOutputDir;
            matchClustersHavingAnyListedTag :=
              if (0 <? String.length anyListedTagValue)%nat
                 && negb (String.eqb anyListedTagValue "")
              then Split COMMA anyListedTagValue else [];
            matchClustersHavingAllListedTags :=
              if (0 <? String.length matchClustersHavingAllListedTagsEnvKey)%nat
                 && negb (String.eqb allListedTagValue "")
              then Split COMMA allListedTagValue else [] |}.

End Params.

(** The required parameters, in the order [determineParams] reads them. *)
Definition requiredKeys : list string :=
  [gitSourceRepoEnvKey; gitOutputRepoEnvKey; gitSecretEnvKey; gitSourceBranchEnvKey;
   gitOutputBranchEnvKey; hydrationClusterGroupEnvKey].

(** ** Two repositories *)

(** [m] leaves the allocation counter where it is. *)
Definition keeps_heap {Ext A} (m : M Ext A) : Prop :=
  forall st, heap (m st).2 = heap st.

(** [ltally] from the states that satisfy [P]. *)
Definition ltally_from {Ext A} (K : kind) (P : State Ext -> Prop) (m : M Ext A)
    (a b : nat) : Prop :=
  forall st, P st -> exists evs,
    trace (m st).2 = trace st ++ evs /\
    (count K evs <= a + b * count KBatch evs)%nat /\
    (is_Ok (m st).1 -> count K evs = (a + b * count KBatch evs)%nat).

(** The calls of each kind that one batch makes when the output repository
    is not the source repository, and those made before the first batch. *)
Definition per_batch_two (d : deployer) (K : kind) : nat :=
  match K with
  | KConfig | KDiff | KAdd | KCommit | KPush => 2
  | KCheckout | KExists => 4
  | KCreateProvider | KOpenPR =>
      if String.eqb (gitOutputBranch (dparams d)) "" then 0 else 2
  | KMerge =>
      if String.eqb (gitOutputBranch (dparams d)) "" then 0
      else if enablePullRequestMerge (dparams d) then 2 else 0
  | KExec => 2
  | KBatch => 1
  | KClone | KPull | KOther => 0
  end.

Definition setup_calls_two (K : kind) : nat :=
  match K with
  | KClone | KConfig | KCheckout | KExists => 2
  | _ => 0
  end.

(** [latmost K m a b]: a run of [m] makes at most [a] calls of kind [K]
    plus [b] for every batch it starts. *)
Definition latmost {Ext A} (K : kind) (m : M Ext A) (a b : nat) : Prop :=
  forall st, exists evs,
    trace (m st).2 = trace st ++ evs /\
    (count K evs <= a + b * count KBatch evs)%nat.

(** ** The commands of the git steps *)

(** The state a git step leads to from [st]: the environment its last
    command has left, and the commands it has run on [repo] added to the
    trace. *)
Definition after_git {Ext} (st : State Ext) (repo : gitRepository)
    (cmds : list gitcmd) (e : Env Ext) : State Ext :=
  {| env := e; heap := heap st; trace := trace st ++ map (EvGit repo) cmds |}.

(** What it takes to bring a workspace onto [branch]: the checkout, the
    branch check and, when the check has printed something, the pull. Each
    command runs in the environment the one before has left; the first
    that fails ends the step, with the error that names it. The commands
    run, the error if there is one, and the environment left. *)
Definition branch_step {Ext} (C : Collaborators Ext) (repo : gitRepository)
    (branch : string) (e : Env Ext) : list gitcmd * option error * Env Ext :=
  let '(r1, e1) := git Ext C repo (checkoutBranch branch) e in
  match r1 with
  | inl err =>
      ([checkoutBranch branch],
       Some (Errorf ("unable to checkout branch " +:+ branch +:+ ": ") err), e1)
  | inr _ =>
      let '(r2, e2) := git Ext C repo (checkIfExists branch) e1 in
      match r2 with
      | inl err =>
          ([checkoutBranch branch; checkIfExists branch],
           Some (Errorf ("unable to check if branch " +:+ branch +:+ " exists: ") err), e2)
      | inr None => ([checkoutBranch branch; checkIfExists branch], None, e2)
      | inr (Some _) =>
          let '(r3, e3) := git Ext C repo (pull branch) e2 in
          ([checkoutBranch branch; checkIfExists branch; pull branch],
           match r3 with
           | inl err => Some (Errorf ("unable to pull branch " +:+ branch +:+ ": ") err)
           | inr _ => None
           end, e3)
      end
  end.

(** The message of the commit of [commitPushGitWorkspace]: the one
    configured, or the default that names pipeline, release and rollout. *)
Definition commit_message (d : deployer) : string :=
  if String.eqb (gitCommitMessage (dparams d)) "" then
    "Delivery Pipeline: " +:+ Pipeline (req d) +:+ " Release: " +:+ Release (req d)
    +:+ " Rollout: " +:+ Rollout (req d)
  else gitCommitMessage (dparams d).

(** Title and body of the pull request of [handleDestinationBranch]. *)
Definition pull_request_title (d : deployer) (featureBranchName : string) : string :=
  if String.eqb (gitPullRequestTitle (dparams d)) ""
  then "[Rollout Manager]: " +:+ featureBranchName
  else gitPullRequestTitle (dparams d).

Definition pull_request_body (d : deployer) : string :=
  if String.eqb (gitPullRequestBody (dparams d)) "" then
    "Project: " +:+ Project (req d) +:+
    String "010"%char ("Location: " +:+ Location (req d) +:+
    String "010"%char ("Delivery Pipeline: " +:+ Pipeline (req d) +:+
    String "010"%char ("Target: " +:+ Target (req d) +:+
    String "010"%char ("Release: " +:+ Release (req d) +:+
    String "010"%char ("Rollout: " +:+ Rollout (req d))))))
  else gitPullRequestBody (dparams d).

(** The result [process] uploads for a deploy that failed with [err]. *)
Definition failed_result {Ext} (C : Collaborators Ext) (err : error) : DeployResult :=
  {| ResultStatus := DeployFailed; FailureMessage := Error err;
     ArtifactFiles := []; Metadata := metadata C |}.

(** [process] once [deploy] has returned in the state [st1]: the result
    [dr] is uploaded, and the upload decides what [process] returns. *)
Definition process_uploads {Ext} (C : Collaborators Ext) (d : deployer)
    (st st1 : State Ext) (dr : DeployResult) (prefix : string) : Prop :=
  trace (process C d st).2 = trace st1 ++ [EvUploadResult dr] /\
  env (process C d st).2 = (req_UploadResult Ext C dr (env st1)).2 /\
  (process C d st).1
  = Ok (match (req_UploadResult Ext C dr (env st1)).1 with
        | inl e => Some (Errorf prefix e)
        | inr _ => None
        end).

(** The columns [updatePlatformAndWorkloadRepositoryRevision] asks for. *)
Definition revision_columns : list string :=
  ["cluster_name"; "platform_repository_revision"; "workload_repository_revision"].

(** ** The small world, with faults *)

Module Faults.

  (** The collaborators of [Demo], with the response of Secret Manager
      (the checksum of every payload is [7]), the answer of [detectDiff]
      and the way the renderer ends. *)
Definition collab (secret : AccessSecretVersionResponse) (diff : option string)
      (renderer : exec_outcome) : Collaborators unit :=
    {| smClient_AccessSecretVersion := fun _ e => (inr secret, e);
       crc32_Checksum := fun _ => 7;
       git := fun _ cmd e =>
         (inr (match cmd with
               | detectDiff => diff
               | checkIfExists _ => None
               | _ => Some ""
               end), e);
       exec_Command := fun _ _ _ e => (renderer, e);
       provider_CreateProvider := fun _ _ _ _ e => (inr tt, e);
       provider_OpenPullRequest := fun _ _ _ _ e => (inr 1, e);
       provider_MergePullRequest := fun _ e => (inr tt, e);
       req_UploadArtifact := fun name _ e => (inr ("gs://bucket/" +:+ name), e);
       req_UploadResult := fun _ e => (inr "gs://bucket/results.json", e);
       time_Sleep := fun _ e => e;
       csv_ReadAll := Demo.parse_csv;
       csv_Write := Demo.print_csv;
       gitDeployerSampleName := "clouddeploy-git-deployer-sample";
       CustomTargetSourceMetadataKey := "custom-target-source";
       CustomTargetSourceSHAMetadataKey := "custom-target-source-sha";
       GitCommit := "unknown" |}.

  (** A secret that does not match its checksum; a renderer that changes
      nothing; a renderer that fails. *)
Definition corrupt : Collaborators unit :=
    collab (Demo.reply "token" 8) (Some " M f") (Exited "").
Definition nodiff : Collaborators unit :=
    collab (Demo.reply "token" 7) (Some "") (Exited "").
Definition broken : Collaborators unit :=
    collab (Demo.reply "token" 7) (Some " M f") (WaitFailed (ErrMsg "exit status 1") "boom").

  (** A response without checksum, and one without payload. *)
Definition unchecked : Collaborators unit :=
    collab {| Payload := Some {| Data := "token"; DataCrc32C := None |} |}
      (Some " M f") (Exited "").
Definition empty_reply : Collaborators unit :=
    collab {| Payload := None |} (Some " M f") (Exited "").

  (** An inventory without the workload revision column. *)
Definition short_inventory : string :=
    "cluster_name,cluster_group,platform_repository_revision"
    +:+ String Demo.NL ("c1,groupA,p0"
    +:+ String Demo.NL "").

  (** The environment of a deploy, and the same without the secret. *)
Definition environment : environ :=
    [(gitSourceRepoEnvKey, "github.com/acme/repo");
     (gitOutputRepoEnvKey, "github.com/acme/repo");
     (gitSecretEnvKey, "projects/p/secrets/s/versions/1");
     (gitSourceBranchEnvKey, "main");
     (gitOutputBranchEnvKey, "main");
     (hydrationClusterGroupEnvKey, "groupA");
     (hydrationPlatformRevisionEnvKey, "p1");
     (hydrationBatchSizeEnvKey, "2");
     (gitEnablePullRequestMergeEnvKey, "true");
     (matchClustersHavingAnyListedTagEnvKey, "tag1,tag2")].

Definition environment_without_secret : environ :=
    List.filter (fun kv => negb (String.eqb kv.1 gitSecretEnvKey)) environment.

  (** A deployer for two repository references. *)
Definition deployer_from (sourceRepo outputRepo : string) : deployer :=
    {| req := Demo.request;
       dparams :=
         {| gitSourceRepo := sourceRepo;
            gitSourceBranch := "main";
            gitSecret := "projects/p/secrets/s/versions/1";
            gitUsername := "Cloud Deploy";
            gitEmail := "";
            gitCommitMessage := "";
            gitOutputRepo := outputRepo;
            gitOutputBranch := "main";
            gitPullRequestTitle := "";
            gitPullRequestBody := "";
            enablePullRequestMerge := false;
            hydrationClusterGroup := "groupA";
            hydrationPlatformRevision := "p1";
            hydrationWorkloadRevision := "";
            hydrationBatchSize := 2;
            hydrationWaitTimeBetweenBatches := 30;
            hydrationSourceOfTruth := "source_of_truth.csv";
            hydrationBaseDir := "base_library/";
            hydrationOverlaysDir := "overlays/";
            hydrationOutputDir := "output";
            matchClustersHavingAnyListedTag := [];
            matchClustersHavingAllListedTags := [] |} |}.

  (** The collaborators of [Demo], with a CSV reader that finds the
      records of the demo inventory in every file. *)
Definition fixed_reader : Collaborators unit :=
    let C := Demo.collab true true in
    {| smClient_AccessSecretVersion := smClient_AccessSecretVersion unit C;
       crc32_Checksum := crc32_Checksum unit C;
       git := git unit C;
       exec_Command := exec_Command unit C;
       provider_CreateProvider := provider_CreateProvider unit C;
       provider_OpenPullRequest := provider_OpenPullRequest unit C;
       provider_MergePullRequest := provider_MergePullRequest unit C;
       req_UploadArtifact := req_UploadArtifact unit C;
       req_UploadResult := req_UploadResult unit C;
       time_Sleep := time_Sleep unit C;
       csv_ReadAll := fun _ => inr (Demo.header :: Demo.rows);
       csv_Write := csv_Write unit C;
       gitDeployerSampleName := gitDeployerSampleName unit C;
       CustomTargetSourceMetadataKey := CustomTargetSourceMetadataKey unit C;
       CustomTargetSourceSHAMetadataKey := CustomTargetSourceSHAMetadataKey unit C;
       GitCommit := GitCommit unit C |}.

  (** A [time.ParseDuration] that knows whole seconds, written [<n>s]. *)
Definition parse_seconds (s : string) : error + Z :=
    match Strconv.Atoi (Strings.TrimRight s "s") with
    | Some n => inr (n * 1000000000)
    | None => inl (ErrMsg ("time: invalid duration " +:+ Strings.Quote s))
    end.

End Faults.

(** ** The writer of [encoding/csv] *)

Module Csv.

Import Strings.

Definition LF : ascii := "010"%char.
Definition CR : ascii := "013"%char.

Definition byte (c : ascii) : Z := Z.of_N (N_of_ascii c).

  (** [unicode.IsSpace] of the first rune of a string, as
      [utf8.DecodeRuneInString] reads it: the ASCII spaces (tab to carriage
      return, and the space), and U+0085, U+00A0, U+1680, U+2000 to U+200A,
      U+2028, U+2029, U+202F, U+205F and U+3000 in their UTF-8 encoding. *)
Definition starts_with_space (field : string) : bool :=
    match field with
    | EmptyString => false
    | String c1 r1 =>
        let b1 := byte c1 in
        if (9 <=? b1) && (b1 <=? 13) || (b1 =? 32) then true
        else
          match r1 with
          | EmptyString => false
          | String c2 r2 =>
              let b2 := byte c2 in
              if b1 =? 194 then (b2 =? 133) || (b2 =? 160)
              else
                match r2 with
                | EmptyString => false
                | String c3 _ =>
                    let b3 := byte c3 in
                    (b1 =? 225) && (b2 =? 154) && (b3 =? 128)
                    || (b1 =? 226) && (b2 =? 128)
                       && ((128 <=? b3) && (b3 <=? 138)
                           || (b3 =? 168) || (b3 =? 169) || (b3 =? 175))
                    || (b1 =? 226) && (b2 =? 129) && (b3 =? 159)
                    || (b1 =? 227) && (b2 =? 128) && (b3 =? 128)
                end
          end
    end.

  (** [fieldNeedsQuotes], for the comma as delimiter. *)
Definition fieldNeedsQuotes (field : string) : bool :=
    if String.eqb field "" then false
    else if String.eqb field "\." then true
    else if has_byte LF field || has_byte CR field || has_byte DQUOTE field
            || has_byte COMMA field then true
    else starts_with_space field.

  (** The bytes of a quoted field between its quotes: a quote is written
      twice; with [UseCRLF] off a carriage return and a line feed are
      written as they are. *)
Fixpoint escape (field : string) : string :=
    match field with
    | EmptyString => EmptyString
    | String c r =>
        if Ascii.eqb c DQUOTE then String DQUOTE (String DQUOTE (escape r))
        else String c (escape r)
    end.

Definition writeField (field : string) : string :=
    if fieldNeedsQuotes field
    then String DQUOTE (escape field) +:+ String DQUOTE EmptyString
    else field.

  (** [Write] of a [csv.Writer] as [csv.NewWriter] sets it up (the comma
      as delimiter, [UseCRLF] off): the bytes of one record. *)
Definition Write (record : list string) : string :=
    Join (map writeField record) "," +:+ String LF EmptyString.

End Csv.

(** ** More small worlds *)

Module Worlds.

  (** The collaborators of [Demo] over any external state, with git, the
      pull-request provider and the CSV writer given. *)
Definition make {Ext : Type}
      (git : gitRepository -> gitcmd -> Env Ext -> (error + option string) * Env Ext)
      (create : Env Ext -> (error + unit) * Env Ext)
      (open : Env Ext -> (error + Z) * Env Ext)
      (write : Inventory.record -> string) : Collaborators Ext :=
    {| smClient_AccessSecretVersion := fun _ e => (inr (Demo.reply "token" 7), e);
       crc32_Checksum := fun _ => 7;
       git := git;
       exec_Command := fun _ _ _ e => (Exited "", e);
       provider_CreateProvider := fun _ _ _ _ => create;
       provider_OpenPullRequest := fun _ _ _ _ => open;
       provider_MergePullRequest := fun _ e => (inr tt, e);
       req_UploadArtifact := fun name _ e => (inr ("gs://bucket/" +:+ name), e);
       req_UploadResult := fun _ e => (inr "gs://bucket/results.json", e);
       time_Sleep := fun _ e => e;
       csv_ReadAll := Demo.parse_csv;
       csv_Write := write;
       gitDeployerSampleName := "clouddeploy-git-deployer-sample";
       CustomTargetSourceMetadataKey := "custom-target-source";
       CustomTargetSourceSHAMetadataKey := "custom-target-source-sha";
       GitCommit := "unknown" |}.

  (** A git that knows one remote branch, [main], and fails on the
      commands [fails] picks. *)
Definition git_main {Ext : Type} (fails : gitcmd -> bool) (_ : gitRepository)
      (cmd : gitcmd) (e : Env Ext) : (error + option string) * Env Ext :=
    (if fails cmd then inl (ErrMsg "exit status 1")
     else inr (match cmd with
               | checkIfExists branch =>
                   if String.eqb branch "main" then Some "origin/main" else None
               | detectDiff => Some " M source_of_truth.csv"
               | _ => Some ""
               end), e).

Definition is_config (cmd : gitcmd) : bool :=
    match cmd with config => true | _ => false end.
Definition is_commit (cmd : gitcmd) : bool :=
    match cmd with commit _ => true | _ => false end.
Definition is_pull (cmd : gitcmd) : bool :=
    match cmd with pull _ => true | _ => false end.
Definition none (cmd : gitcmd) : bool := false.

  (** A world whose git fails on the commands [fails] picks. *)
Definition failing (fails : gitcmd -> bool) : Collaborators unit :=
    make (git_main fails) (fun e => (inr tt, e)) (fun e => (inr 1, e)) Demo.print_csv.

  (** A world where no provider can be made. *)
Definition no_provider : Collaborators unit :=
    make (git_main none) (fun e => (inl (ErrMsg "unknown host"), e))
      (fun e => (inr 1, e)) Demo.print_csv.

  (** A world whose provider numbers the pull requests: the external state
      is the number of the next one. *)
Definition numbering : Collaborators Z :=
    make (git_main none) (fun e => (inr tt, e))
      (fun e => (inr (ext e),
                 {| root := root e; cwd := cwd e; prot := prot e; ext := ext e + 1 |}))
      Demo.print_csv.

Definition state_numbered (next : Z) : State Z :=
    {| env := {| root := Demo.tree Demo.inventory; cwd := []; prot := []; ext := next |};
       heap := 0; trace := [] |}.

  (** The world of [Demo] with the writer of [encoding/csv], and an
      inventory with a space after a comma. *)
Definition quoting : Collaborators unit :=
    make (git_main none) (fun e => (inr tt, e)) (fun e => (inr 1, e)) Csv.Write.

Definition spaced_inventory : string :=
    "cluster_name,cluster_group,cluster_tags,platform_repository_revision,workload_repository_revision"
    +:+ String Demo.NL ("c1,groupA,tag1,p0,w0"
    +:+ String Demo.NL ("c2, groupB,tag1,p0,w0"
    +:+ String Demo.NL "")).

Definition spaced_rows : list (list string) :=
    [["c1"; "groupA"; "tag1"; "p0"; "w0"];
     ["c2"; " groupB"; "tag1"; "p0"; "w0"]].

  (** The environment of [Faults], with another batch size. *)
Definition environment_with_batch_size (size : string) : environ :=
    (hydrationBatchSizeEnvKey, size) :: Faults.environment.

End Worlds.

Module FromEnvironment.

  (** What [determineParams] reads in [Faults.environment]. *)
Definition parameters : params :=
    {| gitSourceRepo := "github.com/acme/repo";
       gitSourceBranch := "main";
       gitSecret := "projects/p/secrets/s/versions/1";
       gitUsername := "Cloud Deploy";
       gitEmail := "";
       gitCommitMessage := "";
       gitOutputRepo := "github.com/acme/repo";
       gitOutputBranch := "main";
       gitPullRequestTitle := "";
       gitPullRequestBody := "";
       enablePullRequestMerge := true;
       hydrationClusterGroup := "groupA";
       hydrationPlatformRevision := "p1";
       hydrationWorkloadRevision := "";
       hydrationBatchSize := 2;
       hydrationWaitTimeBetweenBatches := 30000000000;
       hydrationSourceOfTruth := "source_of_truth.csv";
       hydrationBaseDir := "base_library/";
       hydrationOverlaysDir := "overlays/";
       hydrationOutputDir := "output";
       matchClustersHavingAnyListedTag := ["tag1"; "tag2"];
       matchClustersHavingAllListedTags := [] |}.

Definition deployer_ : deployer := {| req := Demo.request; dparams := parameters |}.

End FromEnvironment.

Local Close Scope Z_scope.

(** * The inventory *)

Section InventoryFacts.

Import Strings Inventory InventorySpec.

Lemma Contains_true (l : list string) (x : string) :
    Contains l x = true ↔ x ∈ l.
Proof.
    unfold Contains. rewrite existsb_exists. split.
    - intros (y & Hy & Heq). apply String.eqb_eq in Heq. subst.
      by apply list_elem_of_In.
    - intros H. exists x. split; [by apply list_elem_of_In | apply String.eqb_refl].
Qed.

Lemma Contains_false (l : list string) (x : string) :
    Contains l x = false ↔ x ∉ l.
Proof.
    rewrite <- Contains_true. destruct (Contains l x); naive_solver.
Qed.

Lemma length_pos_nonempty (s : string) :
    (0 <? String.length s)%nat = negb (String.eqb s "").
Proof. by destruct s. Qed.

Lemma indexOf_Some (header : record) field i j :
    indexOf header field i = Some j →
    ∃ k, j = (i + k)%nat ∧ header !! k = Some field ∧
         ∀ k', (k' < k)%nat → header !! k' ≠ Some field.
Proof.
    revert i. induction header as [|h t IH]; intros i; simpl; [done|].
    destruct (String.eqb_spec h field) as [->|Hne].
    - intros [= <-]. exists 0%nat. split; [lia|]. split; [done|]. intros; lia.
    - intros H. destruct (IH _ H) as (k & -> & Hk & Hmin).
      exists (S k). split; [lia|]. split; [done|].
      intros [|k'] Hlt; simpl; [congruence|]. apply Hmin. lia.
Qed.

Lemma indexOf_None (header : record) field i :
    indexOf header field i = None ↔ field ∉ header.
Proof.
    revert i. induction header as [|h t IH]; intros i; simpl.
    - split; [intros _; apply not_elem_of_nil | done].
    - destruct (String.eqb_spec h field) as [->|Hne].
      + split; [done|]. intros H. exfalso. apply H. left.
      + rewrite IH. rewrite not_elem_of_cons. naive_solver.
Qed.

Lemma indexOf_present (header : record) field :
    field ∈ header → ∃ i, indexOf header field 0 = Some i.
Proof.
    intros Hin. destruct (indexOf header field 0) eqn:E; [eauto|].
    by apply indexOf_None in E.
Qed.

Lemma indexOf_header (header : record) field i :
    indexOf header field 0 = Some i → header !! i = Some field.
Proof.
    intros H. apply indexOf_Some in H as (k & -> & Hk & _). done.
Qed.

Lemma indexOf_lt (header : record) field i :
    indexOf header field 0 = Some i → (i < length header)%nat.
Proof. intros H. apply indexOf_header in H. by eapply lookup_lt_Some. Qed.

Lemma indexOf_distinct (header : record) f1 f2 i1 i2 :
    f1 ≠ f2 →
    indexOf header f1 0 = Some i1 → indexOf header f2 0 = Some i2 → i1 ≠ i2.
Proof.
    intros Hne H1 H2 ->. apply indexOf_header in H1, H2. congruence.
Qed.

Lemma findFieldIndices_fold (header : record) fields ind miss :
    ∃ ind',
      fold_left (findFieldIndices_step header) fields (ind, miss)
      = (ind', miss ++ missing_fields header fields) ∧
      ∀ f, f ∈ fields → f ∈ header → ind' !! f = indexOf header f 0.
Proof.
    revert ind miss. induction fields as [|f fs IH]; intros ind miss.
    - exists ind. simpl. rewrite app_nil_r. split; [done|].
      intros f Hf. by apply elem_of_nil in Hf.
    - cbn [fold_left]. unfold missing_fields. cbn [List.filter].
      fold (missing_fields header fs).
      assert (findFieldIndices_step header (ind, miss) f
              = match indexOf header f 0 with
                | Some i => (<[f:=i]> ind, miss)
                | None => (ind, miss ++ [f])
                end) as -> by done.
      destruct (indexOf header f 0) as [i|] eqn:E.
      + assert (Contains header f = true) as ->.
        { apply Contains_true. destruct (decide (f ∈ header)); [done|].
          apply indexOf_None with (i:=0%nat) in n. congruence. }
        simpl. destruct (IH (<[f:=i]> ind) miss) as (ind' & Hfold & Hlk).
        exists ind'. split; [done|].
        intros g Hg Hgh. apply elem_of_cons in Hg as [->|Hg]; [|by apply Hlk].
        destruct (decide (f ∈ fs)); [by apply Hlk|].
        (* the entry written for [g] survives the rest of the loop *)
        clear Hlk IH. rewrite E.
        assert (∀ fs ind0 miss0 ind1 miss1,
                  f ∉ fs →
                  fold_left (findFieldIndices_step header) fs (ind0, miss0) = (ind1, miss1) →
                  ind1 !! f = ind0 !! f) as Hkeep.
        { clear. induction fs as [|f' fs IH]; intros ind0 miss0 ind1 miss1 Hn;
            cbn [fold_left].
          - by intros [= <- <-].
          - apply not_elem_of_cons in Hn as [Hne Hn].
            assert (findFieldIndices_step header (ind0, miss0) f'
                    = match indexOf header f' 0 with
                      | Some i => (<[f':=i]> ind0, miss0)
                      | None => (ind0, miss0 ++ [f'])
                      end) as -> by done.
            destruct (indexOf header f' 0).
            + intros H. erewrite IH by eauto. by rewrite lookup_insert_ne.
            + intros H. by erewrite IH by eauto. }
        erewrite Hkeep by eauto. by rewrite lookup_insert_eq.
      + assert (Contains header f = false) as ->.
        { apply Contains_false. by eapply indexOf_None. }
        simpl. destruct (IH ind (miss ++ [f])) as (ind' & Hfold & Hlk).
        exists ind'. rewrite <- app_assoc in Hfold. split; [done|].
        intros g Hg Hgh. apply elem_of_cons in Hg as [->|Hg]; [|by apply Hlk].
        apply indexOf_None in E. done.
Qed.

Lemma findFieldIndices_empty_header fields :
    findFieldIndices [] fields = Err (FieldsNotFoundError fields).
Proof. done. Qed.

  (** A header that lacks a requested column: the error names the missing
      columns, and only them, in the order requested. *)
Lemma findFieldIndices_missing (header : record) fields :
    header ≠ [] → missing_fields header fields ≠ [] →
    findFieldIndices header fields
    = Err (FieldsNotFoundError (missing_fields header fields)).
Proof.
    intros Hh Hm. unfold findFieldIndices.
    destruct header as [|h t]; [done|]. cbn [length Nat.eqb].
    destruct (findFieldIndices_fold (h :: t) fields ∅ []) as (ind' & -> & _).
    cbn [app]. destruct (missing_fields (h :: t) fields); done.
Qed.

Lemma missing_fields_nil (header : record) fields :
    missing_fields header fields = [] ↔ ∀ f, f ∈ fields → f ∈ header.
Proof.
    unfold missing_fields. induction fields as [|f fs IH]; simpl.
    - split; [|done]. intros _ f Hf. by apply elem_of_nil in Hf.
    - destruct (Contains header f) eqn:E; simpl.
      + rewrite IH. apply Contains_true in E. split.
        * intros H g Hg. apply elem_of_cons in Hg as [->|]; auto.
        * intros H g Hg. apply H. by right.
      + split; [done|]. intros H. apply Contains_false in E.
        exfalso. apply E, H. left.
Qed.

Lemma missing_fields_spec (header : record) fields f :
    f ∈ missing_fields header fields ↔ f ∈ fields ∧ f ∉ header.
Proof.
    unfold missing_fields. rewrite list_elem_of_In, filter_In, <- list_elem_of_In.
    rewrite negb_true_iff, Contains_false. done.
Qed.

Lemma findFieldIndices_Ok (header : record) fields :
    (∀ f, f ∈ fields → f ∈ header) → header ≠ [] →
    ∃ ind, findFieldIndices header fields = Ok ind ∧
           ∀ f, f ∈ fields → ind !! f = indexOf header f 0.
Proof.
    intros Hall Hh. unfold findFieldIndices.
    destruct header as [|h t]; [done|]. cbn [length Nat.eqb].
    destruct (findFieldIndices_fold (h :: t) fields ∅ []) as (ind' & -> & Hlk).
    apply missing_fields_nil in Hall as Hm. rewrite Hm. simpl.
    exists ind'. split; [done|]. intros f Hf. apply Hlk; auto.
Qed.

Lemma at_key_indexOf (header : record) ind f i :
    ind !! f = indexOf header f 0 → indexOf header f 0 = Some i →
    at_key ind f = i.
Proof. unfold at_key. intros -> ->. done. Qed.

Lemma index_nth (row : record) i :
    (i < length row)%nat → index row i = Ok (nth i row "").
Proof.
    intros H. unfold index.
    destruct (lookup_lt_is_Some_2 _ _ H) as [x Hx]. rewrite Hx.
    f_equal. symmetry. by apply nth_lookup_Some.
Qed.

Lemma tagPolicyb_spec matchAny matchAll tags :
    tagPolicyb matchAny matchAll tags = true ↔ tagPolicy matchAny matchAll tags.
Proof.
    unfold tagPolicyb, tagPolicy.
    destruct matchAny as [|a any].
    - destruct matchAll as [|b all].
      + destruct (decide ([] ≠ [])) as [?|_]; [congruence|by split].
      + destruct (decide ([] ≠ [])) as [?|_]; [congruence|].
        destruct (decide (b :: all ≠ [])) as [_|?]; [|exfalso; naive_solver].
        rewrite forallb_forall. split.
        * intros H t Ht. apply Contains_true, H. by apply list_elem_of_In.
        * intros H t Ht. apply Contains_true, H. by apply list_elem_of_In.
    - destruct (decide (a :: any ≠ [])) as [_|?]; [|exfalso; naive_solver].
      rewrite existsb_exists. split.
      + intros (t & Ht & Hc). exists t. split; [by apply list_elem_of_In|].
        by apply Contains_true.
      + intros (t & Ht & Hc). exists t. split; [by apply list_elem_of_In|].
        by apply Contains_true.
Qed.

Section Rows.

Variables (header : record) (ni gi ti : nat).
Hypothesis Hni : indexOf header "cluster_name" 0 = Some ni.
Hypothesis Hgi : indexOf header "cluster_group" 0 = Some gi.
Hypothesis Hti : indexOf header "cluster_tags" 0 = Some ti.

Lemma selectRow_spec clusterGroup matchAny matchAll acc (row : record) :
      length row = length header →
      selectRow ni gi ti clusterGroup matchAny matchAll acc row
      = Ok (if selected header clusterGroup matchAny matchAll row
            then acc ++ [column header "cluster_name" row] else acc).
Proof using Hni Hgi Hti.
      intros Hlen. unfold selectRow, selected, column, tagSet.
      rewrite Hni, Hgi, Hti.
      rewrite !index_nth by (rewrite Hlen; eauto using indexOf_lt).
      cbn [rbind].
      destruct (String.eqb clusterGroup (nth gi row "")); cbn [negb andb]; [|done].
      destruct matchAny as [|a any], matchAll as [|b all]; cbn;
        unfold matchesAnyTags, matchesAllTags; cbn;
        repeat match goal with |- context [if ?b then _ else _] => destruct b end; done.
Qed.

Lemma selectRows_spec clusterGroup matchAny matchAll acc (rows : list record) :
      Forall (fun row : record => length row = length header) rows →
      selectRows ni gi ti clusterGroup matchAny matchAll acc rows
      = Ok (acc ++ SelectClusters header rows clusterGroup matchAny matchAll).
Proof using Hni Hgi Hti.
      intros Hrows. revert acc.
      induction Hrows as [|row rows Hlen _ IH]; intros acc; simpl.
      - unfold SelectClusters. simpl. by rewrite app_nil_r.
      - rewrite selectRow_spec by done. cbn [rbind]. rewrite IH.
        unfold SelectClusters. simpl.
        destruct (selected header clusterGroup matchAny matchAll row); simpl; [|done].
        by rewrite <- app_assoc.
Qed.

End Rows.

Lemma required_present (header : record) (fields : list string) :
    (∀ f, f ∈ fields → f ∈ header) → fields ≠ [] → header ≠ [].
Proof.
    intros H Hf ->. destruct fields as [|f fs]; [done|].
    specialize (H f ltac:(left)). by apply elem_of_nil in H.
Qed.

  (** From the point where the records are read, the selection is the
      one of the specification. *)
Lemma selectClusters_spec (header : record) (rows : list record)
      clusterGroup matchAny matchAll :
    (∀ f, f ∈ ["cluster_name"; "cluster_group"; "cluster_tags"] → f ∈ header) →
    Forall (fun row : record => length row = length header) rows →
    selectClusters (header :: rows) clusterGroup matchAny matchAll
    = Ok (SelectClusters header rows clusterGroup matchAny matchAll).
Proof.
    intros Hreq Hrows. unfold selectClusters. cbn [index lookup list_lookup rbind].
    destruct (findFieldIndices_Ok header _ Hreq) as (ind & -> & Hind).
    { by eapply required_present. }
    cbn [rbind].
    destruct (indexOf_present header "cluster_name") as [ni Hni]; [apply Hreq; set_solver|].
    destruct (indexOf_present header "cluster_group") as [gi Hgi]; [apply Hreq; set_solver|].
    destruct (indexOf_present header "cluster_tags") as [ti Hti]; [apply Hreq; set_solver|].
    rewrite (at_key_indexOf header ind _ ni), (at_key_indexOf header ind _ gi),
      (at_key_indexOf header ind _ ti); try done; try (apply Hind; set_solver).
    cbn [drop]. by rewrite (selectRows_spec header ni gi ti).
Qed.

Lemma selected_spec (header : record) clusterGroup matchAny matchAll (row : record) :
    selected header clusterGroup matchAny matchAll row = true ↔
    column header "cluster_group" row = clusterGroup ∧
    tagPolicy matchAny matchAll (tagSet (column header "cluster_tags" row)).
Proof.
    unfold selected. rewrite andb_true_iff, String.eqb_eq, tagPolicyb_spec. naive_solver.
Qed.

Lemma selectClusters_empty clusterGroup matchAny matchAll :
    selectClusters [] clusterGroup matchAny matchAll = Panic index_out_of_range.
Proof. done. Qed.

Section Update.

Variables (header : record) (ni pi wi : nat).
Hypothesis Hni : indexOf header "cluster_name" 0 = Some ni.
Hypothesis Hpi : indexOf header "platform_repository_revision" 0 = Some pi.
Hypothesis Hwi : indexOf header "workload_repository_revision" 0 = Some wi.

Lemma updateRecord_spec clusterNames platformRev workloadRev (row : record) :
      length row = length header →
      updateRecord ni pi wi clusterNames platformRev workloadRev row
      = Ok (updated_row header clusterNames platformRev workloadRev row).
Proof using Hni Hpi Hwi.
      intros Hlen.
      assert (ni ≠ pi) as Hnp by (eapply indexOf_distinct; [|apply Hni|apply Hpi]; done).
      assert (ni < length row)%nat as Hn by (rewrite Hlen; eauto using indexOf_lt).
      assert (pi < length row)%nat as Hp by (rewrite Hlen; eauto using indexOf_lt).
      assert (wi < length row)%nat as Hw by (rewrite Hlen; eauto using indexOf_lt).
      unfold updateRecord, updated_row, targeted, column. rewrite Hni, Hpi, Hwi.
      cbn [default from_option id]. rewrite index_nth by done. cbn [rbind].
      rewrite !length_pos_nonempty.
      destruct (Contains clusterNames (nth ni row "")) eqn:Ht; cbn [andb].
      - destruct (negb (String.eqb platformRev "")); cbn [rbind].
        + unfold assign at 1. apply Nat.ltb_lt in Hp as Hp'. rewrite Hp'. cbn [rbind].
          rewrite index_nth by (by rewrite length_insert).
          cbn [rbind].
          assert (nth ni (<[pi:=platformRev]> row) "" = nth ni row "") as ->.
          { apply nth_lookup_Some with (d:=""). rewrite list_lookup_insert_ne by done.
            destruct (lookup_lt_is_Some_2 _ _ Hn) as [x Hx]. rewrite Hx.
            f_equal. symmetry. by apply nth_lookup_Some. }
          rewrite Ht. cbn [andb].
          destruct (negb (String.eqb workloadRev "")); [|done].
          unfold assign. rewrite length_insert.
          apply Nat.ltb_lt in Hw as Hw'. by rewrite Hw'.
        + rewrite index_nth by done. cbn [rbind]. rewrite Ht. cbn [andb].
          destruct (negb (String.eqb workloadRev "")); [|done].
          unfold assign. apply Nat.ltb_lt in Hw as Hw'. by rewrite Hw'.
      - cbn [rbind]. rewrite index_nth by done. cbn [rbind]. rewrite Ht. done.
Qed.

Lemma updateRecords_spec clusterNames platformRev workloadRev written
        (records : list record) :
      Forall (fun row : record => length row = length header) records →
      updateRecords ni pi wi clusterNames platformRev workloadRev written records
      = (written ++ map (updated_row header clusterNames platformRev workloadRev) records,
         Ok tt).
Proof using Hni Hpi Hwi.
      intros Hall. revert written.
      induction Hall as [|row rows Hlen _ IH]; intros written; simpl.
      - by rewrite app_nil_r.
      - rewrite updateRecord_spec by done. rewrite IH. by rewrite <- app_assoc.
Qed.

Lemma updated_row_length clusterNames platformRev workloadRev (row : record) :
      length (updated_row header clusterNames platformRev workloadRev row) = length row.
Proof.
      unfold updated_row.
      repeat match goal with |- context [if ?b then _ else _] => destruct b end;
        by rewrite ?length_insert.
Qed.

Lemma updated_row_frame clusterNames platformRev workloadRev (records : list record) :
      Forall (fun row : record => length row = length header) records →
      revisions_updated header clusterNames platformRev workloadRev records
        (map (updated_row header clusterNames platformRev workloadRev) records).
Proof using Hni Hpi Hwi.
      intros Hall. split; [by rewrite length_map|].
      intros pi' wi' Hpi' Hwi' i row Hrow.
      assert (pi' = pi) as -> by congruence. assert (wi' = wi) as -> by congruence.
      assert (pi ≠ wi) as Hpw by (eapply indexOf_distinct; [|apply Hpi|apply Hwi]; done).
      assert (length row = length header) as Hlen.
      { rewrite Forall_forall in Hall. apply Hall.
        by eapply list_elem_of_lookup_2. }
      assert (pi < length row)%nat as Hp by (rewrite Hlen; eauto using indexOf_lt).
      assert (wi < length row)%nat as Hw by (rewrite Hlen; eauto using indexOf_lt).
      exists (updated_row header clusterNames platformRev workloadRev row).
      split; [by rewrite list_lookup_fmap, Hrow|].
      split; [apply updated_row_length|].
      unfold updated_row. rewrite Hpi, Hwi. cbn [default from_option id].
      destruct (targeted header clusterNames row); cbn [andb].
      - split; [done|].
        destruct (negb (String.eqb platformRev "")), (negb (String.eqb workloadRev ""));
          (split; [intros j Hj1 Hj2; by rewrite ?list_lookup_insert_ne by done|]);
          split;
          rewrite ?list_lookup_insert_eq by (by rewrite ?length_insert);
          rewrite ?list_lookup_insert_ne by done;
          rewrite ?list_lookup_insert_eq by (by rewrite ?length_insert); done.
      - done.
Qed.

End Update.

End InventoryFacts.

(** * Byte strings and paths *)

Section StringFacts.

Import Strings.

Lemma Split_nonempty c s : Split c s ≠ [].
Proof.
    destruct s as [|a s]; simpl; [done|].
    destruct (Ascii.eqb a c); [done|]. by destruct (Split c s).
Qed.

Lemma Split_app c (a b : string) :
    Split c (a +:+ String c b) = Split c a ++ Split c b.
Proof.
    induction a as [|x a IH]; simpl.
    - by rewrite Ascii.eqb_refl.
    - destruct (Ascii.eqb x c); [by rewrite IH|].
      rewrite IH. pose proof (Split_nonempty c a).
      by destruct (Split c a).
Qed.

Lemma Split_no_sep c s : has_byte c s = false → Split c s = [s].
Proof.
    induction s as [|a s IH]; simpl; [done|].
    intros H. apply orb_false_iff in H as [-> H]. by rewrite IH.
Qed.

Lemma Split_elems c s : Forall (fun e => has_byte c e = false) (Split c s).
Proof.
    induction s as [|a s IH]; simpl.
    - by repeat constructor.
    - destruct (Ascii.eqb a c) eqn:E; [by constructor|].
      pose proof (Split_nonempty c s).
      destruct (Split c s) as [|h t]; [done|].
      apply Forall_cons in IH as [Hh Ht]. constructor; [|done].
      simpl. by rewrite E.
Qed.

Lemma Split_Join (xs : list string) :
    xs ≠ [] → Forall (fun e => has_byte SLASH e = false) xs →
    Split SLASH (Join xs "/") = xs.
Proof.
    induction xs as [|x xs IH]; [done|]. intros _ Hall.
    apply Forall_cons in Hall as [Hx Hxs].
    destruct xs as [|y ys].
    - by apply Split_no_sep.
    - change (Join (x :: y :: ys) "/")
        with (x +:+ String SLASH (Join (y :: ys) "/")).
      rewrite Split_app, Split_no_sep by done.
      cbn [app]. f_equal. by apply IH.
Qed.

End StringFacts.

Section PathFacts.

Import Strings Filepath.

Lemma plain_name_spec k :
    FS.plain_name k = true ↔
    k ≠ "" ∧ k ≠ "." ∧ k ≠ ".." ∧ has_byte SLASH k = false.
Proof.
    unfold FS.plain_name. rewrite !andb_true_iff, !negb_true_iff, !String.eqb_neq.
    naive_solver.
Qed.

Lemma walk_step_plain stack k :
    FS.plain_name k = true → FS.walk_step stack k = k :: stack.
Proof.
    intros (H1 & H2 & H3 & _)%plain_name_spec. unfold FS.walk_step.
    apply String.eqb_neq in H1, H2, H3. by rewrite H1, H2, H3.
Qed.

Lemma walk_step_real stack e :
    e ≠ "" → e ≠ "." → e ≠ ".." → FS.walk_step stack e = e :: stack.
Proof.
    intros H1 H2 H3. unfold FS.walk_step.
    apply String.eqb_neq in H1, H2, H3. by rewrite H1, H2, H3.
Qed.

Lemma clean_step_walk (r : bool) (I out : list string) (e : string) :
    (r = true → I = []) → has_byte SLASH e = false → clean_inv r out →
    clean_inv r (clean_step r out e) ∧
    fold_left FS.walk_step (rev (clean_step r out e)) I
    = FS.walk_step (fold_left FS.walk_step (rev out) I) e.
Proof.
    intros HI He [Hall Hdd]. unfold clean_step, FS.walk_step at 2.
    destruct (String.eqb_spec e "") as [->|Hne]; [done|].
    destruct (String.eqb_spec e ".") as [->|Hnd]; [done|].
    destruct (String.eqb_spec e "..") as [->|Hndd].
    - destruct out as [|top below].
      + destruct r; simpl.
        * by rewrite HI.
        * split; [|done]. split; [|done]. by repeat constructor.
      + apply Forall_cons in Hall as [(Ht1 & Ht2 & Ht3) Hbelow].
        destruct (String.eqb_spec top "..") as [->|Htop].
        * destruct r.
          -- exfalso. apply Hdd; [done|left].
          -- split.
             ++ split; [|done]. repeat constructor; done.
             ++ cbn [rev]. by rewrite fold_left_app.
        * split.
          -- split; [done|]. intros Hr Hin. apply (Hdd Hr). by right.
          -- cbn [rev]. rewrite fold_left_app. cbn [fold_left].
             by rewrite walk_step_real.
    - split.
      + split; [by constructor|]. intros Hr Hin.
        apply elem_of_cons in Hin as [?|?]; [done|by apply Hdd].
      + cbn [rev]. rewrite fold_left_app. cbn [fold_left].
        by rewrite walk_step_real.
Qed.

Lemma clean_fold_walk (r : bool) (I : list string) (es out : list string) :
    (r = true → I = []) → Forall (fun e => has_byte SLASH e = false) es →
    clean_inv r out →
    clean_inv r (fold_left (clean_step r) es out) ∧
    fold_left FS.walk_step (rev (fold_left (clean_step r) es out)) I
    = fold_left FS.walk_step es (fold_left FS.walk_step (rev out) I).
Proof.
    intros HI Hes. revert out.
    induction Hes as [|e es He _ IH]; intros out Hinv; [done|].
    cbn [fold_left].
    destruct (clean_step_walk r I out e HI He Hinv) as [Hinv' Heq].
    destruct (IH _ Hinv') as [Hinv'' Heq']. split; [done|].
    by rewrite Heq', Heq.
Qed.

Lemma rooted_Join_false e rest :
    e ≠ "" → has_byte SLASH e = false → rooted (Strings.Join (e :: rest) "/") = false.
Proof.
    intros Hne Hs. destruct e as [|a e]; [done|].
    simpl in Hs. apply orb_false_iff in Hs as [Ha _].
    destruct rest; simpl; by rewrite Ha.
Qed.

Lemma Clean_nonempty s : Clean s ≠ "".
Proof.
    unfold Clean. destruct (String.eqb s ""); [done|].
    destruct (rooted s); [done|].
    destruct (rev _) as [|e rest] eqn:E; [done|].
    intros H. destruct rest; simpl in H.
    - subst e. assert (clean_inv false (fold_left (clean_step false) (Split SLASH s) [])) as [Hall _].
      { apply (clean_fold_walk false []); [done|apply Split_elems|].
        split; [apply Forall_nil_2|done]. }
      apply Forall_rev in Hall. rewrite E in Hall.
      apply Forall_cons in Hall as [(? & _) _]. done.
    - destruct e; simpl in H; done.
Qed.

  (** Name resolution does not see the difference between a path and its
      clean form. *)
Lemma resolve_Clean cwd s : s ≠ "" → FS.resolve cwd (Clean s) = FS.resolve cwd s.
Proof.
    intros Hs. unfold FS.resolve at 1.
    destruct (String.eqb_spec (Clean s) "") as [H|_]; [by apply Clean_nonempty in H|].
    unfold FS.resolve. apply String.eqb_neq in Hs as Hs'. rewrite Hs'.
    f_equal. f_equal. unfold Clean. rewrite Hs'.
    set (I := if rooted s then [] else rev cwd).
    destruct (clean_fold_walk (rooted s) I (Split SLASH s) []) as [[Hall Hdd] Heq].
    { unfold I. by intros ->. }
    { apply Split_elems. }
    { split; [apply Forall_nil_2|]. intros _ H. by apply elem_of_nil in H. }
    cbn [rev fold_left] in Heq. rewrite <- Heq.
    set (out' := fold_left (clean_step (rooted s)) (Split SLASH s) []) in *.
    apply Forall_rev in Hall.
    destruct (rooted s) eqn:Hr.
    - cbn [rooted]. rewrite Ascii.eqb_refl. cbn [Split]. rewrite Ascii.eqb_refl.
      cbn [fold_left]. unfold FS.walk_step at 2. cbn [String.eqb].
      destruct (rev out') as [|e rest] eqn:E; [done|].
      rewrite Split_Join; [done|done|].
      eapply Forall_impl; [apply Hall|]. naive_solver.
    - destruct (rev out') as [|e rest] eqn:E; [done|].
      apply Forall_cons in Hall as Hall'. destruct Hall' as [(He1 & He2 & He3) Hrest].
      rewrite rooted_Join_false by done.
      rewrite Split_Join; [done|done|].
      eapply Forall_impl; [apply Hall|]. naive_solver.
Qed.

Lemma rooted_append (a b : string) : a ≠ "" → rooted (a +:+ b) = rooted a.
Proof. by destruct a. Qed.

  (** The path of an entry of a directory. *)
Lemma resolve_Join cwd directory name q :
    FS.plain_name name = true →
    FS.resolve cwd directory = Some q →
    FS.resolve cwd (Join directory name) = Some (q ++ [name]).
Proof.
    intros Hname Hres. unfold Join.
    assert (directory ≠ "") as Hd.
    { intros ->. by unfold FS.resolve in Hres. }
    apply String.eqb_neq in Hd as Hd'. rewrite Hd'. cbn [negb].
    assert (directory +:+ "/" +:+ name ≠ "") as Hne by (by destruct directory).
    rewrite resolve_Clean by done.
    unfold FS.resolve in *. rewrite Hd' in Hres.
    apply String.eqb_neq in Hne as ->.
    rewrite rooted_append by done.
    change (directory +:+ "/" +:+ name) with (directory +:+ String SLASH name).
    rewrite Split_app, fold_left_app.
    apply plain_name_spec in Hname as Hn. destruct Hn as (_ & _ & _ & Hsl).
    rewrite (Split_no_sep _ name) by done. cbn [fold_left].
    rewrite walk_step_plain by done. cbn [rev].
    injection Hres as <-. done.
Qed.

End PathFacts.

(** * The file system *)

Section TreeFacts.

Import FS.

Lemma node_induction (P : node → Prop) :
    (∀ data, P (File data)) →
    (∀ es, Forall (fun kc => P kc.2) es → P (Dir es)) →
    ∀ n, P n.
Proof.
    intros Hf Hd. fix IH 1. intros [data|es]; [apply Hf|].
    apply Hd. induction es as [|[k c] es IHes]; constructor; [apply IH|apply IHes].
Qed.

Lemma assoc_replace_same k n c es :
    assoc k es = Some c → assoc k (replace_entry k n es) = Some n.
Proof.
    induction es as [|[k' c'] es IH]; simpl; [done|].
    destruct (String.eqb k' k) eqn:E; simpl; rewrite E; [done|apply IH].
Qed.

Lemma replace_replace k n1 n2 es :
    replace_entry k n2 (replace_entry k n1 es) = replace_entry k n2 es.
Proof.
    induction es as [|[k' c'] es IH]; simpl; [done|].
    destruct (String.eqb k' k) eqn:E; simpl; rewrite E; [done|by rewrite IH].
Qed.

Lemma replace_same k c es : assoc k es = Some c → replace_entry k c es = es.
Proof.
    induction es as [|[k' c'] es IH]; simpl; [done|].
    destruct (String.eqb_spec k' k) as [->|Hne].
    - by intros [= ->].
    - intros H. by rewrite IH.
Qed.

Lemma assoc_app_notin k (pre rest : list (string * node)) :
    k ∉ names pre → assoc k (pre ++ rest) = assoc k rest.
Proof.
    induction pre as [|[k' c'] pre IH]; simpl; [done|].
    intros [Hne Hn]%not_elem_of_cons.
    destruct (String.eqb_spec k' k) as [->|_]; [done|]. by apply IH.
Qed.

Lemma replace_app_notin k n (pre rest : list (string * node)) :
    k ∉ names pre → replace_entry k n (pre ++ rest) = pre ++ replace_entry k n rest.
Proof.
    induction pre as [|[k' c'] pre IH]; simpl; [done|].
    intros [Hne Hn]%not_elem_of_cons.
    destruct (String.eqb_spec k' k) as [->|_]; [done|]. by rewrite IH.
Qed.

Lemma del_app_notin k (pre rest : list (string * node)) :
    k ∉ names pre → del_entry k (pre ++ rest) = pre ++ del_entry k rest.
Proof.
    induction pre as [|[k' c'] pre IH]; simpl; [done|].
    intros [Hne Hn]%not_elem_of_cons.
    destruct (String.eqb_spec k' k) as [->|_]; [done|]. by rewrite IH.
Qed.

Lemma put_entry_present k n c es :
    assoc k es = Some c → put_entry k n es = replace_entry k n es.
Proof. unfold put_entry. by intros ->. Qed.

Lemma assoc_put_present k n c es :
    assoc k es = Some c → assoc k (put_entry k n es) = Some n.
Proof.
    intros H. rewrite (put_entry_present _ _ _ _ H). by eapply assoc_replace_same.
Qed.

Lemma lookup_app t p q :
    lookup t (p ++ q) = match lookup t p with Some n => lookup n q | None => None end.
Proof.
    revert t. induction p as [|a p IH]; intros t; simpl; [done|].
    destruct t as [|es]; [done|]. destruct (assoc a es); [apply IH|done].
Qed.

Lemma lookup_child t p es k :
    lookup t p = Some (Dir es) → lookup t (p ++ [k]) = assoc k es.
Proof.
    intros H. rewrite lookup_app, H. simpl. by destruct (assoc k es).
Qed.

  (** Setting below an existing entry goes through that entry. *)
Lemma set_at_cons a rest n c es :
    assoc a es = Some c →
    set_at (a :: rest) (Some n) (Dir es) = Dir (put_entry a (set_at rest (Some n) c) es).
Proof.
    intros H. simpl. destruct rest; [done|]. by rewrite H.
Qed.

Lemma lookup_set_at t p n0 n :
    lookup t p = Some n0 → lookup (set_at p (Some n) t) p = Some n.
Proof.
    revert t. induction p as [|a p IH]; intros t; [done|].
    simpl lookup at 1. destruct t as [|es]; [done|].
    destruct (assoc a es) as [c|] eqn:E; [|done]. intros H.
    rewrite (set_at_cons _ _ _ _ _ E). simpl.
    rewrite (assoc_put_present _ _ _ _ E). by apply IH.
Qed.

Lemma set_at_set_at t p n0 n1 n2 :
    lookup t p = Some n0 →
    set_at p (Some n2) (set_at p (Some n1) t) = set_at p (Some n2) t.
Proof.
    revert t. induction p as [|a p IH]; intros t; [done|].
    simpl lookup. destruct t as [|es]; [done|].
    destruct (assoc a es) as [c|] eqn:E; [|done]. intros H.
    rewrite !(set_at_cons _ _ _ _ _ E).
    rewrite (set_at_cons _ _ _ (set_at p (Some n1) c)).
    2:{ by eapply assoc_put_present. }
    rewrite (IH _ H). rewrite !(put_entry_present _ _ _ _ E).
    erewrite put_entry_present by (by eapply assoc_replace_same).
    by rewrite replace_replace.
Qed.

Lemma set_at_same t p n : lookup t p = Some n → set_at p (Some n) t = t.
Proof.
    revert t. induction p as [|a p IH]; intros t; [by intros [= ->]|].
    simpl lookup. destruct t as [|es]; [done|].
    destruct (assoc a es) as [c|] eqn:E; [|done]. intros H.
    rewrite (set_at_cons _ _ _ _ _ E), (IH _ H), (put_entry_present _ _ _ _ E).
    by rewrite replace_same.
Qed.

  (** Unlinking or replacing an entry of the directory at [p] is a change
      of the listing of that directory. *)
Lemma set_at_child t p es k v :
    lookup t p = Some (Dir es) →
    set_at (p ++ [k]) v t
    = set_at p (Some (Dir (match v with
                            | Some n => put_entry k n es
                            | None => del_entry k es
                            end))) t.
Proof.
    revert t. induction p as [|a p IH]; intros t.
    - simpl. by intros [= ->].
    - simpl lookup. destruct t as [|es0]; [done|].
      destruct (assoc a es0) as [c|] eqn:E; [|done]. intros H.
      rewrite (set_at_cons _ _ _ _ _ E). rewrite <- (IH _ H).
      cbn [app set_at]. destruct (p ++ [k]) eqn:Ep.
      + by destruct p.
      + by rewrite E.
Qed.

Lemma removeAll_node_Dir prot p es :
    removeAll_node prot p (Dir es)
    = match removeAll_entries prot p es with
      | [] => if prot p then Some (Dir []) else None
      | es' => Some (Dir es')
      end.
Proof.
    simpl.
    assert ((fix go (es0 : list (string * node)) : list (string * node) :=
               match es0 with
               | [] => []
               | (k, c) :: rest =>
                   match removeAll_node prot (p ++ [k]) c with
                   | Some c' => (k, c') :: go rest
                   | None => go rest
                   end
               end) es = removeAll_entries prot p es) as ->.
    { induction es as [|[k c] es IH]; simpl; [done|]. by rewrite IH. }
    by destruct (removeAll_entries prot p es).
Qed.

  (** What [os.RemoveAll] could not remove, it cannot remove later. *)
Lemma removeAll_node_residual prot n :
    ∀ p n', removeAll_node prot p n = Some n' → removeAll_node prot p n' = Some n'.
Proof.
    induction n as [data|es IH] using node_induction; intros p n'.
    - simpl. destruct (prot p) eqn:E; [|done]. intros [= <-]. simpl. by rewrite E.
    - rewrite removeAll_node_Dir.
      assert (removeAll_entries prot p (removeAll_entries prot p es)
              = removeAll_entries prot p es) as Hfix.
      { induction IH as [|[k c] es Hc _ IHes]; simpl; [done|].
        destruct (removeAll_node prot (p ++ [k]) c) as [c'|] eqn:E; [|done].
        simpl. rewrite (Hc _ _ E). by rewrite IHes. }
      destruct (removeAll_entries prot p es) as [|e es'] eqn:E.
      + destruct (prot p) eqn:Ep; [|done]. intros [= <-].
        rewrite removeAll_node_Dir. simpl. by rewrite Ep.
      + intros [= <-]. rewrite removeAll_node_Dir, Hfix. done.
Qed.

Lemma clean_listing_ok prot p es es' :
    clean_listing prot p es = (es', true) →
    es' = List.filter (fun kc => sentinel kc.1) es.
Proof.
    revert es'. induction es as [|[k c] es IH]; intros es'; simpl.
    - by intros [= <-].
    - destruct (sentinel k).
      + destruct (clean_listing prot p es) as [r ok]. intros [= <- ->].
        f_equal. by apply IH.
      + destruct (removeAll_node prot (p ++ [k]) c); [done|]. apply IH.
Qed.

Lemma clean_listing_names prot p es :
    names (clean_listing prot p es).1 ⊆ names es.
Proof.
    induction es as [|[k c] es IH]; simpl; [done|].
    destruct (sentinel k).
    - destruct (clean_listing prot p es) as [r ok]. simpl in *. set_solver.
    - destruct (removeAll_node prot (p ++ [k]) c); simpl; set_solver.
Qed.

Lemma clean_listing_sublist prot p es :
    sublist (names (clean_listing prot p es).1) (names es).
Proof.
    induction es as [|[k c] es IH]; simpl; [done|].
    destruct (sentinel k).
    - destruct (clean_listing prot p es) as [r ok]. simpl in *. by constructor.
    - destruct (removeAll_node prot (p ++ [k]) c); simpl; [done|]. by constructor.
Qed.

Lemma clean_listing_wf prot p es :
    wf_entries es → wf_entries (clean_listing prot p es).1.
Proof.
    intros [Hnd Hpl]. pose proof (clean_listing_sublist prot p es) as Hsub. split.
    - by eapply sublist_NoDup.
    - rewrite Forall_forall in Hpl |- *. intros k Hk. apply Hpl.
      by eapply sublist_subseteq.
Qed.

  (** Cleaning what a cleanup has left changes nothing more, and ends the
      same way. *)
Lemma clean_listing_idem prot p es :
    clean_listing prot p (clean_listing prot p es).1 = clean_listing prot p es.
Proof.
    induction es as [|[k c] es IH]; simpl; [done|].
    destruct (sentinel k) eqn:Es.
    - destruct (clean_listing prot p es) as [r ok] eqn:E. simpl in *.
      by rewrite Es, IH.
    - destruct (removeAll_node prot (p ++ [k]) c) as [c'|] eqn:E; [|done].
      simpl. rewrite Es. by rewrite (removeAll_node_residual _ _ _ _ E).
Qed.

End TreeFacts.

(** * System calls and the cleanup of the hydrated directory *)

Section CleanFacts.

Context {Ext : Type}.
Implicit Types (st : State Ext) (e : Env Ext).

Import FS.

Lemma with_root_id e : OS.with_root e (root e) = e.
Proof. by destruct e. Qed.

Lemma Join_nonempty directory name : directory ≠ "" → Filepath.Join directory name ≠ "".
Proof.
    intros Hd. unfold Filepath.Join. apply String.eqb_neq in Hd. rewrite Hd.
    cbn [negb]. apply Clean_nonempty.
Qed.

Lemma resolve_nonempty (c : path) directory q :
    resolve c directory = Some q → directory ≠ "".
Proof. intros H ->. by unfold resolve in H. Qed.

Lemma stat_child e directory p es k :
    resolve (cwd e) directory = Some p →
    lookup (root e) p = Some (Dir es) →
    plain_name k = true →
    OS.stat e (Filepath.Join directory k)
    = match assoc k es with Some c => Some (p ++ [k], c) | None => None end.
Proof.
    intros Hres Hdir Hk. unfold OS.stat.
    rewrite (resolve_Join _ _ _ _ Hk Hres), (lookup_child _ _ _ _ Hdir). done.
Qed.

Lemma RemoveAll_env_child e path q k n :
    path ≠ "" → OS.stat e path = Some (q ++ [k], n) →
    OS.RemoveAll_env path e
    = match removeAll_node (OS.is_prot e) (q ++ [k]) n with
      | None => (inr tt, OS.with_root e (set_at (q ++ [k]) None (root e)))
      | Some n' =>
          (inl (OS.EACCES "unlinkat" path),
           OS.with_root e (set_at (q ++ [k]) (Some n') (root e)))
      end.
Proof.
    intros Hp Hstat. unfold OS.RemoveAll_env. apply String.eqb_neq in Hp. rewrite Hp, Hstat.
    destruct (q ++ [k]) eqn:E; [by destruct q|done].
Qed.

Lemma Remove_env_child_file e path q k data :
    OS.stat e path = Some (q ++ [k], File data) →
    OS.Remove_env path e
    = if OS.is_prot e (q ++ [k]) then (inl (OS.EACCES "remove" path), e)
      else (inr tt, OS.with_root e (set_at (q ++ [k]) None (root e))).
Proof.
    intros Hstat. unfold OS.Remove_env. rewrite Hstat.
    destruct (q ++ [k]) eqn:E; [by destruct q|done].
Qed.

Lemma wf_entries_mid (pre rest : list (string * node)) k c :
    wf_entries (pre ++ (k, c) :: rest) →
    (k ∉ names pre) ∧ plain_name k = true ∧ wf_entries (pre ++ rest).
Proof.
    unfold wf_entries, names. rewrite !map_app. cbn [map fst].
    intros [Hnd Hpl]. apply NoDup_app in Hnd as (Hnd1 & Hdisj & Hnd2).
    apply NoDup_cons in Hnd2 as [Hk Hnd2].
    apply Forall_app in Hpl as [Hpl1 Hpl2]. apply Forall_cons in Hpl2 as [Hkp Hpl2].
    split; [|split; [done|split]].
    - intros Hin. apply (Hdisj _ Hin). left.
    - apply NoDup_app. split; [done|]. split; [|done].
      intros x Hx Hx'. apply (Hdisj _ Hx). by right.
    - by apply Forall_app.
Qed.

  (** The loop of [cleanHydratedDirectory] on the listing [pre ++ rem] of
      the directory at [p], of which [rem] is still to do. *)
Lemma cleanEntries_run (rem : list (string * node)) :
    ∀ (pre : list (string * node)) st directory p,
      resolve (cwd (env st)) directory = Some p →
      lookup (root (env st)) p = Some (Dir (pre ++ rem)) →
      wf_entries (pre ++ rem) →
      ∃ r st',
        cleanEntries directory (map entry_info rem) st = (r, st') ∧
        env st' = OS.with_root (env st)
                    (set_at p (Some (Dir (pre ++ (clean_listing (OS.is_prot (env st)) p rem).1)))
                       (root (env st))) ∧
        (r = Ok tt ↔ (clean_listing (OS.is_prot (env st)) p rem).2 = true) ∧
        (∀ pn, r ≠ Panic pn) ∧
        heap st' = heap st.
Proof.
    induction rem as [|[k c] rest IH]; intros pre st directory p Hres Hdir Hwf.
    - exists (Ok tt), st. simpl. rewrite (set_at_same _ _ _ Hdir), with_root_id.
      repeat split; done.
    - destruct (wf_entries_mid _ _ _ _ Hwf) as (Hk & Hplain & Hwf').
      cbn [map entry_info cleanEntries clean_listing].
      change (String.eqb k ".gitkeep") with (sentinel k).
      destruct (sentinel k) eqn:Es.
      + (* the keep marker is passed over *)
        destruct (IH (pre ++ [(k, c)]) st directory p Hres) as (r & st' & Hrun & Henv & Hok & Hnp & Hheap).
        { by rewrite <- app_assoc. }
        { by rewrite <- app_assoc. }
        exists r, st'. destruct (clean_listing (OS.is_prot (env st)) p rest) as [r' ok] eqn:E.
        cbn [fst snd] in *. rewrite <- app_assoc in Henv. repeat split; try done; apply Hok.
      + assert (OS.stat (env st) (Filepath.Join directory k) = Some (p ++ [k], c)) as Hstat.
        { rewrite (stat_child _ _ _ _ _ Hres Hdir Hplain), assoc_app_notin by done.
          simpl. by rewrite String.eqb_refl. }
        assert (assoc k (pre ++ (k, c) :: rest) = Some c) as Hassoc.
        { rewrite assoc_app_notin by done. simpl. by rewrite String.eqb_refl. }
        assert (del_entry k (pre ++ (k, c) :: rest) = pre ++ rest) as Hdel.
        { rewrite del_app_notin by done. simpl. by rewrite String.eqb_refl. }
        assert (∀ c', put_entry k c' (pre ++ (k, c) :: rest) = pre ++ (k, c') :: rest) as Hput.
        { intros c'. rewrite (put_entry_present _ _ _ _ Hassoc), replace_app_notin by done.
          simpl. by rewrite String.eqb_refl. }
        pose proof (Join_nonempty directory k (resolve_nonempty _ _ _ Hres)) as Hne.
        (* what is left once the entry is gone *)
        assert (∀ st1,
                  env st1 = OS.with_root (env st) (set_at (p ++ [k]) None (root (env st))) →
                  heap st1 = heap st →
                  ∃ r st',
                    cleanEntries directory (map entry_info rest) st1 = (r, st') ∧
                    env st' = OS.with_root (env st)
                      (set_at p (Some (Dir (pre ++ (clean_listing (OS.is_prot (env st)) p rest).1)))
                         (root (env st))) ∧
                    (r = Ok tt ↔ (clean_listing (OS.is_prot (env st)) p rest).2 = true) ∧
                    (∀ pn, r ≠ Panic pn) ∧ heap st' = heap st) as Hgone.
        { intros st1 Henv1 Hheap1.
          rewrite (set_at_child _ _ _ _ _ Hdir), Hdel in Henv1.
          destruct (IH pre st1 directory p) as (r & st' & Hrun & Henv & Hok & Hnp & Hheap).
          { by rewrite Henv1. }
          { rewrite Henv1. cbn [root OS.with_root]. by eapply lookup_set_at. }
          { done. }
          exists r, st'. rewrite Henv1 in Henv, Hok.
          cbn [root OS.with_root cwd prot] in Henv.
          rewrite (set_at_set_at _ _ _ _ _ Hdir) in Henv.
          repeat split; try done; try apply Hok. congruence. }
        destruct c as [data|sub]; cbn [isDir].
        * (* a file: [os.Remove] *)
          unfold bind at 1, OS.Remove, call.
          rewrite (Remove_env_child_file _ _ _ _ _ Hstat). cbn [removeAll_node].
          destruct (OS.is_prot (env st) (p ++ [k])).
          -- eexists _, _. split; [done|]. cbn [fst snd env heap].
             rewrite (set_at_same _ _ _ Hdir), with_root_id. repeat split; done.
          -- apply Hgone; done.
        * (* a directory: [os.RemoveAll] *)
          unfold bind at 1, OS.RemoveAll, call.
          rewrite (RemoveAll_env_child _ _ _ _ _ Hne Hstat).
          destruct (removeAll_node (OS.is_prot (env st)) (p ++ [k]) (Dir sub)) as [c'|].
          -- eexists _, _. split; [done|]. cbn [fst snd env heap].
             rewrite (set_at_child _ _ _ _ _ Hdir), Hput. repeat split; done.
          -- apply Hgone; done.
Qed.

End CleanFacts.

(** * Counting calls *)

Section TallyRules.

Context {Ext : Type}.

Lemma count_app K (a b : list event) : count K (a ++ b) = (count K a + count K b)%nat.
Proof. unfold count. by rewrite List.filter_app, List.length_app. Qed.

Lemma count_nil K : count K [] = 0%nat.
Proof. done. Qed.

Lemma count_one K ev :
    count K [ev] = if kind_eqb (kind_of ev) K then 1%nat else 0%nat.
Proof. unfold count. simpl. by destruct (kind_eqb (kind_of ev) K). Qed.

Lemma tally_conv {A} K (m : M Ext A) n n' : tally K m n' → n' = n → tally K m n.
Proof. by intros H <-. Qed.

Lemma tally_ret {A} K (a : A) : tally K (ret (Ext:=Ext) a) 0.
Proof. intros st. exists []. simpl. by rewrite app_nil_r. Qed.

Lemma tally_liftR {A} K (r : res A) : tally K (liftR (Ext:=Ext) r) 0.
Proof. intros st. exists []. simpl. by rewrite app_nil_r. Qed.

  (** A computation that fails makes no promise on success. *)
Lemma tally_fail_err {A} K e n : tally K (liftR (Ext:=Ext) (A:=A) (Err e)) n.
Proof.
    intros st. exists []. simpl. rewrite app_nil_r.
    split; [done|]. split; [rewrite count_nil; lia|done].
Qed.

Lemma tally_fail_panic {A} K pn n : tally K (liftR (Ext:=Ext) (A:=A) (Panic pn)) n.
Proof.
    intros st. exists []. simpl. rewrite app_nil_r.
    split; [done|]. split; [rewrite count_nil; lia|done].
Qed.

Lemma tally_log K ev :
    tally K (log (Ext:=Ext) ev) (if kind_eqb (kind_of ev) K then 1 else 0).
Proof. intros st. exists [ev]. simpl. rewrite count_one. done. Qed.

Lemma tally_call {T} K ev (f : Env Ext → (error + T) * Env Ext) :
    tally K (call ev f) (if kind_eqb (kind_of ev) K then 1 else 0).
Proof.
    intros st. exists [ev]. unfold call. destruct (f (env st)) as [r e'].
    simpl. rewrite count_one. done.
Qed.

Lemma tally_call_total {T} K ev (f : Env Ext → T * Env Ext) :
    tally K (call_total ev f) (if kind_eqb (kind_of ev) K then 1 else 0).
Proof.
    intros st. exists [ev]. unfold call_total. destruct (f (env st)) as [r e'].
    simpl. rewrite count_one. done.
Qed.

Lemma tally_bind {A B} K (m : M Ext A) (k : A → M Ext B) n1 n2 :
    tally K m n1 → (∀ a, tally K (k a) n2) → tally K (bind m k) (n1 + n2).
Proof.
    intros Hm Hk st. unfold bind.
    destruct (Hm st) as (evs1 & Ht1 & Hle1 & Heq1).
    destruct (m st) as [[a|e|pn] st1]; cbn [fst snd] in *.
    - destruct (Hk a st1) as (evs2 & Ht2 & Hle2 & Heq2).
      exists (evs1 ++ evs2). rewrite Ht2, Ht1, app_assoc, count_app.
      split; [done|]. rewrite (Heq1 I). split; [lia|].
      intros Hok. by rewrite (Heq2 Hok).
    - exists evs1. split; [done|]. split; [lia|done].
    - exists evs1. split; [done|]. split; [lia|done].
Qed.

Lemma tally_wrapErr {A} K prefix (m : M Ext A) n :
    tally K m n → tally K (wrapErr prefix m) n.
Proof.
    intros Hm st. unfold wrapErr. destruct (Hm st) as (evs & Ht & Hle & Heq).
    exists evs. destruct (m st) as [[a|e|pn] st1]; done.
Qed.

Lemma tally_discard {A} K (m : M Ext A) : tally K m 0 → tally K (discard m) 0.
Proof.
    intros Hm st. unfold discard. destruct (Hm st) as (evs & Ht & Hle & Heq).
    exists evs. destruct (m st) as [[a|e|pn] st1]; cbn [fst snd] in *;
      (split; [done|]); (split; [done|]); intros; lia.
Qed.

Lemma tally_read K f : tally K (OS.read (Ext:=Ext) f) 0.
Proof.
    intros st. exists []. unfold OS.read.
    destruct (FS.lookup _ _) as [[?|?]|]; simpl; by rewrite app_nil_r.
Qed.

Lemma tally_flush K f data : tally K (OS.flush (Ext:=Ext) f data) 0.
Proof. intros st. exists []. simpl. by rewrite app_nil_r. Qed.

Lemma tally_newGitRepository K h o r e u :
    tally K (newGitRepository (Ext:=Ext) h o r e u) 0.
Proof. intros st. exists []. simpl. by rewrite app_nil_r. Qed.

End TallyRules.


Create HintDb tally.

#[export] Hint Extern 1 (_ ≠ _) => discriminate : tally.

(** One step of a tally: the rule for the head of the computation, with
    the sum it gives compared to the count asked for. *)
Ltac tally_rule :=
  lazymatch goal with
  | |- tally _ (ret _) _ => apply tally_ret
  | |- tally _ (liftR (Err _)) _ => apply tally_fail_err
  | |- tally _ (liftR (Panic _)) _ => apply tally_fail_panic
  | |- tally _ (liftR _) _ => apply tally_liftR
  | |- tally _ (log _) _ => apply tally_log
  | |- tally _ (call _ _) _ => apply tally_call
  | |- tally _ (call_total _ _) _ => apply tally_call_total
  | |- tally _ (OS.read _) _ => apply tally_read
  | |- tally _ (OS.flush _ _) _ => apply tally_flush
  | |- tally _ (newGitRepository _ _ _ _ _) _ => apply tally_newGitRepository
  | |- tally _ (wrapErr _ _) _ => apply tally_wrapErr; tally_rule
  | |- tally _ (discard _) _ => apply tally_discard; tally_rule
  | |- tally _ (bind _ _) _ =>
      eapply tally_conv;
      [ eapply tally_bind; [tally_rule | intros ?; tally_rule]
      | cbn [kind_eqb kind_of]; try first [reflexivity | lia] ]
  | |- tally _ (if ?c then _ else _) _ => destruct c; tally_rule
  | |- tally _ (match ?x with _ => _ end) _ => destruct x; tally_rule
  | |- _ => solve [eauto with tally]
  end.

Ltac tally := cbv zeta; tally_rule.

Section TallyDeployer.

Context {Ext : Type} (C : Collaborators Ext).
Variable d : deployer.

Lemma tally_checkoutAndPull K repo branch :
    K ≠ KOther → K ≠ KPull →
    tally K (checkoutAndPull C repo branch)
      (match K with KCheckout | KExists => 1 | _ => 0 end).
Proof.
    intros HK HP. unfold checkoutAndPull, gitCall. destruct K; try done; tally.
Qed.
#[local] Hint Resolve tally_checkoutAndPull : tally.

Lemma tally_accessSecretVersion K svName :
    K ≠ KOther → tally K (accessSecretVersion C svName) 0.
Proof.
    intros HK. unfold accessSecretVersion. destruct K; try done; tally.
Qed.
#[local] Hint Resolve tally_accessSecretVersion : tally.

Lemma tally_setupGitWorkspace K secret repo branch :
    K ≠ KOther → K ≠ KPull →
    tally K (setupGitWorkspace C secret repo branch) (setup_calls K).
Proof.
    intros HK HP. unfold setupGitWorkspace, gitCall. destruct K; try done; tally.
Qed.
#[local] Hint Resolve tally_setupGitWorkspace : tally.

Lemma tally_resetGitWorkspace K repo sourceBranch featureBranch :
    K ≠ KOther → K ≠ KPull →
    tally K (resetGitWorkspace C repo sourceBranch featureBranch)
      (match K with KConfig => 1 | KCheckout | KExists => 2 | _ => 0 end).
Proof.
    intros HK HP. unfold resetGitWorkspace, gitCall. destruct K; try done; tally.
Qed.
#[local] Hint Resolve tally_resetGitWorkspace : tally.

Lemma tally_commitPushGitWorkspace K repo featureBranch :
    K ≠ KOther →
    tally K (commitPushGitWorkspace C d repo featureBranch)
      (match K with KAdd | KCommit | KPush => 1 | _ => 0 end).
Proof.
    intros HK. unfold commitPushGitWorkspace, gitCall. destruct K; try done; tally.
Qed.
#[local] Hint Resolve tally_commitPushGitWorkspace : tally.

Lemma tally_handleDestinationBranch K repo secret featureBranchName destinationBranch :
    K ≠ KOther →
    tally K (handleDestinationBranch C d repo secret featureBranchName destinationBranch)
      (match K with
       | KCreateProvider | KOpenPR => if String.eqb destinationBranch "" then 0 else 1
       | KMerge =>
           if String.eqb destinationBranch "" then 0
           else if enablePullRequestMerge (dparams d) then 1 else 0
       | _ => 0
       end).
Proof.
    intros HK. unfold handleDestinationBranch.
    destruct (enablePullRequestMerge (dparams d));
      destruct destinationBranch as [|a s]; cbn [String.length Nat.eqb String.eqb negb];
      destruct K; try done; tally.
Qed.
#[local] Hint Resolve tally_handleDestinationBranch : tally.

Lemma tally_publish K repo secret featureBranchName :
    K ≠ KOther →
    tally K (publish C d repo secret featureBranchName)
      (match K with
       | KDiff | KAdd | KCommit | KPush => 1
       | KCreateProvider | KOpenPR =>
           if String.eqb (gitOutputBranch (dparams d)) "" then 0 else 1
       | KMerge =>
           if String.eqb (gitOutputBranch (dparams d)) "" then 0
           else if enablePullRequestMerge (dparams d) then 1 else 0
       | _ => 0
       end).
Proof.
    intros HK. unfold publish, gitCall. destruct K; try done; tally.
Qed.
#[local] Hint Resolve tally_publish : tally.

Lemma tally_cleanEntries K directory files :
    K ≠ KOther → tally K (cleanEntries (Ext:=Ext) directory files) 0.
Proof.
    intros HK. induction files as [|[name isDir] rest IH]; cbn [cleanEntries].
    - apply tally_ret.
    - destruct (String.eqb name ".gitkeep"); [done|].
      unfold OS.RemoveAll, OS.Remove.
      destruct isDir; (eapply tally_conv; [eapply tally_bind; [tally_rule|intros ?; apply IH]|]);
        by destruct K.
Qed.
#[local] Hint Resolve tally_cleanEntries : tally.

Lemma tally_cleanHydratedDirectory K directory :
    K ≠ KOther → tally K (cleanHydratedDirectory (Ext:=Ext) directory) 0.
Proof.
    intros HK. unfold cleanHydratedDirectory, OS.ReadDir. destruct K; try done; tally.
Qed.
#[local] Hint Resolve tally_cleanHydratedDirectory : tally.

Lemma tally_runCmd K binPath args dir logCmd :
    K ≠ KOther →
    tally K (runCmd C binPath args dir logCmd) (match K with KExec => 1 | _ => 0 end).
Proof.
    intros HK. unfold runCmd. destruct K; try done; tally.
Qed.
#[local] Hint Resolve tally_runCmd : tally.

Lemma tally_runHydrationCLI K sourceRepo baseLibraryPath overlayPath outputRepo
      outputPath sourceOfTruth :
    K ≠ KOther →
    tally K (runHydrationCLI C sourceRepo baseLibraryPath overlayPath outputRepo
               outputPath sourceOfTruth)
      (match K with KExec => 2 | _ => 0 end).
Proof.
    intros HK. unfold runHydrationCLI. destruct K; try done; tally.
Qed.
#[local] Hint Resolve tally_runHydrationCLI : tally.

Lemma tally_csvReadAll K f : tally K (csvReadAll C f) 0.
Proof. unfold csvReadAll. tally. Qed.
#[local] Hint Resolve tally_csvReadAll : tally.

Lemma tally_determineClustersToUpdate K repo sourceOfTruth clusterGroup matchAny matchAll :
    K ≠ KOther →
    tally K (determineClustersToUpdate C repo sourceOfTruth clusterGroup matchAny matchAll) 0.
Proof.
    intros HK. unfold determineClustersToUpdate, OS.Open. destruct K; try done; tally.
Qed.
#[local] Hint Resolve tally_determineClustersToUpdate : tally.

Lemma tally_updatePlatformAndWorkloadRepositoryRevision K repo clusterNames
      sourceOfTruth platformRevision workloadRevision :
    K ≠ KOther →
    tally K (updatePlatformAndWorkloadRepositoryRevision C repo clusterNames
               sourceOfTruth platformRevision workloadRevision) 0.
Proof.
    intros HK. unfold updatePlatformAndWorkloadRepositoryRevision, OS.Open, OS.Create.
    destruct K; try done; tally.
Qed.
#[local] Hint Resolve tally_updatePlatformAndWorkloadRepositoryRevision : tally.

  (** The steps of a batch when the output repository is the source
      repository. *)
Lemma tally_batchSteps K secret srcRepo outRepo batch featureBranchName :
    K ≠ KOther → K ≠ KPull →
    gitSourceRepo (dparams d) = gitOutputRepo (dparams d) →
    addr srcRepo = addr outRepo →
    tally K (batchSteps C d secret srcRepo outRepo batch featureBranchName)
      (match K with KBatch => 0 | _ => per_batch d K end).
Proof.
    intros HK HP Hrefs Haddr. unfold batchSteps. rewrite Hrefs, Haddr.
    rewrite String.eqb_refl, Nat.eqb_refl. cbn [negb].
    destruct K; try done; unfold per_batch; tally.
Qed.

End TallyDeployer.

#[export] Hint Resolve
  tally_checkoutAndPull
  tally_accessSecretVersion
  tally_setupGitWorkspace
  tally_resetGitWorkspace
  tally_commitPushGitWorkspace
  tally_handleDestinationBranch
  tally_publish
  tally_cleanEntries
  tally_cleanHydratedDirectory
  tally_runCmd
  tally_runHydrationCLI
  tally_csvReadAll
  tally_determineClustersToUpdate
  tally_updatePlatformAndWorkloadRepositoryRevision
  : tally.

(** * Calls per batch *)

Section LinearTally.

Context {Ext : Type}.

Lemma bind_ret_l {A B} (a : A) (k : A → M Ext B) : bind (ret a) k = k a.
Proof. done. Qed.

Lemma ltally_conv {A} K (m : M Ext A) a a' b :
    ltally K m a' b → a' = a → ltally K m a b.
Proof. by intros H <-. Qed.

Lemma ltally_of_tally {A} K (m : M Ext A) n b :
    tally K m n → tally KBatch m 0 → ltally K m n b.
Proof.
    intros HK HB st.
    destruct (HK st) as (evs & Ht & Hle & Heq).
    destruct (HB st) as (evs' & Ht' & Hle' & _).
    assert (evs' = evs) as -> by (apply (app_inv_head (trace st)); congruence).
    exists evs. split; [done|].
    assert (count KBatch evs = 0)%nat as -> by lia.
    rewrite Nat.mul_0_r, Nat.add_0_r. done.
Qed.

Lemma ltally_bind {A B} K (m : M Ext A) (k : A → M Ext B) a1 a2 b :
    ltally K m a1 b → (∀ x, ltally K (k x) a2 b) → ltally K (bind m k) (a1 + a2) b.
Proof.
    intros Hm Hk st. unfold bind.
    destruct (Hm st) as (evs1 & Ht1 & Hle1 & Heq1).
    destruct (m st) as [[x|e|pn] st1]; cbn [fst snd] in *.
    - destruct (Hk x st1) as (evs2 & Ht2 & Hle2 & Heq2).
      exists (evs1 ++ evs2). rewrite Ht2, Ht1, app_assoc, !count_app.
      split; [done|]. specialize (Heq1 I). split; [nia|].
      intros Hok. specialize (Heq2 Hok). nia.
    - exists evs1. split; [done|]. split; [lia|done].
    - exists evs1. split; [done|]. split; [lia|done].
Qed.

Lemma ltally_wrapErr {A} K prefix (m : M Ext A) a b :
    ltally K m a b → ltally K (wrapErr prefix m) a b.
Proof.
    intros Hm st. unfold wrapErr. destruct (Hm st) as (evs & Ht & Hle & Heq).
    exists evs. destruct (m st) as [[x|e|pn] st1]; done.
Qed.

End LinearTally.

Section LinearTallyDeployer.

Context {Ext : Type} (C : Collaborators Ext).
Variable d : deployer.
Hypothesis Hrefs : gitSourceRepo (dparams d) = gitOutputRepo (dparams d).

Lemma ltally_processBatch K secret srcRepo clustersToUpdate numBatches i batchCounter :
    K ≠ KOther → K ≠ KPull →
    ltally K (processBatch C d secret srcRepo srcRepo clustersToUpdate numBatches i batchCounter)
      0 (per_batch d K).
Proof using Hrefs.
    intros HK HP st. unfold processBatch. cbv zeta. unfold bind at 1, liftR.
    destruct (slice _ _ _) as [batch|e|pn].
    - unfold bind at 1, log.
      set (ev := EvProcessingBatch batch _).
      set (st1 := {| env := env st; heap := heap st; trace := trace st ++ [ev] |}).
      destruct (tally_batchSteps C d K secret srcRepo srcRepo batch
                  (featureBranchName d batchCounter numBatches) HK HP Hrefs eq_refl st1)
        as (evs & Ht & Hle & Heq).
      destruct (tally_batchSteps C d KBatch secret srcRepo srcRepo batch
                  (featureBranchName d batchCounter numBatches) ltac:(done) ltac:(done) Hrefs
                  eq_refl st1)
        as (evs' & Ht' & Hle' & _).
      assert (evs' = evs) as -> by (apply (app_inv_head (trace st1)); congruence).
      exists ([ev] ++ evs). rewrite Ht. subst st1. cbn [trace].
      rewrite <- app_assoc. split; [done|].
      rewrite !count_app, !count_one. subst ev. cbn [kind_of].
      assert (count KBatch evs = 0)%nat as -> by lia.
      destruct K; try done; cbn [kind_eqb per_batch] in *;
        (split; [lia | intros Hok; specialize (Heq Hok); lia]).
    - exists []. cbn. rewrite app_nil_r. split; [done|]. split; [lia|done].
    - exists []. cbn. rewrite app_nil_r. split; [done|]. split; [lia|done].
Qed.

Lemma ltally_batchLoop K fuel secret srcRepo clustersToUpdate batchSize numBatches :
    K ≠ KOther → K ≠ KPull →
    ∀ i batchCounter,
      ltally K (batchLoop C d fuel secret srcRepo srcRepo clustersToUpdate
                  batchSize numBatches i batchCounter)
        0 (per_batch d K).
Proof using Hrefs.
    intros HK HP. induction fuel as [|fuel IH]; intros i batchCounter; cbn [batchLoop].
    - destruct (Z.ltb _ _).
      + intros st. exists []. cbn. rewrite app_nil_r. split; [done|]. split; [lia|done].
      + intros st. exists []. cbn. rewrite app_nil_r. split; [done|]. split; [lia|done].
    - destruct (Z.ltb _ _).
      + eapply ltally_conv; [eapply ltally_bind|done].
        * by apply ltally_processBatch.
        * intros _. apply IH.
      + intros st. exists []. cbn. rewrite app_nil_r. split; [done|]. split; [lia|done].
Qed.

Ltac ltally_rule :=
    lazymatch goal with
    | |- ltally _ (bind (ret _) _) _ _ => rewrite bind_ret_l; ltally_rule
    | |- ltally _ (bind (batchLoop _ _ _ _ _ _ _ _ _ _ _) _) _ _ =>
        eapply ltally_conv;
        [ eapply ltally_bind; [by apply ltally_batchLoop | intros ?; ltally_rule]
        | cbn [kind_eqb kind_of]; try first [reflexivity | lia] ]
    | |- ltally _ (bind _ _) _ _ =>
        eapply ltally_conv;
        [ eapply ltally_bind; [ltally_rule | intros ?; ltally_rule]
        | cbn [kind_eqb kind_of]; try first [reflexivity | lia] ]
    | |- ltally _ (match ?x with _ => _ end) _ _ => destruct x; ltally_rule
    | |- _ => eapply ltally_of_tally; tally
    end.

  (** With one repository for source and output, a deploy makes the calls
      of the setup once and those of a batch once per batch. *)
Lemma ltally_deploy K :
    K ≠ KOther → K ≠ KPull → ltally K (deploy C d) (setup_calls K) (per_batch d K).
Proof using Hrefs.
    intros HK HP. unfold deploy. cbv zeta. rewrite Hrefs, String.eqb_refl. cbn [negb].
    unfold splitRepoRef.
    destruct K; try done; cbn [setup_calls]; ltally_rule.
Qed.

End LinearTallyDeployer.

(** * The inventory file *)

Section InventoryFile.

Context {Ext : Type} (C : Collaborators Ext).
Implicit Types (st : State Ext).

Import Inventory InventorySpec.

Lemma stat_lookup (e : Env Ext) path p n :
    OS.stat e path = Some (p, n) →
    FS.resolve (cwd e) path = Some p ∧ FS.lookup (root e) p = Some n.
Proof.
    unfold OS.stat. destruct (FS.resolve (cwd e) path) as [q|]; [|done].
    destruct (FS.lookup (root e) q) as [m|] eqn:E; [|done]. by intros [= <- <-].
Qed.

Lemma Open_run st path p n :
    OS.stat (env st) path = Some (p, n) →
    OS.Open path st
    = (Ok p, {| env := env st; heap := heap st; trace := trace st ++ [EvOpen path] |}).
Proof. intros H. unfold OS.Open, call, OS.Open_env. by rewrite H. Qed.

Lemma csvReadAll_run st p data :
    FS.lookup (root (env st)) p = Some (FS.File data) →
    csvReadAll C p st
    = (match csv_ReadAll Ext C data with inl e => Err e | inr rs => Ok rs end, st).
Proof.
    intros H. unfold csvReadAll, bind, OS.read, liftR. rewrite H.
    by destruct (csv_ReadAll Ext C data).
Qed.

  (** The selection, from the file to the list of names. *)
Lemma determineClustersToUpdate_run st repo sourceOfTruth clusterGroup matchAny matchAll
      p data records :
    OS.stat (env st) (Filepath.Join repo sourceOfTruth) = Some (p, FS.File data) →
    csv_ReadAll Ext C data = inr records →
    determineClustersToUpdate C repo sourceOfTruth clusterGroup matchAny matchAll st
    = (selectClusters records clusterGroup matchAny matchAll,
       {| env := env st; heap := heap st;
          trace := trace st ++ [EvOpen (Filepath.Join repo sourceOfTruth)] |}).
Proof.
    intros Hstat Hcsv. unfold determineClustersToUpdate. cbv zeta.
    unfold bind at 1. rewrite (Open_run _ _ _ _ Hstat).
    unfold bind at 1. rewrite (csvReadAll_run _ _ data), Hcsv.
    - done.
    - by apply stat_lookup in Hstat as [_ ?].
Qed.

  (** C4: an empty inventory file does not give the error that names the
      three missing columns: the selection reads the header of a file that
      has no record, and the deployer stops on an index out of range. *)
Theorem C4_empty_inventory_panics st repo sourceOfTruth clusterGroup matchAny matchAll
      p data :
    OS.stat (env st) (Filepath.Join repo sourceOfTruth) = Some (p, FS.File data) →
    csv_ReadAll Ext C data = inr [] →
    (determineClustersToUpdate C repo sourceOfTruth clusterGroup matchAny matchAll st).1
    = Panic index_out_of_range ∧
    findFieldIndices [] ["cluster_name"; "cluster_group"; "cluster_tags"]
    = Err (FieldsNotFoundError ["cluster_name"; "cluster_group"; "cluster_tags"]).
Proof.
    intros Hstat Hcsv.
    rewrite (determineClustersToUpdate_run _ _ _ _ _ _ _ _ _ Hstat Hcsv). done.
Qed.

  (** C5: on a valid inventory, [determineClustersToUpdate] returns the
      names of the data rows of the requested group that satisfy the tag
      policy, in the order of the file and with repetitions kept: if
      [matchAny] is not empty the tags of the row meet it, otherwise if
      [matchAll] is not empty the tags of the row include it, otherwise every
      row of the group is taken. *)
Theorem C5_SelectClusters_policy st repo sourceOfTruth clusterGroup matchAny matchAll
      p data (header : record) (rows : list record) :
    OS.stat (env st) (Filepath.Join repo sourceOfTruth) = Some (p, FS.File data) →
    csv_ReadAll Ext C data = inr (header :: rows) →
    (∀ f, f ∈ ["cluster_name"; "cluster_group"; "cluster_tags"] → f ∈ header) →
    Forall (fun row : record => length row = length header) rows →
    (determineClustersToUpdate C repo sourceOfTruth clusterGroup matchAny matchAll st).1
    = Ok (map (column header "cluster_name")
            (List.filter (selected header clusterGroup matchAny matchAll) rows)) ∧
    ∀ row : record,
      selected header clusterGroup matchAny matchAll row = true ↔
      column header "cluster_group" row = clusterGroup ∧
      let tags := tagSet (column header "cluster_tags" row) in
      if decide (matchAny ≠ []) then ∃ t, t ∈ tags ∧ t ∈ matchAny
      else if decide (matchAll ≠ []) then ∀ t, t ∈ matchAll → t ∈ tags
      else True.
Proof.
    intros Hstat Hcsv Hreq Hrows. split.
    - rewrite (determineClustersToUpdate_run _ _ _ _ _ _ _ _ _ Hstat Hcsv).
      cbn [fst]. by rewrite selectClusters_spec.
    - intros row. apply selected_spec.
Qed.

Lemma Create_run_file st path p data :
    OS.stat (env st) path = Some (p, FS.File data) →
    OS.is_prot (env st) p = false →
    OS.Create path st
    = (Ok p, {| env := OS.with_root (env st)
                         (FS.set_at p (Some (FS.File "")) (root (env st)));
                heap := heap st; trace := trace st ++ [EvCreate path] |}).
Proof.
    intros [Hres Hlk]%stat_lookup Hprot. unfold OS.Create, call, OS.Create_env.
    by rewrite Hres, Hlk, Hprot.
Qed.

  (** C6, for the records of the file: on an inventory whose header has
      the three columns and whose rows have the length of the header, in a
      file that can be written, [updatePlatformAndWorkloadRepositoryRevision]
      hands to the CSV writer the records it has read, in their order, where
      only the two revision cells of the rows whose [cluster_name] is in the
      list have changed, each only when the new revision is not empty; a
      row that is not in the list, and every other cell, is the field it
      was. The new file is what the writer makes of these records, and when
      the reader reads back what the writer has written, the new file
      parses to them. *)
Theorem C6_UpdateRevisions_frame st repo clusterNames sourceOfTruth
      platformRevision workloadRevision p data (header : record) (rows : list record) :
    OS.stat (env st) (Filepath.Join repo sourceOfTruth) = Some (p, FS.File data) →
    csv_ReadAll Ext C data = inr (header :: rows) →
    (∀ f, f ∈ ["cluster_name"; "platform_repository_revision";
               "workload_repository_revision"] → f ∈ header) →
    Forall (fun row : record => length row = length header) rows →
    OS.is_prot (env st) p = false →
    let records' := map (updated_row header clusterNames platformRevision workloadRevision)
                      (header :: rows) in
    ∃ st',
      updatePlatformAndWorkloadRepositoryRevision C repo clusterNames sourceOfTruth
        platformRevision workloadRevision st = (Ok tt, st') ∧
      FS.lookup (root (env st')) p = Some (FS.File (csvEncode C records')) ∧
      revisions_updated header clusterNames platformRevision workloadRevision
        (header :: rows) records' ∧
      (csv_ReadAll Ext C (csvEncode C records') = inr records' →
       ∃ data', FS.lookup (root (env st')) p = Some (FS.File data') ∧
                csv_ReadAll Ext C data' = inr records').
Proof.
    intros Hstat Hcsv Hreq Hrows Hprot records'.
    pose proof (stat_lookup _ _ _ _ Hstat) as [Hres Hlk].
    assert (Forall (fun row : record => length row = length header) (header :: rows))
      as Hall by (by constructor).
    destruct (indexOf_present header "cluster_name") as [ni Hni]; [apply Hreq; set_solver|].
    destruct (indexOf_present header "platform_repository_revision") as [pi Hpi];
      [apply Hreq; set_solver|].
    destruct (indexOf_present header "workload_repository_revision") as [wi Hwi];
      [apply Hreq; set_solver|].
    destruct (findFieldIndices_Ok header _ Hreq) as (ind & Hind & Hlkp).
    { by eapply required_present. }
    assert (∃ st',
              updatePlatformAndWorkloadRepositoryRevision C repo clusterNames sourceOfTruth
                platformRevision workloadRevision st = (Ok tt, st') ∧
              FS.lookup (root (env st')) p = Some (FS.File (csvEncode C records')))
      as (st' & Hrun & Hfile).
    { eexists. split.
      - unfold updatePlatformAndWorkloadRepositoryRevision. cbv zeta.
        unfold bind at 1, wrapErr at 1. rewrite (Open_run _ _ _ _ Hstat).
        unfold bind at 1, wrapErr at 1. rewrite (csvReadAll_run _ _ data) by done.
        rewrite Hcsv.
        unfold bind at 1, liftR at 1. cbn [index lookup list_lookup].
        unfold bind at 1, liftR at 1. rewrite Hind.
        rewrite (at_key_indexOf header ind _ ni), (at_key_indexOf header ind _ pi),
          (at_key_indexOf header ind _ wi); try done; try (apply Hlkp; set_solver).
        unfold bind at 1, wrapErr at 1. rewrite (Create_run_file _ _ _ data) by done.
        rewrite (updateRecords_spec header ni pi wi Hni Hpi Hwi) by done.
        cbn [app]. unfold bind, liftR. cbn [OS.flush]. reflexivity.
      - cbn [env root OS.with_root].
        rewrite (lookup_set_at _ _ _ _ Hlk), (set_at_set_at _ _ _ _ _ Hlk).
        by erewrite lookup_set_at. }
    exists st'. split; [done|]. split; [done|]. split.
    - by apply (updated_row_frame header ni pi wi).
    - intros Hback. by exists (csvEncode C records').
Qed.

End InventoryFile.

(** * The hydrated directory and the renderer *)

Section Hydration.

Context {Ext : Type} (C : Collaborators Ext).
Implicit Types (st : State Ext).

Import FS.

Lemma removeAll_node_unprot (prot : path → bool) n :
    (∀ q, prot q = false) → ∀ p, removeAll_node prot p n = None.
Proof.
    intros Hprot. induction n as [data|es IH] using node_induction; intros p.
    - simpl. by rewrite Hprot.
    - rewrite removeAll_node_Dir.
      assert (removeAll_entries prot p es = []) as ->.
      { induction IH as [|[k c] es Hc _ IHes]; simpl; [done|]. by rewrite Hc. }
      by rewrite Hprot.
Qed.

Lemma clean_listing_unprot (prot : path → bool) p es :
    (∀ q, prot q = false) → (clean_listing prot p es).2 = true.
Proof.
    intros Hprot. induction es as [|[k c] es IH]; simpl; [done|].
    destruct (sentinel k).
    - by destruct (clean_listing prot p es).
    - by rewrite removeAll_node_unprot.
Qed.

Lemma clean_listing_keeps prot p es :
    List.filter (fun kc => sentinel kc.1) (clean_listing prot p es).1
    = List.filter (fun kc => sentinel kc.1) es.
Proof.
    induction es as [|[k c] es IH]; simpl; [done|].
    destruct (sentinel k) eqn:Es.
    - destruct (clean_listing prot p es) as [r ok]. simpl in *. by rewrite Es, IH.
    - destruct (removeAll_node prot (p ++ [k]) c); simpl; [by rewrite Es|done].
Qed.

Lemma cleanHydratedDirectory_run st directory p es :
    OS.stat (env st) directory = Some (p, Dir es) →
    wf_entries es →
    ∃ r st',
      cleanHydratedDirectory directory st = (r, st') ∧
      env st' = OS.with_root (env st)
                  (set_at p (Some (Dir (clean_listing (OS.is_prot (env st)) p es).1))
                     (root (env st))) ∧
      (r = Ok tt ↔ (clean_listing (OS.is_prot (env st)) p es).2 = true).
Proof.
    intros Hstat Hwf. pose proof (stat_lookup _ _ _ _ Hstat) as [Hres Hlk].
    unfold cleanHydratedDirectory, bind, OS.ReadDir, call, OS.ReadDir_env.
    rewrite Hstat.
    set (st1 := {| env := env st; heap := heap st;
                   trace := trace st ++ [EvReadDir directory] |}).
    destruct (cleanEntries_run es [] st1 directory p Hres Hlk Hwf)
      as (r & st' & Hrun & Henv & Hok & _ & _).
    exists r, st'. split; [|done]. by rewrite <- Hrun.
Qed.

Lemma cleanHydratedDirectory_missing st directory :
    (∀ p es, OS.stat (env st) directory ≠ Some (p, Dir es)) →
    ∃ e, cleanHydratedDirectory directory st
         = (Err e, {| env := env st; heap := heap st;
                      trace := trace st ++ [EvReadDir directory] |}).
Proof.
    intros Hno. unfold cleanHydratedDirectory, bind, OS.ReadDir, call, OS.ReadDir_env.
    destruct (OS.stat (env st) directory) as [[p [data|es]]|] eqn:E.
    - eauto.
    - by destruct (Hno p es).
    - eauto.
Qed.

  (** What [cleanHydratedDirectory] leaves of the directory it is given:
      the entries called [.gitkeep] are passed over; when it reports no
      error every other entry is gone with all that is below it, and it
      reports none when nothing is protected from removal. Run a second
      time, it leaves the file system as the first run left it and ends the
      same way. *)
Lemma cleanHydratedDirectory_twice st directory :
    (∀ p es, OS.stat (env st) directory = Some (p, Dir es) → wf_entries es) →
    ∃ r st' r2 st2,
      cleanHydratedDirectory directory st = (r, st') ∧
      cleanHydratedDirectory directory st' = (r2, st2) ∧
      env st2 = env st' ∧
      (r2 = Ok tt ↔ r = Ok tt) ∧
      ∀ p es,
        OS.stat (env st) directory = Some (p, Dir es) →
        ∃ es',
          lookup (root (env st')) p = Some (Dir es') ∧
          List.filter (fun kc => sentinel kc.1) es'
          = List.filter (fun kc => sentinel kc.1) es ∧
          (r = Ok tt → es' = List.filter (fun kc => sentinel kc.1) es) ∧
          ((∀ q, OS.is_prot (env st) q = false) → r = Ok tt).
Proof.
    intros Hwf.
    destruct (OS.stat (env st) directory) as [[p [data|es]]|] eqn:Hstat.
    - (* not a directory *)
      destruct (cleanHydratedDirectory_missing st directory) as [e He].
      { intros p' es'. by rewrite Hstat. }
      destruct (cleanHydratedDirectory_missing
                  {| env := env st; heap := heap st;
                     trace := trace st ++ [EvReadDir directory] |} directory) as [e2 He2].
      { intros p' es'. cbn [env]. by rewrite Hstat. }
      eexists _, _, _, _. split; [apply He|]. split; [apply He2|].
      split; [done|]. split; [done|]. intros p' es' [=].
    - specialize (Hwf p es eq_refl).
      destruct (cleanHydratedDirectory_run st directory p es Hstat Hwf)
        as (r & st' & Hrun & Henv & Hok).
      pose proof (stat_lookup _ _ _ _ Hstat) as [Hres Hlk].
      set (es1 := (clean_listing (OS.is_prot (env st)) p es).1) in *.
      assert (OS.stat (env st') directory = Some (p, Dir es1)) as Hstat'.
      { unfold OS.stat. rewrite Henv. cbn [cwd root OS.with_root]. rewrite Hres.
        by rewrite (lookup_set_at _ _ _ _ Hlk). }
      destruct (cleanHydratedDirectory_run st' directory p es1 Hstat')
        as (r2 & st2 & Hrun2 & Henv2 & Hok2).
      { by apply clean_listing_wf. }
      assert (OS.is_prot (env st') = OS.is_prot (env st)) as Hprot.
      { unfold OS.is_prot. by rewrite Henv. }
      rewrite Hprot in Henv2, Hok2. unfold es1 in Henv2, Hok2.
      rewrite clean_listing_idem in Henv2, Hok2. fold es1 in Henv2.
      exists r, st', r2, st2. split; [done|]. split; [done|]. split; [|split].
      + rewrite Henv2, Henv. cbn [root OS.with_root cwd prot ext].
        rewrite (set_at_set_at _ _ _ _ _ Hlk). done.
      + by rewrite Hok, Hok2.
      + intros p' es' [= <- <-]. exists es1. split; [|split; [|split]].
        * rewrite Henv. cbn [root OS.with_root]. by eapply lookup_set_at.
        * apply clean_listing_keeps.
        * intros Hr. apply Hok in Hr. apply (clean_listing_ok (OS.is_prot (env st)) p).
          rewrite <- Hr. by destruct (clean_listing _ _ _).
        * intros Hnone. apply Hok. by apply clean_listing_unprot.
    - (* nothing at this path *)
      destruct (cleanHydratedDirectory_missing st directory) as [e He].
      { intros p' es'. by rewrite Hstat. }
      destruct (cleanHydratedDirectory_missing
                  {| env := env st; heap := heap st;
                     trace := trace st ++ [EvReadDir directory] |} directory) as [e2 He2].
      { intros p' es'. cbn [env]. by rewrite Hstat. }
      eexists _, _, _, _. split; [apply He|]. split; [apply He2|].
      split; [done|]. split; [done|]. intros p' es' [=].
Qed.

Lemma clean_listing_assoc_sentinel prot p es k :
    sentinel k = true → assoc k (clean_listing prot p es).1 = assoc k es.
Proof.
    intros Hk. apply String.eqb_eq in Hk as Hname.
    induction es as [|[k' c] es IH]; cbn [clean_listing]; [done|].
    destruct (sentinel k') eqn:Es.
    - destruct (clean_listing prot p es) as [r ok]. cbn [fst assoc] in *.
      by rewrite IH.
    - assert (String.eqb k' k = false) as Hne.
      { apply String.eqb_neq. intros ->. by rewrite Hk in Es. }
      destruct (removeAll_node prot (p ++ [k']) c) as [c'|]; cbn [fst assoc];
        by rewrite Hne.
Qed.

  (** C8: the cleanup does not keep the marker file only. The test on the
      name [.gitkeep] comes before the test that tells a directory from a
      file, so that a directory of this name is passed over too: after the
      cleanup it is still there with all it holds, and the cleanup reports
      no error when nothing is protected from removal. *)
Theorem C8_directory_named_gitkeep_is_kept st directory p es sub :
    OS.stat (env st) directory = Some (p, Dir es) →
    wf_entries es →
    assoc ".gitkeep" es = Some (Dir sub) →
    ∃ r st',
      cleanHydratedDirectory directory st = (r, st') ∧
      lookup (root (env st')) (p ++ [".gitkeep"]) = Some (Dir sub) ∧
      (∀ q n, lookup (Dir sub) q = Some n →
              lookup (root (env st')) (p ++ ".gitkeep" :: q) = Some n) ∧
      ((∀ q, OS.is_prot (env st) q = false) → r = Ok tt).
Proof.
    intros Hstat Hwf Hkeep.
    destruct (cleanHydratedDirectory_run st directory p es Hstat Hwf)
      as (r & st' & Hrun & Henv & Hok).
    pose proof (stat_lookup _ _ _ _ Hstat) as [Hres Hlk].
    exists r, st'. split; [done|].
    assert (lookup (root (env st')) (p ++ [".gitkeep"]) = Some (Dir sub)) as Hdir.
    { rewrite Henv. cbn [root OS.with_root].
      erewrite lookup_child; [|by eapply lookup_set_at].
      by rewrite clean_listing_assoc_sentinel. }
    split; [done|]. split.
    - intros q n Hq. change (".gitkeep" :: q) with ([".gitkeep"] ++ q).
      by rewrite app_assoc, lookup_app, Hdir.
    - intros Hnone. apply Hok. by apply clean_listing_unprot.
Qed.

Lemma cleanEntries_no_panic directory files st pn :
    (cleanEntries directory files st).1 ≠ Panic pn.
Proof.
    revert st. induction files as [|[name isDir] rest IH]; intros st; cbn [cleanEntries].
    - done.
    - destruct (String.eqb name ".gitkeep"); [apply IH|].
      destruct isDir; unfold bind, OS.RemoveAll, OS.Remove, call.
      + destruct (OS.RemoveAll_env _ _) as [[e|[]] env1]; [done|apply IH].
      + destruct (OS.Remove_env _ _) as [[e|[]] env1]; [done|apply IH].
Qed.

Lemma cleanHydratedDirectory_no_panic directory st pn :
    (cleanHydratedDirectory directory st).1 ≠ Panic pn.
Proof.
    unfold cleanHydratedDirectory, bind, OS.ReadDir, call.
    destruct (OS.ReadDir_env _ _) as [[e|files] env1]; [done|].
    apply cleanEntries_no_panic.
Qed.

  (** The cleanup begins with the listing of the directory. *)
Lemma cleanHydratedDirectory_trace directory st :
    ∃ evs, trace (cleanHydratedDirectory directory st).2
           = trace st ++ EvReadDir directory :: evs ∧
           count KExec evs = 0%nat.
Proof.
    unfold cleanHydratedDirectory, bind, OS.ReadDir, call.
    destruct (OS.ReadDir_env _ _) as [[e|files] env1].
    - by exists [].
    - set (st1 := {| env := env1; heap := heap st; trace := _ |}).
      destruct (tally_cleanEntries KExec directory files ltac:(done) st1)
        as (evs & Ht & Hle & _).
      exists evs. destruct (cleanEntries directory files st1) as [r st2].
      cbn [fst snd] in *. rewrite Ht. subst st1. cbn [trace].
      rewrite <- app_assoc. split; [done|lia].
Qed.

Lemma runCmd_run st binPath args dir logCmd :
    runCmd C binPath args dir logCmd st
    = (match (exec_Command Ext C binPath args dir (env st)).1 with
       | StartFailed e => Err (Errorf "failed to start command: " e)
       | WaitFailed e stderr =>
           Err (ErrMsg ("error running command: " +:+ Error e +:+ String "010"%char stderr))
       | Exited stdout => Ok stdout
       end,
       {| env := (exec_Command Ext C binPath args dir (env st)).2;
          heap := heap st; trace := trace st ++ [EvExec binPath args dir] |}).
Proof.
    unfold runCmd, bind, call_total.
    destruct (exec_Command Ext C binPath args dir (env st)) as [[e|e stderr|out] env1]; done.
Qed.

Section Renderer.

Variables (sourceRepo baseLibraryPath overlayPath outputRepo outputPath
               sourceOfTruth : string).

Let cleared : string :=
      Filepath.Join (if String.eqb outputRepo "" then sourceRepo else outputRepo) outputPath.

Let args : list string :=
      ["-b"; Filepath.Join sourceRepo baseLibraryPath;
       "-o"; Filepath.Join sourceRepo overlayPath;
       "-y"; Filepath.Join sourceRepo outputPath;
       Filepath.Join sourceRepo sourceOfTruth].

    (** The hydration is the two runs of the renderer, from the state the
        cleanup has left, whatever the cleanup returned. *)
Lemma runHydrationCLI_run st :
      runHydrationCLI C sourceRepo baseLibraryPath overlayPath outputRepo outputPath
        sourceOfTruth st
      = (do _ <- runCmd C hydrateCliBin args "" true;
         do _ <- runCmd C hydrateCliBin args "" true;
         ret tt) (cleanHydratedDirectory cleared st).2.
Proof.
      unfold runHydrationCLI. cbv zeta. unfold bind at 1, discard.
      fold cleared. pose proof (cleanHydratedDirectory_no_panic cleared st) as Hnp.
      destruct (cleanHydratedDirectory cleared st) as [[[]|e|pn] st1]; try done.
      by destruct (Hnp pn).
Qed.

    (** C3: the renderer is run with the fixed arguments, all four paths
        below the source repository, but not once per batch: when its first
        run ends well it is run a second time, with the same arguments. *)
Theorem C3_renderer_invoked_twice st stdout :
      (exec_Command Ext C hydrateCliBin args ""
         (env (cleanHydratedDirectory cleared st).2)).1 = Exited stdout →
      ∃ evs,
        trace (runHydrationCLI C sourceRepo baseLibraryPath overlayPath outputRepo
                 outputPath sourceOfTruth st).2
        = trace st ++ evs ++ [EvExec hydrateCliBin args ""; EvExec hydrateCliBin args ""] ∧
        count KExec evs = 0%nat ∧
        count KExec (evs ++ [EvExec hydrateCliBin args ""; EvExec hydrateCliBin args ""])
        = 2%nat.
Proof.
      intros Hexec. rewrite runHydrationCLI_run.
      destruct (cleanHydratedDirectory_trace cleared st) as (evs & Ht & Hc).
      exists (EvReadDir cleared :: evs).
      unfold bind at 1. rewrite runCmd_run, Hexec.
      unfold bind at 1. rewrite runCmd_run. cbn [env heap trace].
      assert (count KExec (EvReadDir cleared :: evs) = 0%nat) as Hc'.
      { change (EvReadDir cleared :: evs) with ([EvReadDir cleared] ++ evs).
        by rewrite count_app, Hc. }
      split; [|split; [done|]].
      - match goal with
        | |- context [match ?x with StartFailed _ => _ | _ => _ end] => destruct x
        end; unfold ret; cbn [snd trace]; rewrite Ht, <- !app_assoc; done.
      - by rewrite count_app, Hc'.
Qed.


Lemma clean_fold_no_dotdot (r : bool) (ds acc : list string) :
      ".." ∉ ds →
      fold_left (Filepath.clean_step r) ds acc
      = fold_left (Filepath.clean_step r) ds [] ++ acc.
Proof.
      revert acc. induction ds as [|e ds IH]; intros acc Hdd; [done|].
      apply not_elem_of_cons in Hdd as [Hne Hdd]. cbn [fold_left].
      unfold Filepath.clean_step at 2 4.
      destruct (String.eqb e ""); [by apply IH|].
      destruct (String.eqb e "."); [by apply IH|].
      destruct (String.eqb_spec e "..") as [->|_]; [done|].
      rewrite (IH (e :: acc)), (IH [e]) by done. by rewrite <- app_assoc.
Qed.

    (** The clean form of a path below a plain first element that never
        climbs: the element, then what is left of the rest. *)
Lemma Join_plain a d :
      plain_name a = true → ".." ∉ Strings.Split Strings.SLASH d →
      Filepath.Join a d
      = Strings.Join
          (a :: rev (fold_left (Filepath.clean_step false) (Strings.Split Strings.SLASH d) []))
          "/" ∧
      Forall (fun e => Strings.has_byte Strings.SLASH e = false)
        (a :: rev (fold_left (Filepath.clean_step false)
                     (Strings.Split Strings.SLASH d) [])).
Proof.
      intros Ha Hdd. apply plain_name_spec in Ha as Ha'.
      destruct Ha' as (Hne & Hnd & Hndd & Hsl).
      unfold Filepath.Join. apply String.eqb_neq in Hne as Hne'. rewrite Hne'. cbn [negb].
      unfold Filepath.Clean.
      assert (a +:+ "/" +:+ d ≠ "") as Hs by (by destruct a).
      apply String.eqb_neq in Hs as ->.
      assert (Filepath.rooted (a +:+ "/" +:+ d) = false) as ->.
      { rewrite rooted_append by done. destruct a as [|c a]; [done|].
        simpl in Hsl. apply orb_false_iff in Hsl as [Hc _]. simpl. by rewrite Hc. }
      change (a +:+ "/" +:+ d) with (a +:+ String Strings.SLASH d).
      rewrite Split_app, (Split_no_sep _ a) by done. cbn [app fold_left].
      assert (Filepath.clean_step false [] a = [a]) as ->.
      { unfold Filepath.clean_step. apply String.eqb_neq in Hnd, Hndd.
        by rewrite Hne', Hnd, Hndd. }
      rewrite clean_fold_no_dotdot by done.
      rewrite rev_app_distr. cbn [rev app]. split; [done|].
      constructor; [done|].
      destruct (clean_fold_walk false [] (Strings.Split Strings.SLASH d) [])
        as [[Hall _] _]; [done|apply Split_elems| |].
      { split; [apply Forall_nil_2|done]. }
      apply Forall_rev. eapply Forall_impl; [apply Hall|]. naive_solver.
Qed.

Lemma Join_plain_inj a b d :
      plain_name a = true → plain_name b = true →
      ".." ∉ Strings.Split Strings.SLASH d →
      Filepath.Join a d = Filepath.Join b d → a = b.
Proof.
      intros Ha Hb Hdd Heq.
      destruct (Join_plain a d Ha Hdd) as [Hja Hfa].
      destruct (Join_plain b d Hb Hdd) as [Hjb Hfb].
      rewrite Hja, Hjb in Heq.
      apply (f_equal (Strings.Split Strings.SLASH)) in Heq.
      rewrite !Split_Join in Heq by done. congruence.
Qed.

    (** C10: with an output repository of its own, the directory that is
        cleared is the output directory below the output repository, and the
        directory given to the renderer is the output directory below the
        source repository. The two paths differ when the two repository
        names are plain names and the output directory holds no [..]. *)
Theorem C10_cleared_and_rendered_directories st :
      outputRepo ≠ "" →
      (∃ evs,
         trace (runHydrationCLI C sourceRepo baseLibraryPath overlayPath outputRepo
                  outputPath sourceOfTruth st).2
         = trace st ++ EvReadDir (Filepath.Join outputRepo outputPath) :: evs ∧
         EvExec hydrateCliBin
           ["-b"; Filepath.Join sourceRepo baseLibraryPath;
            "-o"; Filepath.Join sourceRepo overlayPath;
            "-y"; Filepath.Join sourceRepo outputPath;
            Filepath.Join sourceRepo sourceOfTruth] "" ∈ evs) ∧
      (plain_name sourceRepo = true → plain_name outputRepo = true →
       sourceRepo ≠ outputRepo →
       ".." ∉ Strings.Split Strings.SLASH outputPath →
       Filepath.Join outputRepo outputPath ≠ Filepath.Join sourceRepo outputPath).
Proof.
      intros Hout. split.
      - rewrite runHydrationCLI_run.
        assert (cleared = Filepath.Join outputRepo outputPath) as Hcl.
        { unfold cleared. apply String.eqb_neq in Hout. by rewrite Hout. }
        rewrite Hcl.
        destruct (cleanHydratedDirectory_trace (Filepath.Join outputRepo outputPath) st)
          as (evs & Ht & _).
        unfold bind at 1. rewrite runCmd_run. fold args.
        destruct (exec_Command Ext C hydrateCliBin args "" _).1.
        + exists (evs ++ [EvExec hydrateCliBin args ""]). cbn [snd trace]. rewrite Ht.
          rewrite <- app_assoc. split; [done|]. apply elem_of_app. right. left.
        + exists (evs ++ [EvExec hydrateCliBin args ""]). cbn [snd trace]. rewrite Ht.
          rewrite <- app_assoc. split; [done|]. apply elem_of_app. right. left.
        + unfold bind at 1. rewrite runCmd_run. cbn [env heap trace].
          exists (evs ++ [EvExec hydrateCliBin args ""; EvExec hydrateCliBin args ""]).
          split.
          * match goal with
            | |- context [match ?x with StartFailed _ => _ | _ => _ end] => destruct x
            end; unfold ret; cbn [snd trace]; rewrite Ht, <- !app_assoc; done.
          * apply elem_of_app. right. left.
      - intros Hs Ho Hne Hdd Heq. apply Hne. symmetry.
        by eapply Join_plain_inj.
Qed.

End Renderer.

End Hydration.

(** * The orchestrator *)

Section Orchestrator.

Context {Ext : Type} (C : Collaborators Ext).
Implicit Types (st : State Ext) (d : deployer).

  (** C1: when the deploy fails with [e], [process] uploads a failed
      result whose message is that of [e]; when this upload goes through,
      [process] returns [nil], not [e]: the [err] it returns is the one of
      the upload. *)
Theorem C1_process_returns_nil_after_failed_deploy d st e st1 rURI env2 :
    deploy C d st = (Err e, st1) →
    req_UploadResult Ext C
      {| ResultStatus := DeployFailed; FailureMessage := Error e;
         ArtifactFiles := []; Metadata := metadata C |} (env st1) = (inr rURI, env2) →
    process C d st
    = (Ok None,
       {| env := env2; heap := heap st1;
          trace := trace st1 ++
                   [EvUploadResult
                      {| ResultStatus := DeployFailed; FailureMessage := Error e;
                         ArtifactFiles := []; Metadata := metadata C |}] |}).
Proof.
    intros Hdeploy Hupload. unfold process. rewrite Hdeploy.
    unfold UploadResult, call. by rewrite Hupload.
Qed.

Lemma wrap64_small z : (- 2 ^ 63 <= z < 2 ^ 63)%Z → wrap64 z = z.
Proof.
    intros Hz. unfold wrap64.
    rewrite Z.mod_small by lia. lia.
Qed.

Lemma slice_empty {A} (l : list A) : slice l 0 0 = Ok [].
Proof.
    unfold slice. destruct (Z.leb_spec 0 (Z.of_nat (length l))); [|lia]. done.
Qed.

Lemma batchLoop_done d fuel secret srcRepo outRepo (clustersToUpdate : list string)
      batchSize numBatches i batchCounter :
    (Z.of_nat (length clustersToUpdate) <= i)%Z →
    batchLoop C d fuel secret srcRepo outRepo clustersToUpdate batchSize numBatches
      i batchCounter = ret tt.
Proof.
    intros Hi. destruct fuel; cbn [batchLoop];
      by destruct (Z.ltb_spec i (Z.of_nat (length clustersToUpdate))); [lia|].
Qed.

  (** C2: a batch size that is not positive does not make one batch of the
      whole selection. With a batch size of zero the loop runs once, on a
      batch that holds no cluster; with a negative one the slice of the
      first batch is out of bounds. *)
Theorem C2_nonpositive_batch_size d st secret srcRepo outRepo
      (clustersToUpdate : list string) :
    let len := Z.of_nat (length clustersToUpdate) in
    clustersToUpdate ≠ [] → (len < 2 ^ 63)%Z →
    (hydrationBatchSize (dparams d) = 0%Z →
     ceil_quot len len = 1%Z ∧
     batchLoop C d (S (length clustersToUpdate)) secret srcRepo outRepo clustersToUpdate
       len 1 0 1 st
     = (run log (EvProcessingBatch [] (featureBranchName d 1 1));
        run batchSteps C d secret srcRepo outRepo [] (featureBranchName d 1 1);
        ret tt) st) ∧
    ((- 2 ^ 63 <= hydrationBatchSize (dparams d) < 0)%Z →
     batchLoop C d (S (length clustersToUpdate)) secret srcRepo outRepo clustersToUpdate
       len 1 0 1 st
     = (Panic slice_bounds_out_of_range, st)).
Proof.
    intros len Hne Hlen.
    assert (0 < len)%Z as Hpos by (subst len; destruct clustersToUpdate; [done|simpl; lia]).
    split.
    - intros HB. split.
      + unfold ceil_quot. destruct (Z.eqb_spec len 0); [lia|].
        rewrite Z.div_opp_l_z by (try lia; apply Z.mod_same; lia).
        rewrite Z.div_same by lia. lia.
      + cbn [batchLoop]. fold len.
        destruct (Z.ltb_spec 0 len); [|lia].
        rewrite batchLoop_done by (fold len; unfold int_add; rewrite wrap64_small; lia).
        unfold processBatch. cbv zeta. rewrite HB. fold len.
        change (int_add 0 0) with 0%Z.
        destruct (Z.ltb_spec len 0); [lia|].
        rewrite slice_empty. unfold bind, liftR, log.
        by destruct (batchSteps _ _ _ _ _ _ _ _) as [[[]|e|pn] st2].
    - intros HB. cbn [batchLoop]. fold len.
      destruct (Z.ltb_spec 0 len); [|lia].
      unfold processBatch. cbv zeta. fold len.
      assert (int_add 0 (hydrationBatchSize (dparams d)) = hydrationBatchSize (dparams d))
        as -> by (unfold int_add; rewrite Z.add_0_l; apply wrap64_small; lia).
      destruct (Z.ltb_spec len (hydrationBatchSize (dparams d))); [lia|].
      unfold slice.
      destruct (Z.leb_spec 0 (hydrationBatchSize (dparams d))); [lia|].
      cbn [Z.leb Z.compare andb]. done.
Qed.

Lemma ltally_run {A} K (m : M Ext A) a b st evs :
    ltally K m a b → trace (m st).2 = trace st ++ evs →
    (count K evs <= a + b * count KBatch evs)%nat ∧
    (is_Ok (m st).1 → count K evs = (a + b * count KBatch evs)%nat).
Proof.
    intros H Ht. destruct (H st) as (evs' & Ht' & Hle & Heq).
    assert (evs' = evs) as -> by (apply (app_inv_head (trace st)); congruence).
    done.
Qed.

Lemma tally_run {A} K (m : M Ext A) n st evs :
    tally K m n → trace (m st).2 = trace st ++ evs →
    (count K evs <= n)%nat ∧ (is_Ok (m st).1 → count K evs = n).
Proof.
    intros H Ht. destruct (H st) as (evs' & Ht' & Hle & Heq).
    assert (evs' = evs) as -> by (apply (app_inv_head (trace st)); congruence).
    done.
Qed.

Lemma tally_processBatch d K secret srcRepo clustersToUpdate numBatches i batchCounter :
    gitSourceRepo (dparams d) = gitOutputRepo (dparams d) →
    K ≠ KOther → K ≠ KPull →
    tally K (processBatch C d secret srcRepo srcRepo clustersToUpdate numBatches i batchCounter)
      (per_batch d K).
Proof.
    intros Hrefs HK HP. unfold processBatch. cbv zeta.
    eapply tally_conv.
    - eapply tally_bind; [apply tally_liftR|]. intros batch.
      eapply tally_bind;
        [eapply tally_conv; [apply tally_log | cbn [kind_of]; reflexivity]|].
      intros _. by apply tally_batchSteps.
    - destruct K; try done; cbn [kind_eqb kind_of per_batch]; lia.
Qed.

End Orchestrator.

(** * The theorems at work in the small world *)

Section Witnesses.

Import Demo.

Lemma C1_witness :
    (deploy (collab false true) (deployer_ repo_ref 2) (state inventory [])).1
    = Err (ErrMsg "unable to access git secret: failed to access secret version projects/p/secrets/s/versions/1: permission denied") ∧
    (process (collab false true) (deployer_ repo_ref 2) (state inventory [])).1 = Ok None.
Proof.
    split; [vm_compute; reflexivity|].
    erewrite (C1_process_returns_nil_after_failed_deploy (collab false true)
                (deployer_ repo_ref 2) (state inventory []));
      [reflexivity | vm_compute; reflexivity | vm_compute; reflexivity].
Defined.

Lemma C2_witness :
    ["c1"; "c3"; "c4"] ≠ [] ∧ (3 < 2 ^ 63)%Z ∧
    hydrationBatchSize (dparams (deployer_ repo_ref 0)) = 0%Z ∧
    batchLoop (collab true true) (deployer_ repo_ref 0) 4 "token" repository repository
      ["c1"; "c3"; "c4"] 3 1 0 1 (state inventory [])
    = (run log (EvProcessingBatch [] "rollout-1__1/1");
       run batchSteps (collab true true) (deployer_ repo_ref 0) "token" repository
             repository [] "rollout-1__1/1";
       ret tt) (state inventory []).
Proof.
    split; [done|]. split; [done|]. split; [done|].
    apply (C2_nonpositive_batch_size (collab true true) (deployer_ repo_ref 0)
             (state inventory []) "token" repository repository ["c1"; "c3"; "c4"]);
      done.
Defined.

Lemma C3_witness :
    (exec_Command unit (collab true true) hydrateCliBin
       ["-b"; "repo/base_library"; "-o"; "repo/overlays"; "-y"; "repo/output";
        "repo/source_of_truth.csv"] ""
       (env (cleanHydratedDirectory "repo/output" (state inventory [])).2)).1 = Exited "" ∧
    count KExec
      (trace (runHydrationCLI (collab true true) "repo" "base_library/" "overlays/" "repo"
                "output" "source_of_truth.csv" (state inventory [])).2) = 2%nat.
Proof.
    split; [reflexivity|].
    destruct (C3_renderer_invoked_twice (collab true true) "repo" "base_library/" "overlays/"
                "repo" "output" "source_of_truth.csv" (state inventory []) "" eq_refl)
      as (evs & Ht & _ & Hcount).
    rewrite Ht. exact Hcount.
Defined.

Lemma C4_witness :
    OS.stat (env (state "" [])) (Filepath.Join "repo" "source_of_truth.csv")
    = Some (["repo"; "source_of_truth.csv"], FS.File "") ∧
    csv_ReadAll unit (collab true true) "" = inr [] ∧
    (determineClustersToUpdate (collab true true) "repo" "source_of_truth.csv" "groupA"
       [] [] (state "" [])).1 = Panic index_out_of_range.
Proof.
    split; [reflexivity|]. split; [reflexivity|].
    apply (C4_empty_inventory_panics (collab true true) (state "" []) "repo"
             "source_of_truth.csv" "groupA" [] [] ["repo"; "source_of_truth.csv"] "");
      reflexivity.
Defined.

Lemma demo_header_has (fields : list string) :
    forallb (fun f => Strings.Contains header f) fields = true →
    ∀ f, f ∈ fields → f ∈ header.
Proof.
    rewrite forallb_forall. intros H f Hf. apply Contains_true, H. by apply list_elem_of_In.
Qed.

Lemma C5_witness :
    OS.stat (env (state inventory [])) (Filepath.Join "repo" "source_of_truth.csv")
    = Some (["repo"; "source_of_truth.csv"], FS.File inventory) ∧
    csv_ReadAll unit (collab true true) inventory = inr (header :: rows) ∧
    (determineClustersToUpdate (collab true true) "repo" "source_of_truth.csv" "groupA"
       ["tag1"] ["tag2"] (state inventory [])).1 = Ok ["c1"; "c4"].
Proof.
    split; [reflexivity|]. split; [reflexivity|].
    apply (C5_SelectClusters_policy (collab true true) (state inventory []) "repo"
             "source_of_truth.csv" "groupA" ["tag1"] ["tag2"]
             ["repo"; "source_of_truth.csv"] inventory header rows).
    - reflexivity.
    - reflexivity.
    - by apply demo_header_has.
    - by repeat constructor.
Defined.

Lemma C6_witness :
    OS.stat (env (state inventory [])) (Filepath.Join "repo" "source_of_truth.csv")
    = Some (["repo"; "source_of_truth.csv"], FS.File inventory) ∧
    csv_ReadAll unit (collab true true) inventory = inr (header :: rows) ∧
    OS.is_prot (env (state inventory [])) ["repo"; "source_of_truth.csv"] = false ∧
    ∃ st' data',
      updatePlatformAndWorkloadRepositoryRevision (collab true true) "repo" ["c1"; "c4"]
        "source_of_truth.csv" "p1" "" (state inventory []) = (Ok tt, st') ∧
      FS.lookup (root (env st')) ["repo"; "source_of_truth.csv"] = Some (FS.File data') ∧
      csv_ReadAll unit (collab true true) data'
      = inr [header;
             ["c1"; "groupA"; "tag1"; "p1"; "w0"];
             ["c2"; "groupB"; "tag1"; "p0"; "w0"];
             ["c3"; "groupA"; "tag2"; "p0"; "w0"];
             ["c4"; "groupA"; "tag1"; "p1"; "w0"]] ∧
      InventorySpec.revisions_updated header ["c1"; "c4"] "p1" "" (header :: rows)
        [header;
         ["c1"; "groupA"; "tag1"; "p1"; "w0"];
         ["c2"; "groupB"; "tag1"; "p0"; "w0"];
         ["c3"; "groupA"; "tag2"; "p0"; "w0"];
         ["c4"; "groupA"; "tag1"; "p1"; "w0"]].
Proof.
    split; [reflexivity|]. split; [reflexivity|]. split; [reflexivity|].
    destruct (C6_UpdateRevisions_frame (collab true true) (state inventory []) "repo"
                ["c1"; "c4"] "source_of_truth.csv" "p1" "" ["repo"; "source_of_truth.csv"]
                inventory header rows) as (st' & Hrun & Hfile & Hframe & Hback).
    - reflexivity.
    - reflexivity.
    - by apply demo_header_has.
    - by repeat constructor.
    - reflexivity.
    - destruct (Hback eq_refl) as (data' & Hdata & Hread).
      exists st', data'. split; [exact Hrun|]. split; [exact Hdata|].
      split; [exact Hread|exact Hframe].
Defined.

Lemma C8_witness :
    OS.stat (env state_keepdir) "repo/output"
    = Some (["repo"; "output"],
            FS.Dir [(".gitkeep", FS.Dir [("notes", FS.File "kept")]);
                    ("c1.yaml", FS.File "old")]) ∧
    ∃ st',
      cleanHydratedDirectory "repo/output" state_keepdir = (Ok tt, st') ∧
      FS.lookup (root (env st')) ["repo"; "output"; ".gitkeep"]
      = Some (FS.Dir [("notes", FS.File "kept")]) ∧
      FS.lookup (root (env st')) ["repo"; "output"; ".gitkeep"; "notes"]
      = Some (FS.File "kept") ∧
      FS.lookup (root (env st')) ["repo"; "output"; "c1.yaml"] = None.
Proof.
    split; [reflexivity|].
    destruct (C8_directory_named_gitkeep_is_kept state_keepdir "repo/output"
                ["repo"; "output"]
                [(".gitkeep", FS.Dir [("notes", FS.File "kept")]);
                 ("c1.yaml", FS.File "old")]
                [("notes", FS.File "kept")])
      as (r & st' & Hrun & Hdir & Hbelow & Hok).
    - reflexivity.
    - split.
      + apply (bool_decide_unpack _). by vm_compute.
      + by repeat constructor.
    - reflexivity.
    - assert (r = Ok tt) as -> by (by apply Hok).
      exists st'. split; [exact Hrun|]. split; [exact Hdir|]. split.
      + apply (Hbelow ["notes"]). reflexivity.
      + assert (st' = (cleanHydratedDirectory "repo/output" state_keepdir).2) as ->
          by (by rewrite Hrun).
        reflexivity.
Defined.


Lemma C10_witness :
    "manifests" ≠ "" ∧
    Filepath.Join "manifests" "output" ≠ Filepath.Join "repo" "output".
Proof.
    split; [done|].
    destruct (C10_cleared_and_rendered_directories (collab true true) "repo" "base_library/"
                "overlays/" "manifests" "output" "source_of_truth.csv" (state inventory []))
      as [_ Hne]; [done|].
    apply Hne; [reflexivity | reflexivity | done |].
    vm_compute. intros H. repeat (apply elem_of_cons in H as [H|H]; [done|]).
    by apply elem_of_nil in H.
Defined.

  (** C10, as it was stated: with an output directory that climbs out of
      the repository, the directory cleared below the output repository is
      the directory given to the renderer. *)
Lemma C10_counterexample :
    "b" ≠ "" ∧ "b" ≠ "a" ∧
    trace (runHydrationCLI (collab true true) "a" "base" "overlays" "b" "../x" "sot.csv"
             (state inventory [])).2
    = [EvReadDir "x";
       EvExec "hydrate" ["-b"; "a/base"; "-o"; "a/overlays"; "-y"; "x"; "a/sot.csv"] "";
       EvExec "hydrate" ["-b"; "a/base"; "-o"; "a/overlays"; "-y"; "x"; "a/sot.csv"] ""].
Proof. by vm_compute. Qed.

End Witnesses.

(** * The fuel of the batch loop is enough *)

Section SafeRules.

Context {Ext : Type}.

Lemma safe_ret {A} (a : A) : safe (ret (Ext:=Ext) a).
Proof. by intros st. Qed.

Lemma safe_liftR {A} (r : res A) :
    r ≠ Panic fuel_exhausted → safe (liftR (Ext:=Ext) r).
Proof. by intros H st. Qed.

Lemma safe_log ev : safe (log (Ext:=Ext) ev).
Proof. by intros st. Qed.

Lemma safe_call {T} ev (f : Env Ext → (error + T) * Env Ext) : safe (call ev f).
Proof. intros st. unfold call. by destruct (f (env st)) as [[e|t] env1]. Qed.

Lemma safe_call_total {T} ev (f : Env Ext → T * Env Ext) : safe (call_total ev f).
Proof. intros st. unfold call_total. by destruct (f (env st)). Qed.

Lemma safe_bind {A B} (m : M Ext A) (k : A → M Ext B) :
    safe m → (∀ a, safe (k a)) → safe (bind m k).
Proof.
    intros Hm Hk st. unfold bind. specialize (Hm st).
    destruct (m st) as [[a|e|pn] st1]; cbn [fst] in *; [apply Hk|done|].
    intros [= ->]. by apply Hm.
Qed.

  (** The continuation need only be safe on what the first part can
      return. *)
Lemma safe_bind_post {A B} (m : M Ext A) (k : A → M Ext B) (Q : A → Prop) :
    safe m → (∀ st a st', m st = (Ok a, st') → Q a) → (∀ a, Q a → safe (k a)) →
    safe (bind m k).
Proof.
    intros Hm Hpost Hk st. unfold bind. specialize (Hm st). specialize (Hpost st).
    destruct (m st) as [[a|e|pn] st1]; cbn [fst] in *;
      [|done|intros [= ->]; by apply Hm].
    apply Hk. by eapply Hpost.
Qed.

Lemma safe_wrapErr {A} prefix (m : M Ext A) : safe m → safe (wrapErr prefix m).
Proof.
    intros Hm st. unfold wrapErr. specialize (Hm st).
    by destruct (m st) as [[a|e|pn] st1].
Qed.

Lemma safe_discard {A} (m : M Ext A) : safe m → safe (discard m).
Proof.
    intros Hm st. unfold discard. specialize (Hm st).
    destruct (m st) as [[a|e|pn] st1]; cbn [fst] in *; [done|done|].
    intros [= ->]. by apply Hm.
Qed.

Lemma safe_read f : safe (OS.read (Ext:=Ext) f).
Proof. intros st. unfold OS.read. by destruct (FS.lookup _ _) as [[?|?]|]. Qed.

Lemma safe_flush f data : safe (OS.flush (Ext:=Ext) f data).
Proof. by intros st. Qed.

Lemma safe_newGitRepository h o r e u : safe (newGitRepository (Ext:=Ext) h o r e u).
Proof. by intros st. Qed.

Lemma safe_cleanHydratedDirectory directory :
    safe (cleanHydratedDirectory (Ext:=Ext) directory).
Proof. intros st. apply cleanHydratedDirectory_no_panic. Qed.

End SafeRules.

Section PureResults.

Import Inventory.

Lemma index_safe {A} (l : list A) i : index l i ≠ Panic fuel_exhausted.
Proof. unfold index. by destruct (l !! i). Qed.

Lemma slice_safe {A} (l : list A) i j : slice l i j ≠ Panic fuel_exhausted.
Proof. unfold slice. by destruct (_ && _). Qed.

Lemma findFieldIndices_safe header fields pn :
    findFieldIndices header fields ≠ Panic pn.
Proof.
    unfold findFieldIndices. destruct (_ =? _)%nat; [done|].
    destruct (fold_left _ _ _) as [ind miss]. by destruct (_ <? _)%nat.
Qed.

Lemma rbind_safe {A B} (r : res A) (k : A → res B) :
    r ≠ Panic fuel_exhausted → (∀ a, k a ≠ Panic fuel_exhausted) →
    rbind r k ≠ Panic fuel_exhausted.
Proof.
    intros Hr Hk. destruct r as [a|e|pn]; [apply Hk|done|].
    intros [= ->]. by apply Hr.
Qed.

Lemma assign_safe rec i v : assign rec i v ≠ Panic fuel_exhausted.
Proof. unfold assign. by destruct (_ <? _)%nat. Qed.

Lemma selectRow_safe ni gi ti g any all acc rec :
    selectRow ni gi ti g any all acc rec ≠ Panic fuel_exhausted.
Proof.
    unfold selectRow.
    repeat first
      [ apply rbind_safe; [apply index_safe|intros ?]
      | match goal with |- context [if ?b then _ else _] => destruct b end
      | done ].
Qed.

Lemma selectRows_safe ni gi ti g any all rows :
    ∀ acc, selectRows ni gi ti g any all acc rows ≠ Panic fuel_exhausted.
Proof.
    induction rows as [|rec rest IH]; intros acc; cbn [selectRows]; [done|].
    apply rbind_safe; [apply selectRow_safe|apply IH].
Qed.

Lemma selectClusters_safe records g any all :
    selectClusters records g any all ≠ Panic fuel_exhausted.
Proof.
    unfold selectClusters.
    apply rbind_safe; [apply index_safe|intros header].
    apply rbind_safe; [apply findFieldIndices_safe|intros ind].
    apply selectRows_safe.
Qed.

Lemma updateRecord_safe ni pi wi names prev wrev rec :
    updateRecord ni pi wi names prev wrev rec ≠ Panic fuel_exhausted.
Proof.
    unfold updateRecord.
    apply rbind_safe; [apply index_safe|intros name].
    apply rbind_safe.
    - destruct (_ && _); [apply assign_safe|done].
    - intros rec1. apply rbind_safe; [apply index_safe|intros name1].
      destruct (_ && _); [apply assign_safe|done].
Qed.

Lemma updateRecords_safe ni pi wi names prev wrev records :
    ∀ written,
      (updateRecords ni pi wi names prev wrev written records).2 ≠ Panic fuel_exhausted.
Proof.
    induction records as [|rec rest IH]; intros written; cbn [updateRecords]; [done|].
    pose proof (updateRecord_safe ni pi wi names prev wrev rec) as Hrec.
    destruct (updateRecord ni pi wi names prev wrev rec) as [rec'|e|pn]; [apply IH|done|].
    cbn [snd]. intros [= ->]. by apply Hrec.
Qed.

  (** The selection holds no more names than the file has rows. *)
Lemma selectRow_length ni gi ti g any all acc rec l :
    selectRow ni gi ti g any all acc rec = Ok l → (length l <= S (length acc))%nat.
Proof.
    unfold selectRow.
    destruct (index rec gi) as [x|e|pn]; cbn [rbind]; [|done|done].
    destruct (negb _); [intros [= <-]; lia|].
    destruct (index rec ni) as [name|e|pn]; cbn [rbind]; [|done|done].
    destruct (_ && _); [intros [= <-]; rewrite length_app; simpl; lia|].
    destruct (index rec ti) as [cell|e|pn]; cbn [rbind]; [|done|done].
    repeat match goal with |- context [if ?b then _ else _] => destruct b end;
      intros [= <-]; rewrite ?length_app; simpl; lia.
Qed.

Lemma selectRows_length ni gi ti g any all rows :
    ∀ acc l, selectRows ni gi ti g any all acc rows = Ok l →
             (length l <= length acc + length rows)%nat.
Proof.
    induction rows as [|rec rest IH]; intros acc l; cbn [selectRows].
    - intros [= <-]. lia.
    - destruct (selectRow ni gi ti g any all acc rec) as [acc'|e|pn] eqn:E;
        cbn [rbind]; [|done|done].
      intros H. apply IH in H. apply selectRow_length in E. simpl. lia.
Qed.

Lemma selectClusters_length records g any all l :
    selectClusters records g any all = Ok l → (length l <= length records)%nat.
Proof.
    unfold selectClusters.
    destruct (index records 0) as [header|e|pn]; cbn [rbind]; [|done|done].
    destruct (findFieldIndices header _) as [ind|e|pn]; cbn [rbind]; [|done|done].
    intros H. apply selectRows_length in H. rewrite length_drop in H. simpl in H. lia.
Qed.

End PureResults.

Create HintDb safe.

#[export] Hint Resolve index_safe slice_safe selectClusters_safe
  safe_cleanHydratedDirectory : safe.

Ltac safe_rule :=
  lazymatch goal with
  | |- safe (ret _) => apply safe_ret
  | |- safe (liftR (Err _)) => by apply safe_liftR
  | |- safe (liftR (Ok _)) => by apply safe_liftR
  | |- safe (liftR (match ?x with _ => _ end)) => destruct x; safe_rule
  | |- safe (liftR _) => apply safe_liftR; solve [eauto with safe]
  | |- safe (log _) => apply safe_log
  | |- safe (call _ _) => apply safe_call
  | |- safe (call_total _ _) => apply safe_call_total
  | |- safe (OS.read _) => apply safe_read
  | |- safe (OS.flush _ _) => apply safe_flush
  | |- safe (newGitRepository _ _ _ _ _) => apply safe_newGitRepository
  | |- safe (wrapErr _ _) => apply safe_wrapErr; safe_rule
  | |- safe (discard _) => apply safe_discard; safe_rule
  | |- safe (bind _ _) => apply safe_bind; [safe_rule | intros ?; safe_rule]
  | |- safe (if ?c then _ else _) => destruct c; safe_rule
  | |- safe (match ?x with _ => _ end) => destruct x; safe_rule
  | |- _ => solve [eauto with safe]
  end.

Ltac safe := cbv zeta; safe_rule.

Section SafeDeployer.

Context {Ext : Type} (C : Collaborators Ext).
Variable d : deployer.

Lemma safe_checkoutAndPull repo branch : safe (checkoutAndPull C repo branch).
Proof. unfold checkoutAndPull, gitCall. safe. Qed.
#[local] Hint Resolve safe_checkoutAndPull : safe.

Lemma safe_accessSecretVersion svName : safe (accessSecretVersion C svName).
Proof. unfold accessSecretVersion. safe. Qed.

Lemma safe_setupGitWorkspace secret repo branch :
    safe (setupGitWorkspace C secret repo branch).
Proof. unfold setupGitWorkspace, gitCall. safe. Qed.

Lemma safe_resetGitWorkspace repo sourceBranch featureBranch :
    safe (resetGitWorkspace C repo sourceBranch featureBranch).
Proof. unfold resetGitWorkspace, gitCall. safe. Qed.

Lemma safe_commitPushGitWorkspace repo featureBranch :
    safe (commitPushGitWorkspace C d repo featureBranch).
Proof. unfold commitPushGitWorkspace, gitCall. safe. Qed.
#[local] Hint Resolve safe_commitPushGitWorkspace : safe.

Lemma safe_handleDestinationBranch repo secret featureBranchName destinationBranch :
    safe (handleDestinationBranch C d repo secret featureBranchName destinationBranch).
Proof. unfold handleDestinationBranch. safe. Qed.
#[local] Hint Resolve safe_handleDestinationBranch : safe.

Lemma safe_publish repo secret featureBranchName :
    safe (publish C d repo secret featureBranchName).
Proof. unfold publish, gitCall. safe. Qed.

Lemma safe_runCmd binPath args dir logCmd : safe (runCmd C binPath args dir logCmd).
Proof. unfold runCmd. safe. Qed.
#[local] Hint Resolve safe_runCmd : safe.

Lemma safe_runHydrationCLI sourceRepo baseLibraryPath overlayPath outputRepo outputPath
      sourceOfTruth :
    safe (runHydrationCLI C sourceRepo baseLibraryPath overlayPath outputRepo outputPath
            sourceOfTruth).
Proof. unfold runHydrationCLI. safe. Qed.

Lemma safe_csvReadAll f : safe (csvReadAll C f).
Proof. unfold csvReadAll. safe. Qed.
#[local] Hint Resolve safe_csvReadAll : safe.

Lemma safe_determineClustersToUpdate repo sourceOfTruth clusterGroup matchAny matchAll :
    safe (determineClustersToUpdate C repo sourceOfTruth clusterGroup matchAny matchAll).
Proof. unfold determineClustersToUpdate, OS.Open. safe. Qed.

Lemma safe_updatePlatformAndWorkloadRepositoryRevision repo clusterNames sourceOfTruth
      platformRevision workloadRevision :
    safe (updatePlatformAndWorkloadRepositoryRevision C repo clusterNames sourceOfTruth
            platformRevision workloadRevision).
Proof.
    unfold updatePlatformAndWorkloadRepositoryRevision, OS.Open, OS.Create. cbv zeta.
    apply safe_bind; [safe_rule|intros f].
    apply safe_bind; [safe_rule|intros records].
    apply safe_bind; [safe_rule|intros header].
    apply safe_bind; [apply safe_liftR, findFieldIndices_safe|intros ind].
    apply safe_bind; [safe_rule|intros wFile].
    match goal with
    | |- context [Inventory.updateRecords ?ni ?pi ?wi ?names ?prev ?wrev ?w ?rs] =>
        pose proof (updateRecords_safe ni pi wi names prev wrev rs w) as Hsafe;
        destruct (Inventory.updateRecords ni pi wi names prev wrev w rs) as [written r]
    end.
    apply safe_bind; [safe_rule|intros _]. by apply safe_liftR.
Qed.

End SafeDeployer.

#[export] Hint Resolve
  safe_checkoutAndPull safe_accessSecretVersion safe_setupGitWorkspace
  safe_resetGitWorkspace safe_commitPushGitWorkspace safe_handleDestinationBranch
  safe_publish safe_runCmd safe_runHydrationCLI safe_csvReadAll
  safe_determineClustersToUpdate safe_updatePlatformAndWorkloadRepositoryRevision
  : safe.

Section SafeLoop.

Context {Ext : Type} (C : Collaborators Ext).
Variable d : deployer.

Lemma safe_batchSteps secret srcRepo outRepo batch featureBranchName :
    safe (batchSteps C d secret srcRepo outRepo batch featureBranchName).
Proof. unfold batchSteps. safe. Qed.

Lemma safe_processBatch secret srcRepo outRepo clusters numBatches i batchCounter :
    safe (processBatch C d secret srcRepo outRepo clusters numBatches i batchCounter).
Proof.
    unfold processBatch. cbv zeta.
    apply safe_bind; [apply safe_liftR, slice_safe|intros batch].
    apply safe_bind; [apply safe_log|intros _]. apply safe_batchSteps.
Qed.

Lemma processBatch_negative secret srcRepo outRepo (clusters : list string)
      numBatches i batchCounter st :
    (i < 0)%Z →
    processBatch C d secret srcRepo outRepo clusters numBatches i batchCounter st
    = (Panic slice_bounds_out_of_range, st).
Proof.
    intros Hi. unfold processBatch. cbv zeta. unfold bind at 1, liftR, slice.
    destruct (Z.leb_spec 0 i); [lia|]. done.
Qed.

  (** The loop has fuel for every index it can reach: below the length
      the index grows, or wraps around to a negative index where the slice
      ends the loop. *)
Lemma safe_batchLoop secret srcRepo outRepo (clusters : list string) batchSize numBatches :
    let len := Z.of_nat (length clusters) in
    (0 < batchSize < 2 ^ 63)%Z → (len < 2 ^ 63)%Z →
    ∀ fuel i batchCounter,
      ((0 <= i < len)%Z → (len - i < Z.of_nat fuel)%Z) →
      ((i < 0)%Z → (0 < fuel)%nat) →
      safe (batchLoop C d fuel secret srcRepo outRepo clusters batchSize numBatches
              i batchCounter).
Proof.
    intros len Hbs Hlen. induction fuel as [|fuel IH]; intros i batchCounter Hpos Hneg;
      cbn [batchLoop]; fold len.
    - destruct (Z.ltb_spec i len); [|apply safe_ret].
      destruct (Z.lt_ge_cases i 0); [specialize (Hneg ltac:(done)); lia|].
      specialize (Hpos ltac:(lia)). lia.
    - destruct (Z.ltb_spec i len); [|apply safe_ret].
      destruct (Z.lt_ge_cases i 0) as [Hi|Hi].
      + intros st. unfold bind. rewrite processBatch_negative by done. done.
      + specialize (Hpos ltac:(lia)).
        apply safe_bind; [apply safe_processBatch|intros _].
        apply IH.
        * unfold int_add, wrap64. intros Hrange.
          destruct (Z.lt_ge_cases (i + batchSize) (2 ^ 63)) as [Hs|Hs].
          -- rewrite Z.mod_small in Hrange |- * by lia. lia.
          -- exfalso.
             assert ((i + batchSize + 2 ^ 63) mod 2 ^ 64 = i + batchSize + 2 ^ 63 - 2 ^ 64)%Z
               as Hmod.
             { symmetry. apply Z.mod_unique with (q := 1%Z); lia. }
             rewrite Hmod in Hrange. lia.
        * unfold int_add, wrap64. intros Hlt.
          destruct (Z.lt_ge_cases (i + batchSize) (2 ^ 63)) as [Hs|Hs].
          -- rewrite Z.mod_small in Hlt by lia. lia.
          -- lia.
Qed.

  (** A deploy does not end for want of fuel, when the batch size is an
      [int] and the files hold fewer than [2^63] records. *)
Theorem deploy_fuel_enough :
    (- 2 ^ 63 <= hydrationBatchSize (dparams d) < 2 ^ 63)%Z →
    (∀ data rs, csv_ReadAll Ext C data = inr rs → (Z.of_nat (length rs) < 2 ^ 63)%Z) →
    safe (deploy C d).
Proof.
    intros HB Hcsv. unfold deploy. cbv zeta.
    apply safe_bind; [safe_rule|intros secret].
    apply safe_bind; [unfold splitRepoRef; safe_rule|intros [[h o] r]].
    apply safe_bind; [safe_rule|intros srcRepo].
    apply safe_bind; [safe_rule|intros _].
    apply safe_bind; [unfold splitRepoRef; safe_rule|intros outRepo].
    apply (safe_bind_post _ _ (fun l : list string => (Z.of_nat (length l) < 2 ^ 63)%Z));
      [safe_rule| |].
    - intros st l st'. unfold wrapErr, determineClustersToUpdate. cbv zeta.
      unfold bind at 1, OS.Open, call.
      destruct (OS.Open_env _ _) as [[e|f] env1]; [done|].
      unfold bind at 1, csvReadAll, bind, OS.read, liftR. cbn [env root].
      destruct (FS.lookup _ f) as [[data|es]|]; [|done|done].
      destruct (csv_ReadAll Ext C data) as [e|rs] eqn:E; [done|].
      destruct (Inventory.selectClusters rs _ _ _) as [l'|e|pn] eqn:Es; [|done|done].
      intros [= <- _]. apply selectClusters_length in Es.
      specialize (Hcsv _ _ E). lia.
    - intros clusters Hlen.
      apply safe_bind; [|intros _; safe_rule].
      destruct (Z.ltb_spec 0 (hydrationBatchSize (dparams d))).
      + apply safe_batchLoop; [lia|done| |]; intros; lia.
      + destruct clusters as [|c clusters].
        * rewrite batchLoop_done by (simpl; lia). apply safe_ret.
        * apply safe_batchLoop; [simpl length in *; lia|done| |]; intros; lia.
Qed.

End SafeLoop.

(** * The batches of a positive batch size *)

Section CeilFacts.

Lemma ceil_quot_bounds (n b : Z) :
    (0 < b)%Z → ((ceil_quot n b - 1) * b < n <= ceil_quot n b * b)%Z.
Proof.
    intros Hb. unfold ceil_quot. destruct (Z.eqb_spec b 0); [lia|].
    pose proof (Z.div_mod (- n) b ltac:(lia)) as Hdm.
    pose proof (Z.mod_pos_bound (- n) b Hb) as Hr. nia.
Qed.

Lemma ceil_quot_unique (n b m : Z) :
    (0 < b)%Z → ((m - 1) * b < n <= m * b)%Z → m = ceil_quot n b.
Proof.
    intros Hb Hm. pose proof (ceil_quot_bounds n b Hb) as Hc. nia.
Qed.

  (** The selected clusters of a positive batch size: [N = 10], [B = 3]
      makes four batches. *)
Lemma ceil_quot_10_3 : ceil_quot 10 3 = 4%Z.
Proof. reflexivity. Qed.

End CeilFacts.

Section BatchLines.

Lemma batch_events_app a b : batch_events (a ++ b) = batch_events a ++ batch_events b.
Proof. unfold batch_events. apply List.filter_app. Qed.

Lemma batch_events_none evs : count KBatch evs = 0%nat → batch_events evs = [].
Proof. unfold count, batch_events. apply nil_length_inv. Qed.

Lemma batch_lines_S d clusters B nb k n :
    batch_lines d clusters B nb k (S n)
    = EvProcessingBatch (batch_slice clusters B k) (featureBranchName d k nb)
      :: batch_lines d clusters B nb (k + 1) n.
Proof.
    unfold batch_lines. cbn [seq map]. rewrite Z.add_0_r. f_equal.
    rewrite <- seq_shift, map_map. apply map_ext. intros j.
    by replace (k + 1 + Z.of_nat j)%Z with (k + Z.of_nat (S j))%Z by lia.
Qed.

Lemma batch_lines_length d clusters B nb k n :
    length (batch_lines d clusters B nb k n) = n.
Proof. unfold batch_lines. by rewrite length_map, length_seq. Qed.

End BatchLines.

Section BatchPlan.

Context {Ext : Type} (C : Collaborators Ext).
Variable d : deployer.

  (** The steps of a batch print no line of their own. *)
Lemma batchSteps_quiet secret srcRepo outRepo batch featureBranchName :
    tally KBatch (batchSteps C d secret srcRepo outRepo batch featureBranchName) 0.
Proof. unfold batchSteps. tally. Qed.

Variables (secret : string) (srcRepo outRepo : gitRepository).
Variable clusters : list string.

Let N := Z.of_nat (length clusters).
Let B := hydrationBatchSize (dparams d).

Hypothesis HB : (0 < B)%Z.
Hypothesis Hint : (N + B < 2 ^ 63)%Z.

  (** Batch [k], when it starts below the end of the selection: the slice
      [(k-1)*B, min(k*B, N)) is printed with the name of the batch, and
      nothing else is printed as a batch. *)
Lemma processBatch_line nb k st :
    (1 <= k)%Z → ((k - 1) * B < N)%Z →
    ∃ evs,
      trace (processBatch C d secret srcRepo outRepo clusters nb ((k - 1) * B) k st).2
      = trace st
        ++ EvProcessingBatch (batch_slice clusters B k) (featureBranchName d k nb) :: evs ∧
      batch_events evs = [].
Proof using HB Hint.
    intros Hk Hi. unfold processBatch. cbv zeta. fold B N.
    assert (int_add ((k - 1) * B) B = k * B)%Z as ->.
    { unfold int_add. rewrite wrap64_small; nia. }
    assert ((if (N <? k * B)%Z then N else (k * B)%Z) = Z.min (k * B) N) as ->.
    { destruct (Z.ltb_spec N (k * B)); lia. }
    unfold slice. fold N.
    destruct (Z.leb_spec 0 ((k - 1) * B)); [|nia].
    destruct (Z.leb_spec ((k - 1) * B) (Z.min (k * B) N)); [|nia].
    destruct (Z.leb_spec (Z.min (k * B) N) N); [|lia].
    cbn [andb]. unfold bind at 1, liftR. unfold bind at 1, log.
    change (take _ (drop _ clusters)) with (batch_slice clusters B k).
    set (ev := EvProcessingBatch _ _).
    set (st1 := {| env := env st; heap := heap st; trace := trace st ++ [ev] |}).
    destruct (batchSteps_quiet secret srcRepo outRepo (batch_slice clusters B k)
                (featureBranchName d k nb) st1) as (evs & Ht & Hle & _).
    exists evs. rewrite Ht. subst st1. cbn [trace]. rewrite <- app_assoc.
    split; [done|]. apply batch_events_none. lia.
Qed.

  (** The loop from batch [k] on. *)
Lemma batchLoop_lines nb fuel :
    ∀ k st,
      (1 <= k)%Z → ((k - 2) * B < N)%Z →
      ((k - 1) * B < N → N - (k - 1) * B < Z.of_nat fuel)%Z →
      let r := batchLoop C d fuel secret srcRepo outRepo clusters B nb ((k - 1) * B) k st in
      ∃ n evs,
        trace r.2 = trace st ++ evs ∧
        batch_events evs = batch_lines d clusters B nb k n ∧
        (k - 1 + Z.of_nat n <= ceil_quot N B)%Z ∧
        (is_Ok r.1 → (k - 1 + Z.of_nat n)%Z = ceil_quot N B).
Proof using HB Hint.
    induction fuel as [|fuel IH]; intros k st Hk Hprev Hfuel; cbn [batchLoop]; fold N.
    - destruct (Z.ltb_spec ((k - 1) * B) N) as [Hi|Hi]; [specialize (Hfuel Hi); lia|].
      exists 0%nat, []. rewrite app_nil_r. cbn [ret fst snd].
      assert (k - 1 = ceil_quot N B)%Z by (apply ceil_quot_unique; lia).
      repeat split; [lia|intros _; lia].
    - destruct (Z.ltb_spec ((k - 1) * B) N) as [Hi|Hi].
      + specialize (Hfuel Hi).
        pose proof (ceil_quot_bounds N B HB) as Hc.
        assert (k <= ceil_quot N B)%Z as Hkc by nia.
        destruct (processBatch_line nb k st Hk Hi) as (evs1 & Ht1 & Hq1).
        unfold bind.
        destruct (processBatch C d secret srcRepo outRepo clusters nb ((k - 1) * B) k st)
          as [[[]|e|pn] st1]; cbn [fst snd] in *.
        * assert (int_add ((k - 1) * B) B = (k + 1 - 1) * B)%Z as ->.
          { unfold int_add. rewrite wrap64_small; nia. }
          assert (int_add k 1 = k + 1)%Z as ->.
          { unfold int_add. rewrite wrap64_small; nia. }
          destruct (IH (k + 1)%Z st1) as (n & evs & Ht & Hev & Hle & Heq);
            [lia|nia|nia|].
          exists (S n), ((EvProcessingBatch (batch_slice clusters B k)
                           (featureBranchName d k nb) :: evs1) ++ evs).
          rewrite Ht, Ht1, <- app_assoc. split; [done|].
          rewrite batch_lines_S, batch_events_app. cbn [batch_events List.filter].
          cbn [kind_of kind_eqb]. fold (batch_events evs1). rewrite Hq1, Hev.
          split; [done|]. split; [lia|]. intros Hok. specialize (Heq Hok). lia.
        * exists 1%nat, (EvProcessingBatch (batch_slice clusters B k)
                           (featureBranchName d k nb) :: evs1).
          split; [done|]. rewrite batch_lines_S.
          cbn [batch_events List.filter kind_of kind_eqb]. fold (batch_events evs1).
          rewrite Hq1. split; [done|]. split; [lia|done].
        * exists 1%nat, (EvProcessingBatch (batch_slice clusters B k)
                           (featureBranchName d k nb) :: evs1).
          split; [done|]. rewrite batch_lines_S.
          cbn [batch_events List.filter kind_of kind_eqb]. fold (batch_events evs1).
          rewrite Hq1. split; [done|]. split; [lia|done].
      + exists 0%nat, []. rewrite app_nil_r. cbn [ret fst snd].
        assert (k - 1 = ceil_quot N B)%Z by (apply ceil_quot_unique; lia).
        repeat split; [lia|intros _; lia].
Qed.

  (** With a positive batch size the loop of [deploy] does what the
      specification says: batch [k] of [ceil(N/B)] is the slice
      [(k-1)*B, min(k*B, N)) of the selection and is named after [k] and the
      number of batches; a run that ends well has printed all of them, in
      order, and one that fails has printed the first of them. *)
Theorem batchLoop_positive_batch_size st :
    let numBatches := ceil_quot N B in
    let r := batchLoop C d (S (length clusters)) secret srcRepo outRepo clusters B
               numBatches 0 1 st in
    ∃ n evs,
      trace r.2 = trace st ++ evs ∧
      batch_events evs = batch_lines d clusters B numBatches 1 n ∧
      (Z.of_nat n <= numBatches)%Z ∧
      (is_Ok r.1 → Z.of_nat n = numBatches).
Proof using HB Hint.
    intros numBatches r.
    destruct (batchLoop_lines numBatches (S (length clusters)) 1 st) as
      (n & evs & Ht & Hev & Hle & Heq); [lia|lia|fold N; lia|].
    change ((1 - 1) * B)%Z with 0%Z in *.
    exists n, evs. split; [done|]. split; [done|]. split; [lia|].
    intros Hok. specialize (Heq Hok). lia.
Qed.

End BatchPlan.

Section BatchSlices.

  (** The slices of the batches, one after the other, are the selection. *)
Lemma batch_slice_length (clusters : list string) B k :
    (0 < B)%Z → (1 <= k)%Z → (k * B <= Z.of_nat (length clusters))%Z →
    length (batch_slice clusters B k) = Z.to_nat B.
Proof.
    intros HB Hk Hle. unfold batch_slice. cbv zeta.
    rewrite length_take, length_drop. nia.
Qed.

Lemma batch_slice_last (clusters : list string) B :
    (0 < B)%Z →
    let N := Z.of_nat (length clusters) in
    (0 < N)%Z →
    length (batch_slice clusters B (ceil_quot N B))
    = Z.to_nat (N - (ceil_quot N B - 1) * B).
Proof.
    intros HB N HN. pose proof (ceil_quot_bounds N B HB) as Hc.
    assert (1 <= ceil_quot N B)%Z as Hone.
    { destruct (Z.le_gt_cases 1 (ceil_quot N B)); [done|]. nia. }
    assert (0 <= (ceil_quot N B - 1) * B)%Z as Hx by nia.
    unfold batch_slice. cbv zeta. fold N.
    rewrite Z.min_r by lia. rewrite length_take, length_drop.
    generalize dependent ((ceil_quot N B - 1) * B)%Z. intros x Hc Hx. subst N. lia.
Qed.

  (** Ten clusters in batches of three: [0:3), [3:6), [6:9), [9:10). *)
Example batch_slice_10_3 :
    map (batch_slice ["a"; "b"; "c"; "d"; "e"; "f"; "g"; "h"; "i"; "j"] 3)
      [1; 2; 3; 4]%Z
    = [["a"; "b"; "c"]; ["d"; "e"; "f"]; ["g"; "h"; "i"]; ["j"]].
Proof. reflexivity. Qed.

End BatchSlices.

Section MissingColumns.

Context {Ext : Type} (C : Collaborators Ext).
Import Inventory InventorySpec.

  (** A file whose header lacks a required column: the selection fails
      with the error that names the missing columns, and only them, in the
      order [cluster_name], [cluster_group], [cluster_tags]. *)
Theorem determineClustersToUpdate_missing_columns st repo sourceOfTruth clusterGroup
      matchAny matchAll p data (header : record) (rows : list record) :
    let required := ["cluster_name"; "cluster_group"; "cluster_tags"] in
    OS.stat (env st) (Filepath.Join repo sourceOfTruth) = Some (p, FS.File data) →
    csv_ReadAll Ext C data = inr (header :: rows) →
    (∃ f, f ∈ required ∧ f ∉ header) →
    (determineClustersToUpdate C repo sourceOfTruth clusterGroup matchAny matchAll st).1
    = Err (FieldsNotFoundError (missing_fields header required)) ∧
    ∀ f, f ∈ missing_fields header required ↔ f ∈ required ∧ f ∉ header.
Proof.
    intros required Hstat Hcsv (f & Hf & Hnf).
    split; [|intros g; apply missing_fields_spec].
    rewrite (determineClustersToUpdate_run C _ _ _ _ _ _ _ _ _ Hstat Hcsv). cbn [fst].
    unfold selectClusters. cbn [index lookup list_lookup rbind].
    destruct header as [|h t].
    - by rewrite findFieldIndices_empty_header.
    - rewrite findFieldIndices_missing; [done|done|].
      intros Hnil. pose proof (proj1 (missing_fields_nil _ _) Hnil) as Hall.
      by apply Hnf, Hall.
Qed.

End MissingColumns.

(** * The parameters read from the environment *)

Section StrconvFacts.

Import Strings Strconv.

Lemma length_zero_empty (s : string) : (String.length s =? 0)%nat = true ↔ s = "".
Proof. destruct s; simpl; split; congruence. Qed.

Lemma length_zero_eqb (s : string) : (String.length s =? 0)%nat = String.eqb s "".
Proof. by destruct s. Qed.

Lemma Atoi_range s v : Atoi s = Some v → (- 2 ^ 63 <= v < 2 ^ 63)%Z.
Proof.
    unfold Atoi. destruct s as [|c r]; [done|].
    destruct (if (Ascii.eqb c "-" || Ascii.eqb c "+")%bool then r else String c r);
      [done|].
    destruct (digits _ 0) as [n|]; [|done]. cbv zeta.
    destruct (Z.leb_spec (- 2 ^ 63) (if Ascii.eqb c "-" then (- n)%Z else n)); [|done].
    destruct (Z.ltb_spec (if Ascii.eqb c "-" then (- n)%Z else n) (2 ^ 63)); [|done].
    cbn [andb]. intros [= <-]. lia.
Qed.

  (** [Atoi] on some texts: signs, no digit, a digit separator, a letter,
      and the ends of the range of [int]. *)
Example Atoi_examples :
    map Atoi ["12"; "-0"; "+7"; "007"; ""; "-"; "1_0"; "12a"; " 1";
              "9223372036854775807"; "9223372036854775808"; "-9223372036854775808"]
    = [Some 12; Some 0; Some 7; Some 7; None; None; None; None; None;
       Some (2 ^ 63 - 1); None; Some (- 2 ^ 63)]%Z.
Proof. reflexivity. Qed.

Lemma digit_bound c v : digit c = Some v → (0 <= v <= 9)%Z.
Proof.
    unfold digit. cbv zeta.
    destruct (Z.leb_spec 48 (Z.of_N (N_of_ascii c))); [|done].
    destruct (Z.leb_spec (Z.of_N (N_of_ascii c)) 57); [|done].
    cbn [andb]. intros [= <-]. lia.
Qed.

Lemma digits_ge s : ∀ acc n, (0 <= acc)%Z → digits s acc = Some n → (acc <= n)%Z.
Proof.
    induction s as [|c r IH]; intros acc n Hacc; cbn [digits].
    - intros [= <-]. lia.
    - destruct (digit c) as [v|] eqn:E; [|done]. apply digit_bound in E.
      intros H. apply IH in H; lia.
Qed.

  (** The sign of the number read is the sign written. *)
Lemma Atoi_sign s v :
    Atoi s = Some v →
    match s with
    | String "-" _ => (v <= 0)%Z
    | _ => (0 <= v)%Z
    end.
Proof.
    unfold Atoi. destruct s as [|c r]; [done|].
    destruct (Ascii.eqb_spec c "-") as [->|Hc].
    - cbn [orb]. destruct r as [|c' r']; [done|].
      destruct (digits _ 0) as [n|] eqn:E; [|done]. cbv zeta.
      apply digits_ge in E; [|lia].
      destruct (_ && _); [|done]. intros [= <-]. lia.
    - cbn [orb].
      destruct (if Ascii.eqb c "+" then r else String c r) as [|c' r'] eqn:Eb; [done|].
      destruct (digits _ 0) as [n|] eqn:E; [|done]. cbv zeta.
      apply digits_ge in E; [|lia].
      destruct (_ && _); [|done]. intros [= <-].
      destruct c as [[] [] [] [] [] [] [] []]; try lia; by destruct Hc.
Qed.

Lemma Join_Split c s : Join (Split c s) (String c "") = s.
Proof.
    induction s as [|a s IH]; [done|]. cbn [Split].
    destruct (Ascii.eqb_spec a c) as [->|Hne].
    - pose proof (Split_nonempty c s) as Hs.
      destruct (Split c s) as [|h t] eqn:E; [done|].
      change (Join ("" :: h :: t) (String c "")) with (String c (Join (h :: t) (String c ""))).
      by rewrite IH.
    - pose proof (Split_nonempty c s) as Hs.
      destruct (Split c s) as [|h t] eqn:E; [done|].
      destruct t as [|h' t'].
      + simpl in *. by rewrite IH.
      + change (Join (String a h :: h' :: t') (String c ""))
          with (String a (Join (h :: h' :: t') (String c ""))).
        by rewrite IH.
Qed.

End StrconvFacts.

Section EnvironFacts.

Lemma getRequired_Ok e key v :
    getRequired e key = Ok v ↔ Getenv e key = v ∧ v ≠ "".
Proof.
    unfold getRequired. cbv zeta.
    destruct (Getenv e key) as [|a s] eqn:E; simpl; split.
    - done.
    - intros [<- H]. by destruct H.
    - intros [= <-]. done.
    - by intros [-> _].
Qed.

Lemma getRequired_Err e key err :
    getRequired e key = Err err ↔ Getenv e key = "" ∧ err = required key.
Proof.
    unfold getRequired. cbv zeta.
    destruct (Getenv e key) as [|a s] eqn:E; simpl; split.
    - by intros [= <-].
    - by intros [_ ->].
    - done.
    - by intros [? _].
Qed.

Lemma getRequired_safe e key pn : getRequired e key ≠ Panic pn.
Proof. unfold getRequired. cbv zeta. by destruct (_ =? _)%nat. Qed.

Lemma getDefault_nonempty e key dflt : dflt ≠ "" → getDefault e key dflt ≠ "".
Proof.
    intros Hd. unfold getDefault. cbv zeta.
    destruct (Getenv e key) as [|a s]; simpl; done.
Qed.

End EnvironFacts.

Section ParamsFacts.

Import Strings Strconv.

Variable time_ParseDuration : string → error + Z.
Variable strconv_Quote : string → string.

  (** What a successful [determineParams] has read. *)
Lemma determineParams_Ok e p :
    determineParams time_ParseDuration strconv_Quote e = Ok p →
    getRequired e gitSourceRepoEnvKey = Ok (gitSourceRepo p) ∧
    getRequired e gitOutputRepoEnvKey = Ok (gitOutputRepo p) ∧
    getRequired e gitSecretEnvKey = Ok (gitSecret p) ∧
    getRequired e gitSourceBranchEnvKey = Ok (gitSourceBranch p) ∧
    getRequired e gitOutputBranchEnvKey = Ok (gitOutputBranch p) ∧
    getRequired e hydrationClusterGroupEnvKey = Ok (hydrationClusterGroup p) ∧
    hydrationPlatformRevision p = Getenv e hydrationPlatformRevisionEnvKey ∧
    hydrationWorkloadRevision p = Getenv e hydrationWorkloadRevisionEnvKey ∧
    (hydrationPlatformRevision p ≠ "" ∨ hydrationWorkloadRevision p ≠ "") ∧
    Atoi (Getenv e hydrationBatchSizeEnvKey) = Some (hydrationBatchSize p) ∧
    (match LookupEnv e gitEnablePullRequestMergeEnvKey with
     | Some prm => ParseBool prm = Some (enablePullRequestMerge p)
     | None => enablePullRequestMerge p = false
     end) ∧
    (if String.eqb (Getenv e hydrationWaitTimeBetweenBatchesEnvKey) ""
     then hydrationWaitTimeBetweenBatches p = defaultWaitTimeBetweenBatches
     else time_ParseDuration (Getenv e hydrationWaitTimeBetweenBatchesEnvKey)
          = inr (hydrationWaitTimeBetweenBatches p)) ∧
    gitUsername p = getDefault e gitUsernameEnvKey defaultUsername ∧
    hydrationSourceOfTruth p = getDefault e hydrationSourceOfTruthEnvKey defaultSourceOfTruth ∧
    hydrationBaseDir p = getDefault e hydrationBaseDirEnvKey defaultBaseDir ∧
    hydrationOverlaysDir p = getDefault e hydrationOverlayDirEnvKey defaultOverlayDir ∧
    hydrationOutputDir p = getDefault e hydrationOutputDirEnvKey defaultOutputDir ∧
    matchClustersHavingAnyListedTag p
    = (if String.eqb (Getenv e matchClustersHavingAnyListedTagEnvKey) "" then []
       else Split COMMA (Getenv e matchClustersHavingAnyListedTagEnvKey)) ∧
    matchClustersHavingAllListedTags p
    = (if String.eqb (Getenv e matchClustersHavingAllListedTagsEnvKey) "" then []
       else Split COMMA (Getenv e matchClustersHavingAllListedTagsEnvKey)).
Proof.
    unfold determineParams. cbv zeta.
    destruct (getRequired e gitSourceRepoEnvKey) as [v1|?|?]; cbn [rbind]; [|done|done].
    destruct (getRequired e gitOutputRepoEnvKey) as [v2|?|?]; cbn [rbind]; [|done|done].
    destruct (getRequired e gitSecretEnvKey) as [v3|?|?]; cbn [rbind]; [|done|done].
    destruct (getRequired e gitSourceBranchEnvKey) as [v4|?|?]; cbn [rbind]; [|done|done].
    destruct (getRequired e gitOutputBranchEnvKey) as [v5|?|?]; cbn [rbind]; [|done|done].
    destruct (getRequired e hydrationClusterGroupEnvKey) as [v6|?|?]; cbn [rbind];
      [|done|done].
    rewrite !length_zero_eqb.
    destruct (String.eqb_spec (Getenv e hydrationPlatformRevisionEnvKey) "") as [Hp|Hp];
      destruct (String.eqb_spec (Getenv e hydrationWorkloadRevisionEnvKey) "") as [Hw|Hw];
      cbn [andb]; [done| | |].
    all: destruct (Atoi (Getenv e hydrationBatchSizeEnvKey)) as [n|]; cbn [rbind]; [|done].
    all: destruct (String.eqb (Getenv e hydrationWaitTimeBetweenBatchesEnvKey) "");
      cbn [negb rbind].
    all: try (destruct (time_ParseDuration _) as [err|w]; cbn [rbind]; [done|]).
    all: destruct (LookupEnv e gitEnablePullRequestMergeEnvKey) as [prm|];
      [destruct (ParseBool prm) as [b|]; cbn [rbind]; [|done]|cbn [rbind]].
    all: intros [= <-];
      cbn [gitSourceRepo gitSourceBranch gitSecret gitUsername gitEmail gitCommitMessage
           gitOutputRepo gitOutputBranch gitPullRequestTitle gitPullRequestBody
           enablePullRequestMerge hydrationClusterGroup hydrationPlatformRevision
           hydrationWorkloadRevision hydrationBatchSize hydrationWaitTimeBetweenBatches
           hydrationSourceOfTruth hydrationBaseDir hydrationOverlaysDir
           hydrationOutputDir matchClustersHavingAnyListedTag
           matchClustersHavingAllListedTags].
    all: repeat split; auto.
    all: match goal with |- context [Split COMMA ?v] => destruct v; reflexivity end.
Qed.

Lemma determineParams_no_panic e pn :
    determineParams time_ParseDuration strconv_Quote e ≠ Panic pn.
Proof.
    unfold determineParams. cbv zeta.
    repeat match goal with
           | |- rbind (getRequired ?e ?k) _ ≠ _ =>
               let H := fresh in
               pose proof (getRequired_safe e k) as H;
               destruct (getRequired e k); cbn [rbind];
               [|done|exfalso; eapply H; reflexivity]
           end.
    destruct (_ && _)%bool; [done|].
    destruct (Atoi _); cbn [rbind]; [|done].
    destruct (negb _); [destruct (time_ParseDuration _)|]; cbn [rbind]; try done.
    all: destruct (LookupEnv e gitEnablePullRequestMergeEnvKey) as [prm|];
      [destruct (ParseBool prm)|]; cbn [rbind]; done.
Qed.

  (** The parameters that [determineParams] returns have no empty
      repository, secret, branch, cluster group, committer name or path, and
      at least one of the two revisions. *)
Theorem determineParams_nonempty_fields e p :
    determineParams time_ParseDuration strconv_Quote e = Ok p →
    Forall (fun s => s ≠ "")
      [gitSourceRepo p; gitOutputRepo p; gitSecret p; gitSourceBranch p;
       gitOutputBranch p; hydrationClusterGroup p; gitUsername p;
       hydrationSourceOfTruth p; hydrationBaseDir p; hydrationOverlaysDir p;
       hydrationOutputDir p] ∧
    (hydrationPlatformRevision p ≠ "" ∨ hydrationWorkloadRevision p ≠ "").
Proof.
    intros H. apply determineParams_Ok in H.
    destruct H as (H1 & H2 & H3 & H4 & H5 & H6 & _ & _ & Hrev & _ & _ & _ &
                   Hu & Hs & Hb & Ho & Hy & _).
    apply getRequired_Ok in H1 as [_ H1], H2 as [_ H2], H3 as [_ H3], H4 as [_ H4],
      H5 as [_ H5], H6 as [_ H6].
    split; [|done]. rewrite Hu, Hs, Hb, Ho, Hy.
    repeat (apply Forall_cons; split; [first [assumption | by apply getDefault_nonempty]|]).
    apply Forall_nil_2.
Qed.

  (** When a required parameter is unset or empty, the error names the
      first of them in the order source repository, output repository,
      secret, source branch, output branch, cluster group. *)
Theorem determineParams_first_missing e key :
    find (fun k => String.eqb (Getenv e k) "") requiredKeys = Some key →
    determineParams time_ParseDuration strconv_Quote e = Err (required key).
Proof.
    unfold requiredKeys, determineParams. cbv zeta. cbn [find].
    repeat match goal with
           | |- context [String.eqb (Getenv e ?k) ""] =>
               let E := fresh "E" in
               destruct (String.eqb_spec (Getenv e k) "") as [E|E];
               [ intros [= <-]; unfold getRequired at 1; rewrite E; reflexivity
               | unfold getRequired at 1; rewrite length_zero_eqb;
                 apply String.eqb_neq in E; rewrite E; cbn [rbind] ]
           end.
    done.
Qed.

  (** The batch size is the decimal integer of its variable, any [int], be
      it zero or negative: when the variable holds the integer [n], whatever
      its sign, and the other parameters are in order (the required ones and
      a revision are set, the wait time is unset or a duration, the merge
      switch is unset or a boolean), [determineParams] returns parameters
      whose batch size is [n]. A variable that is unset, empty or not such
      an integer is an error, which says that the parameter is required. *)
Theorem determineParams_batch_size e :
    (∀ p, determineParams time_ParseDuration strconv_Quote e = Ok p →
          Atoi (Getenv e hydrationBatchSizeEnvKey) = Some (hydrationBatchSize p) ∧
          (- 2 ^ 63 <= hydrationBatchSize p < 2 ^ 63)%Z) ∧
    (∀ n, Atoi (Getenv e hydrationBatchSizeEnvKey) = Some n →
          find (fun k => String.eqb (Getenv e k) "") requiredKeys = None →
          Getenv e hydrationPlatformRevisionEnvKey ≠ ""
          ∨ Getenv e hydrationWorkloadRevisionEnvKey ≠ "" →
          (Getenv e hydrationWaitTimeBetweenBatchesEnvKey = "" ∨
           ∃ w, time_ParseDuration (Getenv e hydrationWaitTimeBetweenBatchesEnvKey) = inr w) →
          (∀ prm, LookupEnv e gitEnablePullRequestMergeEnvKey = Some prm →
                  ParseBool prm ≠ None) →
          ∃ p, determineParams time_ParseDuration strconv_Quote e = Ok p ∧
               hydrationBatchSize p = n) ∧
    (Atoi (Getenv e hydrationBatchSizeEnvKey) = None →
     (∃ err, determineParams time_ParseDuration strconv_Quote e = Err err) ∧
     (find (fun k => String.eqb (Getenv e k) "") requiredKeys = None →
      Getenv e hydrationPlatformRevisionEnvKey ≠ ""
      ∨ Getenv e hydrationWorkloadRevisionEnvKey ≠ "" →
      determineParams time_ParseDuration strconv_Quote e
      = Err (required hydrationBatchSizeEnvKey))).
Proof.
    split; [|split].
    - intros p H. apply determineParams_Ok in H.
      destruct H as (_ & _ & _ & _ & _ & _ & _ & _ & _ & Hb & _).
      split; [done|]. by eapply Atoi_range.
    - intros n Hn. unfold requiredKeys, determineParams. cbv zeta. cbn [find].
      repeat match goal with
             | |- context [String.eqb (Getenv e ?k) ""] =>
                 let E := fresh "E" in
                 destruct (String.eqb_spec (Getenv e k) "") as [E|E]; [done|];
                 unfold getRequired at 1; rewrite length_zero_eqb;
                 apply String.eqb_neq in E; rewrite E; cbn [rbind]
             end.
      intros _ Hrev Hwait Hmerge. rewrite !length_zero_eqb.
      assert ((Getenv e hydrationPlatformRevisionEnvKey =? "")
              && (Getenv e hydrationWorkloadRevisionEnvKey =? "") = false) as ->.
      { apply andb_false_iff. rewrite !String.eqb_neq. done. }
      rewrite Hn. cbn [rbind].
      assert (∃ w, (if negb (Getenv e hydrationWaitTimeBetweenBatchesEnvKey =? "")
                    then match time_ParseDuration
                                 (Getenv e hydrationWaitTimeBetweenBatchesEnvKey) with
                         | inl err =>
                             Err (failed_to_parse hydrationWaitTimeBetweenBatchesEnvKey err)
                         | inr w => Ok w
                         end
                    else Ok defaultWaitTimeBetweenBatches) = Ok w) as [w ->].
      { destruct (String.eqb_spec (Getenv e hydrationWaitTimeBetweenBatchesEnvKey) "")
          as [Hw|Hw]; cbn [negb]; [by eexists|].
        destruct Hwait as [?|[w Hpw]]; [done|]. rewrite Hpw. by eexists. }
      cbn [rbind].
      destruct (LookupEnv e gitEnablePullRequestMergeEnvKey) as [prm|] eqn:Eprm;
        cbn [rbind]; [|by eexists].
      specialize (Hmerge prm eq_refl).
      destruct (ParseBool prm) as [b|]; [|done]. cbn [rbind]. by eexists.
    - intros Hnone. split.
      + destruct (determineParams time_ParseDuration strconv_Quote e) as [p|err|pn] eqn:E.
        * apply determineParams_Ok in E.
          destruct E as (_ & _ & _ & _ & _ & _ & _ & _ & _ & Hb & _). congruence.
        * by exists err.
        * by destruct (determineParams_no_panic e pn).
      + unfold requiredKeys, determineParams. cbv zeta. cbn [find].
        repeat match goal with
               | |- context [String.eqb (Getenv e ?k) ""] =>
                   let E := fresh "E" in
                   destruct (String.eqb_spec (Getenv e k) "") as [E|E]; [done|];
                   unfold getRequired at 1; rewrite length_zero_eqb;
                   apply String.eqb_neq in E; rewrite E; cbn [rbind]
               end.
        intros _ Hrev. rewrite !length_zero_eqb.
        assert ((Getenv e hydrationPlatformRevisionEnvKey =? "")
                && (Getenv e hydrationWorkloadRevisionEnvKey =? "") = false) as ->.
        { apply andb_false_iff. rewrite !String.eqb_neq. done. }
        by rewrite Hnone.
Qed.

Lemma ParseBool_true v :
    ParseBool v = Some true ↔ v ∈ ["1"; "t"; "T"; "true"; "TRUE"; "True"].
Proof.
    unfold ParseBool. rewrite <- Contains_true.
    destruct (Contains _ v); [done|].
    destruct (Contains _ v); split; congruence.
Qed.

  (** The merge switch is read with [os.LookupEnv]: unset it is off; set,
      it must be one of the spellings of a Go boolean, and the empty string
      is none of them. *)
Theorem determineParams_merge_switch e :
    (∀ p, determineParams time_ParseDuration strconv_Quote e = Ok p →
          (enablePullRequestMerge p = true ↔
           ∃ v, LookupEnv e gitEnablePullRequestMergeEnvKey = Some v ∧
                v ∈ ["1"; "t"; "T"; "true"; "TRUE"; "True"])) ∧
    (∀ v, LookupEnv e gitEnablePullRequestMergeEnvKey = Some v →
          ParseBool v = None →
          ∃ err, determineParams time_ParseDuration strconv_Quote e = Err err) ∧
    ParseBool "" = None.
Proof.
    split; [|split; [|reflexivity]].
    - intros p H. apply determineParams_Ok in H.
      destruct H as (_ & _ & _ & _ & _ & _ & _ & _ & _ & _ & Hm & _).
      destruct (LookupEnv e gitEnablePullRequestMergeEnvKey) as [prm|].
      + split.
        * intros Ht. exists prm. split; [done|]. apply ParseBool_true. congruence.
        * intros (v & [= <-] & Hv). apply ParseBool_true in Hv. congruence.
      + rewrite Hm. split; [done|]. by intros (v & ? & _).
    - intros v Hv Hnone.
      destruct (determineParams time_ParseDuration strconv_Quote e) as [p|err|pn] eqn:E.
      + apply determineParams_Ok in E.
        destruct E as (_ & _ & _ & _ & _ & _ & _ & _ & _ & _ & Hm & _).
        rewrite Hv in Hm. congruence.
      + by exists err.
      + by destruct (determineParams_no_panic e pn).
Qed.

  (** The tag lists are the variables cut at the commas: joined with
      commas again they are the text of the variable, no tag holds a comma,
      and a list is empty only when its variable is unset or empty. *)
Theorem determineParams_tag_lists e p :
    determineParams time_ParseDuration strconv_Quote e = Ok p →
    (matchClustersHavingAnyListedTag p = []
     ↔ Getenv e matchClustersHavingAnyListedTagEnvKey = "") ∧
    (matchClustersHavingAllListedTags p = []
     ↔ Getenv e matchClustersHavingAllListedTagsEnvKey = "") ∧
    Join (matchClustersHavingAnyListedTag p) ","
    = Getenv e matchClustersHavingAnyListedTagEnvKey ∧
    Join (matchClustersHavingAllListedTags p) ","
    = Getenv e matchClustersHavingAllListedTagsEnvKey ∧
    Forall (fun t => has_byte COMMA t = false)
      (matchClustersHavingAnyListedTag p ++ matchClustersHavingAllListedTags p).
Proof.
    intros H. apply determineParams_Ok in H.
    destruct H as (_ & _ & _ & _ & _ & _ & _ & _ & _ & _ & _ & _ &
                   _ & _ & _ & _ & _ & Hany & Hall).
    rewrite Hany, Hall.
    assert (∀ v, ((if String.eqb v "" then [] else Split COMMA v) = [] ↔ v = "") ∧
                 Join (if String.eqb v "" then [] else Split COMMA v) "," = v ∧
                 Forall (fun t => has_byte COMMA t = false)
                   (if String.eqb v "" then [] else Split COMMA v)) as Hv.
    { intros v. destruct (String.eqb_spec v "") as [->|Hne].
      - repeat split; try done.
      - split; [|split].
        + split; [|done]. intros Hs. by destruct (Split_nonempty COMMA v).
        + apply Join_Split.
        + apply Split_elems. }
    destruct (Hv (Getenv e matchClustersHavingAnyListedTagEnvKey)) as (A1 & A2 & A3).
    destruct (Hv (Getenv e matchClustersHavingAllListedTagsEnvKey)) as (B1 & B2 & B3).
    repeat split; try tauto. by apply Forall_app.
Qed.

End ParamsFacts.

(** * The git steps of the deployer *)

Section GitSteps.

Context {Ext : Type} (C : Collaborators Ext).
Variable d : deployer.

Lemma call_git repo cmd (st : State Ext) :
    call (EvGit repo cmd) (git Ext C repo cmd) st
    = (match (git Ext C repo cmd (env st)).1 with inl e => Err e | inr out => Ok out end,
       after_git st repo [cmd] (git Ext C repo cmd (env st)).2).
Proof. unfold call, after_git. by destruct (git Ext C repo cmd (env st)). Qed.

Lemma call_eq {T} ev (f : Env Ext → (error + T) * Env Ext) (st : State Ext) :
    call ev f st
    = (match (f (env st)).1 with inl e => Err e | inr t => Ok t end,
       {| env := (f (env st)).2; heap := heap st; trace := trace st ++ [ev] |}).
Proof. unfold call. by destruct (f (env st)). Qed.

  (** The tail of [setupGitWorkspace] and the two halves of
      [resetGitWorkspace] are branch steps. *)
Lemma checkoutAndPull_run repo branch (st : State Ext) :
    checkoutAndPull C repo branch st
    = let '(cmds, err, e') := branch_step C repo branch (env st) in
      (match err with Some e => Err e | None => Ok tt end, after_git st repo cmds e').
Proof.
    unfold checkoutAndPull, branch_step, gitCall.
    unfold bind at 1, wrapErr at 1. rewrite call_git.
    destruct (git Ext C repo (checkoutBranch branch) (env st)) as [[e|out] e1];
      cbn [fst snd]; [done|].
    unfold bind at 1, wrapErr at 1. rewrite call_git. cbn [env after_git].
    destruct (git Ext C repo (checkIfExists branch) e1) as [[e|[ref|]] e2];
      cbn [fst snd].
    - unfold after_git. cbn [env heap trace map]. by rewrite <- !app_assoc.
    - unfold bind at 1, wrapErr at 1. rewrite call_git. cbn [env after_git].
      destruct (git Ext C repo (pull branch) e2) as [[e|out3] e3]; cbn [fst snd];
        unfold ret, after_git; cbn [env heap trace map]; by rewrite <- !app_assoc.
    - unfold ret, after_git. cbn [env heap trace map]. by rewrite <- !app_assoc.
Qed.

  (** A branch step runs the checkout, the branch check and the pull in
      this order, the checkout at least. *)
Lemma branch_step_commands repo branch (e : Env Ext) :
    (branch_step C repo branch e).1.1
    `prefix_of` [checkoutBranch branch; checkIfExists branch; pull branch] ∧
    (branch_step C repo branch e).1.1 ≠ [].
Proof.
    unfold branch_step.
    destruct (git Ext C repo (checkoutBranch branch) e) as [[err|out] e1];
      [split; [by eexists|done]|].
    destruct (git Ext C repo (checkIfExists branch) e1) as [[err|[ref|]] e2];
      [split; [by eexists|done]| |split; [by eexists|done]].
    destruct (git Ext C repo (pull branch) e2) as [r3 e3]. split; [by eexists|done].
Qed.

  (** The pull of a branch step is made exactly when the checkout went
      through and the branch check, run after it, printed something. *)
Lemma branch_step_pull repo branch (e : Env Ext) :
    let checkout := git Ext C repo (checkoutBranch branch) e in
    pull branch ∈ (branch_step C repo branch e).1.1 ↔
    ∃ out ref, checkout.1 = inr out ∧
               (git Ext C repo (checkIfExists branch) checkout.2).1 = inr (Some ref).
Proof.
    intros checkout. subst checkout. unfold branch_step.
    destruct (git Ext C repo (checkoutBranch branch) e) as [[err|out] e1]; cbn [fst snd].
    { split; [|by intros (? & ? & ? & _)].
      intros H. apply elem_of_cons in H as [H|H]; [done|]. by apply elem_of_nil in H. }
    destruct (git Ext C repo (checkIfExists branch) e1) as [[err|[ref|]] e2]; cbn [fst snd].
    - split; [|by intros (? & ? & _ & ?)]. intros H.
      repeat (apply elem_of_cons in H as [H|H]; [done|]). by apply elem_of_nil in H.
    - destruct (git Ext C repo (pull branch) e2) as [r3 e3]. cbn [fst snd].
      split; [by eexists _, _|]. intros _. set_solver.
    - split; [|by intros (? & ? & _ & ?)]. intros H.
      repeat (apply elem_of_cons in H as [H|H]; [done|]). by apply elem_of_nil in H.
Qed.

  (** [setupGitWorkspace] runs clone, config and the step onto the branch
      on the repository it is given, each command in the environment the
      one before has left, and stops at the first that fails, with the
      error that names it. The pull is made exactly when the checkout went
      through and the branch check, run after it, printed something. *)
Theorem setupGitWorkspace_commands secret repo branch st :
    let result := setupGitWorkspace C secret repo branch st in
    let clone := git Ext C repo (cloneRepo secret) (env st) in
    let conf := git Ext C repo config clone.2 in
    (∀ e, clone.1 = inl e →
       result = (Err (Errorf ("failed to clone git repository " +:+ repoName repo +:+ ": ") e),
              after_git st repo [cloneRepo secret] clone.2)) ∧
    (∀ out e, clone.1 = inr out → conf.1 = inl e →
       result = (Err (Errorf "failed setting up the git config in the git repository: " e),
              after_git st repo [cloneRepo secret; config] conf.2)) ∧
    (∀ out out', clone.1 = inr out → conf.1 = inr out' →
       let '(cmds, err, e') := branch_step C repo branch conf.2 in
       result = (match err with Some e => Err e | None => Ok tt end,
              after_git st repo ([cloneRepo secret; config] ++ cmds) e')) ∧
    (∀ e, let checkout := git Ext C repo (checkoutBranch branch) e in
          pull branch ∈ (branch_step C repo branch e).1.1 ↔
          ∃ out ref, checkout.1 = inr out ∧
                     (git Ext C repo (checkIfExists branch) checkout.2).1 = inr (Some ref)).
Proof.
    intros result clone conf. subst result conf clone.
    split; [|split; [|split; [|intros e; apply branch_step_pull]]].
    all: unfold setupGitWorkspace, gitCall.
    all: unfold bind at 1, wrapErr at 1; rewrite call_git.
    all: destruct (git Ext C repo (cloneRepo secret) (env st)) as [[e1|out1] env1];
      cbn [fst snd]; try done.
    - by intros e [= <-].
    - intros out e _. unfold bind at 1, wrapErr at 1. rewrite call_git. cbn [env after_git].
      intros ->. unfold after_git. cbn [env heap trace map]. by rewrite <- app_assoc.
    - intros _ out2 _. unfold bind at 1, wrapErr at 1. rewrite call_git. cbn [env after_git].
      intros ->. rewrite checkoutAndPull_run. cbn [env].
      destruct (branch_step C repo branch _) as [[cmds err] e'].
      f_equal. unfold after_git. cbn [env heap trace map app].
      by rewrite <- !app_assoc.
Qed.

  (** [resetGitWorkspace] runs config, then the step onto the source
      branch, then the step onto the feature branch, each command in the
      environment the one before has left; it stops at the first command
      that fails, with the error that names it, and it never clones. In
      both steps the pull follows what the branch check has found. *)
Theorem resetGitWorkspace_commands repo sourceBranch featureBranch st :
    let result := resetGitWorkspace C repo sourceBranch featureBranch st in
    let conf := git Ext C repo config (env st) in
    (∀ e, conf.1 = inl e →
       result = (Err (Errorf "failed setting up the git config in the git repository: " e),
              after_git st repo [config] conf.2)) ∧
    (∀ out, conf.1 = inr out →
       let '(cmds1, err1, e1) := branch_step C repo sourceBranch conf.2 in
       let '(cmds2, err2, e2) := branch_step C repo featureBranch e1 in
       result = match err1 with
             | Some e => (Err e, after_git st repo (config :: cmds1) e1)
             | None =>
                 (match err2 with Some e => Err e | None => Ok tt end,
                  after_git st repo (config :: cmds1 ++ cmds2) e2)
             end) ∧
    (∃ cmds, trace result.2 = trace st ++ map (EvGit repo) cmds ∧
             ∀ secret, cloneRepo secret ∉ cmds) ∧
    (∀ branch e, let checkout := git Ext C repo (checkoutBranch branch) e in
       pull branch ∈ (branch_step C repo branch e).1.1 ↔
       ∃ out ref, checkout.1 = inr out ∧
                  (git Ext C repo (checkIfExists branch) checkout.2).1 = inr (Some ref)).
Proof.
    intros result conf. subst result conf.
    assert (∀ branch (e : Env Ext) secret,
              cloneRepo secret ∉ (branch_step C repo branch e).1.1) as Hnc.
    { intros branch e secret Hin.
      destruct (branch_step_commands repo branch e) as [[rest Hpre] _].
      assert (cloneRepo secret ∈ [checkoutBranch branch; checkIfExists branch; pull branch])
        as H by (rewrite Hpre; apply elem_of_app; by left).
      repeat (apply elem_of_cons in H as [H|H]; [done|]). by apply elem_of_nil in H. }
    split; [|split; [|split; [|intros branch e; apply branch_step_pull]]].
    all: unfold resetGitWorkspace, gitCall.
    all: unfold bind at 1, wrapErr at 1; rewrite call_git.
    all: destruct (git Ext C repo config (env st)) as [[e0|out0] env0]; cbn [fst snd];
      try done.
    - by intros e [= <-].
    - intros _ _. unfold bind at 1. rewrite checkoutAndPull_run. cbn [env after_git].
      destruct (branch_step C repo sourceBranch env0) as [[cmds1 [err1|]] e1].
      + destruct (branch_step C repo featureBranch e1) as [[cmds2 err2] e2].
        f_equal. unfold after_git. cbn [env heap trace map].
        by rewrite <- !app_assoc.
      + rewrite checkoutAndPull_run. cbn [env after_git].
        destruct (branch_step C repo featureBranch e1) as [[cmds2 err2] e2].
        f_equal. unfold after_git. cbn [env heap trace map].
        by rewrite map_app, <- !app_assoc.
    - exists [config]. split; [reflexivity|]. intros secret H.
      apply elem_of_cons in H as [H|H]; [done|]. by apply elem_of_nil in H.
    - unfold bind at 1. rewrite checkoutAndPull_run. cbn [env after_git].
      pose proof (Hnc sourceBranch env0) as Hnc1.
      destruct (branch_step C repo sourceBranch env0) as [[cmds1 [err1|]] e1];
        cbn [fst snd] in Hnc1.
      + exists (config :: cmds1). unfold after_git. cbn [snd trace map].
        rewrite <- app_assoc.
        split; [done|]. intros secret H. apply elem_of_cons in H as [H|H]; [done|].
        by apply (Hnc1 secret).
      + rewrite checkoutAndPull_run. cbn [env after_git].
        pose proof (Hnc featureBranch e1) as Hnc2.
        destruct (branch_step C repo featureBranch e1) as [[cmds2 err2] e2];
          cbn [fst snd] in Hnc2.
        exists (config :: cmds1 ++ cmds2). unfold after_git. cbn [snd trace map].
        rewrite map_app, <- !app_assoc. split; [done|]. intros secret H.
        apply elem_of_cons in H as [H|H]; [done|].
        apply elem_of_app in H as [H|H]; [by apply (Hnc1 secret)|by apply (Hnc2 secret)].
Qed.

Lemma commit_message_eq :
    (if (String.length (gitCommitMessage (dparams d)) =? 0)%nat then
       "Delivery Pipeline: " +:+ Pipeline (req d) +:+ " Release: " +:+
       Release (req d) +:+ " Rollout: " +:+ Rollout (req d)
     else gitCommitMessage (dparams d)) = commit_message d.
Proof. unfold commit_message. by rewrite length_zero_eqb. Qed.

  (** [commitPushGitWorkspace] stages, commits with the configured
      message (or the default one) and pushes the feature branch, each
      command in the environment the one before has left. A failure of the
      add ends it before the commit, and a failure of the commit before the
      push: nothing is pushed that was not committed. *)
Theorem commitPushGitWorkspace_commands repo featureBranch st :
    let result := commitPushGitWorkspace C d repo featureBranch st in
    let added := git Ext C repo add (env st) in
    let committed := git Ext C repo (commit (commit_message d)) added.2 in
    let pushed := git Ext C repo (push featureBranch) committed.2 in
    (∀ e, added.1 = inl e →
       result = (Err (Errorf "unable to git add changes: " e),
              after_git st repo [add] added.2)) ∧
    (∀ out e, added.1 = inr out → committed.1 = inl e →
       result = (Err (Errorf "unable to git commit changes: " e),
              after_git st repo [add; commit (commit_message d)] committed.2)) ∧
    (∀ out out', added.1 = inr out → committed.1 = inr out' →
       result = (match pushed.1 with
              | inl e =>
                  Err (Errorf ("unable to git push changes to branch " +:+ featureBranch
                               +:+ ": ") e)
              | inr _ => Ok tt
              end,
              after_git st repo [add; commit (commit_message d); push featureBranch]
                pushed.2)).
Proof.
    intros result added committed pushed. subst result pushed committed added.
    unfold commitPushGitWorkspace. cbv zeta. rewrite commit_message_eq.
    unfold gitCall. split; [|split].
    all: unfold bind at 1, wrapErr at 1; rewrite call_git.
    all: destruct (git Ext C repo add (env st)) as [[e1|out1] env1]; cbn [fst snd];
      try done.
    - by intros e [= <-].
    - intros out e _. unfold bind at 1, wrapErr at 1. rewrite call_git.
      cbn [env after_git]. intros ->.
      unfold after_git. cbn [env heap trace map]. by rewrite <- app_assoc.
    - intros out out' _. unfold bind at 1, wrapErr at 1. rewrite call_git.
      cbn [env after_git]. intros ->.
      unfold bind at 1, wrapErr at 1. rewrite call_git. cbn [env after_git].
      destruct (git Ext C repo (push featureBranch) _) as [[e3|out3] env3];
        cbn [fst snd]; unfold ret, after_git; cbn [env heap trace map];
        by rewrite <- !app_assoc.
Qed.

Lemma pull_request_title_eq featureBranchName :
    (if (String.length (gitPullRequestTitle (dparams d)) =? 0)%nat
     then "[Rollout Manager]: " +:+ featureBranchName
     else gitPullRequestTitle (dparams d)) = pull_request_title d featureBranchName.
Proof. unfold pull_request_title. by rewrite length_zero_eqb. Qed.

Lemma pull_request_body_eq :
    (if (String.length (gitPullRequestBody (dparams d)) =? 0)%nat then
       "Project: " +:+ Project (req d) +:+
       String "010"%char ("Location: " +:+ Location (req d) +:+
       String "010"%char ("Delivery Pipeline: " +:+ Pipeline (req d) +:+
       String "010"%char ("Target: " +:+ Target (req d) +:+
       String "010"%char ("Release: " +:+ Release (req d) +:+
       String "010"%char ("Rollout: " +:+ Rollout (req d))))))
     else gitPullRequestBody (dparams d)) = pull_request_body d.
Proof. unfold pull_request_body. by rewrite length_zero_eqb. Qed.

  (** [handleDestinationBranch] does nothing for an empty destination
      branch. Otherwise it creates the provider, opens the pull request from
      the feature branch to the destination with the configured title and
      body (or the default ones) in the environment the creation has left,
      and, when merging is enabled, merges the pull request whose number
      this call has returned, in the environment it has left. A failure of
      the creation ends it before the pull request is opened, and a failure
      of the opening before anything is merged. *)
Theorem handleDestinationBranch_calls repo secret featureBranchName destinationBranch st :
    let result := handleDestinationBranch C d repo secret featureBranchName destinationBranch st in
    let create := EvCreateProvider (hostname repo) (repoName repo) (owner repo) in
    let open := EvOpenPullRequest featureBranchName destinationBranch
                  (pull_request_title d featureBranchName) (pull_request_body d) in
    let created := provider_CreateProvider Ext C (hostname repo) (repoName repo)
                     (owner repo) secret (env st) in
    let opened := provider_OpenPullRequest Ext C featureBranchName destinationBranch
                    (pull_request_title d featureBranchName) (pull_request_body d)
                    created.2 in
    let after e evs := {| env := e; heap := heap st; trace := trace st ++ evs |} in
    (destinationBranch = "" → result = (Ok tt, st)) ∧
    (destinationBranch ≠ "" →
     (∀ e, created.1 = inl e →
        result = (Err (Errorf "unable to create git provider: " e), after created.2 [create])) ∧
     (∀ e, created.1 = inr tt → opened.1 = inl e →
        result = (Err (Errorf ("unable to open pull request from " +:+ featureBranchName +:+
                            " to " +:+ destinationBranch +:+ ": ") e),
               after opened.2 [create; open])) ∧
     (∀ number, created.1 = inr tt → opened.1 = inr number →
        if enablePullRequestMerge (dparams d) then
          let merged := provider_MergePullRequest Ext C number opened.2 in
          result = (match merged.1 with
                 | inl e =>
                     Err (Errorf ("unable to merge pull request " +:+ pretty number +:+ ": ") e)
                 | inr _ => Ok tt
                 end,
                 after merged.2 [create; open; EvMergePullRequest number])
        else result = (Ok tt, after opened.2 [create; open]))).
Proof.
    intros result create open created opened after.
    subst result create open opened created after. split.
    - intros ->. reflexivity.
    - intros Hne. unfold handleDestinationBranch. cbv zeta.
      rewrite length_zero_eqb. apply String.eqb_neq in Hne. rewrite Hne.
      rewrite pull_request_title_eq, pull_request_body_eq.
      split; [|split].
      + intros e He. unfold bind at 1, wrapErr at 1. rewrite call_eq, He. reflexivity.
      + intros e Hc Ho. unfold bind at 1, wrapErr at 1. rewrite call_eq, Hc.
        unfold bind at 1, wrapErr at 1. rewrite call_eq. cbn [env heap trace].
        rewrite Ho, <- app_assoc. reflexivity.
      + intros number Hc Ho.
        destruct (enablePullRequestMerge (dparams d)); cbn [negb]; cbv zeta.
        all: unfold bind at 1, wrapErr at 1; rewrite call_eq, Hc.
        all: unfold bind at 1, wrapErr at 1; rewrite call_eq; cbn [env heap trace].
        all: rewrite Ho.
        * unfold bind at 1, wrapErr at 1. rewrite call_eq. cbn [env heap trace].
          destruct (provider_MergePullRequest Ext C number _) as [[e|[]] world3];
            cbn [fst snd]; unfold ret; by rewrite <- !app_assoc.
        * unfold ret. by rewrite <- app_assoc.
Qed.

  (** Without a diff nothing is published: when [detectDiff] reports
      nothing, the batch fails with the error that names the feature branch,
      after this one git call; nothing is staged, committed or pushed and no
      pull request is opened. *)
Theorem publish_no_diff repo secret featureBranchName st out :
    (git Ext C repo detectDiff (env st)).1 = inr out →
    default "" out = "" →
    publish C d repo secret featureBranchName st
    = (Err (ErrMsg ("no diff detected between the rendered manifest and the manifest on branch "
                    +:+ featureBranchName)),
       {| env := (git Ext C repo detectDiff (env st)).2; heap := heap st;
          trace := trace st ++ [EvGit repo detectDiff] |}).
Proof.
    intros Hout Hempty. unfold publish, gitCall. unfold bind at 1, wrapErr, call.
    destruct (git Ext C repo detectDiff (env st)) as [[e|out'] world1].
    - done.
    - cbn [fst snd] in *. injection Hout as ->. by rewrite Hempty.
Qed.

End GitSteps.

(** * The deploy from its first steps to its result *)

Section FirstSteps.

Context {Ext : Type} (C : Collaborators Ext).
Variable d : deployer.

  (** [accessSecretVersion] asks Secret Manager once and changes the
      environment only through that call. It gives the payload back exactly
      when the response carries a payload and a checksum and the CRC-32C of
      the payload is that checksum. A response without payload, or whose
      payload has no checksum, is a nil-pointer panic, and nothing else is;
      an error of the call comes back wrapped, and a checksum that differs
      is the error of the validation. *)
Theorem accessSecretVersion_checked svName st :
    let r := accessSecretVersion C svName st in
    let reply := (smClient_AccessSecretVersion Ext C svName (env st)).1 in
    trace r.2 = trace st ++ [EvAccessSecretVersion svName] ∧
    heap r.2 = heap st ∧
    env r.2 = (smClient_AccessSecretVersion Ext C svName (env st)).2 ∧
    (∀ data, r.1 = Ok data ↔
       reply = inr {| Payload := Some {| Data := data;
                                         DataCrc32C := Some (crc32_Checksum Ext C data) |} |}) ∧
    (∀ pn, r.1 = Panic pn ↔
       pn = nil_pointer_dereference ∧
       (reply = inr {| Payload := None |} ∨
        ∃ data, reply = inr {| Payload := Some {| Data := data; DataCrc32C := None |} |})) ∧
    (∀ e, reply = inl e →
       r.1 = Err (Errorf ("failed to access secret version " +:+ svName +:+ ": ") e)) ∧
    (∀ data crc,
       reply = inr {| Payload := Some {| Data := data; DataCrc32C := Some crc |} |} →
       crc32_Checksum Ext C data ≠ crc →
       r.1 = Err (ErrMsg "secret version response failed CRC-32 checksum validation; possible data corruption")).
Proof.
    intros r reply. subst r reply. unfold accessSecretVersion, bind, wrapErr, call.
    destruct (smClient_AccessSecretVersion Ext C svName (env st))
      as [[e|[[[data [crc|]]|]]] world]; cbn [fst snd env heap trace Payload Data DataCrc32C].
    - repeat split; try done; naive_solver.
    - destruct (Z.eqb_spec (crc32_Checksum Ext C data) crc) as [<-|Hne];
        cbn [negb liftR ret fst snd env heap trace]; repeat split; try done; naive_solver.
    - cbn [liftR fst snd env heap trace]. repeat split; try done; naive_solver.
    - cbn [liftR fst snd env heap trace]. repeat split; try done; naive_solver.
Qed.

  (** A secret whose checksum does not match stops the deploy before any
      git call: the only call made is the one to Secret Manager. *)
Theorem deploy_rejects_corrupt_secret st data crc world :
    smClient_AccessSecretVersion Ext C (gitSecret (dparams d)) (env st)
    = (inr {| Payload := Some {| Data := data; DataCrc32C := Some crc |} |}, world) →
    crc32_Checksum Ext C data ≠ crc →
    deploy C d st
    = (Err (ErrMsg ("unable to access git secret: " +:+
                    "secret version response failed CRC-32 checksum validation; possible data corruption")),
       {| env := world; heap := heap st;
          trace := trace st ++ [EvAccessSecretVersion (gitSecret (dparams d))] |}).
Proof.
    intros Hsm Hcrc. unfold deploy. cbv zeta.
    unfold bind at 1. unfold wrapErr at 1, accessSecretVersion.
    unfold bind at 1, wrapErr at 1, call. rewrite Hsm.
    cbn [Payload Data DataCrc32C].
    apply Z.eqb_neq in Hcrc. rewrite Hcrc. reflexivity.
Qed.

  (** A source repository reference that is not made of three parts
      between slashes stops the deploy once the secret is read: no
      repository is allocated and no git command is run. *)
Theorem deploy_invalid_source_reference st secret st1 :
    accessSecretVersion C (gitSecret (dparams d)) st = (Ok secret, st1) →
    length (Strings.Split Strings.SLASH (gitSourceRepo (dparams d))) ≠ 3%nat →
    deploy C d st
    = (Err (ErrMsg ("invalid git repository reference: "
                    +:+ Strings.Quote (gitSourceRepo (dparams d)))), st1).
Proof.
    intros Hsecret Hparts. unfold deploy. cbv zeta.
    unfold bind at 1, wrapErr at 1. rewrite Hsecret.
    unfold bind at 1, liftR, splitRepoRef.
    destruct (Strings.Split Strings.SLASH (gitSourceRepo (dparams d)))
      as [|h [|o [|r [|x rest]]]]; try done.
Qed.

  (** [process] uploads one result whenever the deploy returns: the
      result of the deploy, or a failed result that carries the message of
      its error. What [process] returns is decided by the upload alone: nil
      when it succeeds, its error, wrapped, when it fails. *)
Theorem process_returns_the_upload_error st :
    match deploy C d st with
    | (Ok res, st1) => process_uploads C d st st1 res "error uploading deploy results: "
    | (Err err, st1) =>
        process_uploads C d st st1 (failed_result C err)
          "error uploading failed deploy results: "
    | (Panic pn, st1) => process C d st = (Panic pn, st1)
    end.
Proof.
    unfold process_uploads, process.
    destruct (deploy C d st) as [[res|err|pn] st1]; [| |done].
    - unfold UploadResult, call.
      by destruct (req_UploadResult Ext C res (env st1)) as [[e|uri] world].
    - cbv zeta. unfold UploadResult, call. fold (failed_result C err).
      by destruct (req_UploadResult Ext C (failed_result C err) (env st1))
        as [[e|uri] world].
Qed.

End FirstSteps.

(** * A deploy with an output repository of its own *)

Section HeapRules.

Context {Ext : Type}.

Lemma keeps_heap_ret {A} (a : A) : keeps_heap (ret (Ext:=Ext) a).
Proof. by intros st. Qed.

Lemma keeps_heap_liftR {A} (r : res A) : keeps_heap (liftR (Ext:=Ext) r).
Proof. by intros st. Qed.

Lemma keeps_heap_call {T} ev (f : Env Ext → (error + T) * Env Ext) :
    keeps_heap (call ev f).
Proof. intros st. unfold call. by destruct (f (env st)) as [[e|t] world]. Qed.

Lemma keeps_heap_bind {A B} (m : M Ext A) (k : A → M Ext B) :
    keeps_heap m → (∀ a, keeps_heap (k a)) → keeps_heap (bind m k).
Proof.
    intros Hm Hk st. unfold bind. specialize (Hm st).
    destruct (m st) as [[a|e|pn] st1]; cbn [snd] in *; [|done|done].
    by rewrite Hk.
Qed.

Lemma keeps_heap_wrapErr {A} prefix (m : M Ext A) :
    keeps_heap m → keeps_heap (wrapErr prefix m).
Proof.
    intros Hm st. unfold wrapErr. specialize (Hm st).
    by destruct (m st) as [[a|e|pn] st1].
Qed.

End HeapRules.

Ltac keeps_heap_rule :=
  lazymatch goal with
  | |- keeps_heap (ret _) => apply keeps_heap_ret
  | |- keeps_heap (liftR _) => apply keeps_heap_liftR
  | |- keeps_heap (call _ _) => apply keeps_heap_call
  | |- keeps_heap (wrapErr _ _) => apply keeps_heap_wrapErr; keeps_heap_rule
  | |- keeps_heap (bind _ _) =>
      apply keeps_heap_bind; [keeps_heap_rule | intros ?; keeps_heap_rule]
  | |- keeps_heap (match ?x with _ => _ end) => destruct x; keeps_heap_rule
  end.

Section FromRules.

Context {Ext : Type}.

Lemma ltally_from_any {A} K (P : State Ext → Prop) (m : M Ext A) a b :
    ltally K m a b → ltally_from K P m a b.
Proof. intros H st _. apply H. Qed.

Lemma ltally_from_True {A} K (m : M Ext A) a b :
    ltally_from K (fun _ => True) m a b → ltally K m a b.
Proof. intros H st. by apply H. Qed.

Lemma ltally_from_pure {A} K (P : State Ext → Prop) (φ : Prop) (m : M Ext A) a b :
    (∀ st, P st → φ) → (φ → ltally K m a b) → ltally_from K P m a b.
Proof. intros HP H st Hst. apply H. by eapply HP. Qed.

Lemma ltally_from_conv {A} K (P : State Ext → Prop) (m : M Ext A) a a' b :
    ltally_from K P m a' b → a' = a → ltally_from K P m a b.
Proof. by intros H <-. Qed.

Lemma ltally_from_bind {A B} K (P : State Ext → Prop) (Q : A → State Ext → Prop)
      (m : M Ext A) (k : A → M Ext B) a1 a2 b :
    ltally_from K P m a1 b →
    (∀ st x st', P st → m st = (Ok x, st') → Q x st') →
    (∀ x, ltally_from K (Q x) (k x) a2 b) →
    ltally_from K P (bind m k) (a1 + a2) b.
Proof.
    intros Hm Hpost Hk st Hst. unfold bind.
    destruct (Hm st Hst) as (evs1 & Ht1 & Hle1 & Heq1).
    specialize (Hpost st).
    destruct (m st) as [[x|e|pn] st1]; cbn [fst snd] in *.
    - destruct (Hk x st1) as (evs2 & Ht2 & Hle2 & Heq2); [by eapply Hpost|].
      exists (evs1 ++ evs2). rewrite Ht2, Ht1, app_assoc, !count_app.
      split; [done|]. specialize (Heq1 I). split; [nia|].
      intros Hok. specialize (Heq2 Hok). nia.
    - exists evs1. split; [done|]. split; [lia|done].
    - exists evs1. split; [done|]. split; [lia|done].
Qed.

End FromRules.

Section TwoRepositories.

Context {Ext : Type} (C : Collaborators Ext).
Variable d : deployer.
Hypothesis Hrefs : gitSourceRepo (dparams d) ≠ gitOutputRepo (dparams d).

Lemma keeps_heap_setupGitWorkspace secret repo branch :
    keeps_heap (wrapErr "unable to set up git workspace: "
                  (setupGitWorkspace C secret repo branch)).
Proof. unfold setupGitWorkspace, checkoutAndPull, gitCall. keeps_heap_rule. Qed.

  (** The steps of a batch when the output repository is another one. *)
Lemma tally_batchSteps_two K secret srcRepo outRepo batch featureBranchName :
    K ≠ KOther → K ≠ KPull →
    addr srcRepo ≠ addr outRepo →
    tally K (batchSteps C d secret srcRepo outRepo batch featureBranchName)
      (match K with KBatch => 0 | _ => per_batch_two d K end).
Proof using Hrefs.
    intros HK HP Haddr. unfold batchSteps.
    apply String.eqb_neq in Hrefs as ->. apply Nat.eqb_neq in Haddr as ->.
    cbn [negb].
    destruct K; try done; unfold per_batch_two; tally.
    all: by destruct (String.eqb (gitOutputBranch (dparams d)) ""),
              (enablePullRequestMerge (dparams d)).
Qed.

Lemma ltally_processBatch_two K secret srcRepo outRepo clustersToUpdate numBatches i
      batchCounter :
    K ≠ KOther → K ≠ KPull →
    addr srcRepo ≠ addr outRepo →
    ltally K (processBatch C d secret srcRepo outRepo clustersToUpdate numBatches i
                batchCounter)
      0 (per_batch_two d K).
Proof using Hrefs.
    intros HK HP Haddr st. unfold processBatch. cbv zeta. unfold bind at 1, liftR.
    destruct (slice _ _ _) as [batch|e|pn].
    - unfold bind at 1, log.
      set (ev := EvProcessingBatch batch _).
      set (st1 := {| env := env st; heap := heap st; trace := trace st ++ [ev] |}).
      destruct (tally_batchSteps_two K secret srcRepo outRepo batch
                  (featureBranchName d batchCounter numBatches) HK HP Haddr st1)
        as (evs & Ht & Hle & Heq).
      destruct (tally_batchSteps_two KBatch secret srcRepo outRepo batch
                  (featureBranchName d batchCounter numBatches) ltac:(done) ltac:(done) Haddr st1)
        as (evs' & Ht' & Hle' & _).
      assert (evs' = evs) as -> by (apply (app_inv_head (trace st1)); congruence).
      exists ([ev] ++ evs). rewrite Ht. subst st1. cbn [trace].
      rewrite <- app_assoc. split; [done|].
      rewrite !count_app, !count_one. subst ev. cbn [kind_of].
      assert (count KBatch evs = 0)%nat as -> by lia.
      destruct K; try done; cbn [kind_eqb per_batch_two] in *;
        (split; [lia | intros Hok; specialize (Heq Hok); lia]).
    - exists []. cbn. rewrite app_nil_r. split; [done|]. split; [lia|done].
    - exists []. cbn. rewrite app_nil_r. split; [done|]. split; [lia|done].
Qed.

Lemma ltally_batchLoop_two K fuel secret srcRepo outRepo clustersToUpdate batchSize
      numBatches :
    K ≠ KOther → K ≠ KPull →
    addr srcRepo ≠ addr outRepo →
    ∀ i batchCounter,
      ltally K (batchLoop C d fuel secret srcRepo outRepo clustersToUpdate
                  batchSize numBatches i batchCounter)
        0 (per_batch_two d K).
Proof using Hrefs.
    intros HK HP Haddr. induction fuel as [|fuel IH]; intros i batchCounter; cbn [batchLoop].
    - destruct (Z.ltb _ _).
      + intros st. exists []. cbn. rewrite app_nil_r. split; [done|]. split; [lia|done].
      + intros st. exists []. cbn. rewrite app_nil_r. split; [done|]. split; [lia|done].
    - destruct (Z.ltb _ _).
      + eapply ltally_conv; [eapply ltally_bind|done].
        * by apply ltally_processBatch_two.
        * intros _. apply IH.
      + intros st. exists []. cbn. rewrite app_nil_r. split; [done|]. split; [lia|done].
Qed.

Ltac ltally_two :=
    lazymatch goal with
    | |- ltally _ (bind (ret _) _) _ _ => rewrite bind_ret_l; ltally_two
    | |- ltally _ (bind (batchLoop _ _ _ _ _ _ _ _ _ _ _) _) _ _ =>
        eapply ltally_conv;
        [ eapply ltally_bind; [by apply ltally_batchLoop_two | intros ?; ltally_two]
        | cbn [kind_eqb kind_of]; try first [reflexivity | lia] ]
    | |- ltally _ (bind _ _) _ _ =>
        eapply ltally_conv;
        [ eapply ltally_bind; [ltally_two | intros ?; ltally_two]
        | cbn [kind_eqb kind_of]; try first [reflexivity | lia] ]
    | |- ltally _ (match ?x with _ => _ end) _ _ => destruct x; ltally_two
    | |- _ => eapply ltally_of_tally; tally
    end.

  (** The rest of the deploy once both workspaces are set up. *)
Lemma ltally_batches_two K secret srcRepo outRepo srcRepoName :
    K ≠ KOther → K ≠ KPull →
    addr srcRepo ≠ addr outRepo →
    ltally K
      (let p := dparams d in
       do clustersToUpdate <-
         wrapErr "Unable to determine clusters to be updated: "
           (determineClustersToUpdate C srcRepoName (hydrationSourceOfTruth p)
              (hydrationClusterGroup p) (matchClustersHavingAnyListedTag p)
              (matchClustersHavingAllListedTags p));
       let len := Z.of_nat (length clustersToUpdate) in
       let batchSize := if (0 <? hydrationBatchSize p)%Z then hydrationBatchSize p else len in
       let numBatches := ceil_quot len batchSize in
       run batchLoop C d (S (length clustersToUpdate)) secret srcRepo outRepo
             clustersToUpdate batchSize numBatches 0 1;
       do dURI <-
         wrapErr "error uploading deploy artifact: "
           (call (EvUploadArtifact "source_of_truth.csv"
                    (Filepath.Join srcRepoName (hydrationSourceOfTruth p)))
              (req_UploadArtifact Ext C "source_of_truth.csv"
                 (Filepath.Join srcRepoName (hydrationSourceOfTruth p))));
       ret {| ResultStatus := DeploySucceeded; FailureMessage := "";
              ArtifactFiles := [dURI]; Metadata := metadata C |})
      0 (per_batch_two d K).
Proof using Hrefs.
    intros HK HP Haddr. cbv zeta. destruct K; try done; ltally_two.
Qed.

  (** With an output repository of its own, a deploy sets up two
      workspaces and does the git steps of every batch twice. *)
Lemma ltally_deploy_two K :
    K ≠ KOther → K ≠ KPull →
    ltally K (deploy C d) (setup_calls_two K) (per_batch_two d K).
Proof using Hrefs.
    intros HK HP. unfold deploy. cbv zeta.
    apply String.eqb_neq in Hrefs as Heqb. rewrite Heqb. cbn [negb].
    eapply ltally_conv;
      [eapply ltally_bind;
         [eapply (ltally_of_tally _ _ 0); [by apply tally_wrapErr, tally_accessSecretVersion
                                          |by apply tally_wrapErr, tally_accessSecretVersion]|]
      |rewrite Nat.add_0_l; reflexivity].
    intros secret.
    eapply ltally_conv;
      [eapply ltally_bind; [eapply (ltally_of_tally _ _ 0); apply tally_liftR|]
      |rewrite Nat.add_0_l; reflexivity].
    intros [[srcHostname srcOwner] srcRepoName].
    apply ltally_from_True.
    eapply ltally_from_conv;
      [eapply (ltally_from_bind _ _ (fun r st' => (addr r < heap st')%nat ∧
                                                    repoName r = srcRepoName))
      |rewrite Nat.add_0_l; reflexivity].
    { apply ltally_from_any, (ltally_of_tally _ _ 0); apply tally_newGitRepository. }
    { intros st r st' _ [= <- <-]. cbn [addr heap repoName]. split; [lia|done]. }
    intros srcRepo.
    eapply ltally_from_conv;
      [eapply (ltally_from_bind _ _ (fun _ st' => (addr srcRepo < heap st')%nat ∧
                                                    repoName srcRepo = srcRepoName)
                 _ _ (setup_calls K) (setup_calls K))
      |by destruct K].
    { apply ltally_from_any, ltally_of_tally; apply tally_wrapErr;
        [by apply tally_setupGitWorkspace|].
      eapply tally_conv; [by apply (tally_setupGitWorkspace C KBatch)|done]. }
    { intros st [] st' [Hlt Hname] Hrun. split; [|done].
      pose proof (keeps_heap_setupGitWorkspace secret srcRepo
                    (gitSourceBranch (dparams d)) st) as Hheap.
      rewrite Hrun in Hheap. cbn [snd] in Hheap. lia. }
    intros _.
    eapply ltally_from_conv;
      [eapply (ltally_from_bind _ _ (fun r _ => addr srcRepo ≠ addr r ∧
                                                 repoName srcRepo = srcRepoName)
                 _ _ (setup_calls K) 0)
      |by rewrite Nat.add_0_r].
    { apply ltally_from_any. unfold splitRepoRef.
      destruct K; try done; ltally_two. }
    { intros st outRepo st' [Hlt Hname]. unfold bind at 1, liftR.
      destruct (splitRepoRef _) as [[[h o] r]|e|pn]; [|done|done].
      unfold bind at 1, newGitRepository.
      set (newRepo := {| addr := heap st |}).
      set (st1 := {| env := env st; heap := S (heap st) |}).
      unfold bind at 1.
      destruct (wrapErr _ (setupGitWorkspace C secret newRepo _) st1) as [[[]|e|pn] st2];
        [|done|done].
      intros [= <- _]. split; [|done]. subst newRepo. cbn [addr]. lia. }
    intros outRepo.
    eapply ltally_from_pure; [intros st H; exact H|]. intros [Haddr Hname].
    by apply ltally_batches_two.
Qed.

  (** With an output repository that is not the source repository, a
      deploy clones twice, and in every batch each repository gets its own
      reset, diff check, commit, push and pull request: in a run each of
      these calls is made at most twice per batch started, and exactly twice
      per batch when the run ends without error. *)
Theorem two_repositories_steps_twice st :
    ∃ evs,
      trace (deploy C d st).2 = trace st ++ evs ∧
      let n := count KBatch evs in
      ((count KClone evs <= 2)%nat ∧ (count KConfig evs <= 2 + 2 * n)%nat ∧
       (count KDiff evs <= 2 * n)%nat ∧ (count KAdd evs <= 2 * n)%nat ∧
       (count KCommit evs <= 2 * n)%nat ∧ (count KPush evs <= 2 * n)%nat ∧
       (count KOpenPR evs <= 2 * n)%nat) ∧
      (is_Ok (deploy C d st).1 →
       count KClone evs = 2%nat ∧ count KConfig evs = (2 + 2 * n)%nat ∧
       count KDiff evs = (2 * n)%nat ∧ count KAdd evs = (2 * n)%nat ∧
       count KCommit evs = (2 * n)%nat ∧ count KPush evs = (2 * n)%nat ∧
       count KOpenPR evs
       = if String.eqb (gitOutputBranch (dparams d)) "" then 0%nat else (2 * n)%nat).
Proof using Hrefs.
    destruct (ltally_deploy_two KClone ltac:(done) ltac:(done) st) as (evs & Ht & _).
    exists evs. split; [done|]. intros n.
    pose proof (λ K HK HP, ltally_run K _ _ _ st evs (ltally_deploy_two K HK HP) Ht) as H.
    destruct (H KClone ltac:(done) ltac:(done)) as [HcloneL HcloneE].
    destruct (H KConfig ltac:(done) ltac:(done)) as [HconfigL HconfigE].
    destruct (H KDiff ltac:(done) ltac:(done)) as [HdiffL HdiffE].
    destruct (H KAdd ltac:(done) ltac:(done)) as [HaddL HaddE].
    destruct (H KCommit ltac:(done) ltac:(done)) as [HcommitL HcommitE].
    destruct (H KPush ltac:(done) ltac:(done)) as [HpushL HpushE].
    destruct (H KOpenPR ltac:(done) ltac:(done)) as [HprL HprE].
    cbn [setup_calls_two per_batch_two] in *.
    fold n in HcloneL, HcloneE, HconfigL, HconfigE, HdiffL, HdiffE, HaddL, HaddE,
      HcommitL, HcommitE, HpushL, HpushE, HprL, HprE.
    split.
    - destruct (String.eqb (gitOutputBranch (dparams d)) ""); repeat split; lia.
    - intros Hok. specialize (HcloneE Hok). specialize (HconfigE Hok).
      specialize (HdiffE Hok). specialize (HaddE Hok). specialize (HcommitE Hok).
      specialize (HpushE Hok). specialize (HprE Hok).
      destruct (String.eqb (gitOutputBranch (dparams d)) ""); repeat split; lia.
Qed.

End TwoRepositories.

(** * More on the inventory *)

Section Columns.

Import Strings Inventory InventorySpec.

Lemma findFieldIndices_step_eq (header : record) ind miss f :
    findFieldIndices_step header (ind, miss) f
    = match indexOf header f 0 with
      | Some i => (<[f:=i]> ind, miss)
      | None => (ind, miss ++ [f])
      end.
Proof. done. Qed.

  (** The loop writes only the keys it is asked for. *)
Lemma findFieldIndices_fold_other (header : record) g fs :
    ∀ ind0 miss0 ind1 miss1,
      g ∉ fs →
      fold_left (findFieldIndices_step header) fs (ind0, miss0) = (ind1, miss1) →
      ind1 !! g = ind0 !! g.
Proof.
    induction fs as [|f fs IH]; intros ind0 miss0 ind1 miss1 Hn; cbn [fold_left].
    - by intros [= <- <-].
    - apply not_elem_of_cons in Hn as [Hne Hn]. rewrite findFieldIndices_step_eq.
      destruct (indexOf header f 0).
      + intros H. erewrite IH by eauto. by rewrite lookup_insert_ne.
      + intros H. by erewrite IH by eauto.
Qed.

  (** [findFieldIndices] succeeds when the header is not empty and has
      every column asked for; the map it returns has the asked columns for
      keys and no other, each with the position of its first occurrence in
      the header. *)
Theorem findFieldIndices_first_occurrence (header : record) (fields : list string) :
    (is_Ok (findFieldIndices header fields)
     ↔ header ≠ [] ∧ ∀ f, f ∈ fields → f ∈ header) ∧
    (∀ ind, findFieldIndices header fields = Ok ind →
       (∀ f, f ∈ fields →
             ∃ i : nat, ind !! f = Some i ∧ header !! i = Some f ∧
                        ∀ j : nat, (j < i)%nat → header !! j ≠ Some f) ∧
       (∀ g, g ∉ fields → ind !! g = None)).
Proof.
    split.
    - split.
      + intros Hok. destruct header as [|h t]; [done|]. split; [done|].
        apply missing_fields_nil.
        destruct (decide (missing_fields (h :: t) fields = [])) as [|Hne]; [done|].
        rewrite findFieldIndices_missing in Hok by done. done.
      + intros [Hne Hall]. destruct (findFieldIndices_Ok header fields Hall Hne)
          as (ind & -> & _). done.
    - intros ind Hind.
      assert (header ≠ []) as Hne by (by intros ->).
      assert (∀ f, f ∈ fields → f ∈ header) as Hall.
      { apply missing_fields_nil.
        destruct (decide (missing_fields header fields = [])) as [|Hm]; [done|].
        rewrite findFieldIndices_missing in Hind by done. done. }
      split.
      + intros f Hf. destruct (findFieldIndices_Ok header fields Hall Hne)
          as (ind' & Hind' & Hlk).
        assert (ind' = ind) as -> by congruence.
        destruct (indexOf_present header f (Hall f Hf)) as [i Hi].
        exists i. rewrite (Hlk f Hf). split; [done|].
        apply indexOf_Some in Hi as (k & -> & Hk & Hmin). done.
      + intros g Hg. unfold findFieldIndices in Hind.
        destruct header as [|h t]; [done|]. cbn [length Nat.eqb] in Hind.
        destruct (fold_left _ fields (∅, [])) as [ind1 miss1] eqn:Efold.
        destruct (0 <? length miss1)%nat; [done|]. injection Hind as <-.
        by rewrite (findFieldIndices_fold_other _ g _ _ _ _ _ Hg Efold).
Qed.

End Columns.

Section Tags.

Import Strings Inventory InventorySpec.

Lemma matchesAnyTags_true tags matchTags :
    matchesAnyTags tags matchTags = true ↔ ∃ t, t ∈ tags ∧ t ∈ matchTags.
Proof.
    unfold matchesAnyTags. destruct matchTags as [|m ms]; cbn [length Nat.eqb].
    - split; [done|]. intros (t & _ & Ht). by apply elem_of_nil in Ht.
    - rewrite existsb_exists. split.
      + intros (t & Ht & Hc). exists t. split; [by apply list_elem_of_In|].
        by apply Contains_true.
      + intros (t & Ht & Hc). exists t. split; [by apply list_elem_of_In|].
        by apply Contains_true.
Qed.

  (** [matchesAnyTags] says whether the two lists have a tag in common:
      it does not depend on which list is given first, nor on order or
      repetitions. *)
Theorem matchesAnyTags_common_tag tags matchTags :
    (matchesAnyTags tags matchTags = true ↔ ∃ t, t ∈ tags ∧ t ∈ matchTags) ∧
    matchesAnyTags tags matchTags = matchesAnyTags matchTags tags.
Proof.
    split; [apply matchesAnyTags_true|].
    destruct (matchesAnyTags tags matchTags) eqn:E1,
             (matchesAnyTags matchTags tags) eqn:E2; try done.
    - apply matchesAnyTags_true in E1 as (t & H1 & H2).
      assert (matchesAnyTags matchTags tags = true) as E by (apply matchesAnyTags_true; eauto).
      congruence.
    - apply matchesAnyTags_true in E2 as (t & H1 & H2).
      assert (matchesAnyTags tags matchTags = true) as E by (apply matchesAnyTags_true; eauto).
      congruence.
Qed.

  (** [matchesAllTags] holds when the tags to match are not none and are
      all among the tags of the row; it then implies [matchesAnyTags], and
      goes on holding when the row gets more tags. *)
Theorem matchesAllTags_subset tags matchTags :
    (matchesAllTags tags matchTags = true
     ↔ matchTags ≠ [] ∧ ∀ t, t ∈ matchTags → t ∈ tags) ∧
    (matchesAllTags tags matchTags = true → matchesAnyTags tags matchTags = true) ∧
    (∀ tags', tags ⊆ tags' → matchesAllTags tags matchTags = true →
              matchesAllTags tags' matchTags = true).
Proof.
    assert (∀ tags0, matchesAllTags tags0 matchTags = true
                     ↔ matchTags ≠ [] ∧ ∀ t, t ∈ matchTags → t ∈ tags0) as Hspec.
    { intros tags0. unfold matchesAllTags.
      destruct matchTags as [|m ms]; cbn [length Nat.eqb].
      - split; [done|]. by intros [? _].
      - rewrite forallb_forall. split.
        + intros H. split; [done|]. intros t Ht. apply Contains_true, H.
          by apply list_elem_of_In.
        + intros [_ H] t Ht. apply Contains_true, H. by apply list_elem_of_In. }
    split; [apply Hspec|]. split.
    - intros [Hne Hall]%Hspec. apply matchesAnyTags_true.
      destruct matchTags as [|m ms]; [done|]. exists m. split; [apply Hall|]; by left.
    - intros tags' Hsub [Hne Hall]%Hspec. apply Hspec. split; [done|].
      intros t Ht. by apply Hsub, Hall.
Qed.

End Tags.

Section Selection.

Context {Ext : Type} (C : Collaborators Ext).
Implicit Types (st : State Ext).

Import Strings Inventory InventorySpec.

Lemma selected_without_tags (header : record) clusterGroup matchAny matchAll row :
    selected header clusterGroup matchAny matchAll row = true →
    selected header clusterGroup [] [] row = true.
Proof.
    unfold selected. intros [-> _]%andb_true_iff. done.
Qed.

Lemma SelectClusters_sublist (header : record) rows clusterGroup matchAny matchAll :
    SelectClusters header rows clusterGroup matchAny matchAll
    `sublist_of` SelectClusters header rows clusterGroup [] [].
Proof.
    unfold SelectClusters. induction rows as [|row rows IH]; simpl; [done|].
    destruct (selected header clusterGroup matchAny matchAll row) eqn:E.
    - rewrite (selected_without_tags _ _ _ _ _ E). simpl. by apply sublist_skip.
    - destruct (selected header clusterGroup [] [] row); simpl; [by apply sublist_cons|done].
Qed.

Lemma SelectClusters_length (header : record) rows clusterGroup matchAny matchAll :
    (length (SelectClusters header rows clusterGroup matchAny matchAll) <= length rows)%nat.
Proof.
    unfold SelectClusters. rewrite length_map. apply List.filter_length_le.
Qed.

  (** The tag lists only narrow the selection: what is selected with
      tags is a part, in the same order, of what is selected for the group
      without tags, and no selection has more names than the file has data
      rows. *)
Theorem determineClustersToUpdate_tags_narrow st repo sourceOfTruth clusterGroup
      matchAny matchAll p data (header : record) (rows : list record) :
    OS.stat (env st) (Filepath.Join repo sourceOfTruth) = Some (p, FS.File data) →
    csv_ReadAll Ext C data = inr (header :: rows) →
    (∀ f, f ∈ ["cluster_name"; "cluster_group"; "cluster_tags"] → f ∈ header) →
    Forall (fun row : record => length row = length header) rows →
    ∃ l l0,
      (determineClustersToUpdate C repo sourceOfTruth clusterGroup matchAny matchAll st).1
      = Ok l ∧
      (determineClustersToUpdate C repo sourceOfTruth clusterGroup [] [] st).1 = Ok l0 ∧
      l `sublist_of` l0 ∧ (length l0 <= length rows)%nat.
Proof.
    intros Hstat Hcsv Hreq Hrows.
    rewrite !(determineClustersToUpdate_run C _ _ _ _ _ _ _ _ _ Hstat Hcsv). cbn [fst].
    rewrite !selectClusters_spec by done.
    eexists _, _. split; [reflexivity|]. split; [reflexivity|].
    split; [apply SelectClusters_sublist|apply SelectClusters_length].
Qed.

  (** [determineClustersToUpdate] only reads: whatever it returns, the
      file system and the rest of the environment are what they were, and
      the one call it has made is the opening of the inventory file. An
      error of the opening is returned as it is. *)
Theorem determineClustersToUpdate_reads_only st repo sourceOfTruth clusterGroup
      matchAny matchAll :
    let r := determineClustersToUpdate C repo sourceOfTruth clusterGroup matchAny
               matchAll st in
    env r.2 = env st ∧ heap r.2 = heap st ∧
    trace r.2 = trace st ++ [EvOpen (Filepath.Join repo sourceOfTruth)] ∧
    (∀ e, (OS.Open_env (Filepath.Join repo sourceOfTruth) (env st)).1 = inl e →
          r.1 = Err e).
Proof.
    intros r. subst r. unfold determineClustersToUpdate. cbv zeta.
    unfold bind, OS.Open, call, OS.Open_env, csvReadAll, OS.read, liftR, bind.
    destruct (OS.stat (env st) (Filepath.Join repo sourceOfTruth)) as [[p n]|] eqn:Hstat;
      cbn [fst snd env heap trace].
    - cbn [env root].
      destruct (FS.lookup (root (env st)) p) as [[data|es]|]; cbn [fst snd];
        try (repeat split; done).
      destruct (csv_ReadAll Ext C data) as [e|rs]; cbn [fst snd]; repeat split; done.
    - repeat split; try done. by intros e [= <-].
Qed.

End Selection.

(** * More on the update of the revisions *)

Section UpdateRuns.

Context {Ext : Type} (C : Collaborators Ext).
Implicit Types (st : State Ext).

Import Strings Inventory InventorySpec.

  (** The update on a well-formed file that can be written. *)
Lemma update_run st repo clusterNames sourceOfTruth platformRevision workloadRevision
      p data (header : record) (rows : list record) :
    OS.stat (env st) (Filepath.Join repo sourceOfTruth) = Some (p, FS.File data) →
    csv_ReadAll Ext C data = inr (header :: rows) →
    (∀ f, f ∈ revision_columns → f ∈ header) →
    Forall (fun row : record => length row = length header) rows →
    OS.is_prot (env st) p = false →
    updatePlatformAndWorkloadRepositoryRevision C repo clusterNames sourceOfTruth
      platformRevision workloadRevision st
    = (Ok tt,
       {| env := OS.with_root (env st)
                   (FS.set_at p
                      (Some (FS.File
                               (csvEncode C
                                  (map (updated_row header clusterNames platformRevision
                                          workloadRevision) (header :: rows)))))
                      (root (env st)));
          heap := heap st;
          trace := trace st ++ [EvOpen (Filepath.Join repo sourceOfTruth);
                                EvCreate (Filepath.Join repo sourceOfTruth)] |}).
Proof.
    intros Hstat Hcsv Hreq Hrows Hprot.
    pose proof (stat_lookup _ _ _ _ Hstat) as [Hres Hlk].
    assert (Forall (fun row : record => length row = length header) (header :: rows))
      as Hall by (by constructor).
    destruct (indexOf_present header "cluster_name") as [ni Hni];
      [apply Hreq; set_solver|].
    destruct (indexOf_present header "platform_repository_revision") as [pi Hpi];
      [apply Hreq; set_solver|].
    destruct (indexOf_present header "workload_repository_revision") as [wi Hwi];
      [apply Hreq; set_solver|].
    destruct (findFieldIndices_Ok header _ Hreq) as (ind & Hind & Hlkp).
    { by eapply required_present. }
    unfold updatePlatformAndWorkloadRepositoryRevision. cbv zeta.
    unfold bind at 1, wrapErr at 1. rewrite (Open_run _ _ _ _ Hstat).
    unfold bind at 1, wrapErr at 1. rewrite (csvReadAll_run C _ _ data) by done.
    rewrite Hcsv.
    unfold bind at 1, liftR at 1. cbn [index lookup list_lookup].
    unfold bind at 1, liftR at 1. fold revision_columns. rewrite Hind.
    rewrite (at_key_indexOf header ind _ ni), (at_key_indexOf header ind _ pi),
      (at_key_indexOf header ind _ wi); try done;
      try (apply Hlkp; unfold revision_columns; set_solver).
    unfold bind at 1, wrapErr at 1. rewrite (Create_run_file _ _ _ data) by done.
    rewrite (updateRecords_spec header ni pi wi Hni Hpi Hwi) by done.
    cbn [app]. unfold bind, liftR. cbn [OS.flush]. unfold OS.flush.
    cbn [env root OS.with_root heap trace].
    rewrite (lookup_set_at _ _ _ _ Hlk), (set_at_set_at _ _ _ _ _ Hlk).
    unfold OS.with_root. cbn [cwd prot ext]. rewrite <- app_assoc. reflexivity.
Qed.

  (** When the header lacks one of the three columns of the update, the
      update fails with the error that names the missing ones, in the order
      name, platform revision, workload revision; this is found before the
      file is opened for writing, and the file is left as it was. *)
Theorem update_missing_columns_keeps_file st repo clusterNames sourceOfTruth
      platformRevision workloadRevision p data (header : record) (rows : list record) :
    OS.stat (env st) (Filepath.Join repo sourceOfTruth) = Some (p, FS.File data) →
    csv_ReadAll Ext C data = inr (header :: rows) →
    (∃ f, f ∈ revision_columns ∧ f ∉ header) →
    updatePlatformAndWorkloadRepositoryRevision C repo clusterNames sourceOfTruth
      platformRevision workloadRevision st
    = (Err (FieldsNotFoundError (missing_fields header revision_columns)),
       {| env := env st; heap := heap st;
          trace := trace st ++ [EvOpen (Filepath.Join repo sourceOfTruth)] |}).
Proof.
    intros Hstat Hcsv (f & Hf & Hnf).
    pose proof (stat_lookup _ _ _ _ Hstat) as [Hres Hlk].
    unfold updatePlatformAndWorkloadRepositoryRevision. cbv zeta.
    unfold bind at 1, wrapErr at 1. rewrite (Open_run _ _ _ _ Hstat).
    unfold bind at 1, wrapErr at 1. rewrite (csvReadAll_run C _ _ data) by done.
    rewrite Hcsv.
    unfold bind at 1, liftR at 1. cbn [index lookup list_lookup].
    unfold bind at 1, liftR at 1. fold revision_columns.
    destruct header as [|h t].
    - by rewrite findFieldIndices_empty_header.
    - rewrite findFieldIndices_missing; [done|done|].
      intros Hnil. pose proof (proj1 (missing_fields_nil _ _) Hnil) as Hall.
      by apply Hnf, Hall.
Qed.

Lemma column_header (header : record) name :
    name ∈ header → column header name header = name.
Proof.
    intros Hin. unfold column. destruct (indexOf_present header name Hin) as [i Hi].
    rewrite Hi. apply indexOf_header in Hi. by apply nth_lookup_Some.
Qed.

Lemma column_insert_ne (header : record) name (row : record) i j v :
    indexOf header name 0 = Some i → i ≠ j →
    column header name (<[j:=v]> row) = column header name row.
Proof.
    intros Hi Hne. unfold column. rewrite Hi.
    rewrite !nth_lookup. by rewrite list_lookup_insert_ne.
Qed.

Lemma updated_row_idem (header : record) clusterNames platformRev workloadRev
      (row : record) :
    (∀ f, f ∈ revision_columns → f ∈ header) →
    updated_row header clusterNames platformRev workloadRev
      (updated_row header clusterNames platformRev workloadRev row)
    = updated_row header clusterNames platformRev workloadRev row.
Proof.
    intros Hreq.
    destruct (indexOf_present header "cluster_name") as [ni Hni];
      [apply Hreq; unfold revision_columns; set_solver|].
    destruct (indexOf_present header "platform_repository_revision") as [pi Hpi];
      [apply Hreq; unfold revision_columns; set_solver|].
    destruct (indexOf_present header "workload_repository_revision") as [wi Hwi];
      [apply Hreq; unfold revision_columns; set_solver|].
    assert (ni ≠ pi) as Hnp by (eapply indexOf_distinct; [|apply Hni|apply Hpi]; done).
    assert (ni ≠ wi) as Hnw by (eapply indexOf_distinct; [|apply Hni|apply Hwi]; done).
    assert (pi ≠ wi) as Hpw by (eapply indexOf_distinct; [|apply Hpi|apply Hwi]; done).
    unfold updated_row, targeted. rewrite Hpi, Hwi. cbn [default from_option id].
    destruct (Contains clusterNames (column header "cluster_name" row)) eqn:Ht;
      cbn [andb].
    - destruct (negb (String.eqb platformRev "")), (negb (String.eqb workloadRev ""));
        rewrite ?(column_insert_ne _ _ _ ni) by done; rewrite Ht; cbn [andb]; try done.
      + rewrite (list_insert_insert_ne _ pi wi) by done.
        by rewrite !list_insert_insert_eq.
      + by rewrite list_insert_insert_eq.
      + by rewrite list_insert_insert_eq.
    - by rewrite Ht.
Qed.

Lemma updated_row_untargeted (header : record) clusterNames platformRev workloadRev
      (row : record) :
    targeted header clusterNames row = false →
    updated_row header clusterNames platformRev workloadRev row = row.
Proof. unfold updated_row. by intros ->. Qed.

  (** Done a second time with the same revisions, the update changes
      nothing more: on a file whose header is not itself one of the rows to
      update, and with a CSV reader that reads back what the writer wrote,
      the second run succeeds and leaves the file system as the first run
      left it. *)
Theorem update_twice_is_update_once st repo clusterNames sourceOfTruth
      platformRevision workloadRevision p data (header : record) (rows : list record) :
    OS.stat (env st) (Filepath.Join repo sourceOfTruth) = Some (p, FS.File data) →
    csv_ReadAll Ext C data = inr (header :: rows) →
    (∀ f, f ∈ revision_columns → f ∈ header) →
    Forall (fun row : record => length row = length header) rows →
    OS.is_prot (env st) p = false →
    "cluster_name" ∉ clusterNames →
    csv_ReadAll Ext C
      (csvEncode C (map (updated_row header clusterNames platformRevision workloadRevision)
                      (header :: rows)))
    = inr (map (updated_row header clusterNames platformRevision workloadRevision)
             (header :: rows)) →
    ∃ st1 st2,
      updatePlatformAndWorkloadRepositoryRevision C repo clusterNames sourceOfTruth
        platformRevision workloadRevision st = (Ok tt, st1) ∧
      updatePlatformAndWorkloadRepositoryRevision C repo clusterNames sourceOfTruth
        platformRevision workloadRevision st1 = (Ok tt, st2) ∧
      env st2 = env st1.
Proof.
    intros Hstat Hcsv Hreq Hrows Hprot Hname Hcodec.
    pose proof (stat_lookup _ _ _ _ Hstat) as [Hres Hlk].
    set (upd := updated_row header clusterNames platformRevision workloadRevision) in *.
    assert (upd header = header) as Hhead.
    { apply updated_row_untargeted. unfold targeted.
      rewrite column_header by (apply Hreq; unfold revision_columns; set_solver).
      by apply Contains_false. }
    rewrite (update_run st _ _ _ _ _ p data header rows) by done.
    eexists _, _. split; [reflexivity|].
    set (data1 := csvEncode C (map upd (header :: rows))) in *.
    set (st1 := {| env := _ |}).
    assert (OS.stat (env st1) (Filepath.Join repo sourceOfTruth)
            = Some (p, FS.File data1)) as Hstat1.
    { unfold OS.stat. subst st1. cbn [env cwd root OS.with_root]. rewrite Hres.
      by rewrite (lookup_set_at _ _ _ _ Hlk). }
    assert (csv_ReadAll Ext C data1 = inr (header :: map upd rows)) as Hcsv1.
    { subst data1. rewrite Hcodec. cbn [map]. by rewrite Hhead. }
    rewrite (update_run st1 _ _ _ _ _ p data1 header (map upd rows)); try done.
    - split; [reflexivity|]. fold upd. cbn [env].
      assert (map upd (header :: map upd rows) = map upd (header :: rows)) as ->.
      { cbn [map]. rewrite Hhead. f_equal. rewrite map_map. apply map_ext.
        intros row. by apply updated_row_idem. }
      fold data1. subst st1. cbn [env root OS.with_root cwd prot ext].
      rewrite (set_at_set_at _ _ _ _ _ Hlk). done.
    - clear -Hrows. induction Hrows as [|row rows Hlen _ IH]; cbn [map].
      + apply Forall_nil_2.
      + apply Forall_cons. split; [|done]. unfold upd. by rewrite updated_row_length.
Qed.

  (** The update does not skip the header: it is a record like the
      others, and when the list of names holds the text [cluster_name] the
      revision cells of the header itself are overwritten. *)
Theorem update_rewrites_a_targeted_header st repo clusterNames sourceOfTruth
      platformRevision workloadRevision p data (header : record) (rows : list record) pi :
    OS.stat (env st) (Filepath.Join repo sourceOfTruth) = Some (p, FS.File data) →
    csv_ReadAll Ext C data = inr (header :: rows) →
    (∀ f, f ∈ revision_columns → f ∈ header) →
    Forall (fun row : record => length row = length header) rows →
    OS.is_prot (env st) p = false →
    "cluster_name" ∈ clusterNames →
    platformRevision ≠ "" →
    indexOf header "platform_repository_revision" 0 = Some pi →
    ∃ st' (header' : record) rows',
      updatePlatformAndWorkloadRepositoryRevision C repo clusterNames sourceOfTruth
        platformRevision workloadRevision st = (Ok tt, st') ∧
      FS.lookup (root (env st')) p = Some (FS.File (csvEncode C (header' :: rows'))) ∧
      header !! pi = Some "platform_repository_revision" ∧
      header' !! pi = Some platformRevision.
Proof.
    intros Hstat Hcsv Hreq Hrows Hprot Hname Hrev Hpi.
    pose proof (stat_lookup _ _ _ _ Hstat) as [Hres Hlk].
    rewrite (update_run st _ _ _ _ _ p data header rows) by done.
    eexists _, _, _. split; [reflexivity|]. cbn [env root OS.with_root map].
    split; [by rewrite (lookup_set_at _ _ _ _ Hlk)|].
    split; [by apply indexOf_header|].
    destruct (indexOf_present header "workload_repository_revision") as [wi Hwi];
      [apply Hreq; unfold revision_columns; set_solver|].
    assert (pi ≠ wi) as Hpw by (eapply indexOf_distinct; [|apply Hpi|apply Hwi]; done).
    assert (pi < length header)%nat as Hlt by (by eapply indexOf_lt).
    unfold updated_row, targeted.
    rewrite column_header by (apply Hreq; unfold revision_columns; set_solver).
    apply Contains_true in Hname as ->. rewrite Hpi, Hwi. cbn [default from_option id andb].
    apply String.eqb_neq in Hrev as ->. cbn [negb].
    destruct (negb (String.eqb workloadRevision ""));
      rewrite ?list_lookup_insert_ne by done; by rewrite list_lookup_insert_eq.
Qed.

End UpdateRuns.

(** * What the cleanup and the renderer leave alone *)

Section Apart.

Import FS.

Lemma assoc_replace_ne a b n es : a ≠ b → assoc b (replace_entry a n es) = assoc b es.
Proof.
    intros Hne. induction es as [|[k c] es IH]; simpl; [done|].
    destruct (String.eqb_spec k a) as [->|Hka]; simpl.
    - apply String.eqb_neq in Hne. by rewrite Hne.
    - by rewrite IH.
Qed.

Lemma assoc_insert_ne a b n es : a ≠ b → assoc b (insert_entry a n es) = assoc b es.
Proof.
    intros Hne. induction es as [|[k c] es IH]; simpl.
    - apply String.eqb_neq in Hne. by rewrite Hne.
    - destruct (String.ltb a k); simpl.
      + apply String.eqb_neq in Hne. by rewrite Hne.
      + by rewrite IH.
Qed.

Lemma assoc_put_ne a b n es : a ≠ b → assoc b (put_entry a n es) = assoc b es.
Proof.
    intros Hne. unfold put_entry.
    destruct (assoc a es); [by apply assoc_replace_ne|by apply assoc_insert_ne].
Qed.

Lemma assoc_del_ne a b es : a ≠ b → assoc b (del_entry a es) = assoc b es.
Proof.
    intros Hne. induction es as [|[k c] es IH]; simpl; [done|].
    destruct (String.eqb_spec k a) as [->|Hka]; simpl.
    - apply String.eqb_neq in Hne. by rewrite Hne.
    - by rewrite IH.
Qed.

  (** A write at [p] is not seen at a path that is neither above nor
      below [p]. *)
Lemma lookup_set_at_apart p v :
    ∀ t q, ¬ p `prefix_of` q → ¬ q `prefix_of` p →
           lookup (set_at p v t) q = lookup t q.
Proof.
    induction p as [|a p IH]; intros t q Hpq Hqp.
    - destruct Hpq. apply prefix_nil.
    - destruct q as [|b q]; [destruct Hqp; apply prefix_nil|].
      destruct t as [data|es]; [done|].
      destruct p as [|a' p'].
      + assert (a ≠ b) as Hne.
        { intros ->. apply Hpq. by apply prefix_cons, prefix_nil. }
        cbn [set_at lookup].
        destruct v; by rewrite ?assoc_put_ne, ?assoc_del_ne by done.
      + cbn [set_at]. destruct (assoc a es) as [c|] eqn:E; [|done].
        cbn [lookup]. destruct (decide (a = b)) as [<-|Hne].
        * rewrite (assoc_put_present _ _ _ _ E), E. apply IH.
          -- intros H. apply Hpq. by apply prefix_cons.
          -- intros H. apply Hqp. by apply prefix_cons.
        * by rewrite assoc_put_ne.
Qed.

End Apart.

Section Frame.

Context {Ext : Type} (C : Collaborators Ext).
Implicit Types (st : State Ext).

Import FS.

  (** [cleanHydratedDirectory] touches nothing but the directory it is
      given: whatever it returns, every path that is neither the directory,
      nor above it, nor below it names what it named before; and when the
      path it is given names no directory, nothing changes at all. *)
Theorem cleanHydratedDirectory_frame st directory :
    (∀ p es, OS.stat (env st) directory = Some (p, Dir es) → wf_entries es) →
    let st' := (cleanHydratedDirectory directory st).2 in
    cwd (env st') = cwd (env st) ∧ prot (env st') = prot (env st) ∧
    ext (env st') = ext (env st) ∧ heap st' = heap st ∧
    match OS.stat (env st) directory with
    | Some (p, Dir _) =>
        ∀ q, ¬ p `prefix_of` q → ¬ q `prefix_of` p →
             lookup (root (env st')) q = lookup (root (env st)) q
    | _ => env st' = env st
    end.
Proof.
    intros Hwf st'. subst st'.
    destruct (OS.stat (env st) directory) as [[p [data|es]]|] eqn:Hstat.
    - destruct (cleanHydratedDirectory_missing st directory) as [e ->].
      { intros p' es'. by rewrite Hstat. }
      done.
    - specialize (Hwf p es eq_refl).
      pose proof (stat_lookup _ _ _ _ Hstat) as [Hres Hlk].
      unfold cleanHydratedDirectory, bind, OS.ReadDir, call, OS.ReadDir_env.
      rewrite Hstat.
      set (st1 := {| env := env st; heap := heap st;
                     trace := trace st ++ [EvReadDir directory] |}).
      destruct (cleanEntries_run es [] st1 directory p Hres Hlk Hwf)
        as (r & st' & Hrun & Henv & _ & _ & Hheap).
      change (map (λ '(k, c), (k, isDir c)) es) with (map entry_info es).
      rewrite Hrun. cbn [snd]. rewrite Henv. cbn [env cwd prot ext root OS.with_root].
      repeat split; [done|]. intros q Hpq Hqp. by apply lookup_set_at_apart.
    - destruct (cleanHydratedDirectory_missing st directory) as [e ->].
      { intros p' es'. by rewrite Hstat. }
      done.
Qed.

Variables (sourceRepo baseLibraryPath overlayPath outputRepo outputPath
             sourceOfTruth : string).

  (** A renderer that does not start, or that ends in error, is not run
      again: the hydration returns the error of [runCmd], with what the
      process wrote on its standard error when it ran, and the renderer has
      been started once. *)
Theorem renderer_failure_ends_hydration st :
    let cleared :=
      Filepath.Join (if String.eqb outputRepo "" then sourceRepo else outputRepo)
        outputPath in
    let args := hydrateArgs sourceRepo baseLibraryPath overlayPath outputPath
                  sourceOfTruth in
    let st1 := (cleanHydratedDirectory cleared st).2 in
    let out := exec_Command Ext C hydrateCliBin args "" (env st1) in
    (∀ stdout, out.1 ≠ Exited stdout) →
    runHydrationCLI C sourceRepo baseLibraryPath overlayPath outputRepo outputPath
      sourceOfTruth st
    = (match out.1 with
       | StartFailed e => Err (Errorf "failed to start command: " e)
       | WaitFailed e stderr =>
           Err (ErrMsg ("error running command: " +:+ Error e +:+ String "010"%char stderr))
       | Exited _ => Ok tt
       end,
       {| env := out.2; heap := heap st1;
          trace := trace st1 ++ [EvExec hydrateCliBin args ""] |}).
Proof.
    intros cleared args st1 out Hfail. subst cleared args st1 out.
    rewrite runHydrationCLI_run. unfold bind at 1. rewrite runCmd_run.
    unfold hydrateArgs in *.
    destruct (exec_Command Ext C hydrateCliBin _ "" _) as [[e|e stderr|stdout] world];
      cbn [fst snd] in *; try done.
    by destruct (Hfail stdout).
Qed.

End Frame.

(** * Branch names, results, and the deploy of an environment *)

Section BranchNames.

Lemma string_length_app (s t : string) :
    String.length (s +:+ t) = (String.length s + String.length t)%nat.
Proof. induction s as [|a s IH]; simpl; [done|]. by rewrite IH. Qed.

Lemma string_app_inv_tail (t : string) :
    ∀ s1 s2 : string, s1 +:+ t = s2 +:+ t → s1 = s2.
Proof.
    induction s1 as [|a s1 IH]; intros [|b s2] H.
    - done.
    - apply (f_equal String.length) in H.
      rewrite !string_length_app in H. simpl in H. lia.
    - apply (f_equal String.length) in H.
      rewrite !string_length_app in H. simpl in H. lia.
    - simpl in H. injection H as -> H. f_equal. by apply IH.
Qed.

  (** In a deploy the batches get branch names that differ: the name of
      a batch gives its number back. *)
Theorem featureBranchName_distinct d (k k' numBatches : Z) :
    k ≠ k' → featureBranchName d k numBatches ≠ featureBranchName d k' numBatches.
Proof.
    unfold featureBranchName. intros Hne H. apply Hne.
    apply (inj (String.app (Rollout (req d)))) in H.
    apply (inj (String.app "__")) in H.
    apply string_app_inv_tail in H.
    by apply (inj pretty) in H.
Qed.

End BranchNames.

Section Inversion.

Context {Ext : Type}.

Lemma bind_Ok_inv {A B} (m : M Ext A) (k : A → M Ext B) st b st' :
    bind m k st = (Ok b, st') → ∃ a st1, m st = (Ok a, st1) ∧ k a st1 = (Ok b, st').
Proof.
    unfold bind. destruct (m st) as [[a|e|pn] st1]; [|done|done]. intros H. by exists a, st1.
Qed.

Lemma wrapErr_Ok_inv {A} prefix (m : M Ext A) st a st' :
    wrapErr prefix m st = (Ok a, st') → m st = (Ok a, st').
Proof. unfold wrapErr. by destruct (m st) as [[a'|e|pn] st1]. Qed.

Lemma splitRepoRef_Ok ref h o r :
    splitRepoRef ref = Ok (h, o, r) → Strings.Split Strings.SLASH ref = [h; o; r].
Proof.
    unfold splitRepoRef.
    destruct (Strings.Split Strings.SLASH ref) as [|h' [|o' [|r' [|x rest]]]]; try done.
    by intros [= <- <- <-].
Qed.

End Inversion.

Section Results.

Context {Ext : Type} (C : Collaborators Ext).
Variable d : deployer.

  (** A deploy that returns a result has run, each once and in the state
      the one before has left, the access to the secret, the setup of the
      source workspace (and of the output workspace when it is another
      repository), the selection and the batch loop; its last call is the
      upload of the inventory of the source repository, made in the state
      the batch loop has left, and the result is a succeeded one with no
      failure message, the metadata of the deployer and one artifact: the
      address this upload has returned. *)
Theorem deploy_success_result st r st' :
    deploy C d st = (Ok r, st') →
    let p := dparams d in
    ∃ secret st1 h o name st2 outRepo st3 clusters st4 st5 uri,
      accessSecretVersion C (gitSecret p) st = (Ok secret, st1) ∧
      Strings.Split Strings.SLASH (gitSourceRepo p) = [h; o; name] ∧
      let srcRepo := {| addr := heap st1; hostname := h; owner := o; repoName := name;
                        email := gitEmail p; username := gitUsername p |} in
      setupGitWorkspace C secret srcRepo (gitSourceBranch p)
        {| env := env st1; heap := S (heap st1); trace := trace st1 |} = (Ok tt, st2) ∧
      (if String.eqb (gitSourceRepo p) (gitOutputRepo p) then outRepo = srcRepo ∧ st3 = st2
       else ∃ h' o' name',
              Strings.Split Strings.SLASH (gitOutputRepo p) = [h'; o'; name'] ∧
              outRepo = {| addr := heap st2; hostname := h'; owner := o'; repoName := name';
                           email := gitEmail p; username := gitUsername p |} ∧
              setupGitWorkspace C secret outRepo (gitOutputBranch p)
                {| env := env st2; heap := S (heap st2); trace := trace st2 |}
              = (Ok tt, st3)) ∧
      determineClustersToUpdate C name (hydrationSourceOfTruth p) (hydrationClusterGroup p)
        (matchClustersHavingAnyListedTag p) (matchClustersHavingAllListedTags p) st3
      = (Ok clusters, st4) ∧
      (let len := Z.of_nat (length clusters) in
       let batchSize := if (0 <? hydrationBatchSize p)%Z then hydrationBatchSize p else len in
       batchLoop C d (S (length clusters)) secret srcRepo outRepo clusters batchSize
         (ceil_quot len batchSize) 0 1 st4 = (Ok tt, st5)) ∧
      req_UploadArtifact Ext C "source_of_truth.csv"
        (Filepath.Join name (hydrationSourceOfTruth p)) (env st5) = (inr uri, env st') ∧
      heap st' = heap st5 ∧
      trace st' = trace st5 ++ [EvUploadArtifact "source_of_truth.csv"
                                  (Filepath.Join name (hydrationSourceOfTruth p))] ∧
      r = {| ResultStatus := DeploySucceeded; FailureMessage := "";
             ArtifactFiles := [uri]; Metadata := metadata C |}.
Proof.
    intros H p. subst p. unfold deploy in H. cbv zeta in H.
    apply bind_Ok_inv in H as (secret & st1 & Hsecret & H).
    apply wrapErr_Ok_inv in Hsecret.
    apply bind_Ok_inv in H as ([[h o] name] & st1' & Hsplit & H).
    unfold liftR in Hsplit. injection Hsplit as Hsplit <-.
    apply splitRepoRef_Ok in Hsplit.
    apply bind_Ok_inv in H as (srcRepo & st1' & Hnew & H).
    unfold newGitRepository in Hnew. injection Hnew as <- <-.
    apply bind_Ok_inv in H as ([] & st2 & Hsetup & H).
    apply wrapErr_Ok_inv in Hsetup.
    apply bind_Ok_inv in H as (outRepo & st3 & Hout & H).
    apply bind_Ok_inv in H as (clusters & st4 & Hsel & H).
    apply wrapErr_Ok_inv in Hsel.
    apply bind_Ok_inv in H as ([] & st5 & Hloop & H).
    apply bind_Ok_inv in H as (uri & st6 & Hup & H).
    apply wrapErr_Ok_inv in Hup. unfold ret in H. injection H as <- <-.
    unfold call in Hup.
    destruct (req_UploadArtifact Ext C _ _ (env st5)) as [[e|uri'] world] eqn:Eup; [done|].
    injection Hup as <- <-.
    exists secret, st1, h, o, name, st2, outRepo, st3, clusters, st4, st5, uri'.
    split; [done|]. split; [done|]. cbv zeta. split; [done|]. split.
    { destruct (String.eqb (gitSourceRepo (dparams d)) (gitOutputRepo (dparams d)));
        cbn [negb] in Hout.
      - unfold ret in Hout. by injection Hout as <- <-.
      - apply bind_Ok_inv in Hout as ([[h' o'] name'] & st2' & Hsplit' & Hout).
        unfold liftR in Hsplit'. injection Hsplit' as Hsplit' <-.
        apply splitRepoRef_Ok in Hsplit'.
        apply bind_Ok_inv in Hout as (newRepo & st2' & Hnew & Hout).
        unfold newGitRepository in Hnew. injection Hnew as <- <-.
        apply bind_Ok_inv in Hout as ([] & st3' & Hsetup' & Hout).
        apply wrapErr_Ok_inv in Hsetup'. unfold ret in Hout. injection Hout as <- <-.
        by exists h', o', name'. }
    split; [done|]. split; [done|]. cbn [env heap trace]. done.
Qed.

End Results.

Section FromTheEnvironment.

Context {Ext : Type} (C : Collaborators Ext).
Variable time_ParseDuration : string → error + Z.
Variable strconv_Quote : string → string.

  (** With the parameters [determineParams] reads, a deploy never takes
      the path of [handleDestinationBranch] that opens no pull request: the
      destination is the output branch, which is required. A deploy that
      ends well has opened one pull request for every batch, and two when
      the output repository is not the source repository. *)
Theorem environment_deploy_opens_pull_requests e d st :
    determineParams time_ParseDuration strconv_Quote e = Ok (dparams d) →
    ∃ evs,
      trace (deploy C d st).2 = trace st ++ evs ∧
      let n := count KBatch evs in
      let repos := if String.eqb (gitSourceRepo (dparams d)) (gitOutputRepo (dparams d))
                   then 1%nat else 2%nat in
      (count KOpenPR evs <= repos * n)%nat ∧
      (is_Ok (deploy C d st).1 → count KOpenPR evs = (repos * n)%nat).
Proof.
    intros Hparams. apply determineParams_Ok in Hparams.
    destruct Hparams as (_ & _ & _ & _ & Hout & _).
    apply getRequired_Ok in Hout as [_ Hbranch].
    apply String.eqb_neq in Hbranch.
    destruct (String.eqb_spec (gitSourceRepo (dparams d)) (gitOutputRepo (dparams d)))
      as [Hrefs|Hrefs].
    - destruct (ltally_deploy C d Hrefs KOpenPR ltac:(done) ltac:(done) st)
        as (evs & Ht & Hle & Heq).
      exists evs. split; [done|]. cbn [setup_calls per_batch] in *.
      rewrite Hbranch in Hle, Heq. cbv zeta. split; [lia|].
      intros Hok. specialize (Heq Hok). lia.
    - destruct (ltally_deploy_two C d Hrefs KOpenPR ltac:(done) ltac:(done) st)
        as (evs & Ht & Hle & Heq).
      exists evs. split; [done|]. cbn [setup_calls_two per_batch_two] in *.
      rewrite Hbranch in Hle, Heq. cbv zeta. split; [lia|].
      intros Hok. specialize (Heq Hok). lia.
Qed.

End FromTheEnvironment.

Section PartialCleanup.

Context {Ext : Type}.
Implicit Types (st : State Ext).

Import FS.

Lemma clean_listing_failed prot p es :
    (clean_listing prot p es).2 = false →
    ∃ pre k c c' rest,
      es = pre ++ (k, c) :: rest ∧ sentinel k = false ∧
      removeAll_node prot (p ++ [k]) c = Some c' ∧
      (clean_listing prot p es).1
      = List.filter (fun kc => sentinel kc.1) pre ++ (k, c') :: rest.
Proof.
    induction es as [|[k c] es IH]; cbn [clean_listing]; [done|].
    destruct (sentinel k) eqn:Es.
    - destruct (clean_listing prot p es) as [r ok] eqn:E. cbn [fst snd] in *.
      intros Hok. destruct (IH Hok) as (pre & k' & c0 & c' & rest & -> & Hs & Hrm & Hr).
      exists ((k, c) :: pre), k', c0, c', rest. split; [done|]. split; [done|].
      split; [done|]. cbn [List.filter fst]. rewrite Es. cbn [app]. by rewrite Hr.
    - destruct (removeAll_node prot (p ++ [k]) c) as [c'|] eqn:Erm.
      + intros _. exists [], k, c, c', es. done.
      + intros Hok. destruct (IH Hok) as (pre & k' & c0 & c' & rest & -> & Hs & Hrm & Hr).
        exists ((k, c) :: pre), k', c0, c', rest. split; [done|]. split; [done|].
        split; [done|]. cbn [List.filter fst]. by rewrite Es.
Qed.

  (** The cleanup stops at the first entry it cannot remove whole: it
      returns an error, the entries listed after this one are all still
      there, as they were, and of the entries before it the ones called
      [.gitkeep] are left. *)
Theorem cleanup_stops_at_first_failure st directory p es :
    OS.stat (env st) directory = Some (p, Dir es) →
    wf_entries es →
    (cleanHydratedDirectory directory st).1 ≠ Ok tt →
    ∃ pre k c c' rest e,
      es = pre ++ (k, c) :: rest ∧ k ≠ ".gitkeep" ∧
      (cleanHydratedDirectory directory st).1 = Err e ∧
      lookup (root (env (cleanHydratedDirectory directory st).2)) p
      = Some (Dir (List.filter (fun kc => sentinel kc.1) pre ++ (k, c') :: rest)).
Proof.
    intros Hstat Hwf Hfail.
    pose proof (stat_lookup _ _ _ _ Hstat) as [Hres Hlk].
    destruct (cleanHydratedDirectory_run st directory p es Hstat Hwf)
      as (r & st' & Hrun & Henv & Hok).
    rewrite Hrun in Hfail |- *. cbn [fst snd] in *.
    assert ((clean_listing (OS.is_prot (env st)) p es).2 = false) as Hno.
    { destruct (clean_listing (OS.is_prot (env st)) p es).2 eqn:E; [|done].
      destruct Hfail. by apply Hok. }
    destruct (clean_listing_failed _ _ _ Hno) as (pre & k & c & c' & rest & Hes & Hs & _ & Hl).
    pose proof (cleanHydratedDirectory_no_panic directory st) as Hnp.
    rewrite Hrun in Hnp. cbn [fst] in Hnp.
    destruct r as [[]|e|pn]; [done| |by destruct (Hnp pn)].
    exists pre, k, c, c', rest, e. split; [done|]. split.
    { intros ->. done. }
    split; [done|]. rewrite Henv. cbn [root OS.with_root].
    rewrite (lookup_set_at _ _ _ _ Hlk). by rewrite Hl.
Qed.

End PartialCleanup.

(** * The further theorems at work in the small world *)

Section MoreWitnesses.

Import Demo.

Lemma deploy_rejects_corrupt_secret_witness :
    crc32_Checksum unit Faults.corrupt "token" ≠ 8%Z ∧
    trace (deploy Faults.corrupt (deployer_ repo_ref 2) (state inventory [])).2
    = [EvAccessSecretVersion "projects/p/secrets/s/versions/1"].
Proof.
    split; [done|].
    rewrite (deploy_rejects_corrupt_secret Faults.corrupt (deployer_ repo_ref 2)
               (state inventory []) "token" 8%Z (env (state inventory [])));
      [reflexivity | reflexivity | done].
Defined.

Lemma deploy_invalid_source_reference_witness :
    length (Strings.Split Strings.SLASH "acme/repo") ≠ 3%nat ∧
    (deploy (collab true true) (Faults.deployer_from "acme/repo" "acme/repo")
       (state inventory [])).1
    = Err (ErrMsg ("invalid git repository reference: " +:+ Strings.Quote "acme/repo")).
Proof.
    split; [by vm_compute|].
    erewrite (deploy_invalid_source_reference (collab true true)
                (Faults.deployer_from "acme/repo" "acme/repo") (state inventory []));
      [reflexivity | reflexivity | by vm_compute].
Defined.

Lemma two_repositories_steps_twice_witness :
    gitSourceRepo (dparams (deployer_ "github.com/acme/manifests" 2))
    ≠ gitOutputRepo (dparams (deployer_ "github.com/acme/manifests" 2)) ∧
    ∃ evs,
      trace (deploy (collab true true) (deployer_ "github.com/acme/manifests" 2)
               (state inventory [])).2
      = trace (state inventory []) ++ evs ∧
      (count KClone evs <= 2)%nat ∧ (count KCommit evs <= 2 * count KBatch evs)%nat.
Proof.
    assert (gitSourceRepo (dparams (deployer_ "github.com/acme/manifests" 2))
            ≠ gitOutputRepo (dparams (deployer_ "github.com/acme/manifests" 2))) as Hne
      by done.
    split; [exact Hne|].
    destruct (two_repositories_steps_twice (collab true true)
                (deployer_ "github.com/acme/manifests" 2) Hne (state inventory []))
      as (evs & Ht & Hle & _).
    exists evs. split; [exact Ht|].
    destruct Hle as (Hclone & _ & _ & _ & Hcommit & _).
    split; assumption.
Defined.

Lemma batchLoop_positive_batch_size_witness :
    (0 < hydrationBatchSize (dparams (deployer_ repo_ref 2)))%Z ∧
    ceil_quot 3 2 = 2%Z ∧
    ∃ n evs,
      trace (batchLoop (collab true true) (deployer_ repo_ref 2) 4 "token" repository
               repository ["c1"; "c3"; "c4"] 2 2 0 1 (state inventory [])).2
      = trace (state inventory []) ++ evs ∧
      batch_events evs
      = batch_lines (deployer_ repo_ref 2) ["c1"; "c3"; "c4"] 2 2 1 n ∧
      (Z.of_nat n <= 2)%Z.
Proof.
    split; [done|]. split; [reflexivity|].
    destruct (batchLoop_positive_batch_size (collab true true) (deployer_ repo_ref 2)
                "token" repository repository ["c1"; "c3"; "c4"] ltac:(done) ltac:(done)
                (state inventory []))
      as (n & evs & Ht & Hev & Hle & _).
    exists n, evs. split; [exact Ht|]. split; [exact Hev|exact Hle].
Defined.

Lemma deploy_fuel_enough_witness :
    (- 2 ^ 63 <= hydrationBatchSize (dparams (deployer_ repo_ref (-1))) < 2 ^ 63)%Z ∧
    (deploy Faults.fixed_reader (deployer_ repo_ref (-1)) (state inventory [])).1
    ≠ Panic fuel_exhausted.
Proof.
    split; [done|].
    apply (deploy_fuel_enough Faults.fixed_reader (deployer_ repo_ref (-1))).
    - done.
    - intros data rs [= <-]. done.
Defined.

Lemma publish_no_diff_witness :
    (git unit Faults.nodiff repository detectDiff (env (state inventory []))).1
    = inr (Some "") ∧
    trace (publish Faults.nodiff (deployer_ repo_ref 2) repository "token" "rollout-1__1/2"
             (state inventory [])).2
    = [EvGit repository detectDiff].
Proof.
    split; [reflexivity|].
    rewrite (publish_no_diff Faults.nodiff (deployer_ repo_ref 2) repository "token"
               "rollout-1__1/2" (state inventory []) (Some ""));
      reflexivity.
Defined.

Lemma determineClustersToUpdate_missing_columns_witness :
    csv_ReadAll unit (collab true true) Faults.short_inventory
    = inr [["cluster_name"; "cluster_group"; "platform_repository_revision"];
           ["c1"; "groupA"; "p0"]] ∧
    (determineClustersToUpdate (collab true true) "repo" "source_of_truth.csv" "groupA"
       [] [] (state Faults.short_inventory [])).1
    = Err (FieldsNotFoundError ["cluster_tags"]).
Proof.
    split; [reflexivity|].
    apply (determineClustersToUpdate_missing_columns (collab true true)
             (state Faults.short_inventory []) "repo" "source_of_truth.csv" "groupA" [] []
             ["repo"; "source_of_truth.csv"] Faults.short_inventory
             ["cluster_name"; "cluster_group"; "platform_repository_revision"]
             [["c1"; "groupA"; "p0"]]).
    - reflexivity.
    - reflexivity.
    - exists "cluster_tags". split; [by apply Contains_true|by apply Contains_false].
Defined.

Lemma determineClustersToUpdate_tags_narrow_witness :
    csv_ReadAll unit (collab true true) inventory = inr (header :: rows) ∧
    ∃ l l0,
      (determineClustersToUpdate (collab true true) "repo" "source_of_truth.csv" "groupA"
         ["tag2"] [] (state inventory [])).1 = Ok l ∧
      (determineClustersToUpdate (collab true true) "repo" "source_of_truth.csv" "groupA"
         [] [] (state inventory [])).1 = Ok l0 ∧
      l `sublist_of` l0 ∧ (length l0 <= 4)%nat.
Proof.
    split; [reflexivity|].
    apply (determineClustersToUpdate_tags_narrow (collab true true) (state inventory [])
             "repo" "source_of_truth.csv" "groupA" ["tag2"] []
             ["repo"; "source_of_truth.csv"] inventory header rows).
    - reflexivity.
    - reflexivity.
    - by apply demo_header_has.
    - by repeat constructor.
Defined.

Lemma update_missing_columns_keeps_file_witness :
    csv_ReadAll unit (collab true true) Faults.short_inventory
    = inr [["cluster_name"; "cluster_group"; "platform_repository_revision"];
           ["c1"; "groupA"; "p0"]] ∧
    updatePlatformAndWorkloadRepositoryRevision (collab true true) "repo" ["c1"]
      "source_of_truth.csv" "p1" "" (state Faults.short_inventory [])
    = (Err (FieldsNotFoundError ["workload_repository_revision"]),
       {| env := env (state Faults.short_inventory []); heap := 0;
          trace := [EvOpen "repo/source_of_truth.csv"] |}).
Proof.
    split; [reflexivity|].
    apply (update_missing_columns_keeps_file (collab true true)
             (state Faults.short_inventory []) "repo" ["c1"] "source_of_truth.csv" "p1" ""
             ["repo"; "source_of_truth.csv"] Faults.short_inventory
             ["cluster_name"; "cluster_group"; "platform_repository_revision"]
             [["c1"; "groupA"; "p0"]]).
    - reflexivity.
    - reflexivity.
    - exists "workload_repository_revision".
      split; [by apply Contains_true|by apply Contains_false].
Defined.

Lemma update_twice_is_update_once_witness :
    ("cluster_name" ∉ ["c1"; "c4"]) ∧
    csv_ReadAll unit (collab true true)
      (csvEncode (collab true true)
         (map (InventorySpec.updated_row header ["c1"; "c4"] "p1" "") (header :: rows)))
    = inr (map (InventorySpec.updated_row header ["c1"; "c4"] "p1" "") (header :: rows)) ∧
    ∃ st1 st2,
      updatePlatformAndWorkloadRepositoryRevision (collab true true) "repo" ["c1"; "c4"]
        "source_of_truth.csv" "p1" "" (state inventory []) = (Ok tt, st1) ∧
      updatePlatformAndWorkloadRepositoryRevision (collab true true) "repo" ["c1"; "c4"]
        "source_of_truth.csv" "p1" "" st1 = (Ok tt, st2) ∧
      env st2 = env st1.
Proof.
    assert ("cluster_name" ∉ ["c1"; "c4"]) as Hname by (by apply Contains_false).
    split; [exact Hname|]. split; [reflexivity|].
    apply (update_twice_is_update_once (collab true true) (state inventory []) "repo"
             ["c1"; "c4"] "source_of_truth.csv" "p1" "" ["repo"; "source_of_truth.csv"]
             inventory header rows).
    - reflexivity.
    - reflexivity.
    - by apply demo_header_has.
    - by repeat constructor.
    - reflexivity.
    - exact Hname.
    - reflexivity.
Defined.

Lemma update_rewrites_a_targeted_header_witness :
    ("cluster_name" ∈ ["cluster_name"]) ∧
    ∃ st' (header' : list string) rows',
      updatePlatformAndWorkloadRepositoryRevision (collab true true) "repo" ["cluster_name"]
        "source_of_truth.csv" "p1" "" (state inventory []) = (Ok tt, st') ∧
      FS.lookup (root (env st')) ["repo"; "source_of_truth.csv"]
      = Some (FS.File (csvEncode (collab true true) (header' :: rows'))) ∧
      header !! 3%nat = Some "platform_repository_revision" ∧
      header' !! 3%nat = Some "p1".
Proof.
    assert ("cluster_name" ∈ ["cluster_name"]) as Hname by (by apply Contains_true).
    split; [exact Hname|].
    apply (update_rewrites_a_targeted_header (collab true true) (state inventory []) "repo"
             ["cluster_name"] "source_of_truth.csv" "p1" "" ["repo"; "source_of_truth.csv"]
             inventory header rows 3).
    - reflexivity.
    - reflexivity.
    - by apply demo_header_has.
    - by repeat constructor.
    - reflexivity.
    - exact Hname.
    - done.
    - reflexivity.
Defined.

Lemma demo_output_wf (prot : list FS.path) :
    ∀ p es,
      OS.stat (env (state inventory prot)) "repo/output" = Some (p, FS.Dir es) →
      FS.wf_entries es.
Proof.
    intros p es H. vm_compute in H. injection H as <- <-. split.
    - apply (bool_decide_unpack _). by vm_compute.
    - by repeat constructor.
Qed.

Lemma cleanHydratedDirectory_frame_witness :
    (∀ p es,
       OS.stat (env (state inventory [])) "repo/output" = Some (p, FS.Dir es) →
       FS.wf_entries es) ∧
    FS.lookup (root (env (cleanHydratedDirectory "repo/output" (state inventory [])).2))
      ["repo"; "source_of_truth.csv"]
    = Some (FS.File inventory).
Proof.
    split; [apply demo_output_wf|].
    destruct (cleanHydratedDirectory_frame (state inventory []) "repo/output"
                (demo_output_wf [])) as (_ & _ & _ & _ & Hframe).
    change (OS.stat (env (state inventory [])) "repo/output")
      with (Some (["repo"; "output"],
                  FS.Dir [(".gitkeep", FS.File "");
                          ("c1.yaml", FS.File "old");
                          ("groupA", FS.Dir [("c3.yaml", FS.File "old")])])) in Hframe.
    rewrite (Hframe ["repo"; "source_of_truth.csv"]).
    - reflexivity.
    - intros [k Hk]. discriminate Hk.
    - intros [k Hk]. discriminate Hk.
Defined.

Lemma renderer_failure_ends_hydration_witness :
    (∀ stdout,
       (exec_Command unit Faults.broken hydrateCliBin
          (hydrateArgs "repo" "base_library/" "overlays/" "output" "source_of_truth.csv") ""
          (env (cleanHydratedDirectory "repo/output" (state inventory [])).2)).1
       ≠ Exited stdout) ∧
    (runHydrationCLI Faults.broken "repo" "base_library/" "overlays/" "repo" "output"
       "source_of_truth.csv" (state inventory [])).1
    = Err (ErrMsg ("error running command: exit status 1" +:+ String NL "boom")).
Proof.
    assert (∀ stdout,
              (exec_Command unit Faults.broken hydrateCliBin
                 (hydrateArgs "repo" "base_library/" "overlays/" "output"
                    "source_of_truth.csv") ""
                 (env (cleanHydratedDirectory "repo/output" (state inventory [])).2)).1
              ≠ Exited stdout) as Hfail by done.
    split; [exact Hfail|].
    rewrite (renderer_failure_ends_hydration Faults.broken "repo" "base_library/"
               "overlays/" "repo" "output" "source_of_truth.csv" (state inventory []) Hfail).
    reflexivity.
Defined.

Lemma determineParams_nonempty_fields_witness :
    determineParams Faults.parse_seconds Strings.Quote Faults.environment
    = Ok FromEnvironment.parameters ∧
    gitOutputBranch FromEnvironment.parameters ≠ "".
Proof.
    assert (determineParams Faults.parse_seconds Strings.Quote Faults.environment
            = Ok FromEnvironment.parameters) as Hp by reflexivity.
    split; [exact Hp|].
    destruct (determineParams_nonempty_fields Faults.parse_seconds Strings.Quote
                Faults.environment FromEnvironment.parameters Hp) as [Hne _].
    apply Forall_cons in Hne as [_ Hne]. apply Forall_cons in Hne as [_ Hne].
    apply Forall_cons in Hne as [_ Hne]. apply Forall_cons in Hne as [_ Hne].
    apply Forall_cons in Hne as [Hbranch _]. exact Hbranch.
Defined.

Lemma determineParams_first_missing_witness :
    find (fun k => String.eqb (Getenv Faults.environment_without_secret k) "") requiredKeys
    = Some gitSecretEnvKey ∧
    determineParams Faults.parse_seconds Strings.Quote Faults.environment_without_secret
    = Err (required gitSecretEnvKey).
Proof.
    split; [reflexivity|].
    apply (determineParams_first_missing Faults.parse_seconds Strings.Quote
             Faults.environment_without_secret gitSecretEnvKey).
    reflexivity.
Defined.

Lemma determineParams_tag_lists_witness :
    determineParams Faults.parse_seconds Strings.Quote Faults.environment
    = Ok FromEnvironment.parameters ∧
    Strings.Join (matchClustersHavingAnyListedTag FromEnvironment.parameters) ","
    = "tag1,tag2".
Proof.
    assert (determineParams Faults.parse_seconds Strings.Quote Faults.environment
            = Ok FromEnvironment.parameters) as Hp by reflexivity.
    split; [exact Hp|].
    destruct (determineParams_tag_lists Faults.parse_seconds Strings.Quote
                Faults.environment FromEnvironment.parameters Hp) as (_ & _ & Hany & _).
    exact Hany.
Defined.

Lemma environment_deploy_opens_pull_requests_witness :
    determineParams Faults.parse_seconds Strings.Quote Faults.environment
    = Ok (dparams FromEnvironment.deployer_) ∧
    ∃ evs,
      trace (deploy (collab true true) FromEnvironment.deployer_ (state inventory [])).2
      = trace (state inventory []) ++ evs ∧
      (count KOpenPR evs <= 1 * count KBatch evs)%nat.
Proof.
    assert (determineParams Faults.parse_seconds Strings.Quote Faults.environment
            = Ok (dparams FromEnvironment.deployer_)) as Hp by reflexivity.
    split; [exact Hp|].
    destruct (environment_deploy_opens_pull_requests (collab true true)
                Faults.parse_seconds Strings.Quote Faults.environment
                FromEnvironment.deployer_ (state inventory []) Hp)
      as (evs & Ht & Hle & _).
    exists evs. split; [exact Ht|exact Hle].
Defined.

Lemma cleanup_stops_at_first_failure_witness :
    (cleanHydratedDirectory "repo/output"
       (state inventory [["repo"; "output"; "c1.yaml"]])).1 ≠ Ok tt ∧
    ∃ pre k c c' rest e,
      [(".gitkeep", FS.File ""); ("c1.yaml", FS.File "old");
       ("groupA", FS.Dir [("c3.yaml", FS.File "old")])] = pre ++ (k, c) :: rest ∧
      k ≠ ".gitkeep" ∧
      (cleanHydratedDirectory "repo/output"
         (state inventory [["repo"; "output"; "c1.yaml"]])).1 = Err e ∧
      FS.lookup
        (root (env (cleanHydratedDirectory "repo/output"
                      (state inventory [["repo"; "output"; "c1.yaml"]])).2))
        ["repo"; "output"]
      = Some (FS.Dir (List.filter (fun kc => FS.sentinel kc.1) pre ++ (k, c') :: rest)).
Proof.
    assert ((cleanHydratedDirectory "repo/output"
               (state inventory [["repo"; "output"; "c1.yaml"]])).1 ≠ Ok tt) as Hfail
      by (by vm_compute).
    split; [exact Hfail|].
    apply (cleanup_stops_at_first_failure
             (state inventory [["repo"; "output"; "c1.yaml"]]) "repo/output"
             ["repo"; "output"]).
    - reflexivity.
    - by apply (demo_output_wf [["repo"; "output"; "c1.yaml"]] ["repo"; "output"]).
    - exact Hfail.
Defined.

Lemma featureBranchName_distinct_witness :
    (1 ≠ 2)%Z ∧
    featureBranchName (deployer_ repo_ref 2) 1 2 ≠ featureBranchName (deployer_ repo_ref 2) 2 2.
Proof.
    split; [done|]. by apply featureBranchName_distinct.
Defined.

Lemma determineParams_batch_size_witness :
    Strconv.Atoi (Getenv (Worlds.environment_with_batch_size "-3") hydrationBatchSizeEnvKey)
    = Some (-3)%Z ∧
    Strconv.Atoi (Getenv (Worlds.environment_with_batch_size "0") hydrationBatchSizeEnvKey)
    = Some 0%Z ∧
    (∃ p, determineParams Faults.parse_seconds Strings.Quote
            (Worlds.environment_with_batch_size "-3") = Ok p ∧
          hydrationBatchSize p = (-3)%Z) ∧
    (∃ p, determineParams Faults.parse_seconds Strings.Quote
            (Worlds.environment_with_batch_size "0") = Ok p ∧
          hydrationBatchSize p = 0%Z).
Proof.
    split; [reflexivity|]. split; [reflexivity|]. split.
    - destruct (determineParams_batch_size Faults.parse_seconds Strings.Quote
                  (Worlds.environment_with_batch_size "-3")) as (_ & Haccept & _).
      apply Haccept.
      + reflexivity.
      + reflexivity.
      + left. discriminate.
      + left. reflexivity.
      + intros prm [= <-]. discriminate.
    - destruct (determineParams_batch_size Faults.parse_seconds Strings.Quote
                  (Worlds.environment_with_batch_size "0")) as (_ & Haccept & _).
      apply Haccept.
      + reflexivity.
      + reflexivity.
      + left. discriminate.
      + left. reflexivity.
      + intros prm [= <-]. discriminate.
Defined.

Lemma determineParams_merge_switch_witness :
    determineParams Faults.parse_seconds Strings.Quote Faults.environment
    = Ok FromEnvironment.parameters ∧
    ∃ v, LookupEnv Faults.environment gitEnablePullRequestMergeEnvKey = Some v ∧
         v ∈ ["1"; "t"; "T"; "true"; "TRUE"; "True"].
Proof.
    assert (determineParams Faults.parse_seconds Strings.Quote Faults.environment
            = Ok FromEnvironment.parameters) as Hp by reflexivity.
    split; [exact Hp|].
    destruct (determineParams_merge_switch Faults.parse_seconds Strings.Quote
                Faults.environment) as [Hon _].
    apply (Hon FromEnvironment.parameters Hp). reflexivity.
Defined.

Lemma process_returns_the_upload_error_witness :
    (process (collab false false) (deployer_ repo_ref 2) (state inventory [])).1
    = Ok (Some (ErrMsg "error uploading failed deploy results: upload refused")).
Proof.
    pose proof (process_returns_the_upload_error (collab false false)
                  (deployer_ repo_ref 2) (state inventory [])) as H.
    change (deploy (collab false false) (deployer_ repo_ref 2) (state inventory []))
      with (Err (A:=DeployResult)
              (ErrMsg ("unable to access git secret: failed to access secret version "
                       +:+ "projects/p/secrets/s/versions/1: permission denied")),
            {| env := env (state inventory []); heap := 0;
               trace := [EvAccessSecretVersion "projects/p/secrets/s/versions/1"] |}) in H.
    destruct H as (_ & _ & Hret). rewrite Hret. reflexivity.
Defined.

End MoreWitnesses.

(** * One repository: every step once *)

Section AtMost.

Context {Ext : Type}.

Lemma latmost_of_tally {A} K (m : M Ext A) n b : tally K m n → latmost K m n b.
Proof.
    intros H st. destruct (H st) as (evs & Ht & Hle & _). exists evs. split; [done|lia].
Qed.

Lemma latmost_weaken {A} K (m : M Ext A) a a' b :
    latmost K m a' b → (a' <= a)%nat → latmost K m a b.
Proof.
    intros H Hle st. destruct (H st) as (evs & Ht & Hc). exists evs. split; [done|lia].
Qed.

Lemma latmost_bind {A B} K (m : M Ext A) (k : A → M Ext B) a1 a2 b :
    latmost K m a1 b → (∀ x, latmost K (k x) a2 b) → latmost K (bind m k) (a1 + a2) b.
Proof.
    intros Hm Hk st. unfold bind.
    destruct (Hm st) as (evs1 & Ht1 & Hle1).
    destruct (m st) as [[x|e|pn] st1]; cbn [fst snd] in *.
    - destruct (Hk x st1) as (evs2 & Ht2 & Hle2).
      exists (evs1 ++ evs2). rewrite Ht2, Ht1, app_assoc, !count_app.
      split; [done|nia].
    - exists evs1. split; [done|lia].
    - exists evs1. split; [done|lia].
Qed.

Lemma latmost_wrapErr {A} K prefix (m : M Ext A) a b :
    latmost K m a b → latmost K (wrapErr prefix m) a b.
Proof.
    intros Hm st. unfold wrapErr. destruct (Hm st) as (evs & Ht & Hle).
    exists evs. by destruct (m st) as [[x|e|pn] st1].
Qed.

Lemma latmost_ret {A} K (x : A) a b : latmost K (ret (Ext:=Ext) x) a b.
Proof. intros st. exists []. cbn. rewrite app_nil_r. split; [done|lia]. Qed.

End AtMost.

Section Pulls.

Context {Ext : Type} (C : Collaborators Ext).
Variable d : deployer.
Hypothesis Hrefs : gitSourceRepo (dparams d) = gitOutputRepo (dparams d).

  (** A branch is pulled at most once each time it is checked out. *)
Lemma latmost_checkoutAndPull repo branch b :
    latmost KPull (checkoutAndPull C repo branch) 1 b.
Proof.
    unfold checkoutAndPull, gitCall.
    eapply latmost_weaken;
      [eapply latmost_bind; [apply latmost_wrapErr, latmost_of_tally, tally_call|]|].
    { intros _.
      eapply latmost_bind; [apply latmost_wrapErr, latmost_of_tally, tally_call|].
      intros [ref|]; [|apply (latmost_ret _ _ 1)].
      eapply latmost_weaken;
        [eapply latmost_bind;
           [apply latmost_wrapErr, latmost_of_tally, tally_call
           |intros _; apply (latmost_ret _ _ 0)]|].
      cbn [kind_of kind_eqb]. lia. }
    cbn [kind_of kind_eqb]. lia.
Qed.

Lemma latmost_setupGitWorkspace secret repo branch b :
    latmost KPull (setupGitWorkspace C secret repo branch) 1 b.
Proof.
    unfold setupGitWorkspace, gitCall.
    eapply latmost_weaken;
      [eapply latmost_bind; [apply latmost_wrapErr, latmost_of_tally, tally_call|]|].
    { intros _.
      eapply latmost_bind; [apply latmost_wrapErr, latmost_of_tally, tally_call|].
      intros _. apply latmost_checkoutAndPull. }
    cbn [kind_of kind_eqb]. lia.
Qed.

Lemma latmost_resetGitWorkspace repo sourceBranch featureBranch b :
    latmost KPull (resetGitWorkspace C repo sourceBranch featureBranch) 2 b.
Proof.
    unfold resetGitWorkspace, gitCall.
    eapply latmost_weaken;
      [eapply latmost_bind; [apply latmost_wrapErr, latmost_of_tally, tally_call|]|].
    { intros _.
      eapply latmost_bind; [apply latmost_checkoutAndPull|].
      intros _. apply latmost_checkoutAndPull. }
    cbn [kind_of kind_eqb]. lia.
Qed.

Lemma latmost_batchSteps secret repo batch featureBranchName b :
    latmost KPull (batchSteps C d secret repo repo batch featureBranchName) 2 b.
Proof using Hrefs.
    unfold batchSteps. cbv zeta. rewrite Hrefs, String.eqb_refl, Nat.eqb_refl. cbn [negb].
    eapply latmost_weaken;
      [eapply latmost_bind; [apply latmost_wrapErr, latmost_resetGitWorkspace|]|].
    { intros _. rewrite bind_ret_l.
      eapply (latmost_of_tally _ _ 0). tally. }
    lia.
Qed.

Lemma latmost_processBatch secret repo clustersToUpdate numBatches i batchCounter :
    latmost KPull
      (processBatch C d secret repo repo clustersToUpdate numBatches i batchCounter) 0 2.
Proof using Hrefs.
    intros st. unfold processBatch. cbv zeta. unfold bind at 1, liftR.
    destruct (slice _ _ _) as [batch|e|pn].
    - unfold bind at 1, log.
      set (ev := EvProcessingBatch batch _).
      set (st1 := {| env := env st; heap := heap st; trace := trace st ++ [ev] |}).
      destruct (latmost_batchSteps secret repo batch
                  (featureBranchName d batchCounter numBatches) 0 st1)
        as (evs & Ht & Hle).
      exists ([ev] ++ evs). rewrite Ht. subst st1. cbn [trace].
      rewrite <- app_assoc. split; [done|].
      rewrite !count_app, !count_one. subst ev. cbn [kind_of kind_eqb]. lia.
    - exists []. cbn. rewrite app_nil_r. split; [done|lia].
    - exists []. cbn. rewrite app_nil_r. split; [done|lia].
Qed.

Lemma latmost_batchLoop fuel secret repo clustersToUpdate batchSize numBatches :
    ∀ i batchCounter,
      latmost KPull
        (batchLoop C d fuel secret repo repo clustersToUpdate batchSize numBatches i
           batchCounter) 0 2.
Proof using Hrefs.
    induction fuel as [|fuel IH]; intros i batchCounter; cbn [batchLoop].
    - destruct (Z.ltb _ _).
      + intros st. exists []. cbn. rewrite app_nil_r. split; [done|lia].
      + apply latmost_ret.
    - destruct (Z.ltb _ _); [|apply latmost_ret].
      change 0%nat with (0 + 0)%nat. eapply latmost_bind.
      + apply latmost_processBatch.
      + intros _. apply IH.
Qed.

Lemma latmost_deploy : latmost KPull (deploy C d) 1 2.
Proof using Hrefs.
    unfold deploy. cbv zeta. rewrite Hrefs, String.eqb_refl. cbn [negb].
    eapply latmost_weaken;
      [eapply latmost_bind;
         [apply latmost_wrapErr, (latmost_of_tally _ _ 0), tally_accessSecretVersion; done|]|].
    { intros secret.
      eapply latmost_bind; [apply (latmost_of_tally _ _ 0), tally_liftR|].
      intros [[h o] name].
      eapply latmost_bind; [apply (latmost_of_tally _ _ 0), tally_newGitRepository|].
      intros srcRepo.
      eapply latmost_bind; [apply latmost_wrapErr, latmost_setupGitWorkspace|].
      intros _. rewrite bind_ret_l.
      eapply latmost_bind;
        [apply latmost_wrapErr, (latmost_of_tally _ _ 0), tally_determineClustersToUpdate;
         done|].
      intros clusters.
      eapply latmost_bind; [apply latmost_batchLoop|].
      intros _. eapply (latmost_of_tally _ _ 0). tally. }
    lia.
Qed.

Lemma count_batch_events evs : count KBatch evs = length (batch_events evs).
Proof. reflexivity. Qed.

Lemma tally_quiet {A} (m : M Ext A) st a st' :
    tally KBatch m 0 → m st = (Ok a, st') →
    ∃ evs, trace st' = trace st ++ evs ∧ count KBatch evs = 0%nat.
Proof.
    intros H Hrun. destruct (H st) as (evs & Ht & Hle & _). rewrite Hrun in Ht.
    exists evs. split; [done|lia].
Qed.

  (** The steps of a deploy that returns a result, when the workspace of
      the source is the workspace of the output. *)
Lemma deploy_Ok_same st r st' :
    deploy C d st = (Ok r, st') →
    ∃ secret st1 h o name st2 clusters st3 st4,
      accessSecretVersion C (gitSecret (dparams d)) st = (Ok secret, st1) ∧
      Strings.Split Strings.SLASH (gitSourceRepo (dparams d)) = [h; o; name] ∧
      setupGitWorkspace C secret
        {| addr := heap st1; hostname := h; owner := o; repoName := name;
           email := gitEmail (dparams d); username := gitUsername (dparams d) |}
        (gitSourceBranch (dparams d))
        {| env := env st1; heap := S (heap st1); trace := trace st1 |} = (Ok tt, st2) ∧
      determineClustersToUpdate C name (hydrationSourceOfTruth (dparams d))
        (hydrationClusterGroup (dparams d)) (matchClustersHavingAnyListedTag (dparams d))
        (matchClustersHavingAllListedTags (dparams d)) st2 = (Ok clusters, st3) ∧
      batchLoop C d (S (length clusters)) secret
        {| addr := heap st1; hostname := h; owner := o; repoName := name;
           email := gitEmail (dparams d); username := gitUsername (dparams d) |}
        {| addr := heap st1; hostname := h; owner := o; repoName := name;
           email := gitEmail (dparams d); username := gitUsername (dparams d) |}
        clusters
        (if (0 <? hydrationBatchSize (dparams d))%Z then hydrationBatchSize (dparams d)
         else Z.of_nat (length clusters))
        (ceil_quot (Z.of_nat (length clusters))
           (if (0 <? hydrationBatchSize (dparams d))%Z then hydrationBatchSize (dparams d)
            else Z.of_nat (length clusters)))
        0 1 st3 = (Ok tt, st4) ∧
      trace st' = trace st4 ++ [EvUploadArtifact "source_of_truth.csv"
                                  (Filepath.Join name (hydrationSourceOfTruth (dparams d)))].
Proof using Hrefs.
    intros H. unfold deploy in H. cbv zeta in H.
    rewrite <- Hrefs, String.eqb_refl in H. cbn [negb] in H.
    apply bind_Ok_inv in H as (secret & st1 & Hsecret & H).
    apply wrapErr_Ok_inv in Hsecret.
    apply bind_Ok_inv in H as ([[h o] name] & st1' & Hsplit & H).
    unfold liftR in Hsplit. injection Hsplit as Hsplit <-.
    apply splitRepoRef_Ok in Hsplit.
    apply bind_Ok_inv in H as (srcRepo & st1' & Hnew & H).
    unfold newGitRepository in Hnew. injection Hnew as <- <-.
    apply bind_Ok_inv in H as ([] & st2 & Hsetup & H).
    apply wrapErr_Ok_inv in Hsetup.
    rewrite bind_ret_l in H.
    apply bind_Ok_inv in H as (clusters & st3 & Hsel & H).
    apply wrapErr_Ok_inv in Hsel.
    apply bind_Ok_inv in H as ([] & st4 & Hloop & H).
    apply bind_Ok_inv in H as (uri & st5 & Hup & H).
    apply wrapErr_Ok_inv in Hup. unfold ret in H. injection H as <- <-.
    unfold call in Hup.
    destruct (req_UploadArtifact Ext C _ _ (env st4)) as [[e|uri'] world]; [done|].
    injection Hup as <- <-.
    exists secret, st1, h, o, name, st2, clusters, st3, st4.
    repeat (split; [done|]). reflexivity.
Qed.

  (** C7: with one repository for source and output, a deploy sets the
      workspace up once, and in every batch it resets the workspace once,
      checks the diff once, commits and pushes once and handles the pull
      request once, where the setup is a clone, a config and the step onto
      the source branch (a checkout, a branch check and at most one pull),
      the reset a config and the steps onto the source branch and onto the
      feature branch, the commit-and-push an add, a commit and a push, and
      the handling of the pull request, for a destination branch that is
      not empty, the creation of the provider, the opening of the pull
      request and, when merging is enabled, its merge. In a run with [n]
      batch lines every one of these calls is made at most as often as one
      setup and [n] batches make it, and exactly as often when the run ends
      without error. A run that ends without error has read the secret, set
      up the one workspace, selected the clusters and run the batch loop
      with this workspace for source and output, each once and in the state
      the one before has left, and [n] is the number of batches of the
      selection. The same counts hold of each batch taken alone. *)
Theorem C7_same_repository_steps_once st :
    let p := dparams d in
    let pr := fun n : nat => if String.eqb (gitOutputBranch p) "" then 0%nat else n in
    let merge := fun n : nat => if enablePullRequestMerge p then pr n else 0%nat in
    (∃ evs,
       trace (deploy C d st).2 = trace st ++ evs ∧
       let n := count KBatch evs in
       ((count KClone evs <= 1)%nat ∧ (count KConfig evs <= 1 + n)%nat ∧
        (count KCheckout evs <= 1 + 2 * n)%nat ∧ (count KExists evs <= 1 + 2 * n)%nat ∧
        (count KPull evs <= 1 + 2 * n)%nat ∧
        (count KDiff evs <= n)%nat ∧ (count KAdd evs <= n)%nat ∧
        (count KCommit evs <= n)%nat ∧ (count KPush evs <= n)%nat ∧
        (count KCreateProvider evs <= pr n)%nat ∧ (count KOpenPR evs <= pr n)%nat ∧
        (count KMerge evs <= merge n)%nat) ∧
       (is_Ok (deploy C d st).1 →
        count KClone evs = 1%nat ∧ count KConfig evs = (1 + n)%nat ∧
        count KCheckout evs = (1 + 2 * n)%nat ∧ count KExists evs = (1 + 2 * n)%nat ∧
        count KDiff evs = n ∧ count KAdd evs = n ∧
        count KCommit evs = n ∧ count KPush evs = n ∧
        count KCreateProvider evs = pr n ∧ count KOpenPR evs = pr n ∧
        count KMerge evs = merge n) ∧
       (∀ r st', deploy C d st = (Ok r, st') →
          ∃ secret st1 h o name st2 clusters st3 st4,
            accessSecretVersion C (gitSecret p) st = (Ok secret, st1) ∧
            Strings.Split Strings.SLASH (gitSourceRepo p) = [h; o; name] ∧
            let repo := {| addr := heap st1; hostname := h; owner := o; repoName := name;
                           email := gitEmail p; username := gitUsername p |} in
            setupGitWorkspace C secret repo (gitSourceBranch p)
              {| env := env st1; heap := S (heap st1); trace := trace st1 |}
            = (Ok tt, st2) ∧
            determineClustersToUpdate C name (hydrationSourceOfTruth p)
              (hydrationClusterGroup p) (matchClustersHavingAnyListedTag p)
              (matchClustersHavingAllListedTags p) st2 = (Ok clusters, st3) ∧
            (let len := Z.of_nat (length clusters) in
             let batchSize :=
               if (0 <? hydrationBatchSize p)%Z then hydrationBatchSize p else len in
             batchLoop C d (S (length clusters)) secret repo repo clusters batchSize
               (ceil_quot len batchSize) 0 1 st3 = (Ok tt, st4)) ∧
            trace st' = trace st4 ++ [EvUploadArtifact "source_of_truth.csv"
                                        (Filepath.Join name (hydrationSourceOfTruth p))] ∧
            ((0 < hydrationBatchSize p)%Z →
             (Z.of_nat (length clusters) + hydrationBatchSize p < 2 ^ 63)%Z →
             Z.of_nat n = ceil_quot (Z.of_nat (length clusters)) (hydrationBatchSize p)))) ∧
    (∀ secret repo clustersToUpdate numBatches i batchCounter st1,
       let batch :=
         processBatch C d secret repo repo clustersToUpdate numBatches i batchCounter st1 in
       ∃ evs,
         trace batch.2 = trace st1 ++ evs ∧
         ((count KBatch evs <= 1)%nat ∧ (count KConfig evs <= 1)%nat ∧
          (count KCheckout evs <= 2)%nat ∧ (count KExists evs <= 2)%nat ∧
          (count KPull evs <= 2)%nat ∧
          (count KDiff evs <= 1)%nat ∧ (count KAdd evs <= 1)%nat ∧
          (count KCommit evs <= 1)%nat ∧ (count KPush evs <= 1)%nat ∧
          (count KCreateProvider evs <= pr 1%nat)%nat ∧ (count KOpenPR evs <= pr 1%nat)%nat ∧
          (count KMerge evs <= merge 1%nat)%nat ∧ count KClone evs = 0%nat) ∧
         (is_Ok batch.1 →
          count KBatch evs = 1%nat ∧ count KConfig evs = 1%nat ∧
          count KCheckout evs = 2%nat ∧ count KExists evs = 2%nat ∧
          count KDiff evs = 1%nat ∧ count KAdd evs = 1%nat ∧
          count KCommit evs = 1%nat ∧ count KPush evs = 1%nat ∧
          count KCreateProvider evs = pr 1%nat ∧ count KOpenPR evs = pr 1%nat ∧
          count KMerge evs = merge 1%nat)).
Proof using Hrefs.
    intros p pr merge. split.
    - destruct (ltally_deploy C d Hrefs KClone ltac:(done) ltac:(done) st) as (evs & Ht & _).
      exists evs. split; [done|]. intros n.
      pose proof (λ K HK HP, ltally_run K _ _ _ st evs (ltally_deploy C d Hrefs K HK HP) Ht)
        as H.
      destruct (H KClone ltac:(done) ltac:(done)) as [HcloneL HcloneE].
      destruct (H KConfig ltac:(done) ltac:(done)) as [HconfigL HconfigE].
      destruct (H KCheckout ltac:(done) ltac:(done)) as [HcheckoutL HcheckoutE].
      destruct (H KExists ltac:(done) ltac:(done)) as [HexistsL HexistsE].
      destruct (H KDiff ltac:(done) ltac:(done)) as [HdiffL HdiffE].
      destruct (H KAdd ltac:(done) ltac:(done)) as [HaddL HaddE].
      destruct (H KCommit ltac:(done) ltac:(done)) as [HcommitL HcommitE].
      destruct (H KPush ltac:(done) ltac:(done)) as [HpushL HpushE].
      destruct (H KCreateProvider ltac:(done) ltac:(done)) as [HcreateL HcreateE].
      destruct (H KOpenPR ltac:(done) ltac:(done)) as [HprL HprE].
      destruct (H KMerge ltac:(done) ltac:(done)) as [HmergeL HmergeE].
      clear H.
      assert (count KPull evs <= 1 + 2 * n)%nat as HpullL.
      { destruct (latmost_deploy st) as (evs' & Ht' & Hle).
        assert (evs' = evs) as -> by (apply (app_inv_head (trace st)); congruence).
        done. }
      cbn [setup_calls per_batch] in *.
      fold p in HcreateL, HcreateE, HprL, HprE, HmergeL, HmergeE.
      fold n in HcloneL, HcloneE, HconfigL, HconfigE, HcheckoutL, HcheckoutE,
        HexistsL, HexistsE, HdiffL, HdiffE, HaddL, HaddE, HcommitL, HcommitE,
        HpushL, HpushE, HcreateL, HcreateE, HprL, HprE, HmergeL, HmergeE.
      split; [|split].
      + subst pr merge. cbv beta.
        destruct (String.eqb (gitOutputBranch p) ""), (enablePullRequestMerge p);
          repeat split; lia.
      + intros Hok. specialize (HcloneE Hok). specialize (HconfigE Hok).
        specialize (HcheckoutE Hok). specialize (HexistsE Hok).
        specialize (HdiffE Hok). specialize (HaddE Hok). specialize (HcommitE Hok).
        specialize (HpushE Hok). specialize (HcreateE Hok). specialize (HprE Hok).
        specialize (HmergeE Hok).
        subst pr merge. cbv beta.
        destruct (String.eqb (gitOutputBranch p) ""), (enablePullRequestMerge p);
          repeat split; lia.
      + intros r st' Hrun. subst pr merge p.
        destruct (deploy_Ok_same st r st' Hrun)
          as (secret & st1 & h & o & name & st2 & clusters & st4 & st5
              & Hsecret & Hsplit & Hsetup & Hsel & Hloop & Htrace).
        exists secret, st1, h, o, name, st2, clusters, st4, st5.
        split; [done|]. split; [done|]. cbv zeta. split; [done|]. split; [done|].
        split; [done|]. split; [done|].
        intros HB Hint.
        destruct (tally_quiet _ _ _ _
                    (tally_accessSecretVersion C KBatch (gitSecret (dparams d)) ltac:(done))
                    Hsecret)
          as (evs1 & Ht1 & Hq1).
        destruct (tally_quiet _ _ _ _
                    (tally_setupGitWorkspace C KBatch secret _ (gitSourceBranch (dparams d))
                       ltac:(done) ltac:(done)) Hsetup)
          as (evs2 & Ht2 & Hq2).
        destruct (tally_quiet _ _ _ _
                    (tally_determineClustersToUpdate C KBatch name _ _ _ _ ltac:(done)) Hsel)
          as (evs3 & Ht3 & Hq3).
        cbn [trace] in Ht2.
        apply Z.ltb_lt in HB as HB'. rewrite HB' in Hloop.
        destruct (batchLoop_lines C d secret
                    {| addr := heap st1; hostname := h; owner := o; repoName := name;
                       email := gitEmail (dparams d); username := gitUsername (dparams d) |}
                    {| addr := heap st1; hostname := h; owner := o; repoName := name;
                       email := gitEmail (dparams d); username := gitUsername (dparams d) |}
                    clusters HB Hint
                    (ceil_quot (Z.of_nat (length clusters))
                       (hydrationBatchSize (dparams d)))
                    (S (length clusters)) 1 st4)
          as (m & evs4 & Ht4 & Hlines & _ & Hall); [lia|lia|lia|].
        change ((1 - 1) * hydrationBatchSize (dparams d))%Z with 0%Z in Ht4, Hall.
        rewrite Hloop in Ht4, Hall. cbn [fst snd] in Ht4, Hall.
        specialize (Hall I).
        assert (evs = evs1 ++ evs2 ++ evs3 ++ evs4
                      ++ [EvUploadArtifact "source_of_truth.csv"
                            (Filepath.Join name (hydrationSourceOfTruth (dparams d)))])
          as Hevs.
        { apply (app_inv_head (trace st)). rewrite <- Ht. rewrite Hrun. cbn [snd].
          rewrite Htrace, Ht4, Ht3, Ht2, Ht1. by rewrite <- !app_assoc. }
        subst n. rewrite Hevs, !count_app, Hq1, Hq2, Hq3.
        rewrite (count_batch_events evs4), Hlines, batch_lines_length.
        change (count KBatch [EvUploadArtifact _ _]) with 0%nat. lia.
    - intros secret repo clustersToUpdate numBatches i batchCounter st1 batch.
      destruct (tally_processBatch C d KBatch secret repo clustersToUpdate numBatches i
                  batchCounter Hrefs ltac:(done) ltac:(done) st1) as (evs & Ht & _).
      exists evs. split; [done|].
      pose proof (λ K HK HP, tally_run K _ _ st1 evs
                    (tally_processBatch C d K secret repo clustersToUpdate numBatches i
                       batchCounter Hrefs HK HP) Ht) as H.
      destruct (H KBatch ltac:(done) ltac:(done)) as [HbatchL HbatchE].
      destruct (H KClone ltac:(done) ltac:(done)) as [HcloneL HcloneE].
      destruct (H KConfig ltac:(done) ltac:(done)) as [HconfigL HconfigE].
      destruct (H KCheckout ltac:(done) ltac:(done)) as [HcheckoutL HcheckoutE].
      destruct (H KExists ltac:(done) ltac:(done)) as [HexistsL HexistsE].
      destruct (H KDiff ltac:(done) ltac:(done)) as [HdiffL HdiffE].
      destruct (H KAdd ltac:(done) ltac:(done)) as [HaddL HaddE].
      destruct (H KCommit ltac:(done) ltac:(done)) as [HcommitL HcommitE].
      destruct (H KPush ltac:(done) ltac:(done)) as [HpushL HpushE].
      destruct (H KCreateProvider ltac:(done) ltac:(done)) as [HcreateL HcreateE].
      destruct (H KOpenPR ltac:(done) ltac:(done)) as [HprL HprE].
      destruct (H KMerge ltac:(done) ltac:(done)) as [HmergeL HmergeE].
      clear H.
      assert (count KPull evs <= 2)%nat as HpullL.
      { destruct (latmost_processBatch secret repo clustersToUpdate numBatches i
                    batchCounter st1) as (evs' & Ht' & Hle).
        assert (evs' = evs) as -> by (apply (app_inv_head (trace st1)); congruence).
        cbn [per_batch] in HbatchL. lia. }
      cbn [per_batch] in *.
      fold p in HcreateL, HcreateE, HprL, HprE, HmergeL, HmergeE.
      split.
      + subst pr merge. cbv beta.
        destruct (String.eqb (gitOutputBranch p) ""), (enablePullRequestMerge p);
          repeat split; lia.
      + intros Hok. fold batch in HbatchE, HconfigE, HcheckoutE, HexistsE, HdiffE, HaddE,
          HcommitE, HpushE, HcreateE, HprE, HmergeE.
        specialize (HbatchE Hok). specialize (HconfigE Hok).
        specialize (HcheckoutE Hok). specialize (HexistsE Hok).
        specialize (HdiffE Hok). specialize (HaddE Hok). specialize (HcommitE Hok).
        specialize (HpushE Hok). specialize (HcreateE Hok). specialize (HprE Hok).
        specialize (HmergeE Hok).
        subst pr merge. cbv beta.
        destruct (String.eqb (gitOutputBranch p) ""), (enablePullRequestMerge p);
          repeat split; lia.
Qed.

End Pulls.

(** * The steps of a deploy in worlds that fail, number and quote *)

Section StepWitnesses.

Import Demo.

Lemma C7_witness :
    gitSourceRepo (dparams FromEnvironment.deployer_)
    = gitOutputRepo (dparams FromEnvironment.deployer_) ∧
    is_Ok (deploy (Worlds.failing Worlds.none) FromEnvironment.deployer_
             (state inventory [])).1 ∧
    (determineClustersToUpdate (Worlds.failing Worlds.none) "repo" "source_of_truth.csv"
       "groupA" ["tag1"; "tag2"] []
       (setupGitWorkspace (Worlds.failing Worlds.none) "token" repository "main"
          {| env := env (state inventory []); heap := 1; trace := [] |}).2).1
    = Ok ["c1"; "c3"; "c4"] ∧
    ∃ evs,
      trace (deploy (Worlds.failing Worlds.none) FromEnvironment.deployer_
               (state inventory [])).2 = trace (state inventory []) ++ evs ∧
      Z.of_nat (count KBatch evs) = ceil_quot 3 2 ∧ count KBatch evs = 2%nat ∧
      count KClone evs = 1%nat ∧ count KConfig evs = 3%nat ∧
      count KCheckout evs = 5%nat ∧ count KExists evs = 5%nat ∧
      count KPull evs = 3%nat ∧
      count KDiff evs = 2%nat ∧ count KAdd evs = 2%nat ∧
      count KCommit evs = 2%nat ∧ count KPush evs = 2%nat ∧
      count KCreateProvider evs = 2%nat ∧ count KOpenPR evs = 2%nat ∧
      count KMerge evs = 2%nat.
Proof.
    split; [reflexivity|].
    assert (is_Ok (deploy (Worlds.failing Worlds.none) FromEnvironment.deployer_
                     (state inventory [])).1) as Hok by (vm_compute; exact I).
    split; [exact Hok|]. split; [vm_compute; reflexivity|].
    destruct (C7_same_repository_steps_once (Worlds.failing Worlds.none)
                FromEnvironment.deployer_ eq_refl (state inventory []))
      as [(evs & Ht & Hle & Heq & Htie) _].
    exists evs. split; [exact Ht|].
    assert (evs = trace (deploy (Worlds.failing Worlds.none) FromEnvironment.deployer_
                           (state inventory [])).2) as Hevs by (rewrite Ht; reflexivity).
    assert (Z.of_nat (count KBatch evs) = ceil_quot 3 2) as Hn.
    { destruct (deploy (Worlds.failing Worlds.none) FromEnvironment.deployer_
                  (state inventory [])) as [[r|e|pn] st'] eqn:Hrun;
        [|destruct Hok|destruct Hok].
      destruct (Htie r st' eq_refl)
        as (secret & st1 & h & o & name & st2 & clusters & st3 & st4
            & Hsecret & Hsplit & Hsetup & Hsel & _ & _ & Hbatches).
      vm_compute in Hsecret. injection Hsecret as <- <-.
      vm_compute in Hsplit. injection Hsplit as <- <- <-.
      vm_compute in Hsetup. injection Hsetup as <-.
      vm_compute in Hsel. injection Hsel as <- _.
      apply Hbatches; reflexivity. }
    assert (count KBatch evs = 2%nat) as Hn2.
    { apply Nat2Z.inj. rewrite Hn. reflexivity. }
    cbv zeta in Heq. rewrite Hn2 in Heq.
    destruct (Heq Hok) as (Hclone & Hconfig & Hcheckout & Hexists & Hdiff & Hadd & Hcommit
                           & Hpush & Hcreate & Hopen & Hmerge).
    split; [exact Hn|]. split; [exact Hn2|].
    split; [exact Hclone|]. split; [exact Hconfig|]. split; [exact Hcheckout|].
    split; [exact Hexists|]. split; [rewrite Hevs; vm_compute; reflexivity|].
    split; [exact Hdiff|]. split; [exact Hadd|]. split; [exact Hcommit|].
    split; [exact Hpush|]. split; [exact Hcreate|]. split; [exact Hopen|exact Hmerge].
Defined.

  (** C6, as it was stated: the writer of [encoding/csv] puts a field that
      begins with a space in quotes, so that a row that is not in the list
      does not keep its bytes. *)
Lemma C6_counterexample :
    csv_ReadAll unit Worlds.quoting Worlds.spaced_inventory
    = inr (header :: Worlds.spaced_rows) ∧
    InventorySpec.targeted header ["c1"] ["c2"; " groupB"; "tag1"; "p0"; "w0"] = false ∧
    (updatePlatformAndWorkloadRepositoryRevision Worlds.quoting "repo" ["c1"]
       "source_of_truth.csv" "p1" "" (state Worlds.spaced_inventory [])).1 = Ok tt ∧
    FS.lookup
      (root (env (updatePlatformAndWorkloadRepositoryRevision Worlds.quoting "repo" ["c1"]
                    "source_of_truth.csv" "p1" "" (state Worlds.spaced_inventory [])).2))
      ["repo"; "source_of_truth.csv"]
    = Some (FS.File
              ("cluster_name,cluster_group,cluster_tags,platform_repository_revision,workload_repository_revision"
               +:+ String NL ("c1,groupA,tag1,p1,w0"
               +:+ String NL ("c2," +:+ Strings.Quote " groupB" +:+ ",tag1,p0,w0"
               +:+ String NL "")))) ∧
    nth 2 (Strings.Split NL Worlds.spaced_inventory) "" = "c2, groupB,tag1,p0,w0" ∧
    "c2," +:+ Strings.Quote " groupB" +:+ ",tag1,p0,w0" ≠ "c2, groupB,tag1,p0,w0".
Proof.
    split; [vm_compute; reflexivity|]. split; [vm_compute; reflexivity|].
    split; [vm_compute; reflexivity|]. split; [vm_compute; reflexivity|].
    split; [vm_compute; reflexivity|]. discriminate.
Qed.

Lemma accessSecretVersion_checked_witness :
    (accessSecretVersion Faults.unchecked "sv" (state inventory [])).1
    = Panic nil_pointer_dereference ∧
    (accessSecretVersion Faults.empty_reply "sv" (state inventory [])).1
    = Panic nil_pointer_dereference ∧
    (accessSecretVersion (collab true true) "sv" (state inventory [])).1 = Ok "token".
Proof.
    split; [|split].
    - destruct (accessSecretVersion_checked Faults.unchecked "sv" (state inventory []))
        as (_ & _ & _ & _ & Hpanic & _).
      apply Hpanic. split; [reflexivity|]. right. by exists "token".
    - destruct (accessSecretVersion_checked Faults.empty_reply "sv" (state inventory []))
        as (_ & _ & _ & _ & Hpanic & _).
      apply Hpanic. split; [reflexivity|]. by left.
    - destruct (accessSecretVersion_checked (collab true true) "sv" (state inventory []))
        as (_ & _ & _ & Hdata & _).
      apply Hdata. reflexivity.
Defined.

Lemma setupGitWorkspace_commands_witness :
    setupGitWorkspace (Worlds.failing Worlds.is_config) "token" repository "main"
      (state inventory [])
    = (Err (ErrMsg "failed setting up the git config in the git repository: exit status 1"),
       after_git (state inventory []) repository [cloneRepo "token"; config]
         (env (state inventory []))) ∧
    setupGitWorkspace (Worlds.failing Worlds.none) "token" repository "main"
      (state inventory [])
    = (Ok tt,
       after_git (state inventory []) repository
         [cloneRepo "token"; config; checkoutBranch "main"; checkIfExists "main"; pull "main"]
         (env (state inventory []))) ∧
    setupGitWorkspace (Worlds.failing Worlds.none) "token" repository "topic"
      (state inventory [])
    = (Ok tt,
       after_git (state inventory []) repository
         [cloneRepo "token"; config; checkoutBranch "topic"; checkIfExists "topic"]
         (env (state inventory []))).
Proof.
    split; [|split].
    - destruct (setupGitWorkspace_commands (Worlds.failing Worlds.is_config) "token"
                  repository "main" (state inventory [])) as (_ & Hconfig & _).
      exact (Hconfig (Some "") (ErrMsg "exit status 1") eq_refl eq_refl).
    - destruct (setupGitWorkspace_commands (Worlds.failing Worlds.none) "token"
                  repository "main" (state inventory [])) as (_ & _ & Hbranch & _).
      exact (Hbranch (Some "") (Some "") eq_refl eq_refl).
    - destruct (setupGitWorkspace_commands (Worlds.failing Worlds.none) "token"
                  repository "topic" (state inventory [])) as (_ & _ & Hbranch & _).
      exact (Hbranch (Some "") (Some "") eq_refl eq_refl).
Defined.

Lemma resetGitWorkspace_commands_witness :
    resetGitWorkspace (Worlds.failing Worlds.is_pull) repository "main" "topic"
      (state inventory [])
    = (Err (ErrMsg "unable to pull branch main: exit status 1"),
       after_git (state inventory []) repository
         [config; checkoutBranch "main"; checkIfExists "main"; pull "main"]
         (env (state inventory []))) ∧
    resetGitWorkspace (Worlds.failing Worlds.none) repository "main" "topic"
      (state inventory [])
    = (Ok tt,
       after_git (state inventory []) repository
         [config; checkoutBranch "main"; checkIfExists "main"; pull "main";
          checkoutBranch "topic"; checkIfExists "topic"]
         (env (state inventory []))).
Proof.
    split.
    - destruct (resetGitWorkspace_commands (Worlds.failing Worlds.is_pull) repository
                  "main" "topic" (state inventory [])) as (_ & Hsteps & _).
      exact (Hsteps (Some "") eq_refl).
    - destruct (resetGitWorkspace_commands (Worlds.failing Worlds.none) repository
                  "main" "topic" (state inventory [])) as (_ & Hsteps & _).
      exact (Hsteps (Some "") eq_refl).
Defined.

Lemma commitPushGitWorkspace_commands_witness :
    commitPushGitWorkspace (Worlds.failing Worlds.is_commit) (deployer_ repo_ref 2)
      repository "topic" (state inventory [])
    = (Err (ErrMsg "unable to git commit changes: exit status 1"),
       after_git (state inventory []) repository
         [add; commit "Delivery Pipeline: pipe Release: rel Rollout: rollout-1"]
         (env (state inventory []))) ∧
    commitPushGitWorkspace (Worlds.failing Worlds.none) (deployer_ repo_ref 2)
      repository "topic" (state inventory [])
    = (Ok tt,
       after_git (state inventory []) repository
         [add; commit "Delivery Pipeline: pipe Release: rel Rollout: rollout-1";
          push "topic"]
         (env (state inventory []))).
Proof.
    split.
    - destruct (commitPushGitWorkspace_commands (Worlds.failing Worlds.is_commit)
                  (deployer_ repo_ref 2) repository "topic" (state inventory []))
        as (_ & Hcommit & _).
      exact (Hcommit (Some "") (ErrMsg "exit status 1") eq_refl eq_refl).
    - destruct (commitPushGitWorkspace_commands (Worlds.failing Worlds.none)
                  (deployer_ repo_ref 2) repository "topic" (state inventory []))
        as (_ & _ & Hpush).
      exact (Hpush (Some "") (Some "") eq_refl eq_refl).
Defined.

Lemma handleDestinationBranch_calls_witness :
    "main" ≠ "" ∧
    (handleDestinationBranch Worlds.no_provider FromEnvironment.deployer_ repository
       "token" "topic" "main" (state inventory [])).1
    = Err (ErrMsg "unable to create git provider: unknown host") ∧
    trace (handleDestinationBranch Worlds.no_provider FromEnvironment.deployer_ repository
             "token" "topic" "main" (state inventory [])).2
    = [EvCreateProvider "github.com" "repo" "acme"] ∧
    (handleDestinationBranch Worlds.numbering FromEnvironment.deployer_ repository
       "token" "topic" "main" (Worlds.state_numbered 41)).1 = Ok tt ∧
    trace (handleDestinationBranch Worlds.numbering FromEnvironment.deployer_ repository
             "token" "topic" "main" (Worlds.state_numbered 41)).2
    = [EvCreateProvider "github.com" "repo" "acme";
       EvOpenPullRequest "topic" "main" "[Rollout Manager]: topic"
         (pull_request_body FromEnvironment.deployer_);
       EvMergePullRequest 41] ∧
    ext (env (handleDestinationBranch Worlds.numbering FromEnvironment.deployer_ repository
                "token" "topic" "main" (Worlds.state_numbered 41)).2) = 42%Z.
Proof.
    assert ("main" ≠ "") as Hne by discriminate.
    split; [exact Hne|].
    destruct (handleDestinationBranch_calls Worlds.no_provider FromEnvironment.deployer_
                repository "token" "topic" "main" (state inventory [])) as [_ Hcalls].
    destruct (Hcalls Hne) as (Hcreate & _).
    rewrite (Hcreate (ErrMsg "unknown host") eq_refl).
    split; [reflexivity|]. split; [reflexivity|].
    destruct (handleDestinationBranch_calls Worlds.numbering FromEnvironment.deployer_
                repository "token" "topic" "main" (Worlds.state_numbered 41))
      as [_ Hcalls'].
    destruct (Hcalls' Hne) as (_ & _ & Hmerge).
    pose proof (Hmerge 41%Z eq_refl eq_refl) as Hrun. cbn [FromEnvironment.deployer_
      FromEnvironment.parameters dparams enablePullRequestMerge] in Hrun.
    cbv zeta in Hrun. rewrite Hrun.
    split; [reflexivity|]. split; [reflexivity|reflexivity].
Defined.

Lemma deploy_success_result_witness :
    ∃ r st',
      deploy (collab true true) (deployer_ repo_ref 2) (state inventory []) = (Ok r, st') ∧
      r = {| ResultStatus := DeploySucceeded; FailureMessage := "";
             ArtifactFiles := ["gs://bucket/source_of_truth.csv"];
             Metadata := metadata (collab true true) |} ∧
      ∃ before,
        trace st' = before ++ [EvUploadArtifact "source_of_truth.csv"
                                 "repo/source_of_truth.csv"].
Proof.
    assert (is_Ok (deploy (collab true true) (deployer_ repo_ref 2)
                     (state inventory [])).1) as Hok by (vm_compute; exact I).
    destruct (deploy (collab true true) (deployer_ repo_ref 2) (state inventory []))
      as [[r|e|pn] st'] eqn:Hrun; [|destruct Hok|destruct Hok].
    exists r, st'. split; [reflexivity|].
    destruct (deploy_success_result (collab true true) (deployer_ repo_ref 2)
                (state inventory []) r st' Hrun)
      as (secret & st1 & h & o & name & st2 & outRepo & st3 & clusters & st4 & st5 & uri
          & _ & Hsplit & _ & _ & _ & _ & Hup & _ & Htrace & Hr).
    injection Hsplit as <- <- <-.
    injection Hup as <- _.
    split; [exact Hr|]. exists (trace st5). exact Htrace.
Defined.

End StepWitnesses.
